(** * ArbitraX matching core: a shallow embedding and its properties

    The development follows the Go sources of the matching core:

    - [models]     : [Order] (with [Fill]) and [Trade];
    - [orderbook]  : [PriceLevel], [PriceLevelHeap] (a [container/heap]
                     client) and [OrderBook];
    - [matching]   : [MatchingEngine] with [SubmitOrder],
                     [matchMarketOrder], [matchLimitOrder] and
                     [GetRecentTrades];
    - [cmd/api]    : the request handlers [submitOrder], [getOrderBook]
                     and [getTrades].

    Modelling conventions.

    - Prices and quantities are [float64] in Go.  In the model of the book
      and of the engine they are exact rationals [Q]: comparisons are
      [Qle_bool]/[Qeq_bool], arithmetic is exact; rounding, infinities and
      NaN are outside that model.  What is stated over it is what the code
      decides by comparing and copying numbers and by the sequence of its
      calls; it is not used for the value of a sum or of a difference.
    - The arithmetic of [Order] itself ([RemainingQuantity], [IsFilled],
      [Fill]) is embedded a second time over IEEE 754 binary64, in
      [Float64.Order], with the kernel's primitive floats: every operator
      of the Go text is one correctly rounded operation (no fused
      multiply-add; a build that fuses [a * b + c] may round [FilledPrice]
      differently, [FilledQuantity] and the status never).  The claims
      about the result of a fill are settled there.
    - Go [int] indices are [nat]; the only subtraction that can go below
      zero in the code is [(j - 1) / 2] at [j = 0], where Go's truncated
      division and [nat] both give [0].
    - A Go panic (index out of range, nil dereference) and a loop that
      exhausts the iteration budget computed from its input are both the
      result [None]; the totality lemmas show that neither happens.
    - [uuid.New()] and [time.Now()] are inputs of the functions that call
      them.  One clock reading [now] serves a whole call.
    - [*Order] values held in a price level are kept by value in the level's
      queue.  Every submission is a distinct object (the handler allocates
      it with [NewOrder]), so the queue entry is the only reference the
      matching loop follows; the identity index [orders] keeps the record
      as it was when indexed, and only its key set and the immutable fields
      [ID], [Side], [Price] are ever read through it.
    - Locks are not modelled: calls are sequential. *)

From Stdlib Require Import PrimFloat.
From Stdlib Require SpecFloat FloatOps.
From Stdlib Require Import QArith Qminmax Lqa Lia ZArith.
From stdpp Require Import base option list gmap strings.

Local Open Scope Q_scope.

(** ** Numeric helpers: Go's comparison operators on [float64] *)

Definition Qltb (a b : Q) : bool := negb (Qle_bool b a).
Definition Qleb (a b : Q) : bool := Qle_bool a b.

(** ** Package [models] *)

Definition UUID := N.
Definition Time := Z.

Inductive OrderType := OrderTypeMarket | OrderTypeLimit | OrderTypeStopLoss.
Inductive OrderSide := OrderSideBuy | OrderSideSell.
Inductive OrderStatus :=
  OrderStatusPending | OrderStatusPartial | OrderStatusFilled | OrderStatusCancelled.

#[global] Instance OrderType_eq_dec : EqDecision OrderType.
Proof. solve_decision. Defined.
#[global] Instance OrderSide_eq_dec : EqDecision OrderSide.
Proof. solve_decision. Defined.
#[global] Instance OrderStatus_eq_dec : EqDecision OrderStatus.
Proof. solve_decision. Defined.

Module Order.

Record t := mk {
  ID : UUID;
  Symbol : string;
  Type_ : OrderType;
  Side : OrderSide;
  Quantity : Q;
  Price : Q;
  Status : OrderStatus;
  FilledQuantity : Q;
  FilledPrice : Q;
  SubmittedAt : Time;
  FilledAt : option Time;
  CancelledAt : option Time
}.

Definition set_Type (o : t) (ty : OrderType) : t :=
  mk (ID o) (Symbol o) ty (Side o) (Quantity o) (Price o) (Status o)
     (FilledQuantity o) (FilledPrice o) (SubmittedAt o) (FilledAt o) (CancelledAt o).

Definition set_Status (o : t) (s : OrderStatus) : t :=
  mk (ID o) (Symbol o) (Type_ o) (Side o) (Quantity o) (Price o) s
     (FilledQuantity o) (FilledPrice o) (SubmittedAt o) (FilledAt o) (CancelledAt o).

Definition set_FilledQuantity (o : t) (q : Q) : t :=
  mk (ID o) (Symbol o) (Type_ o) (Side o) (Quantity o) (Price o) (Status o)
     q (FilledPrice o) (SubmittedAt o) (FilledAt o) (CancelledAt o).

Definition set_FilledPrice (o : t) (p : Q) : t :=
  mk (ID o) (Symbol o) (Type_ o) (Side o) (Quantity o) (Price o) (Status o)
     (FilledQuantity o) p (SubmittedAt o) (FilledAt o) (CancelledAt o).

Definition set_FilledAt (o : t) (a : option Time) : t :=
  mk (ID o) (Symbol o) (Type_ o) (Side o) (Quantity o) (Price o) (Status o)
     (FilledQuantity o) (FilledPrice o) (SubmittedAt o) a (CancelledAt o).

(** [NewOrder]: [id] stands for [uuid.New()], [now] for [time.Now()]. *)
Definition NewOrder (id : UUID) (now : Time) (symbol : string)
    (orderType : OrderType) (side : OrderSide) (quantity price : Q) : t :=
  {| ID := id; Symbol := symbol; Type_ := orderType; Side := side;
     Quantity := quantity; Price := price; Status := OrderStatusPending;
     FilledQuantity := 0; FilledPrice := 0; SubmittedAt := now;
     FilledAt := None; CancelledAt := None |}.

Definition RemainingQuantity (o : t) : Q := Quantity o - FilledQuantity o.

Definition IsFilled (o : t) : bool := Qleb (Quantity o) (FilledQuantity o).

(** [Fill]: the three statements of the Go method, in order. *)
Definition Fill (o : t) (quantity price : Q) (now : Time) : t :=
  let o := set_FilledQuantity o (FilledQuantity o + quantity) in
  let o :=
    if Qltb 0 (FilledQuantity o)
    then set_FilledPrice o
           (((FilledPrice o * (FilledQuantity o - quantity)) + (price * quantity))
              / FilledQuantity o)
    else o in
  if IsFilled o then set_FilledAt (set_Status o OrderStatusFilled) (Some now)
  else if Qltb 0 (FilledQuantity o) then set_Status o OrderStatusPartial
  else o.

End Order.

Module Trade.

(** The trade's own [ID] ([uuid.New()]) and [Timestamp] ([time.Now()]) are
    produced by the environment and read by nothing in the core; they are
    left out of the record. *)
Record t := mk {
  Symbol : string;
  BuyOrderID : UUID;
  SellOrderID : UUID;
  Price : Q;
  Quantity : Q
}.

Definition NewTrade (symbol : string) (buyOrderID sellOrderID : UUID)
    (price quantity : Q) : t :=
  {| Symbol := symbol; BuyOrderID := buyOrderID; SellOrderID := sellOrderID;
     Price := price; Quantity := quantity |}.

End Trade.

(** ** Go's [container/heap] *)

Module heap.

(** [heap.Interface]: [sort.Interface] plus [Push] and [Pop].  [iLess] and
    [iSwap] index the underlying slice and panic out of range. *)
Class Interface (H X : Type) := {
  iLen : H → nat;
  iLess : H → nat → nat → option bool;
  iSwap : H → nat → nat → option H;
  iPush : H → X → H;
  iPop : H → option (H * X)
}.

Section algorithms.
Context {H X : Type} `{!Interface H X}.

(** The two [for] loops of the package, [up] and [down], take a bound on
    their iterations as first argument and give [None] when it is used up.
    The callers pass a bound the loop cannot reach, the index halving, resp.
    at least doubling, at each turn ([up_spec] and [down_spec] below). *)
Fixpoint up (fuel : nat) (h : H) (j : nat) : option H :=
  match fuel with
  | O => None
  | S fuel =>
      let i := ((j - 1) / 2)%nat in
      if decide (i = j) then Some h else
      less ← iLess h j i;
      if negb less then Some h else
      h ← iSwap h i j;
      up fuel h i
  end.

(** [down] also reports whether the element moved; [Init] and [Pop], its
    only callers here, drop that result, and so does the model. *)
Fixpoint down (fuel : nat) (h : H) (i n : nat) : option H :=
  match fuel with
  | O => None
  | S fuel =>
      let j1 := (2 * i + 1)%nat in
      if (n <=? j1)%nat then Some h else
      j ← (let j2 := (j1 + 1)%nat in
           if (j2 <? n)%nat
           then less ← iLess h j2 j1; Some (if less : bool then j2 else j1)
           else Some j1);
      less ← iLess h j i;
      if negb less then Some h else
      h ← iSwap h i j;
      down fuel h j n
  end.

Fixpoint Init_loop (k : nat) (h : H) (n : nat) : option H :=
  match k with
  | O => Some h
  | S i => h ← down (S n) h i n; Init_loop i h n
  end.

Definition Init (h : H) : option H :=
  let n := iLen h in
  Init_loop (n / 2) h n.

Definition Push (h : H) (x : X) : option H :=
  let h := iPush h x in
  up (iLen h) h (iLen h - 1).

Definition Pop (h : H) : option (H * X) :=
  let n := (iLen h - 1)%nat in
  h ← iSwap h 0%nat n;
  h ← down (S n) h 0%nat n;
  iPop h.

End algorithms.
End heap.

(** ** Package [orderbook] *)

Module PriceLevel.

Record t := mk {
  Price : Q;
  Orders : list Order.t
}.

Definition set_Orders (l : t) (os : list Order.t) : t := mk (Price l) os.

End PriceLevel.

Module PriceLevelHeap.

Record t := mk {
  Levels : list PriceLevel.t;
  IsBid : bool
}.

Definition set_Levels (h : t) (ls : list PriceLevel.t) : t := mk ls (IsBid h).

Definition Len (h : t) : nat := length (Levels h).

Definition Less (h : t) (i j : nat) : option bool :=
  li ← Levels h !! i;
  lj ← Levels h !! j;
  Some (if IsBid h
        then Qltb (PriceLevel.Price lj) (PriceLevel.Price li)
        else Qltb (PriceLevel.Price li) (PriceLevel.Price lj)).

Definition Swap (h : t) (i j : nat) : option t :=
  li ← Levels h !! i;
  lj ← Levels h !! j;
  Some (set_Levels h (<[i := lj]> (<[j := li]> (Levels h)))).

Definition Push (h : t) (x : PriceLevel.t) : t :=
  set_Levels h (Levels h ++ [x]).

Definition Pop (h : t) : option (t * PriceLevel.t) :=
  let old := Levels h in
  let n := length old in
  level ← old !! (n - 1)%nat;
  Some (set_Levels h (take (n - 1) old), level).

#[global] Instance heap_Interface : heap.Interface t PriceLevel.t :=
  {| heap.iLen := Len; heap.iLess := Less; heap.iSwap := Swap;
     heap.iPush := Push; heap.iPop := Pop |}.

Definition Peek (h : t) : option PriceLevel.t :=
  if (Len h =? 0)%nat then None else Levels h !! 0%nat.

Definition NewBidHeap : option t := heap.Init (mk [] true).
Definition NewAskHeap : option t := heap.Init (mk [] false).

(** The [range] loop of [AddOrder]: [Some] is the early [return]. *)
Fixpoint AddOrder_scan (levels : list PriceLevel.t) (order : Order.t)
    : option (list PriceLevel.t) :=
  match levels with
  | [] => None
  | level :: rest =>
      if Qeq_bool (PriceLevel.Price level) (Order.Price order)
      then Some (PriceLevel.set_Orders level (PriceLevel.Orders level ++ [order]) :: rest)
      else (level ::.) <$> AddOrder_scan rest order
  end.

Definition AddOrder (h : t) (order : Order.t) : option t :=
  match AddOrder_scan (Levels h) order with
  | Some levels => Some (set_Levels h levels)
  | None =>
      let newLevel := PriceLevel.mk (Order.Price order) [order] in
      heap.Push h newLevel
  end.

(** The inner [range] loop of [RemoveOrder]: position of the first order
    with the given identity. *)
Fixpoint RemoveOrder_find (os : list Order.t) (id : UUID) : option nat :=
  match os with
  | [] => None
  | o :: rest =>
      if decide (Order.ID o = id) then Some 0%nat
      else S <$> RemoveOrder_find rest id
  end.

(** The outer [range] loop of [RemoveOrder] from index [i] on; the result
    is the heap and the returned boolean. *)
Fixpoint RemoveOrder_scan (h : t) (todo : list PriceLevel.t) (i : nat)
    (order : Order.t) : option (t * bool) :=
  match todo with
  | [] => Some (h, false)
  | level :: rest =>
      if Qeq_bool (PriceLevel.Price level) (Order.Price order) then
        match RemoveOrder_find (PriceLevel.Orders level) (Order.ID order) with
        | Some j =>
            let os := take j (PriceLevel.Orders level)
                      ++ drop (S j) (PriceLevel.Orders level) in
            let h := set_Levels h (<[i := PriceLevel.set_Orders level os]> (Levels h)) in
            if (length os =? 0)%nat
            then h ← heap.Init (set_Levels h (take i (Levels h) ++ drop (S i) (Levels h)));
                 Some (h, true)
            else Some (h, true)
        | None => RemoveOrder_scan h rest (S i) order
        end
      else RemoveOrder_scan h rest (S i) order
  end.

Definition RemoveOrder (h : t) (order : Order.t) : option (t * bool) :=
  RemoveOrder_scan h (Levels h) 0 order.

End PriceLevelHeap.

Module PriceLevelSnapshot.

Record t := mk {
  Price : Q;
  Quantity : Q;
  Orders : nat
}.

End PriceLevelSnapshot.

Module OrderBookSnapshot.

Record t := mk {
  Symbol : string;
  Bids : list PriceLevelSnapshot.t;
  Asks : list PriceLevelSnapshot.t;
  LastPrice : Q;
  Timestamp : Time
}.

End OrderBookSnapshot.

Module OrderBook.

Record t := mk {
  Symbol : string;
  Bids : PriceLevelHeap.t;
  Asks : PriceLevelHeap.t;
  LastPrice : Q;
  LastTrade : option Trade.t;
  Timestamp : Time;
  orders : gmap UUID Order.t
}.

Definition set_Bids (ob : t) (h : PriceLevelHeap.t) : t :=
  mk (Symbol ob) h (Asks ob) (LastPrice ob) (LastTrade ob) (Timestamp ob) (orders ob).
Definition set_Asks (ob : t) (h : PriceLevelHeap.t) : t :=
  mk (Symbol ob) (Bids ob) h (LastPrice ob) (LastTrade ob) (Timestamp ob) (orders ob).
Definition set_Last (ob : t) (p : Q) (tr : option Trade.t) : t :=
  mk (Symbol ob) (Bids ob) (Asks ob) p tr (Timestamp ob) (orders ob).
Definition set_Timestamp (ob : t) (now : Time) : t :=
  mk (Symbol ob) (Bids ob) (Asks ob) (LastPrice ob) (LastTrade ob) now (orders ob).
Definition set_orders (ob : t) (m : gmap UUID Order.t) : t :=
  mk (Symbol ob) (Bids ob) (Asks ob) (LastPrice ob) (LastTrade ob) (Timestamp ob) m.

Definition NewOrderBook (now : Time) (symbol : string) : option t :=
  bids ← PriceLevelHeap.NewBidHeap;
  asks ← PriceLevelHeap.NewAskHeap;
  Some {| Symbol := symbol; Bids := bids; Asks := asks; LastPrice := 0;
          LastTrade := None; Timestamp := now; orders := ∅ |}.

Definition AddOrder (now : Time) (ob : t) (order : Order.t) : option t :=
  let ob := set_orders ob (<[Order.ID order := order]> (orders ob)) in
  ob ← (if decide (Order.Side order = OrderSideBuy)
        then set_Bids ob <$> PriceLevelHeap.AddOrder (Bids ob) order
        else set_Asks ob <$> PriceLevelHeap.AddOrder (Asks ob) order);
  Some (set_Timestamp ob now).

Definition RemoveOrder (ob : t) (orderID : UUID) : option (t * bool) :=
  match orders ob !! orderID with
  | None => Some (ob, false)
  | Some order =>
      let ob := set_orders ob (delete orderID (orders ob)) in
      if decide (Order.Side order = OrderSideBuy)
      then '(h, r) ← PriceLevelHeap.RemoveOrder (Bids ob) order; Some (set_Bids ob h, r)
      else '(h, r) ← PriceLevelHeap.RemoveOrder (Asks ob) order; Some (set_Asks ob h, r)
  end.

Definition GetBestBid (ob : t) : option Q :=
  if (PriceLevelHeap.Len (Bids ob) =? 0)%nat then Some 0
  else PriceLevel.Price <$> PriceLevelHeap.Peek (Bids ob).

Definition GetBestAsk (ob : t) : option Q :=
  if (PriceLevelHeap.Len (Asks ob) =? 0)%nat then Some 0
  else PriceLevel.Price <$> PriceLevelHeap.Peek (Asks ob).

Definition GetSpread (ob : t) : option Q :=
  bestBid ← GetBestBid ob;
  bestAsk ← GetBestAsk ob;
  if Qeq_bool bestBid 0 || Qeq_bool bestAsk 0 then Some 0
  else Some (bestAsk - bestBid).

Definition GetMidPrice (ob : t) : option Q :=
  bestBid ← GetBestBid ob;
  bestAsk ← GetBestAsk ob;
  if Qeq_bool bestBid 0 || Qeq_bool bestAsk 0 then Some (LastPrice ob)
  else Some ((bestBid + bestAsk) / 2).

(** The body of the two [range] loops of [Snapshot]: the inner loop sums
    the remaining quantities of the queue, from its head on. *)
Definition Snapshot_level (level : PriceLevel.t) : PriceLevelSnapshot.t :=
  let totalQty :=
    fold_left (λ totalQty order, totalQty + Order.RemainingQuantity order)
      (PriceLevel.Orders level) 0 in
  {| PriceLevelSnapshot.Price := PriceLevel.Price level;
     PriceLevelSnapshot.Quantity := totalQty;
     PriceLevelSnapshot.Orders := length (PriceLevel.Orders level) |}.

Definition Snapshot (ob : t) : OrderBookSnapshot.t :=
  let copy (levels : list PriceLevel.t) :=
    fold_left (λ snapshot level, snapshot ++ [Snapshot_level level]) levels [] in
  {| OrderBookSnapshot.Symbol := Symbol ob;
     OrderBookSnapshot.Bids := copy (PriceLevelHeap.Levels (Bids ob));
     OrderBookSnapshot.Asks := copy (PriceLevelHeap.Levels (Asks ob));
     OrderBookSnapshot.LastPrice := LastPrice ob;
     OrderBookSnapshot.Timestamp := Timestamp ob |}.

End OrderBook.

(** ** Package [matching] *)

Module MatchingEngine.

Record t := mk {
  orderBooks : gmap string OrderBook.t;
  trades : list Trade.t
}.

Definition NewMatchingEngine : t := {| orderBooks := ∅; trades := [] |}.

Definition GetOrCreateOrderBook (now : Time) (me : t) (symbol : string)
    : option (t * OrderBook.t) :=
  match orderBooks me !! symbol with
  | Some ob => Some (me, ob)
  | None =>
      ob ← OrderBook.NewOrderBook now symbol;
      Some (mk (<[symbol := ob]> (orderBooks me)) (trades me), ob)
  end.

Definition GetOrderBook (me : t) (symbol : string) : option OrderBook.t :=
  orderBooks me !! symbol.

Definition min (a b : Q) : Q := if Qltb a b then a else b.

(** The local [oppositeHeap] is a pointer into the book: reads go through
    [oppositeHeap], writes through [set_oppositeHeap]. *)
Definition oppositeHeap (ob : OrderBook.t) (order : Order.t) : PriceLevelHeap.t :=
  if decide (Order.Side order = OrderSideBuy)
  then OrderBook.Asks ob else OrderBook.Bids ob.

Definition set_oppositeHeap (ob : OrderBook.t) (order : Order.t)
    (h : PriceLevelHeap.t) : OrderBook.t :=
  if decide (Order.Side order = OrderSideBuy)
  then OrderBook.set_Asks ob h else OrderBook.set_Bids ob h.

(** [bestLevel] points at [Levels[0]]; the loop over its queue does not
    touch the slice of levels, so the level is held in a local while that
    loop runs and is stored back at index 0 when it ends.  The resting
    order [oppositeOrder] points at [bestLevel.Orders[0]] in the same way:
    [Fill] on it is a write at index 0 of the queue. *)
Definition store_bestLevel (ob : OrderBook.t) (order : Order.t)
    (bestLevel : PriceLevel.t) : OrderBook.t :=
  let h := oppositeHeap ob order in
  set_oppositeHeap ob order
    (PriceLevelHeap.set_Levels h (<[0%nat := bestLevel]> (PriceLevelHeap.Levels h))).

Definition LoopState : Type := OrderBook.t * Order.t * list Trade.t.
Definition LevelState : Type := OrderBook.t * PriceLevel.t * Order.t * list Trade.t.

(** The FIFO loop of [matchMarketOrder] (lines 100-134). *)
Fixpoint matchMarketOrder_level (fuel : nat) (now : Time) (ob : OrderBook.t)
    (bestLevel : PriceLevel.t) (order : Order.t) (trades : list Trade.t)
    : option LevelState :=
  match fuel with
  | O => None
  | S fuel =>
      if (0 <? length (PriceLevel.Orders bestLevel))%nat
         && Qltb 0 (Order.RemainingQuantity order)
      then
        oppositeOrder ← PriceLevel.Orders bestLevel !! 0%nat;
        let tradeQty := min (Order.RemainingQuantity order)
                            (Order.RemainingQuantity oppositeOrder) in
        let tradePrice := Order.Price oppositeOrder in
        let trade :=
          if decide (Order.Side order = OrderSideBuy)
          then Trade.NewTrade (Order.Symbol order) (Order.ID order)
                 (Order.ID oppositeOrder) tradePrice tradeQty
          else Trade.NewTrade (Order.Symbol order) (Order.ID oppositeOrder)
                 (Order.ID order) tradePrice tradeQty in
        let order := Order.Fill order tradeQty tradePrice now in
        let oppositeOrder := Order.Fill oppositeOrder tradeQty tradePrice now in
        let bestLevel :=
          PriceLevel.set_Orders bestLevel
            (<[0%nat := oppositeOrder]> (PriceLevel.Orders bestLevel)) in
        let ob := OrderBook.set_Last ob tradePrice (Some trade) in
        let trades := trades ++ [trade] in
        let bestLevel :=
          if Order.IsFilled oppositeOrder
          then PriceLevel.set_Orders bestLevel (drop 1 (PriceLevel.Orders bestLevel))
          else bestLevel in
        if Order.IsFilled order then Some (ob, bestLevel, order, trades)
        else matchMarketOrder_level fuel now ob bestLevel order trades
      else Some (ob, bestLevel, order, trades)
  end.

(** The outer loop of [matchMarketOrder] (lines 89-140). *)
Fixpoint matchMarketOrder_loop (fuel : nat) (now : Time) (ob : OrderBook.t)
    (order : Order.t) (trades : list Trade.t) : option LoopState :=
  match fuel with
  | O => None
  | S fuel =>
      let h := oppositeHeap ob order in
      if Qltb 0 (Order.RemainingQuantity order) && (0 <? PriceLevelHeap.Len h)%nat
      then
        match PriceLevelHeap.Peek h with
        | None => Some (ob, order, trades)
        | Some bestLevel =>
            if (length (PriceLevel.Orders bestLevel) =? 0)%nat
            then
              '(h, _) ← heap.Pop h;
              matchMarketOrder_loop fuel now (set_oppositeHeap ob order h) order trades
            else
              '(ob, bestLevel, order, trades) ←
                matchMarketOrder_level (S (length (PriceLevel.Orders bestLevel)))
                  now ob bestLevel order trades;
              let ob := store_bestLevel ob order bestLevel in
              ob ← (if (length (PriceLevel.Orders bestLevel) =? 0)%nat
                    then '(h, _) ← heap.Pop (oppositeHeap ob order);
                         Some (set_oppositeHeap ob order h)
                    else Some ob);
              matchMarketOrder_loop fuel now ob order trades
        end
      else Some (ob, order, trades)
  end.

Definition matchMarketOrder (now : Time) (ob : OrderBook.t) (order : Order.t)
    : option LoopState :=
  matchMarketOrder_loop (S (PriceLevelHeap.Len (oppositeHeap ob order))) now ob order [].

(** The FIFO loop of [matchLimitOrder] (lines 172-201). *)
Fixpoint matchLimitOrder_level (fuel : nat) (now : Time) (ob : OrderBook.t)
    (bestLevel : PriceLevel.t) (order : Order.t) (trades : list Trade.t)
    : option LevelState :=
  match fuel with
  | O => None
  | S fuel =>
      if (0 <? length (PriceLevel.Orders bestLevel))%nat
         && Qltb 0 (Order.RemainingQuantity order)
      then
        oppositeOrder ← PriceLevel.Orders bestLevel !! 0%nat;
        let tradeQty := min (Order.RemainingQuantity order)
                            (Order.RemainingQuantity oppositeOrder) in
        let tradePrice := Order.Price oppositeOrder in
        let trade :=
          if decide (Order.Side order = OrderSideBuy)
          then Trade.NewTrade (Order.Symbol order) (Order.ID order)
                 (Order.ID oppositeOrder) tradePrice tradeQty
          else Trade.NewTrade (Order.Symbol order) (Order.ID oppositeOrder)
                 (Order.ID order) tradePrice tradeQty in
        let order := Order.Fill order tradeQty tradePrice now in
        let oppositeOrder := Order.Fill oppositeOrder tradeQty tradePrice now in
        let bestLevel :=
          PriceLevel.set_Orders bestLevel
            (<[0%nat := oppositeOrder]> (PriceLevel.Orders bestLevel)) in
        let ob := OrderBook.set_Last ob tradePrice (Some trade) in
        let trades := trades ++ [trade] in
        let bestLevel :=
          if Order.IsFilled oppositeOrder
          then PriceLevel.set_Orders bestLevel (drop 1 (PriceLevel.Orders bestLevel))
          else bestLevel in
        matchLimitOrder_level fuel now ob bestLevel order trades
      else Some (ob, bestLevel, order, trades)
  end.

(** The outer loop of [matchLimitOrder] (lines 157-207). *)
Fixpoint matchLimitOrder_loop (fuel : nat) (now : Time) (ob : OrderBook.t)
    (order : Order.t) (trades : list Trade.t) : option LoopState :=
  match fuel with
  | O => None
  | S fuel =>
      let h := oppositeHeap ob order in
      if Qltb 0 (Order.RemainingQuantity order) && (0 <? PriceLevelHeap.Len h)%nat
      then
        match PriceLevelHeap.Peek h with
        | None => Some (ob, order, trades)
        | Some bestLevel =>
            if (length (PriceLevel.Orders bestLevel) =? 0)%nat
            then Some (ob, order, trades)
            else if bool_decide (Order.Side order = OrderSideBuy)
                    && Qltb (Order.Price order) (PriceLevel.Price bestLevel)
            then Some (ob, order, trades)
            else if bool_decide (Order.Side order = OrderSideSell)
                    && Qltb (PriceLevel.Price bestLevel) (Order.Price order)
            then Some (ob, order, trades)
            else
              '(ob, bestLevel, order, trades) ←
                matchLimitOrder_level (S (length (PriceLevel.Orders bestLevel)))
                  now ob bestLevel order trades;
              let ob := store_bestLevel ob order bestLevel in
              ob ← (if (length (PriceLevel.Orders bestLevel) =? 0)%nat
                    then '(h, _) ← heap.Pop (oppositeHeap ob order);
                         Some (set_oppositeHeap ob order h)
                    else Some ob);
              matchLimitOrder_loop fuel now ob order trades
        end
      else Some (ob, order, trades)
  end.

Definition matchLimitOrder (now : Time) (ob : OrderBook.t) (order : Order.t)
    : option LoopState :=
  '(ob, order, trades) ←
    matchLimitOrder_loop (S (PriceLevelHeap.Len (oppositeHeap ob order))) now ob order [];
  if Qltb 0 (Order.RemainingQuantity order)
  then ob ← OrderBook.AddOrder now ob order; Some (ob, order, trades)
  else Some (ob, order, trades).

(** [SubmitOrder] returns the trades; the book and the order are mutated
    through their pointers, so the model returns the engine and the final
    state of the order as well. *)
Definition SubmitOrder (now : Time) (me : t) (order : Order.t)
    : option (t * Order.t * list Trade.t) :=
  '(me, ob) ← GetOrCreateOrderBook now me (Order.Symbol order);
  '(ob, order, trades) ←
    match Order.Type_ order with
    | OrderTypeMarket => matchMarketOrder now ob order
    | OrderTypeLimit => matchLimitOrder now ob order
    | OrderTypeStopLoss =>
        let order := Order.set_Type order OrderTypeLimit in
        matchLimitOrder now ob order
    end;
  let me := mk (<[Order.Symbol order := ob]> (orderBooks me)) (MatchingEngine.trades me) in
  let me :=
    if (0 <? length trades)%nat
    then mk (orderBooks me) (MatchingEngine.trades me ++ trades)
    else me in
  Some (me, order, trades).

(** The loop of [GetRecentTrades], with [k = i + 1]: it runs while
    [i >= 0 && count < limit]. *)
Fixpoint GetRecentTrades_loop (log : list Trade.t) (symbol : string) (limit : Z)
    (k : nat) (result : list Trade.t) (count : Z) : option (list Trade.t) :=
  match k with
  | O => Some result
  | S i =>
      if (count <? limit)%Z then
        trade ← log !! i;
        if decide (Trade.Symbol trade = symbol)
        then GetRecentTrades_loop log symbol limit i (result ++ [trade]) (count + 1)%Z
        else GetRecentTrades_loop log symbol limit i result count
      else Some result
  end.

Definition GetRecentTrades (me : t) (symbol : string) (limit : Z)
    : option (list Trade.t) :=
  GetRecentTrades_loop (trades me) symbol limit (length (trades me)) [] 0%Z.

End MatchingEngine.

(** ** Package [main]: the order endpoint *)

Module api.

Record OrderRequest := mkOrderRequest {
  Symbol : string;
  Type_ : string;
  Side : string;
  Quantity : Q;
  Price : Q
}.

Inductive Response :=
| StatusBadRequest (error : string)
| StatusOK (order : Order.t) (trades : list Trade.t).

(** The conversions [models.OrderType(req.Type)] and
    [models.OrderSide(req.Side)], on the values the [oneof] tags admit. *)
Definition OrderType_of (s : string) : option OrderType :=
  if decide (s = "market") then Some OrderTypeMarket
  else if decide (s = "limit") then Some OrderTypeLimit
  else if decide (s = "stop_loss") then Some OrderTypeStopLoss
  else None.

Definition OrderSide_of (s : string) : option OrderSide :=
  if decide (s = "buy") then Some OrderSideBuy
  else if decide (s = "sell") then Some OrderSideSell
  else None.

(** [ShouldBindJSON]: the [binding] tags of [OrderRequest]
    ([required], [oneof], [gt=0]). *)
Definition ShouldBindJSON (req : OrderRequest) : option (OrderType * OrderSide) :=
  if decide (Symbol req = "") then None else
  ty ← OrderType_of (Type_ req);
  side ← OrderSide_of (Side req);
  if Qltb 0 (Quantity req) then Some (ty, side) else None.

(** [submitOrder] on the global [engine]; [None] is a panic of the engine,
    [Some] carries the engine after the request and the HTTP response. *)
Definition submitOrder (id : UUID) (now : Time) (engine : MatchingEngine.t)
    (req : OrderRequest) : option (MatchingEngine.t * Response) :=
  match ShouldBindJSON req with
  | None => Some (engine, StatusBadRequest "binding")
  | Some (ty, side) =>
      if (bool_decide (Type_ req = "limit") || bool_decide (Type_ req = "stop_loss"))
         && Qleb (Price req) 0
      then Some (engine,
                 StatusBadRequest "price is required for limit and stop_loss orders")
      else
        let order := Order.NewOrder id now (Symbol req) ty side (Quantity req) (Price req) in
        '(engine, order, trades) ← MatchingEngine.SubmitOrder now engine order;
        Some (engine, StatusOK order trades)
  end.

Inductive BookResponse :=
| BookNotFound (error : string)
| BookOK (snapshot : OrderBookSnapshot.t).

(** [getOrderBook]; [symbol] is the path parameter. *)
Definition getOrderBook (engine : MatchingEngine.t) (symbol : string) : BookResponse :=
  match MatchingEngine.GetOrderBook engine symbol with
  | None => BookNotFound "order book not found"
  | Some ob => BookOK (OrderBook.Snapshot ob)
  end.

(** The body of the answer of [getTrades]. *)
Record TradesResponse := mkTradesResponse {
  symbol : string;
  trades : list Trade.t;
  count : nat
}.

(** The limit [getTrades] reads from the query: [limitStr] is
    [c.Query("limit")], and [Atoi] stands for [strconv.Atoi], [None] being
    its error. *)
Definition queryLimit (Atoi : string → option Z) (limitStr : string) : Z :=
  let limit := 50%Z in
  if decide (limitStr ≠ "") then
    match Atoi limitStr with
    | Some l =>
        if (0 <? l)%Z then
          let limit := l in
          if (500 <? limit)%Z then 500%Z else limit
        else limit
    | None => limit
    end
  else limit.

Definition getTrades (Atoi : string → option Z) (engine : MatchingEngine.t)
    (symbol limitStr : string) : option TradesResponse :=
  let limit := queryLimit Atoi limitStr in
  trades ← MatchingEngine.GetRecentTrades engine symbol limit;
  Some {| symbol := symbol; trades := trades; count := length trades |}.

End api.

(** ** [Order] over binary64 *)

Module Float64.

(** Go's [float64]. *)
Definition float64 := PrimFloat.float.

(** The rational number a finite [float64] stands for; [None] for an
    infinity and for NaN. *)
Definition exact (x : float64) : option Q :=
  match FloatOps.Prim2SF x with
  | SpecFloat.S754_zero _ => Some 0
  | SpecFloat.S754_finite s m e =>
      Some (Qred ((if s then -1 else 1) * inject_Z (Zpos m) * Qpower 2 e))
  | _ => None
  end.

Module Order.

Record t := mk {
  ID : UUID;
  Symbol : string;
  Type_ : OrderType;
  Side : OrderSide;
  Quantity : float64;
  Price : float64;
  Status : OrderStatus;
  FilledQuantity : float64;
  FilledPrice : float64;
  SubmittedAt : Time;
  FilledAt : option Time;
  CancelledAt : option Time
}.

Definition set_Status (o : t) (s : OrderStatus) : t :=
  mk (ID o) (Symbol o) (Type_ o) (Side o) (Quantity o) (Price o) s
     (FilledQuantity o) (FilledPrice o) (SubmittedAt o) (FilledAt o) (CancelledAt o).

Definition set_FilledQuantity (o : t) (q : float64) : t :=
  mk (ID o) (Symbol o) (Type_ o) (Side o) (Quantity o) (Price o) (Status o)
     q (FilledPrice o) (SubmittedAt o) (FilledAt o) (CancelledAt o).

Definition set_FilledPrice (o : t) (p : float64) : t :=
  mk (ID o) (Symbol o) (Type_ o) (Side o) (Quantity o) (Price o) (Status o)
     (FilledQuantity o) p (SubmittedAt o) (FilledAt o) (CancelledAt o).

Definition set_FilledAt (o : t) (a : option Time) : t :=
  mk (ID o) (Symbol o) (Type_ o) (Side o) (Quantity o) (Price o) (Status o)
     (FilledQuantity o) (FilledPrice o) (SubmittedAt o) a (CancelledAt o).

(** [NewOrder]: [id] stands for [uuid.New()], [now] for [time.Now()]. *)
Definition NewOrder (id : UUID) (now : Time) (symbol : string)
    (orderType : OrderType) (side : OrderSide) (quantity price : float64) : t :=
  {| ID := id; Symbol := symbol; Type_ := orderType; Side := side;
     Quantity := quantity; Price := price; Status := OrderStatusPending;
     FilledQuantity := 0%float; FilledPrice := 0%float; SubmittedAt := now;
     FilledAt := None; CancelledAt := None |}.

(** [o.Quantity - o.FilledQuantity] *)
Definition RemainingQuantity (o : t) : float64 :=
  (Quantity o - FilledQuantity o)%float.

(** [o.FilledQuantity >= o.Quantity] *)
Definition IsFilled (o : t) : bool := (Quantity o <=? FilledQuantity o)%float.

(** [Fill]: the three statements of the Go method, in order. *)
Definition Fill (o : t) (quantity price : float64) (now : Time) : t :=
  let o := set_FilledQuantity o (FilledQuantity o + quantity)%float in
  let o :=
    if (0 <? FilledQuantity o)%float
    then set_FilledPrice o
           (((FilledPrice o * (FilledQuantity o - quantity)) + (price * quantity))
              / FilledQuantity o)%float
    else o in
  if IsFilled o then set_FilledAt (set_Status o OrderStatusFilled) (Some now)
  else if (0 <? FilledQuantity o)%float then set_Status o OrderStatusPartial
  else o.

End Order.

End Float64.

(** * Specification vocabulary *)

(** ** The body of the FIFO loops, named

    The two FIFO loops share the statements from the choice of
    [oppositeOrder] to the removal of a filled resting order ([matchHead]);
    the two outer loops share the statements that follow the FIFO loop
    ([closeLevel]).  The unfolding lemmas below relate the loops to them. *)

Definition newTradeFor (order oppositeOrder : Order.t) (tradePrice tradeQty : Q)
    : Trade.t :=
  if decide (Order.Side order = OrderSideBuy)
  then Trade.NewTrade (Order.Symbol order) (Order.ID order) (Order.ID oppositeOrder)
         tradePrice tradeQty
  else Trade.NewTrade (Order.Symbol order) (Order.ID oppositeOrder) (Order.ID order)
         tradePrice tradeQty.

Definition matchHead (now : Time) (ob : OrderBook.t) (bestLevel : PriceLevel.t)
    (order : Order.t) (trades : list Trade.t) : option MatchingEngine.LevelState :=
  oppositeOrder ← PriceLevel.Orders bestLevel !! 0%nat;
  let tradeQty := MatchingEngine.min (Order.RemainingQuantity order)
                    (Order.RemainingQuantity oppositeOrder) in
  let tradePrice := Order.Price oppositeOrder in
  let trade := newTradeFor order oppositeOrder tradePrice tradeQty in
  let order := Order.Fill order tradeQty tradePrice now in
  let oppositeOrder := Order.Fill oppositeOrder tradeQty tradePrice now in
  let bestLevel :=
    PriceLevel.set_Orders bestLevel (<[0%nat := oppositeOrder]> (PriceLevel.Orders bestLevel)) in
  let ob := OrderBook.set_Last ob tradePrice (Some trade) in
  let trades := trades ++ [trade] in
  let bestLevel :=
    if Order.IsFilled oppositeOrder
    then PriceLevel.set_Orders bestLevel (drop 1 (PriceLevel.Orders bestLevel))
    else bestLevel in
  Some (ob, bestLevel, order, trades).

Definition closeLevel (ob : OrderBook.t) (bestLevel : PriceLevel.t)
    (order : Order.t) : option OrderBook.t :=
  let ob := MatchingEngine.store_bestLevel ob order bestLevel in
  if (length (PriceLevel.Orders bestLevel) =? 0)%nat
  then '(h, _) ← heap.Pop (MatchingEngine.oppositeHeap ob order);
       Some (MatchingEngine.set_oppositeHeap ob order h)
  else Some ob.


(** The fields of an order that no operation of the core rewrites. *)
Definition same_identity (o o' : Order.t) : Prop :=
  Order.ID o' = Order.ID o ∧ Order.Symbol o' = Order.Symbol o
  ∧ Order.Type_ o' = Order.Type_ o ∧ Order.Side o' = Order.Side o
  ∧ Order.Quantity o' = Order.Quantity o ∧ Order.Price o' = Order.Price o
  ∧ Order.SubmittedAt o' = Order.SubmittedAt o
  ∧ Order.CancelledAt o' = Order.CancelledAt o.

(** Sample orders used to exercise the statements below. *)
Definition sample_sell : Order.t :=
  Order.NewOrder 1%N 0%Z "AAPL" OrderTypeLimit OrderSideSell 100 150.

Definition sample_buy : Order.t :=
  Order.NewOrder 2%N 1%Z "AAPL" OrderTypeLimit OrderSideBuy 100 150.

Definition sample_filled : Order.t := Order.Fill sample_sell 100 150 1%Z.

(** ** Heap order of one side *)

(** [prio isBid a b]: a level priced [a] may sit above a level priced [b]
    (bids: highest first; asks: lowest first). *)
Definition prio (isBid : bool) (a b : Q) : Prop :=
  if isBid then b <= a else a <= b.

Definition child (i j : nat) : Prop :=
  j = (2 * i + 1)%nat ∨ j = (2 * i + 2)%nat.

Definition ord_at (h : PriceLevelHeap.t) (i j : nat) : Prop :=
  ∀ li lj,
    PriceLevelHeap.Levels h !! i = Some li →
    PriceLevelHeap.Levels h !! j = Some lj →
    prio (PriceLevelHeap.IsBid h) (PriceLevel.Price li) (PriceLevel.Price lj).

(** The binary-heap shape on the first [n] slots. *)
Definition heap_upto (h : PriceLevelHeap.t) (n : nat) : Prop :=
  ∀ i j, child i j → (j < n)%nat → ord_at h i j.

Definition heap_ordered (h : PriceLevelHeap.t) : Prop :=
  ∀ i j, child i j → ord_at h i j.

(** Heap shape with one slot [k] that may beat its parent ([up]). *)
Definition up_weak (h : PriceLevelHeap.t) (k : nat) : Prop :=
  (∀ i j, child i j → j ≠ k → ord_at h i j)
  ∧ (∀ g c, child g k → child k c → ord_at h g c).

(** Heap shape on [n] slots with one slot [k] that may lose to its
    children ([down]). *)
Definition down_weak (h : PriceLevelHeap.t) (k n : nat) : Prop :=
  (∀ i j, child i j → (j < n)%nat → i ≠ k → ord_at h i j)
  ∧ (∀ g c, child g k → child k c → (c < n)%nat → ord_at h g c).

(** ** Invariants of a book *)

(** The side an order rests on. *)
Definition ownHeap (ob : OrderBook.t) (order : Order.t) : PriceLevelHeap.t :=
  if decide (Order.Side order = OrderSideBuy)
  then OrderBook.Bids ob else OrderBook.Asks ob.

(** A resting order carries the price of its level and has something left
    to fill. *)
Definition resting_ok (l : PriceLevel.t) (r : Order.t) : Prop :=
  Order.Price r == PriceLevel.Price l ∧ 0 < Order.RemainingQuantity r.

Definition level_ok (l : PriceLevel.t) : Prop :=
  PriceLevel.Orders l ≠ [] ∧ Forall (resting_ok l) (PriceLevel.Orders l).

(** Prices of the levels of a side, in canonical form. *)
Definition level_prices (ls : list PriceLevel.t) : list Q :=
  (λ l, Qred (PriceLevel.Price l)) <$> ls.

Definition side_inv (isBid : bool) (h : PriceLevelHeap.t) : Prop :=
  PriceLevelHeap.IsBid h = isBid
  ∧ heap_ordered h
  ∧ Forall level_ok (PriceLevelHeap.Levels h)
  ∧ NoDup (level_prices (PriceLevelHeap.Levels h)).

Definition uncrossed (bids asks : PriceLevelHeap.t) : Prop :=
  ∀ b a, b ∈ PriceLevelHeap.Levels bids → a ∈ PriceLevelHeap.Levels asks →
         PriceLevel.Price b < PriceLevel.Price a.

Definition book_inv (ob : OrderBook.t) : Prop :=
  side_inv true (OrderBook.Bids ob)
  ∧ side_inv false (OrderBook.Asks ob)
  ∧ uncrossed (OrderBook.Bids ob) (OrderBook.Asks ob).

Definition engine_inv (me : MatchingEngine.t) : Prop :=
  ∀ symbol ob, MatchingEngine.orderBooks me !! symbol = Some ob → book_inv ob.

(** Engine states reachable from the empty engine by [SubmitOrder]. *)
Inductive reachable : MatchingEngine.t → Prop :=
| reachable_new : reachable MatchingEngine.NewMatchingEngine
| reachable_submit now me order me' order' trades :
    reachable me →
    MatchingEngine.SubmitOrder now me order = Some (me', order', trades) →
    reachable me'.

(** A sequence of [SubmitOrder] calls, each with its clock reading. *)
Fixpoint submit_all (me : MatchingEngine.t) (calls : list (Time * Order.t))
    : option MatchingEngine.t :=
  match calls with
  | [] => Some me
  | (now, order) :: calls =>
      '(me, _, _) ← MatchingEngine.SubmitOrder now me order;
      submit_all me calls
  end.

(** The validity conditions of the order endpoint. *)
Definition valid_order (o : Order.t) : Prop :=
  0 < Order.Quantity o
  ∧ (Order.Type_ o = OrderTypeLimit ∨ Order.Type_ o = OrderTypeStopLoss →
     0 < Order.Price o).

(** The identity of the resting side of a trade, seen from the incoming
    order. *)
Definition restingID (order : Order.t) (t : Trade.t) : UUID :=
  if decide (Order.Side order = OrderSideBuy)
  then Trade.SellOrderID t else Trade.BuyOrderID t.

Definition aggressorID (order : Order.t) (t : Trade.t) : UUID :=
  if decide (Order.Side order = OrderSideBuy)
  then Trade.BuyOrderID t else Trade.SellOrderID t.

(** The quantity and the trade of one pass of the FIFO loop against the
    resting order [r]. *)
Definition headQty (order r : Order.t) : Q :=
  MatchingEngine.min (Order.RemainingQuantity order) (Order.RemainingQuantity r).

Definition headTrade (order r : Order.t) : Trade.t :=
  newTradeFor order r (Order.Price r) (headQty order r).

(** ** Runs of the matching loops *)

(** A completed run of the FIFO loop of either matching function. *)
Definition level_run (now : Time) (ob : OrderBook.t) (bl : PriceLevel.t)
    (order : Order.t) (trades : list Trade.t) (res : MatchingEngine.LevelState) : Prop :=
  ∃ fuel,
    MatchingEngine.matchLimitOrder_level fuel now ob bl order trades = Some res
    ∨ MatchingEngine.matchMarketOrder_level fuel now ob bl order trades = Some res.

(** The price test of [matchLimitOrder] lets the best level through. *)
Definition price_ok (order : Order.t) (bl : PriceLevel.t) : Prop :=
  (Order.Side order = OrderSideBuy → PriceLevel.Price bl <= Order.Price order)
  ∧ (Order.Side order = OrderSideSell → Order.Price order <= PriceLevel.Price bl).

Definition price_bad (order : Order.t) (bl : PriceLevel.t) : Prop :=
  (Order.Side order = OrderSideBuy ∧ Order.Price order < PriceLevel.Price bl)
  ∨ (Order.Side order = OrderSideSell ∧ PriceLevel.Price bl < Order.Price order).

(** One pass of the outer loop of [matchLimitOrder] ([limit = true]) or of
    [matchMarketOrder] ([limit = false]): either the FIFO loop runs on the
    best level, which is then stored back and popped when empty, or (market
    orders only) an empty best level is popped. *)
Definition pass (now : Time) (limit : bool)
    (ob : OrderBook.t) (order : Order.t) (trades : list Trade.t)
    (ob2 : OrderBook.t) (order1 : Order.t) (trades1 : list Trade.t) : Prop :=
  0 < Order.RemainingQuantity order
  ∧ ∃ bl,
      PriceLevelHeap.Levels (MatchingEngine.oppositeHeap ob order) !! 0%nat = Some bl
      ∧ ((limit = false ∧ PriceLevel.Orders bl = []
          ∧ order1 = order ∧ trades1 = trades
          ∧ ∃ h x, heap.Pop (MatchingEngine.oppositeHeap ob order) = Some (h, x)
                   ∧ ob2 = MatchingEngine.set_oppositeHeap ob order h)
         ∨ (PriceLevel.Orders bl ≠ []
            ∧ (limit = true → price_ok order bl)
            ∧ ∃ ob1 bl1,
                level_run now ob bl order trades (ob1, bl1, order1, trades1)
                ∧ closeLevel ob1 bl1 order1 = Some ob2)).

(** Why an outer loop stopped. *)
Definition loop_exit (limit : bool) (ob : OrderBook.t) (order : Order.t) : Prop :=
  Order.RemainingQuantity order <= 0
  ∨ PriceLevelHeap.Len (MatchingEngine.oppositeHeap ob order) = 0%nat
  ∨ (limit = true
     ∧ ∃ bl, PriceLevelHeap.Levels (MatchingEngine.oppositeHeap ob order) !! 0%nat = Some bl
             ∧ (PriceLevel.Orders bl = [] ∨ price_bad order bl)).

(** The parts of a book that the FIFO loop does not write. *)
Definition book_frame (ob ob' : OrderBook.t) : Prop :=
  OrderBook.Bids ob' = OrderBook.Bids ob
  ∧ OrderBook.Asks ob' = OrderBook.Asks ob
  ∧ OrderBook.orders ob' = OrderBook.orders ob
  ∧ OrderBook.Symbol ob' = OrderBook.Symbol ob
  ∧ OrderBook.Timestamp ob' = OrderBook.Timestamp ob.

(** The book invariant seen from one side: [own] is the bid side when
    [isBid] holds, the ask side otherwise. *)
Definition apart (isBid : bool) (own opp : Q) : Prop :=
  if isBid then own < opp else opp < own.

Definition sides_inv (isBid : bool) (own opp : PriceLevelHeap.t) : Prop :=
  side_inv isBid own
  ∧ side_inv (negb isBid) opp
  ∧ ∀ o p, o ∈ PriceLevelHeap.Levels own → p ∈ PriceLevelHeap.Levels opp →
           apart isBid (PriceLevel.Price o) (PriceLevel.Price p).

Definition isBuy (order : Order.t) : bool :=
  bool_decide (Order.Side order = OrderSideBuy).

(** The [switch] of [SubmitOrder], on the book of the order's symbol. *)
Definition dispatch (now : Time) (ob : OrderBook.t) (order : Order.t)
    : option MatchingEngine.LoopState :=
  match Order.Type_ order with
  | OrderTypeMarket => MatchingEngine.matchMarketOrder now ob order
  | OrderTypeLimit => MatchingEngine.matchLimitOrder now ob order
  | OrderTypeStopLoss =>
      MatchingEngine.matchLimitOrder now ob (Order.set_Type order OrderTypeLimit)
  end.

(** The book [SubmitOrder] works on: the one of the symbol, or a new one. *)
Definition book_before (now : Time) (me : MatchingEngine.t) (symbol : string)
    (ob : OrderBook.t) : Prop :=
  MatchingEngine.orderBooks me !! symbol = Some ob
  ∨ (MatchingEngine.orderBooks me !! symbol = None
     ∧ OrderBook.NewOrderBook now symbol = Some ob).

(** Sample submissions: a resting sell and a buy that crosses it; a sell and
    a buy that do not cross; a stop-loss order. *)
Definition sample_cross : list (Time * Order.t) :=
  [(0%Z, sample_sell); (1%Z, sample_buy)].

Definition sample_apart : list (Time * Order.t) :=
  [(0%Z, Order.NewOrder 1%N 0%Z "AAPL" OrderTypeLimit OrderSideSell 100 152);
   (1%Z, Order.NewOrder 2%N 1%Z "AAPL" OrderTypeLimit OrderSideBuy 100 150)].

Definition sample_stop : Order.t :=
  Order.NewOrder 3%N 2%Z "AAPL" OrderTypeStopLoss OrderSideSell 30 149.

Definition sample_request : api.OrderRequest :=
  api.mkOrderRequest "AAPL" "limit" "buy" 10 0.

(** ** Trades against a queue *)

(** [t] is a trade of the incoming [order] against the resting order [r]:
    it names both, carries the price of [r] and at most what [r] has left. *)
Definition trade_against (order r : Order.t) (t : Trade.t) : Prop :=
  Trade.Symbol t = Order.Symbol order
  ∧ restingID order t = Order.ID r
  ∧ aggressorID order t = Order.ID order
  ∧ Trade.Price t = Order.Price r
  ∧ 0 < Trade.Quantity t
  ∧ Trade.Quantity t <= Order.RemainingQuantity r.

(** [t] fills [r] completely. *)
Definition full_fill (order r : Order.t) (t : Trade.t) : Prop :=
  trade_against order r t ∧ Trade.Quantity t == Order.RemainingQuantity r.

(** First-in-first-out consumption of the queue [q] by the trades [T]: the
    trades pair with the orders of the queue from its head on, and every
    trade but the last one fills its order completely. *)
Inductive fifo_fills (order : Order.t) : list Order.t → list Trade.t → Prop :=
| fifo_none q : fifo_fills order q []
| fifo_last r q t : trade_against order r t → fifo_fills order (r :: q) [t]
| fifo_more r q t T :
    full_fill order r t → fifo_fills order q T → fifo_fills order (r :: q) (t :: T).

(** First-in-first-out service of the queue [q] by the trades [T] of a call
    made at time [now]: every trade is against the order at the head of the
    queue, which receives the fill; the head leaves the queue when that fill
    leaves it filled, and stays the head otherwise.  An order of the queue
    receives quantity only when every order before it is filled and gone. *)
Inductive fifo_served (now : Time) (order : Order.t)
    : list Order.t → list Trade.t → Prop :=
| served_none q : fifo_served now order q []
| served_head r q t T :
    trade_against order r t →
    fifo_served now order
      (let r' := Order.Fill r (Trade.Quantity t) (Trade.Price t) now in
       if Order.IsFilled r' then q else r' :: q) T →
    fifo_served now order (r :: q) (t :: T).

(** The trades made at the price of a level. *)
Definition at_price (l : PriceLevel.t) (t : Trade.t) : bool :=
  Qeq_bool (Trade.Price t) (PriceLevel.Price l).

(** Orders of a side, with the level they rest in. *)
Definition rests_in (h : PriceLevelHeap.t) (r : Order.t) : Prop :=
  ∃ l, l ∈ PriceLevelHeap.Levels h ∧ r ∈ PriceLevel.Orders l.

Definition trades_at (l : PriceLevel.t) (T : list Trade.t) : list Trade.t :=
  List.filter (at_price l) T.

(** A trade is within the limit of the incoming order. *)
Definition within_limit (order : Order.t) (t : Trade.t) : Prop :=
  (Order.Side order = OrderSideBuy → Trade.Price t <= Order.Price order)
  ∧ (Order.Side order = OrderSideSell → Order.Price order <= Trade.Price t).

(** What the FIFO loop may leave of a queue [q]: a suffix of it, whose
    head may be an order of [q] after a partial fill. *)
Definition queue_after (q q' : list Order.t) : Prop :=
  ∃ q1, q = q1 ++ q'
        ∨ ∃ r r' q2, q = q1 ++ r :: q2 ∧ q' = r' :: q2 ∧ same_identity r r'.

(** A level of the side [h] as it is left after matching: a level of the
    side before, with what is left of its queue. *)
Definition level_after (h : PriceLevelHeap.t) (l' : PriceLevel.t) : Prop :=
  ∃ l, l ∈ PriceLevelHeap.Levels h
       ∧ PriceLevel.Price l' = PriceLevel.Price l
       ∧ queue_after (PriceLevel.Orders l) (PriceLevel.Orders l').

(** The state of the incoming order while a submission of [order0] is
    matched: untouched as long as no trade was made; after a trade, filled
    by a positive quantity, and PartiallyFilled as long as something is left. *)
Definition fill_state (order0 order1 : Order.t) (trades1 : list Trade.t) : Prop :=
  (trades1 = [] → order1 = order0)
  ∧ (trades1 ≠ [] →
     0 < Order.FilledQuantity order1
     ∧ (0 < Order.RemainingQuantity order1 →
        Order.Status order1 = OrderStatusPartial)).

(** [AddOrder] put [order] at the tail of the queue of its price on the side
    [h], giving [h']: at the tail of the level of that price, or alone in a
    new level when no level has that price. *)
Definition rested_at_tail (h : PriceLevelHeap.t) (order : Order.t)
    (h' : PriceLevelHeap.t) : Prop :=
  (∃ i l, PriceLevelHeap.Levels h !! i = Some l
          ∧ PriceLevel.Price l == Order.Price order
          ∧ PriceLevelHeap.Levels h'
            = <[i := PriceLevel.set_Orders l (PriceLevel.Orders l ++ [order])]>
                (PriceLevelHeap.Levels h))
  ∨ (Forall (λ l, ¬ PriceLevel.Price l == Order.Price order) (PriceLevelHeap.Levels h)
     ∧ PriceLevelHeap.Levels h'
       ≡ₚ PriceLevel.mk (Order.Price order) [order] :: PriceLevelHeap.Levels h).

(** The engine after the sample sell order, and the sample buy order
    submitted to it. *)
Definition after_sell : MatchingEngine.t :=
  default MatchingEngine.NewMatchingEngine
    (submit_all MatchingEngine.NewMatchingEngine [(0%Z, sample_sell)]).

Definition sample_market : Order.t :=
  Order.NewOrder 4%N 3%Z "AAPL" OrderTypeMarket OrderSideBuy 250 0.

Definition sample_empty : Order.t :=
  Order.NewOrder 7%N 0%Z "MSFT" OrderTypeLimit OrderSideBuy 0 0.

(** ** The scenarios of the repository's tests *)

(** A sequence of [SubmitOrder] calls with what each call returned. *)
Fixpoint submit_trace (me : MatchingEngine.t) (calls : list (Time * Order.t))
    : option (MatchingEngine.t * list (Order.t * list Trade.t)) :=
  match calls with
  | [] => Some (me, [])
  | (now, order) :: calls =>
      '(me, order', trades) ← MatchingEngine.SubmitOrder now me order;
      '(me, rest) ← submit_trace me calls;
      Some (me, (order', trades) :: rest)
  end.

Definition limit_order (id : UUID) (side : OrderSide) (quantity price : Q) : Order.t :=
  Order.NewOrder id 0%Z "AAPL" OrderTypeLimit side quantity price.

Definition market_order (id : UUID) (side : OrderSide) (quantity : Q) : Order.t :=
  Order.NewOrder id 0%Z "AAPL" OrderTypeMarket side quantity 0.

(** What a scenario leaves: the levels of both sides as (price, identities
    and remaining quantities of the queue), and per call the status of the
    order and the (resting identity, price, quantity) of its trades. *)
Definition level_view (l : PriceLevel.t) : Q * list (UUID * Q) :=
  (Qred (PriceLevel.Price l),
   (λ r, (Order.ID r, Qred (Order.RemainingQuantity r))) <$> PriceLevel.Orders l).

Definition call_view (res : Order.t * list Trade.t)
    : OrderStatus * list (UUID * Q * Q) :=
  (Order.Status res.1,
   (λ t, (restingID res.1 t, Qred (Trade.Price t), Qred (Trade.Quantity t))) <$> res.2).

Definition scenario (calls : list Order.t)
    : option (list (Q * list (UUID * Q)) * list (Q * list (UUID * Q))
              * list (OrderStatus * list (UUID * Q * Q))) :=
  match submit_trace MatchingEngine.NewMatchingEngine
          ((λ o : Order.t, (0%Z, o)) <$> calls) with
  | Some (me, results) =>
      match MatchingEngine.orderBooks me !! "AAPL" with
      | Some ob =>
          Some (level_view <$> PriceLevelHeap.Levels (OrderBook.Bids ob),
                level_view <$> PriceLevelHeap.Levels (OrderBook.Asks ob),
                call_view <$> results)
      | None => None
      end
  | None => None
  end.

(** ** The trade log *)

Definition has_symbol (symbol : string) (t : Trade.t) : bool :=
  bool_decide (Trade.Symbol t = symbol).

(** The trades of a symbol in a log, oldest first. *)
Definition trades_of (symbol : string) (log : list Trade.t) : list Trade.t :=
  List.filter (has_symbol symbol) log.

(** The last trade printed on every book is the last trade of its symbol
    in the log, and every trade of the log has a book. *)
Definition last_trade_inv (me : MatchingEngine.t) : Prop :=
  (∀ symbol ob,
     MatchingEngine.orderBooks me !! symbol = Some ob →
     OrderBook.LastTrade ob = last (trades_of symbol (MatchingEngine.trades me))
     ∧ OrderBook.LastPrice ob = from_option Trade.Price 0 (OrderBook.LastTrade ob))
  ∧ (∀ t, t ∈ MatchingEngine.trades me →
          is_Some (MatchingEngine.orderBooks me !! Trade.Symbol t)).

(** The engine after the two crossing sample orders. *)
Definition after_cross : MatchingEngine.t :=
  default MatchingEngine.NewMatchingEngine
    (submit_all MatchingEngine.NewMatchingEngine sample_cross).

(** ** Sequences of fills *)

(** A fill is a quantity and a price; [fill_all] applies [Fill] for each
    fill of a list in turn. *)
Definition fill_all (now : Time) (o : Order.t) (fills : list (Q * Q)) : Order.t :=
  fold_left (λ o f, Order.Fill o f.1 f.2 now) fills o.

(** The fills that a list of trades stands for. *)
Definition fills_of (T : list Trade.t) : list (Q * Q) :=
  (λ t, (Trade.Quantity t, Trade.Price t)) <$> T.

(** The order the matching functions receive from [SubmitOrder]. *)
Definition as_matched (order : Order.t) : Order.t :=
  if decide (Order.Type_ order = OrderTypeStopLoss)
  then Order.set_Type order OrderTypeLimit else order.

(** ** Price priority *)

(** The trades of a list come in the order of the prices of a side:
    an earlier trade has a price that may sit above the price of a later
    one ([b = false], ask prices: rising; [b = true], bid prices: falling). *)
Definition price_ordered (b : bool) (T : list Trade.t) : Prop :=
  ∀ i j ti tj, (i < j)%nat → T !! i = Some ti → T !! j = Some tj →
    prio b (Trade.Price ti) (Trade.Price tj).

(** For the incoming [order], the price [p] is at least as good as [q]. *)
Definition no_worse (order : Order.t) (p q : Q) : Prop :=
  (Order.Side order = OrderSideBuy → p <= q)
  ∧ (Order.Side order = OrderSideSell → q <= p).

(** The engine after three sells at 151, 150 and 152, and a buy that
    crosses the first two. *)
Definition sample_asks : list (Time * Order.t) :=
  [(0%Z, Order.NewOrder 11%N 0%Z "AAPL" OrderTypeLimit OrderSideSell 50 151);
   (1%Z, Order.NewOrder 12%N 1%Z "AAPL" OrderTypeLimit OrderSideSell 50 150);
   (2%Z, Order.NewOrder 13%N 2%Z "AAPL" OrderTypeLimit OrderSideSell 50 152)].

Definition three_asks : MatchingEngine.t :=
  default MatchingEngine.NewMatchingEngine
    (submit_all MatchingEngine.NewMatchingEngine sample_asks).

Definition sample_sweep : Order.t :=
  Order.NewOrder 14%N 3%Z "AAPL" OrderTypeLimit OrderSideBuy 80 151.

(** ** Resting orders *)

Definition side_of (h : PriceLevelHeap.t) : OrderSide :=
  if PriceLevelHeap.IsBid h then OrderSideBuy else OrderSideSell.

(** What holds of an order [r] that rests on the side [h] of the book [ob]
    of [symbol]: it is on the side it asked for, it is a limit order of that
    symbol, and the identity index knows it. *)
Definition resting_wf (symbol : string) (ob : OrderBook.t) (h : PriceLevelHeap.t)
    (r : Order.t) : Prop :=
  Order.Side r = side_of h
  ∧ Order.Type_ r = OrderTypeLimit
  ∧ Order.Symbol r = symbol
  ∧ is_Some (OrderBook.orders ob !! Order.ID r).

Definition book_wf (symbol : string) (ob : OrderBook.t) : Prop :=
  OrderBook.Symbol ob = symbol
  ∧ (∀ r, rests_in (OrderBook.Bids ob) r → resting_wf symbol ob (OrderBook.Bids ob) r)
  ∧ (∀ r, rests_in (OrderBook.Asks ob) r → resting_wf symbol ob (OrderBook.Asks ob) r).

Definition engine_wf (me : MatchingEngine.t) : Prop :=
  ∀ symbol ob, MatchingEngine.orderBooks me !! symbol = Some ob → book_wf symbol ob.

(** ** Prices of a book fed with valid orders *)

Definition pos_prices (ob : OrderBook.t) : Prop :=
  ∀ l, l ∈ PriceLevelHeap.Levels (OrderBook.Bids ob)
       ∨ l ∈ PriceLevelHeap.Levels (OrderBook.Asks ob) →
       0 < PriceLevel.Price l.

Definition engine_pos (me : MatchingEngine.t) : Prop :=
  ∀ symbol ob, MatchingEngine.orderBooks me !! symbol = Some ob → pos_prices ob.

(** The engine after the two sample orders that do not cross. *)
Definition after_apart : MatchingEngine.t :=
  default MatchingEngine.NewMatchingEngine
    (submit_all MatchingEngine.NewMatchingEngine sample_apart).

(** ** Heap shape below a bound ([heap.Init])

    [heap_from h lo n]: on the first [n] slots, every parent from slot [lo]
    on may sit above its children.  [down_weak_from] allows one slot [k]
    that may lose to its children. *)
Definition heap_from (h : PriceLevelHeap.t) (lo n : nat) : Prop :=
  ∀ i j, child i j → (lo ≤ i)%nat → (j < n)%nat → ord_at h i j.

Definition down_weak_from (h : PriceLevelHeap.t) (lo k n : nat) : Prop :=
  (∀ i j, child i j → (lo ≤ i)%nat → (j < n)%nat → i ≠ k → ord_at h i j)
  ∧ (∀ g c, child g k → child k c → (lo ≤ g)%nat → (c < n)%nat → ord_at h g c).

(** ** Removing an order *)

(** No order with the identity of [order] rests at the price of [order] on
    the side [h]. *)
Definition absent (h : PriceLevelHeap.t) (order : Order.t) : Prop :=
  ∀ l r, l ∈ PriceLevelHeap.Levels h →
         PriceLevel.Price l == Order.Price order →
         r ∈ PriceLevel.Orders l → Order.ID r ≠ Order.ID order.

(** An ask side with the sample sell order alone. *)
Definition sample_level : PriceLevel.t := PriceLevel.mk 150 [sample_sell].

Definition sample_ask_side : PriceLevelHeap.t :=
  PriceLevelHeap.mk [sample_level] false.

(** A book with the sample sell order resting alone, and a buy order
    priced below it. *)
Definition sample_book : OrderBook.t :=
  {| OrderBook.Symbol := "AAPL";
     OrderBook.Bids := PriceLevelHeap.mk [] true;
     OrderBook.Asks := sample_ask_side;
     OrderBook.LastPrice := 0;
     OrderBook.LastTrade := None;
     OrderBook.Timestamp := 0%Z;
     OrderBook.orders := {[ Order.ID sample_sell := sample_sell ]} |}.

Definition sample_bid : Order.t :=
  Order.NewOrder 5%N 4%Z "AAPL" OrderTypeLimit OrderSideBuy 10 149.

(** ** A book filled by [AddOrder] alone *)

Fixpoint add_all (now : Time) (ob : OrderBook.t) (orders : list Order.t)
    : option OrderBook.t :=
  match orders with
  | [] => Some ob
  | order :: orders => ob ← OrderBook.AddOrder now ob order; add_all now ob orders
  end.

(** The side [h] is a heap whose levels are the prices of the orders of
    [seen] that belong to it. *)
Definition tracks (b : bool) (h : PriceLevelHeap.t) (seen : list Order.t) : Prop :=
  PriceLevelHeap.IsBid h = b
  ∧ heap_ordered h
  ∧ (∀ l, l ∈ PriceLevelHeap.Levels h →
          ∃ o, o ∈ seen ∧ Order.Side o = (if b then OrderSideBuy else OrderSideSell)
               ∧ Order.Price o == PriceLevel.Price l)
  ∧ (∀ o, o ∈ seen → Order.Side o = (if b then OrderSideBuy else OrderSideSell) →
          ∃ l, l ∈ PriceLevelHeap.Levels h ∧ PriceLevel.Price l == Order.Price o).

(** A request the order endpoint accepts. *)
Definition sample_good_request : api.OrderRequest :=
  api.mkOrderRequest "AAPL" "limit" "buy" 10 149.

(** A new book for AAPL filled by [AddOrder] calls, as the tests of the
    book build it. *)
Definition book_with (orders : list Order.t) : option OrderBook.t :=
  match OrderBook.NewOrderBook 0%Z "AAPL" with
  | Some ob => add_all 0%Z ob orders
  | None => None
  end.

Definition snapshot_view (s : PriceLevelSnapshot.t) : Q * Q * nat :=
  (Qred (PriceLevelSnapshot.Price s), Qred (PriceLevelSnapshot.Quantity s),
   PriceLevelSnapshot.Orders s).

(** ** Orders the endpoint would turn away *)

Definition invalid_order (o : Order.t) : Prop :=
  Order.Quantity o <= 0
  ∨ ((Order.Type_ o = OrderTypeLimit ∨ Order.Type_ o = OrderTypeStopLoss)
     ∧ Order.Price o <= 0).

Definition sample_negative_price : Order.t :=
  Order.NewOrder 8%N 0%Z "AAPL" OrderTypeLimit OrderSideSell 5 (-3).

(** ** Two orders in one queue *)

Definition sample_queue : list (Time * Order.t) :=
  [(0%Z, Order.NewOrder 1%N 0%Z "AAPL" OrderTypeLimit OrderSideSell 50 150);
   (1%Z, Order.NewOrder 2%N 1%Z "AAPL" OrderTypeLimit OrderSideSell 50 150)].

Definition two_in_queue : MatchingEngine.t :=
  default MatchingEngine.NewMatchingEngine
    (submit_all MatchingEngine.NewMatchingEngine sample_queue).

Definition sample_take : Order.t :=
  Order.NewOrder 3%N 2%Z "AAPL" OrderTypeLimit OrderSideBuy 70 150.

(** ** Orders over binary64 *)

(** Terminal statuses of the order state machine. *)
Definition terminal64 (o : Float64.Order.t) : Prop :=
  Float64.Order.Status o = OrderStatusFilled
  ∨ Float64.Order.Status o = OrderStatusCancelled.

Definition same_identity64 (o o' : Float64.Order.t) : Prop :=
  Float64.Order.ID o' = Float64.Order.ID o
  ∧ Float64.Order.Symbol o' = Float64.Order.Symbol o
  ∧ Float64.Order.Type_ o' = Float64.Order.Type_ o
  ∧ Float64.Order.Side o' = Float64.Order.Side o
  ∧ Float64.Order.Quantity o' = Float64.Order.Quantity o
  ∧ Float64.Order.Price o' = Float64.Order.Price o
  ∧ Float64.Order.SubmittedAt o' = Float64.Order.SubmittedAt o
  ∧ Float64.Order.CancelledAt o' = Float64.Order.CancelledAt o.

(** Sample orders.  A decimal literal stands for the binary64 number
    nearest to it, as it does for Go's parser. *)
Set Warnings "-inexact-float".

(** An order of [quantity] at 150, of which [filled] is filled at 150. *)
Definition order64 (quantity filled : Float64.float64) (status : OrderStatus)
    (filledAt : option Time) : Float64.Order.t :=
  {| Float64.Order.ID := 1%N; Float64.Order.Symbol := "AAPL";
     Float64.Order.Type_ := OrderTypeLimit; Float64.Order.Side := OrderSideBuy;
     Float64.Order.Quantity := quantity; Float64.Order.Price := 150%float;
     Float64.Order.Status := status;
     Float64.Order.FilledQuantity := filled; Float64.Order.FilledPrice := 150%float;
     Float64.Order.SubmittedAt := 0%Z; Float64.Order.FilledAt := filledAt;
     Float64.Order.CancelledAt := None |}.






Definition sample_filled64 : Float64.Order.t :=
  order64 100%float 100%float OrderStatusFilled (Some 1%Z).

Definition sample_cancelled64 : Float64.Order.t :=
  order64 100%float 0%float OrderStatusCancelled None.

Set Warnings "inexact-float".

(** * Facts about comparisons *)

Lemma Qltb_true (a b : Q) : Qltb a b = true ↔ a < b.
Proof.
  unfold Qltb. rewrite negb_true_iff, <- not_true_iff_false, Qle_bool_iff.
  split; [apply Qnot_le_lt | apply Qlt_not_le].
Qed.

Lemma Qltb_false (a b : Q) : Qltb a b = false ↔ b <= a.
Proof. unfold Qltb. rewrite negb_false_iff. apply Qle_bool_iff. Qed.

Lemma Qleb_true (a b : Q) : Qleb a b = true ↔ a <= b.
Proof. apply Qle_bool_iff. Qed.

Lemma Qleb_false (a b : Q) : Qleb a b = false ↔ b < a.
Proof.
  unfold Qleb. rewrite <- not_true_iff_false, Qle_bool_iff.
  split; [apply Qnot_le_lt | apply Qlt_not_le].
Qed.

(** Case analysis on a comparison, leaving the order fact as a hypothesis. *)
Ltac case_Qltb a b :=
  let E := fresh "Hcmp" in
  destruct (Qltb a b) eqn:E;
  [apply Qltb_true in E | apply Qltb_false in E].

Ltac case_Qleb a b :=
  let E := fresh "Hcmp" in
  destruct (Qleb a b) eqn:E;
  [apply Qleb_true in E | apply Qleb_false in E].

(** * Facts about [Order.Fill] *)

Lemma Fill_same_identity o q p now : same_identity o (Order.Fill o q p now).
Proof.
  unfold Order.Fill, same_identity.
  repeat match goal with |- context [if ?b then _ else _] => destruct b end;
    cbn; tauto.
Qed.

Lemma Fill_ID o q p now : Order.ID (Order.Fill o q p now) = Order.ID o.
Proof. apply Fill_same_identity. Qed.

Lemma Fill_Price o q p now : Order.Price (Order.Fill o q p now) = Order.Price o.
Proof. apply Fill_same_identity. Qed.

Lemma Fill_Side o q p now : Order.Side (Order.Fill o q p now) = Order.Side o.
Proof. apply Fill_same_identity. Qed.

Lemma Fill_Quantity o q p now : Order.Quantity (Order.Fill o q p now) = Order.Quantity o.
Proof. apply Fill_same_identity. Qed.

Lemma Fill_Type o q p now : Order.Type_ (Order.Fill o q p now) = Order.Type_ o.
Proof. apply Fill_same_identity. Qed.

Lemma Fill_Symbol o q p now : Order.Symbol (Order.Fill o q p now) = Order.Symbol o.
Proof. apply Fill_same_identity. Qed.

Lemma Fill_FilledQuantity o q p now :
  Order.FilledQuantity (Order.Fill o q p now) = Order.FilledQuantity o + q.
Proof.
  unfold Order.Fill.
  repeat match goal with |- context [if ?b then _ else _] => destruct b end;
    reflexivity.
Qed.

Lemma Fill_Remaining o q p now :
  Order.RemainingQuantity (Order.Fill o q p now) == Order.RemainingQuantity o - q.
Proof.
  unfold Order.RemainingQuantity. rewrite Fill_FilledQuantity, Fill_Quantity. ring.
Qed.

Lemma IsFilled_true o : Order.IsFilled o = true ↔ Order.RemainingQuantity o <= 0.
Proof.
  unfold Order.IsFilled, Order.RemainingQuantity. rewrite Qleb_true.
  split; intros; lra.
Qed.

Lemma IsFilled_false o : Order.IsFilled o = false ↔ 0 < Order.RemainingQuantity o.
Proof.
  unfold Order.IsFilled, Order.RemainingQuantity. rewrite Qleb_false.
  split; intros; lra.
Qed.

(** The status and the timestamp that [Fill] leaves behind, by cases on the
    new filled quantity. *)
Lemma Fill_Status_filled o q p now :
  Order.Quantity o <= Order.FilledQuantity o + q →
  Order.Status (Order.Fill o q p now) = OrderStatusFilled
  ∧ Order.FilledAt (Order.Fill o q p now) = Some now.
Proof.
  intros Hfull. unfold Order.Fill.
  set (o1 := Order.set_FilledQuantity o _).
  assert (Hfilled : ∀ o2, Order.Quantity o2 = Order.Quantity o →
            Order.FilledQuantity o2 = Order.FilledQuantity o + q →
            Order.IsFilled o2 = true).
  { intros o2 E1 E2. unfold Order.IsFilled. rewrite E1, E2. by apply Qleb_true. }
  destruct (Qltb 0 (Order.FilledQuantity o1)); rewrite Hfilled; cbn; auto.
Qed.

Lemma Fill_Status_partial o q p now :
  Order.FilledQuantity o + q < Order.Quantity o →
  0 < Order.FilledQuantity o + q →
  Order.Status (Order.Fill o q p now) = OrderStatusPartial
  ∧ Order.FilledAt (Order.Fill o q p now) = Order.FilledAt o.
Proof.
  intros Hpart Hpos. unfold Order.Fill.
  set (o1 := Order.set_FilledQuantity o _).
  assert (Hlt : Qltb 0 (Order.FilledQuantity o1) = true) by (by apply Qltb_true).
  rewrite Hlt. cbn -[Qltb].
  assert (Hnf : Qleb (Order.Quantity o) (Order.FilledQuantity o + q) = false)
    by (by apply Qleb_false).
  unfold Order.IsFilled. cbn -[Qltb Qleb]. rewrite Hnf.
  assert (Hlt' : Qltb 0 (Order.FilledQuantity o + q) = true) by (by apply Qltb_true).
  rewrite Hlt'. cbn. auto.
Qed.

Lemma Fill_Status_idle o q p now :
  Order.FilledQuantity o + q < Order.Quantity o →
  Order.FilledQuantity o + q <= 0 →
  Order.Status (Order.Fill o q p now) = Order.Status o
  ∧ Order.FilledPrice (Order.Fill o q p now) = Order.FilledPrice o.
Proof.
  intros Hpart Hneg. unfold Order.Fill.
  set (o1 := Order.set_FilledQuantity o _).
  assert (Hlt : Qltb 0 (Order.FilledQuantity o1) = false) by (by apply Qltb_false).
  rewrite Hlt.
  assert (Hnf : Order.IsFilled o1 = false) by (by apply Qleb_false).
  rewrite Hnf. cbn -[Qltb]. cbn -[Qltb] in Hlt. rewrite Hlt. auto.
Qed.

Lemma Fill_FilledPrice o q p now :
  0 < Order.FilledQuantity o + q →
  Order.FilledPrice (Order.Fill o q p now)
  == (Order.FilledPrice o * Order.FilledQuantity o + p * q)
       / (Order.FilledQuantity o + q).
Proof.
  intros Hpos. unfold Order.Fill.
  set (o1 := Order.set_FilledQuantity o _).
  assert (Hlt : Qltb 0 (Order.FilledQuantity o1) = true) by (by apply Qltb_true).
  rewrite Hlt.
  set (o2 := Order.set_FilledPrice o1 _).
  assert (E : Order.FilledPrice o2
              == (Order.FilledPrice o * Order.FilledQuantity o + p * q)
                   / (Order.FilledQuantity o + q)).
  { cbn. field. lra. }
  destruct (Order.IsFilled o2); [exact E|].
  destruct (Qltb 0 (Order.FilledQuantity o2)); exact E.
Qed.

(** * The price-level heap *)

Section heap_facts.
Implicit Types (h : PriceLevelHeap.t) (i j k n : nat) (l : PriceLevel.t).

Lemma prio_refl b a : prio b a a.
Proof. destruct b; cbn; lra. Qed.

Lemma prio_trans b x y z : prio b x y → prio b y z → prio b x z.
Proof. destruct b; cbn; lra. Qed.

Lemma prio_total b x y : prio b x y ∨ prio b y x.
Proof.
  destruct b; cbn; destruct (Qlt_le_dec x y); auto using Qlt_le_weak.
Qed.

Lemma child_parent j : (0 < j)%nat → child ((j - 1) / 2) j.
Proof.
  intros Hj. unfold child.
  pose proof (Nat.div_mod_eq (j - 1) 2).
  pose proof (Nat.mod_upper_bound (j - 1) 2). lia.
Qed.

Lemma parent_lt j : (0 < j)%nat → ((j - 1) / 2 < j)%nat.
Proof.
  intros Hj. pose proof (Nat.div_mod_eq (j - 1) 2).
  pose proof (Nat.mod_upper_bound (j - 1) 2). lia.
Qed.

Lemma parent_fix j : ((j - 1) / 2 = j)%nat → j = 0%nat.
Proof.
  intros E. destruct j as [|j]; [done|].
  pose proof (parent_lt (S j)). lia.
Qed.

(** [Less] and [Swap] succeed on valid indices. *)
Lemma Less_Some h i j li lj :
  PriceLevelHeap.Levels h !! i = Some li →
  PriceLevelHeap.Levels h !! j = Some lj →
  ∃ b, PriceLevelHeap.Less h i j = Some b
       ∧ (b = true → prio (PriceLevelHeap.IsBid h) (PriceLevel.Price li) (PriceLevel.Price lj))
       ∧ (b = false → prio (PriceLevelHeap.IsBid h) (PriceLevel.Price lj) (PriceLevel.Price li)).
Proof.
  intros Hi Hj. unfold PriceLevelHeap.Less. rewrite Hi, Hj. cbn -[Qltb].
  eexists; split; [reflexivity|]. unfold prio.
  destruct (PriceLevelHeap.IsBid h).
  - case_Qltb (PriceLevel.Price lj) (PriceLevel.Price li); split; intros; try done; lra.
  - case_Qltb (PriceLevel.Price li) (PriceLevel.Price lj); split; intros; try done; lra.
Qed.

Lemma Swap_Some h i j li lj :
  PriceLevelHeap.Levels h !! i = Some li →
  PriceLevelHeap.Levels h !! j = Some lj →
  PriceLevelHeap.Swap h i j
  = Some (PriceLevelHeap.set_Levels h
            (<[i := lj]> (<[j := li]> (PriceLevelHeap.Levels h)))).
Proof. intros Hi Hj. unfold PriceLevelHeap.Swap. by rewrite Hi, Hj. Qed.

Lemma swap_lookup (ls : list PriceLevel.t) i j li lj k :
  ls !! i = Some li → ls !! j = Some lj →
  <[i := lj]> (<[j := li]> ls) !! k
  = if decide (k = i) then Some lj else if decide (k = j) then Some li else ls !! k.
Proof.
  intros Hi Hj.
  apply lookup_lt_Some in Hi as Hi'. apply lookup_lt_Some in Hj as Hj'.
  case_decide as Eki.
  - subst k. by rewrite list_lookup_insert_eq by (by rewrite length_insert).
  - rewrite list_lookup_insert_ne by done.
    case_decide as Ekj.
    + subst k. by rewrite list_lookup_insert_eq.
    + by rewrite list_lookup_insert_ne.
Qed.

Lemma swap_Permutation (ls : list PriceLevel.t) i j li lj :
  ls !! i = Some li → ls !! j = Some lj →
  <[i := lj]> (<[j := li]> ls) ≡ₚ ls.
Proof.
  intros Hi Hj. apply Permutation_inj. split.
  - by rewrite !length_insert.
  - exists (λ k, if decide (k = i) then j else if decide (k = j) then i else k).
    split.
    + intros a b. repeat case_decide; lia.
    + intros k. rewrite (swap_lookup _ _ _ _ _ _ Hi Hj).
      repeat case_decide; subst; congruence.
Qed.

Lemma child_inj i i' j : child i j → child i' j → i = i'.
Proof. unfold child. lia. Qed.

Lemma child_lt i j : child i j → (i < j)%nat.
Proof. unfold child. lia. Qed.

(** Exchanging a slot with its parent when the slot wins keeps the weak
    shape, now broken at the parent. *)
Lemma up_weak_swap h i j li lj :
  child i j →
  PriceLevelHeap.Levels h !! i = Some li →
  PriceLevelHeap.Levels h !! j = Some lj →
  prio (PriceLevelHeap.IsBid h) (PriceLevel.Price lj) (PriceLevel.Price li) →
  up_weak h j →
  up_weak (PriceLevelHeap.set_Levels h
             (<[i := lj]> (<[j := li]> (PriceLevelHeap.Levels h)))) i.
Proof.
  intros Hij Hi Hj Hwin [Hpairs Hgrand].
  pose proof (child_lt _ _ Hij) as Hlt.
  split.
  - intros p c Hpc Hci lp lc. cbn.
    rewrite !(swap_lookup _ _ _ _ _ _ Hi Hj).
    pose proof (child_lt _ _ Hpc).
    repeat case_decide; subst; intros; simplify_eq; try lia.
    + done.
    + eapply prio_trans; [exact Hwin|]. by eapply (Hpairs i c).
    + by eapply (Hgrand i c).
    + assert (p = i) by (by eapply child_inj). done.
    + by eapply (Hpairs p c).
  - intros g c Hgi Hic lg lc. cbn.
    rewrite !(swap_lookup _ _ _ _ _ _ Hi Hj).
    pose proof (child_lt _ _ Hgi). pose proof (child_lt _ _ Hic).
    repeat case_decide; subst; intros; simplify_eq; try lia.
    + by eapply (Hpairs g i); [|lia|..].
    + eapply prio_trans.
      * by eapply (Hpairs g i); [|lia|..].
      * by eapply (Hpairs i c).
Qed.

Lemma up_weak_done h i j li lj :
  child i j →
  PriceLevelHeap.Levels h !! i = Some li →
  PriceLevelHeap.Levels h !! j = Some lj →
  prio (PriceLevelHeap.IsBid h) (PriceLevel.Price li) (PriceLevel.Price lj) →
  up_weak h j → heap_ordered h.
Proof.
  intros Hij Hi Hj Hok [Hpairs _] p c Hpc lp lc Hp Hc.
  destruct (decide (c = j)) as [->|].
  - assert (p = i) by (by eapply child_inj). simplify_eq. done.
  - by eapply (Hpairs p c).
Qed.

Lemma up_weak_root h : up_weak h 0 → heap_ordered h.
Proof.
  intros [Hpairs _] p c Hpc. apply Hpairs; [done|].
  pose proof (child_lt _ _ Hpc). lia.
Qed.

(** [up] returns, keeps the levels up to their order, and repairs the
    heap shape. *)
Lemma up_spec fuel h j :
  (j < PriceLevelHeap.Len h)%nat → (j < fuel)%nat →
  ∃ h', heap.up fuel h j = Some h'
        ∧ PriceLevelHeap.IsBid h' = PriceLevelHeap.IsBid h
        ∧ PriceLevelHeap.Levels h' ≡ₚ PriceLevelHeap.Levels h
        ∧ (up_weak h j → heap_ordered h').
Proof.
  revert h j. induction fuel as [|fuel IH]; intros h j Hlen Hfuel; [lia|].
  cbn [heap.up]. case_decide as Ej.
  - apply parent_fix in Ej as ->. exists h. split_and!; [done..|].
    apply up_weak_root.
  - assert (0 < j)%nat as Hpos
      by (destruct j; [exfalso; apply Ej; reflexivity|lia]).
    pose proof (parent_lt j Hpos) as Hplt.
    pose proof (child_parent j Hpos) as Hchild.
    remember ((j - 1) / 2)%nat as i eqn:Ei. clear Ei.
    destruct (lookup_lt_is_Some_2 (PriceLevelHeap.Levels h) j Hlen) as [lj Hj].
    destruct (lookup_lt_is_Some_2 (PriceLevelHeap.Levels h) i) as [li Hi];
      [unfold PriceLevelHeap.Len in Hlen; lia|].
    destruct (Less_Some h j i lj li Hj Hi) as (b & Hless & Htrue & Hfalse).
    change (heap.iLess h j i) with (PriceLevelHeap.Less h j i).
    rewrite Hless. cbn [mbind option_bind].
    destruct b; cbn [negb].
    + change (heap.iSwap h i j) with (PriceLevelHeap.Swap h i j).
      rewrite (Swap_Some h i j li lj Hi Hj). cbn [mbind option_bind].
      set (h1 := PriceLevelHeap.set_Levels h _).
      destruct (IH h1 i) as (h' & Hup & Hbid & Hperm & Hord).
      { unfold h1, PriceLevelHeap.Len. cbn. rewrite !length_insert.
        unfold PriceLevelHeap.Len in Hlen. lia. }
      { lia. }
      exists h'. split_and!; [done|done| |].
      * rewrite Hperm. unfold h1. cbn. by apply swap_Permutation.
      * intros Hweak. apply Hord. by apply up_weak_swap; auto.
    + exists h. split_and!; [done..|].
      intros Hweak. eapply up_weak_done; eauto.
Qed.

(** The child that [down] compares with its parent is the better one. *)
Lemma down_choose h i n :
  (2 * i + 1 < n)%nat → (n ≤ PriceLevelHeap.Len h)%nat →
  ∃ j lj,
    (let j1 := (2 * i + 1)%nat in
     let j2 := (j1 + 1)%nat in
     if (j2 <? n)%nat
     then less ← heap.iLess h j2 j1; Some (if less : bool then j2 else j1)
     else Some j1) = Some j
    ∧ child i j ∧ (j < n)%nat
    ∧ PriceLevelHeap.Levels h !! j = Some lj
    ∧ ∀ c lc, child i c → (c < n)%nat →
        PriceLevelHeap.Levels h !! c = Some lc →
        prio (PriceLevelHeap.IsBid h) (PriceLevel.Price lj) (PriceLevel.Price lc).
Proof.
  intros Hj1 Hn. unfold PriceLevelHeap.Len in Hn. cbn zeta.
  destruct (lookup_lt_is_Some_2 (PriceLevelHeap.Levels h) (2 * i + 1)) as [l1 H1];
    [lia|].
  destruct (2 * i + 1 + 1 <? n)%nat eqn:E2.
  - apply Nat.ltb_lt in E2.
    destruct (lookup_lt_is_Some_2 (PriceLevelHeap.Levels h) (2 * i + 1 + 1)) as [l2 H2];
      [lia|].
    destruct (Less_Some h _ _ l2 l1 H2 H1) as (b & Hless & Htrue & Hfalse).
    change (heap.iLess h) with (PriceLevelHeap.Less h).
    rewrite Hless. cbn [mbind option_bind]. destruct b.
    + exists (2 * i + 1 + 1)%nat, l2. split_and!; [done|right; lia|done|done|].
      intros c lc [->| ->] Hc Hlc.
      * simplify_eq. auto.
      * replace (2 * i + 2)%nat with (2 * i + 1 + 1)%nat in Hlc by lia.
        simplify_eq. apply prio_refl.
    + exists (2 * i + 1)%nat, l1. split_and!; [done|by left|done|done|].
      intros c lc [->| ->] Hc Hlc.
      * simplify_eq. apply prio_refl.
      * replace (2 * i + 2)%nat with (2 * i + 1 + 1)%nat in Hlc by lia.
        simplify_eq. auto.
  - apply Nat.ltb_ge in E2.
    exists (2 * i + 1)%nat, l1. split_and!; [done|by left|done|done|].
    intros c lc [->| ->] Hc Hlc; [|lia].
    simplify_eq. apply prio_refl.
Qed.

Lemma down_weak_swap h i j n li lj :
  child i j → (j < n)%nat →
  PriceLevelHeap.Levels h !! i = Some li →
  PriceLevelHeap.Levels h !! j = Some lj →
  prio (PriceLevelHeap.IsBid h) (PriceLevel.Price lj) (PriceLevel.Price li) →
  (∀ c lc, child i c → (c < n)%nat →
     PriceLevelHeap.Levels h !! c = Some lc →
     prio (PriceLevelHeap.IsBid h) (PriceLevel.Price lj) (PriceLevel.Price lc)) →
  down_weak h i n →
  down_weak (PriceLevelHeap.set_Levels h
               (<[i := lj]> (<[j := li]> (PriceLevelHeap.Levels h)))) j n.
Proof.
  intros Hij Hjn Hi Hj Hwin Hbest [Hpairs Hgrand].
  pose proof (child_lt _ _ Hij) as Hlt.
  split.
  - intros p c Hpc Hcn Hpj lp lc. cbn.
    rewrite !(swap_lookup _ _ _ _ _ _ Hi Hj).
    pose proof (child_lt _ _ Hpc).
    repeat case_decide; subst; intros; simplify_eq; try lia.
    + done.
    + by eapply (Hbest c).
    + by eapply (Hgrand p j).
    + assert (p = i) by (by eapply child_inj). done.
    + by eapply (Hpairs p c).
  - intros g c Hgj Hjc Hcn lg lc. cbn.
    rewrite !(swap_lookup _ _ _ _ _ _ Hi Hj).
    assert (g = i) by (by eapply child_inj). subst g.
    pose proof (child_lt _ _ Hjc).
    repeat case_decide; subst; intros; simplify_eq; try lia.
    eapply (Hpairs j c); [done|done|lia|done|done].
Qed.

Lemma down_weak_done h i j n li lj :
  child i j →
  PriceLevelHeap.Levels h !! i = Some li →
  PriceLevelHeap.Levels h !! j = Some lj →
  prio (PriceLevelHeap.IsBid h) (PriceLevel.Price li) (PriceLevel.Price lj) →
  (∀ c lc, child i c → (c < n)%nat →
     PriceLevelHeap.Levels h !! c = Some lc →
     prio (PriceLevelHeap.IsBid h) (PriceLevel.Price lj) (PriceLevel.Price lc)) →
  down_weak h i n → heap_upto h n.
Proof.
  intros Hij Hi Hj Hok Hbest [Hpairs _] p c Hpc Hcn lp lc Hp Hc.
  destruct (decide (p = i)) as [->|].
  - simplify_eq. eapply prio_trans; [exact Hok|]. by eapply (Hbest c).
  - by eapply (Hpairs p c).
Qed.

Lemma down_weak_leaf h i n :
  (n ≤ 2 * i + 1)%nat → down_weak h i n → heap_upto h n.
Proof.
  intros Hn [Hpairs _] p c Hpc Hcn. apply Hpairs; [done..|].
  intros ->. unfold child in Hpc. lia.
Qed.

(** [down] returns, keeps the levels up to their order, leaves the slots
    from [n] on alone, and repairs the heap shape on the first [n]. *)
Lemma down_spec fuel h i n :
  (n ≤ PriceLevelHeap.Len h)%nat → (n - i < fuel)%nat →
  ∃ h', heap.down fuel h i n = Some h'
        ∧ PriceLevelHeap.IsBid h' = PriceLevelHeap.IsBid h
        ∧ PriceLevelHeap.Levels h' ≡ₚ PriceLevelHeap.Levels h
        ∧ (∀ m, (n ≤ m)%nat →
             PriceLevelHeap.Levels h' !! m = PriceLevelHeap.Levels h !! m)
        ∧ (down_weak h i n → heap_upto h' n).
Proof.
  revert h i. induction fuel as [|fuel IH]; intros h i Hlen Hfuel; [lia|].
  cbn [heap.down]. cbn zeta.
  destruct (n <=? 2 * i + 1)%nat eqn:Eleaf.
  - apply Nat.leb_le in Eleaf. exists h. split_and!; [done..|].
    by apply down_weak_leaf.
  - apply Nat.leb_gt in Eleaf.
    destruct (down_choose h i n Eleaf Hlen) as (j & lj & Hsel & Hij & Hjn & Hj & Hbest).
    cbn zeta in Hsel. rewrite Hsel. cbn [mbind option_bind].
    pose proof (child_lt _ _ Hij) as Hlt.
    destruct (lookup_lt_is_Some_2 (PriceLevelHeap.Levels h) i) as [li Hi];
      [unfold PriceLevelHeap.Len in Hlen; lia|].
    destruct (Less_Some h j i lj li Hj Hi) as (b & Hless & Htrue & Hfalse).
    change (heap.iLess h j i) with (PriceLevelHeap.Less h j i).
    rewrite Hless. cbn [mbind option_bind].
    destruct b; cbn [negb].
    + change (heap.iSwap h i j) with (PriceLevelHeap.Swap h i j).
      rewrite (Swap_Some h i j li lj Hi Hj). cbn [mbind option_bind].
      set (h1 := PriceLevelHeap.set_Levels h _).
      destruct (IH h1 j) as (h' & Hdown & Hbid & Hperm & Hrest & Hord).
      { unfold h1, PriceLevelHeap.Len. cbn. rewrite !length_insert.
        unfold PriceLevelHeap.Len in Hlen. lia. }
      { lia. }
      exists h'. split_and!; [done|done| | |].
      * rewrite Hperm. unfold h1. cbn. by apply swap_Permutation.
      * intros m Hm. rewrite (Hrest m Hm). unfold h1. cbn.
        rewrite (swap_lookup _ _ _ _ _ _ Hi Hj).
        repeat case_decide; try lia. done.
      * intros Hweak. apply Hord. by apply down_weak_swap; auto.
    + exists h. split_and!; [done..|].
      intros Hweak. eapply down_weak_done; eauto.
Qed.

(** [heap.Push] and [heap.Pop] on a price-level heap. *)
Lemma heap_Push_spec h l :
  ∃ h', heap.Push h l = Some h'
        ∧ PriceLevelHeap.IsBid h' = PriceLevelHeap.IsBid h
        ∧ PriceLevelHeap.Levels h' ≡ₚ l :: PriceLevelHeap.Levels h
        ∧ (heap_ordered h → heap_ordered h').
Proof.
  unfold heap.Push.
  change (heap.iPush h l) with (PriceLevelHeap.Push h l).
  set (h1 := PriceLevelHeap.Push h l).
  change (heap.iLen h1) with (PriceLevelHeap.Len h1).
  assert (Hlen1 : PriceLevelHeap.Len h1 = S (PriceLevelHeap.Len h)).
  { unfold h1, PriceLevelHeap.Len. cbn. rewrite length_app. cbn. lia. }
  destruct (up_spec (PriceLevelHeap.Len h1) h1 (PriceLevelHeap.Len h1 - 1))
    as (h' & Hup & Hbid & Hperm & Hord); [lia..|].
  exists h'. split_and!; [done|done| |].
  - rewrite Hperm. unfold h1. cbn. by rewrite Permutation_app_comm.
  - intros Hheap. apply Hord. rewrite Hlen1.
    replace (S (PriceLevelHeap.Len h) - 1)%nat with (PriceLevelHeap.Len h) by lia.
    split.
    + intros p c Hpc Hc lp lc. unfold h1. cbn.
      pose proof (child_lt _ _ Hpc).
      intros Hp Hlc.
      apply lookup_lt_Some in Hlc as Hclt. rewrite length_app in Hclt. cbn in Hclt.
      unfold PriceLevelHeap.Len in *.
      rewrite lookup_app_l in Hp by lia. rewrite lookup_app_l in Hlc by lia.
      by eapply (Hheap p c).
    + intros g c Hgk Hkc lg lc. unfold h1. cbn.
      pose proof (child_lt _ _ Hkc).
      intros _ Hlc. apply lookup_lt_Some in Hlc. rewrite length_app in Hlc.
      cbn in Hlc. unfold PriceLevelHeap.Len in *. lia.
Qed.

Lemma heap_Pop_spec h :
  (0 < PriceLevelHeap.Len h)%nat →
  ∃ h' l, heap.Pop h = Some (h', l)
          ∧ PriceLevelHeap.Levels h !! 0%nat = Some l
          ∧ PriceLevelHeap.IsBid h' = PriceLevelHeap.IsBid h
          ∧ l :: PriceLevelHeap.Levels h' ≡ₚ PriceLevelHeap.Levels h
          ∧ (heap_ordered h → heap_ordered h').
Proof.
  intros Hpos. unfold heap.Pop.
  change (heap.iLen h) with (PriceLevelHeap.Len h).
  remember (PriceLevelHeap.Len h - 1)%nat as n eqn:En.
  assert (Hlen : PriceLevelHeap.Len h = S n) by lia. clear En Hpos.
  unfold PriceLevelHeap.Len in Hlen.
  destruct (lookup_lt_is_Some_2 (PriceLevelHeap.Levels h) 0) as [l0 H0]; [lia|].
  destruct (lookup_lt_is_Some_2 (PriceLevelHeap.Levels h) n) as [ln Hn]; [lia|].
  change (heap.iSwap h 0%nat n) with (PriceLevelHeap.Swap h 0%nat n).
  rewrite (Swap_Some h 0 n l0 ln H0 Hn). cbn [mbind option_bind].
  set (h1 := PriceLevelHeap.set_Levels h _).
  assert (Hlen1 : length (PriceLevelHeap.Levels h1) = S n).
  { unfold h1. cbn. by rewrite !length_insert. }
  destruct (down_spec (S n) h1 0 n) as (h2 & Hdown & Hbid & Hperm & Hrest & Hord).
  { unfold PriceLevelHeap.Len. lia. }
  { lia. }
  rewrite Hdown. cbn [mbind option_bind].
  change (heap.iPop h2) with (PriceLevelHeap.Pop h2).
  assert (Hlen2 : length (PriceLevelHeap.Levels h2) = S n).
  { by rewrite (Permutation_length Hperm). }
  assert (Hlast : PriceLevelHeap.Levels h2 !! n = Some l0).
  { rewrite (Hrest n) by lia. unfold h1. cbn.
    rewrite (swap_lookup _ _ _ _ _ _ H0 Hn).
    repeat case_decide; subst; congruence. }
  unfold PriceLevelHeap.Pop. rewrite Hlen2.
  replace (S n - 1)%nat with n by lia. rewrite Hlast. cbn [mbind option_bind].
  eexists _, l0. split_and!; [done|done|done| |].
  - cbn. rewrite <- (swap_Permutation _ _ _ _ _ H0 Hn). fold h1.
    change (<[0%nat:=ln]> (<[n:=l0]> (PriceLevelHeap.Levels h)))
      with (PriceLevelHeap.Levels h1).
    rewrite <- Hperm.
    rewrite <- (take_drop n (PriceLevelHeap.Levels h2)) at 2.
    rewrite (drop_S _ _ _ Hlast), drop_ge by lia.
    by rewrite Permutation_app_comm.
  - intros Hheap p c Hpc lp lc. cbn.
    intros Hp Hc.
    apply lookup_take_Some in Hp as [Hp Hpn].
    apply lookup_take_Some in Hc as [Hc Hcn].
    eapply (Hord); [|done|done|done|done].
    split.
    + intros p' c' Hpc' Hcn' Hp0 lp' lc'. unfold h1. cbn.
      rewrite !(swap_lookup _ _ _ _ _ _ H0 Hn).
      pose proof (child_lt _ _ Hpc').
      repeat case_decide; try lia. by apply (Hheap p' c').
    + intros g c' Hg0. pose proof (child_lt _ _ Hg0). lia.
Qed.

(** In a heap-ordered side the root has priority over every level. *)
Lemma root_best h r :
  heap_ordered h →
  PriceLevelHeap.Levels h !! 0%nat = Some r →
  ∀ j lj, PriceLevelHeap.Levels h !! j = Some lj →
          prio (PriceLevelHeap.IsBid h) (PriceLevel.Price r) (PriceLevel.Price lj).
Proof.
  intros Hheap Hr j. induction (lt_wf j) as [j _ IH]. intros lj Hj.
  destruct (decide (j = 0%nat)) as [->|Hne].
  - simplify_eq. apply prio_refl.
  - assert (0 < j)%nat as Hpos by lia.
    pose proof (parent_lt j Hpos) as Hplt.
    pose proof (child_parent j Hpos) as Hchild.
    remember ((j - 1) / 2)%nat as i eqn:Ei. clear Ei.
    destruct (lookup_lt_is_Some_2 (PriceLevelHeap.Levels h) i) as [li Hi].
    { apply lookup_lt_Some in Hj. lia. }
    eapply prio_trans; [by apply (IH i)|]. by apply (Hheap i j).
Qed.

Lemma Init_empty b :
  heap.Init (PriceLevelHeap.mk [] b) = Some (PriceLevelHeap.mk [] b).
Proof. reflexivity. Qed.

Lemma heap_ordered_nil b : heap_ordered (PriceLevelHeap.mk [] b).
Proof. intros i j _ li lj Hi. cbn in Hi. by rewrite lookup_nil in Hi. Qed.

End heap_facts.

(** * The matching loops *)

Section loop_facts.
Implicit Types (ob : OrderBook.t) (bl : PriceLevel.t) (order r : Order.t)
  (trades : list Trade.t) (h : PriceLevelHeap.t) (now : Time).

Lemma min_cases (a b : Q) :
  (a < b ∧ MatchingEngine.min a b = a) ∨ (b <= a ∧ MatchingEngine.min a b = b).
Proof. unfold MatchingEngine.min. case_Qltb a b; auto. Qed.

(** ** Accessors of the two sides *)

Lemma oppositeHeap_set ob order h :
  MatchingEngine.oppositeHeap (MatchingEngine.set_oppositeHeap ob order h) order = h.
Proof.
  unfold MatchingEngine.oppositeHeap, MatchingEngine.set_oppositeHeap.
  by case_decide.
Qed.

Lemma ownHeap_set ob order h :
  ownHeap (MatchingEngine.set_oppositeHeap ob order h) order = ownHeap ob order.
Proof.
  unfold ownHeap, MatchingEngine.set_oppositeHeap. by case_decide.
Qed.

Lemma orders_set ob order h :
  OrderBook.orders (MatchingEngine.set_oppositeHeap ob order h) = OrderBook.orders ob.
Proof. unfold MatchingEngine.set_oppositeHeap. by case_decide. Qed.

Lemma oppositeHeap_side ob order order' :
  Order.Side order' = Order.Side order →
  MatchingEngine.oppositeHeap ob order' = MatchingEngine.oppositeHeap ob order.
Proof. unfold MatchingEngine.oppositeHeap. by intros ->. Qed.

Lemma set_oppositeHeap_side ob order order' h :
  Order.Side order' = Order.Side order →
  MatchingEngine.set_oppositeHeap ob order' h = MatchingEngine.set_oppositeHeap ob order h.
Proof. unfold MatchingEngine.set_oppositeHeap. by intros ->. Qed.

Lemma ownHeap_side ob order order' :
  Order.Side order' = Order.Side order → ownHeap ob order' = ownHeap ob order.
Proof. unfold ownHeap. by intros ->. Qed.

Lemma oppositeHeap_set_Last ob order p tr :
  MatchingEngine.oppositeHeap (OrderBook.set_Last ob p tr) order
  = MatchingEngine.oppositeHeap ob order.
Proof. unfold MatchingEngine.oppositeHeap. by case_decide. Qed.

Lemma ownHeap_set_Last ob order p tr :
  ownHeap (OrderBook.set_Last ob p tr) order = ownHeap ob order.
Proof. unfold ownHeap. by case_decide. Qed.

Lemma Peek_Some h :
  (0 < PriceLevelHeap.Len h)%nat →
  ∃ bl, PriceLevelHeap.Peek h = Some bl ∧ PriceLevelHeap.Levels h !! 0%nat = Some bl.
Proof.
  intros Hlen. unfold PriceLevelHeap.Peek.
  destruct (PriceLevelHeap.Len h =? 0)%nat eqn:E; [apply Nat.eqb_eq in E; lia|].
  destruct (lookup_lt_is_Some_2 (PriceLevelHeap.Levels h) 0) as [bl Hbl]; [done|].
  eauto.
Qed.

Lemma Peek_lookup h bl :
  PriceLevelHeap.Peek h = Some bl → PriceLevelHeap.Levels h !! 0%nat = Some bl.
Proof.
  unfold PriceLevelHeap.Peek. by destruct (PriceLevelHeap.Len h =? 0)%nat.
Qed.

(** ** The loops in terms of their named bodies *)

Lemma matchLimitOrder_level_S fuel now ob bl order trades :
  MatchingEngine.matchLimitOrder_level (S fuel) now ob bl order trades
  = if (0 <? length (PriceLevel.Orders bl))%nat
       && Qltb 0 (Order.RemainingQuantity order)
    then '(ob, bl, order, trades) ← matchHead now ob bl order trades;
         MatchingEngine.matchLimitOrder_level fuel now ob bl order trades
    else Some (ob, bl, order, trades).
Proof.
  cbn [MatchingEngine.matchLimitOrder_level].
  destruct (_ && _); [|done]. unfold matchHead, newTradeFor.
  by destruct (PriceLevel.Orders bl !! 0%nat).
Qed.

Lemma matchMarketOrder_level_S fuel now ob bl order trades :
  MatchingEngine.matchMarketOrder_level (S fuel) now ob bl order trades
  = if (0 <? length (PriceLevel.Orders bl))%nat
       && Qltb 0 (Order.RemainingQuantity order)
    then '(ob, bl, order, trades) ← matchHead now ob bl order trades;
         if Order.IsFilled order then Some (ob, bl, order, trades)
         else MatchingEngine.matchMarketOrder_level fuel now ob bl order trades
    else Some (ob, bl, order, trades).
Proof.
  cbn [MatchingEngine.matchMarketOrder_level].
  destruct (_ && _); [|done]. unfold matchHead, newTradeFor.
  by destruct (PriceLevel.Orders bl !! 0%nat).
Qed.

Lemma matchLimitOrder_loop_S fuel now ob order trades :
  MatchingEngine.matchLimitOrder_loop (S fuel) now ob order trades
  = let h := MatchingEngine.oppositeHeap ob order in
    if Qltb 0 (Order.RemainingQuantity order) && (0 <? PriceLevelHeap.Len h)%nat
    then
      match PriceLevelHeap.Peek h with
      | None => Some (ob, order, trades)
      | Some bestLevel =>
          if (length (PriceLevel.Orders bestLevel) =? 0)%nat
          then Some (ob, order, trades)
          else if bool_decide (Order.Side order = OrderSideBuy)
                  && Qltb (Order.Price order) (PriceLevel.Price bestLevel)
          then Some (ob, order, trades)
          else if bool_decide (Order.Side order = OrderSideSell)
                  && Qltb (PriceLevel.Price bestLevel) (Order.Price order)
          then Some (ob, order, trades)
          else
            '(ob, bestLevel, order, trades) ←
              MatchingEngine.matchLimitOrder_level
                (S (length (PriceLevel.Orders bestLevel))) now ob bestLevel order trades;
            ob ← closeLevel ob bestLevel order;
            MatchingEngine.matchLimitOrder_loop fuel now ob order trades
      end
    else Some (ob, order, trades).
Proof. reflexivity. Qed.

Lemma matchMarketOrder_loop_S fuel now ob order trades :
  MatchingEngine.matchMarketOrder_loop (S fuel) now ob order trades
  = let h := MatchingEngine.oppositeHeap ob order in
    if Qltb 0 (Order.RemainingQuantity order) && (0 <? PriceLevelHeap.Len h)%nat
    then
      match PriceLevelHeap.Peek h with
      | None => Some (ob, order, trades)
      | Some bestLevel =>
          if (length (PriceLevel.Orders bestLevel) =? 0)%nat
          then
            '(h, _) ← heap.Pop h;
            MatchingEngine.matchMarketOrder_loop fuel now
              (MatchingEngine.set_oppositeHeap ob order h) order trades
          else
            '(ob, bestLevel, order, trades) ←
              MatchingEngine.matchMarketOrder_level
                (S (length (PriceLevel.Orders bestLevel))) now ob bestLevel order trades;
            ob ← closeLevel ob bestLevel order;
            MatchingEngine.matchMarketOrder_loop fuel now ob order trades
      end
    else Some (ob, order, trades).
Proof. reflexivity. Qed.

(** ** One pass of the FIFO body *)

Lemma matchHead_inv now ob bl order trades ob' bl' order' trades' :
  matchHead now ob bl order trades = Some (ob', bl', order', trades') →
  ∃ r rest,
    PriceLevel.Orders bl = r :: rest
    ∧ ob' = OrderBook.set_Last ob (Order.Price r) (Some (headTrade order r))
    ∧ order' = Order.Fill order (headQty order r) (Order.Price r) now
    ∧ trades' = trades ++ [headTrade order r]
    ∧ bl' = (let r' := Order.Fill r (headQty order r) (Order.Price r) now in
             if Order.IsFilled r'
             then PriceLevel.set_Orders bl rest
             else PriceLevel.set_Orders bl (r' :: rest)).
Proof.
  unfold matchHead. intros H.
  destruct (PriceLevel.Orders bl) as [|r rest] eqn:E; [done|].
  cbn in H. exists r, rest. split; [done|].
  fold (headQty order r) in H. fold (headTrade order r) in H.
  destruct (Order.IsFilled (Order.Fill r (headQty order r) (Order.Price r) now)) eqn:EF;
    cbn in H; simplify_eq; auto.
Qed.

Lemma matchHead_Some now ob bl order trades :
  PriceLevel.Orders bl ≠ [] →
  is_Some (matchHead now ob bl order trades).
Proof.
  intros Hne. unfold matchHead.
  destruct (PriceLevel.Orders bl) as [|r rest] eqn:E; [done|]. cbn. eauto.
Qed.

(** Each pass either removes the head of the queue or exhausts the
    incoming order. *)
Lemma head_progress now order r :
  0 < Order.RemainingQuantity order →
  let r' := Order.Fill r (headQty order r) (Order.Price r) now in
  let order' := Order.Fill order (headQty order r) (Order.Price r) now in
  Order.IsFilled r' = false →
  Order.RemainingQuantity order' <= 0.
Proof.
  intros Hpos r' order' Hnf. apply IsFilled_false in Hnf.
  unfold r' in Hnf. unfold order'. rewrite Fill_Remaining in *.
  unfold headQty in *.
  destruct (min_cases (Order.RemainingQuantity order) (Order.RemainingQuantity r))
    as [[? ->]|[? E]]; [lra|]. rewrite E in Hnf. lra.
Qed.

(** ** Loop rules

    The rule of a loop: a predicate that holds on entry and is kept by
    every pass holds when the loop returns, together with the negation of
    the loop condition. *)

Lemma matchLimitOrder_level_rule
    (J : OrderBook.t → PriceLevel.t → Order.t → list Trade.t → Prop) now :
  (∀ ob bl order trades ob' bl' order' trades',
     J ob bl order trades →
     0 < Order.RemainingQuantity order →
     matchHead now ob bl order trades = Some (ob', bl', order', trades') →
     J ob' bl' order' trades') →
  ∀ fuel ob bl order trades ob' bl' order' trades',
    J ob bl order trades →
    MatchingEngine.matchLimitOrder_level fuel now ob bl order trades
    = Some (ob', bl', order', trades') →
    J ob' bl' order' trades'
    ∧ (PriceLevel.Orders bl' = [] ∨ Order.RemainingQuantity order' <= 0).
Proof.
  intros Hstep fuel. induction fuel as [|fuel IH];
    intros ob bl order trades ob' bl' order' trades' HJ Hrun; [done|].
  rewrite matchLimitOrder_level_S in Hrun.
  destruct (0 <? length (PriceLevel.Orders bl))%nat eqn:Elen; cbn [andb] in Hrun.
  - case_Qltb 0 (Order.RemainingQuantity order).
    + destruct (matchHead now ob bl order trades)
        as [[[[ob1 bl1] order1] trades1]|] eqn:Ehead; [|done].
      cbn in Hrun. eapply IH; [|exact Hrun]. eapply Hstep; eauto.
    + simplify_eq. auto.
  - simplify_eq. split; [done|left].
    apply Nat.ltb_ge in Elen. destruct (PriceLevel.Orders bl'); [done|cbn in Elen; lia].
Qed.

Lemma matchMarketOrder_level_rule
    (J : OrderBook.t → PriceLevel.t → Order.t → list Trade.t → Prop) now :
  (∀ ob bl order trades ob' bl' order' trades',
     J ob bl order trades →
     0 < Order.RemainingQuantity order →
     matchHead now ob bl order trades = Some (ob', bl', order', trades') →
     J ob' bl' order' trades') →
  ∀ fuel ob bl order trades ob' bl' order' trades',
    J ob bl order trades →
    MatchingEngine.matchMarketOrder_level fuel now ob bl order trades
    = Some (ob', bl', order', trades') →
    J ob' bl' order' trades'
    ∧ (PriceLevel.Orders bl' = [] ∨ Order.RemainingQuantity order' <= 0).
Proof.
  intros Hstep fuel. induction fuel as [|fuel IH];
    intros ob bl order trades ob' bl' order' trades' HJ Hrun; [done|].
  rewrite matchMarketOrder_level_S in Hrun.
  destruct (0 <? length (PriceLevel.Orders bl))%nat eqn:Elen; cbn [andb] in Hrun.
  - case_Qltb 0 (Order.RemainingQuantity order).
    + destruct (matchHead now ob bl order trades)
        as [[[[ob1 bl1] order1] trades1]|] eqn:Ehead; [|done].
      cbn in Hrun.
      assert (HJ1 : J ob1 bl1 order1 trades1) by (eapply Hstep; eauto).
      destruct (Order.IsFilled order1) eqn:EF.
      * simplify_eq. split; [done|right]. by apply IsFilled_true.
      * eapply IH; [|exact Hrun]. done.
    + simplify_eq. auto.
  - simplify_eq. split; [done|left].
    apply Nat.ltb_ge in Elen. destruct (PriceLevel.Orders bl'); [done|cbn in Elen; lia].
Qed.

(** The FIFO loops return within their budget. *)
Lemma matchLimitOrder_level_total fuel now ob bl order trades :
  (length (PriceLevel.Orders bl) < fuel)%nat →
  is_Some (MatchingEngine.matchLimitOrder_level fuel now ob bl order trades).
Proof.
  revert ob bl order trades. induction fuel as [|fuel IH];
    intros ob bl order trades Hfuel; [lia|].
  rewrite matchLimitOrder_level_S.
  destruct (0 <? length (PriceLevel.Orders bl))%nat eqn:Elen; cbn [andb]; [|eauto].
  case_Qltb 0 (Order.RemainingQuantity order); [|eauto].
  apply Nat.ltb_lt in Elen.
  destruct (matchHead now ob bl order trades)
    as [[[[ob1 bl1] order1] trades1]|] eqn:Ehead.
  2: { destruct (matchHead_Some now ob bl order trades) as [? ?]; [|congruence].
       intros E. rewrite E in Elen. cbn in Elen. lia. }
  cbn. apply matchHead_inv in Ehead as (r & rest & Eq & -> & -> & -> & Ebl).
  rewrite Eq in Hfuel. cbn in Hfuel. cbn zeta in Ebl.
  destruct (Order.IsFilled (Order.Fill r (headQty order r) (Order.Price r) now)) eqn:EF;
    subst bl1.
  - apply IH. cbn. lia.
  - pose proof (head_progress now order r Hcmp EF) as Hdone. cbn zeta in Hdone.
    destruct fuel as [|fuel]; [lia|].
    rewrite matchLimitOrder_level_S.
    apply Qltb_false in Hdone. rewrite Hdone, andb_false_r. eauto.
Qed.

Lemma matchMarketOrder_level_total fuel now ob bl order trades :
  (length (PriceLevel.Orders bl) < fuel)%nat →
  is_Some (MatchingEngine.matchMarketOrder_level fuel now ob bl order trades).
Proof.
  revert ob bl order trades. induction fuel as [|fuel IH];
    intros ob bl order trades Hfuel; [lia|].
  rewrite matchMarketOrder_level_S.
  destruct (0 <? length (PriceLevel.Orders bl))%nat eqn:Elen; cbn [andb]; [|eauto].
  case_Qltb 0 (Order.RemainingQuantity order); [|eauto].
  apply Nat.ltb_lt in Elen.
  destruct (matchHead now ob bl order trades)
    as [[[[ob1 bl1] order1] trades1]|] eqn:Ehead.
  2: { destruct (matchHead_Some now ob bl order trades) as [? ?]; [|congruence].
       intros E. rewrite E in Elen. cbn in Elen. lia. }
  cbn. destruct (Order.IsFilled order1) eqn:EFo; [eauto|].
  apply matchHead_inv in Ehead as (r & rest & Eq & -> & -> & -> & Ebl).
  rewrite Eq in Hfuel. cbn in Hfuel. cbn zeta in Ebl.
  destruct (Order.IsFilled (Order.Fill r (headQty order r) (Order.Price r) now)) eqn:EF;
    subst bl1.
  - apply IH. cbn. lia.
  - pose proof (head_progress now order r Hcmp EF) as Hdone. cbn zeta in Hdone.
    apply IsFilled_false in EFo. lra.
Qed.

Lemma level_run_rule
    (J : OrderBook.t → PriceLevel.t → Order.t → list Trade.t → Prop) now :
  (∀ ob bl order trades ob' bl' order' trades',
     J ob bl order trades →
     0 < Order.RemainingQuantity order →
     matchHead now ob bl order trades = Some (ob', bl', order', trades') →
     J ob' bl' order' trades') →
  ∀ ob bl order trades ob' bl' order' trades',
    J ob bl order trades →
    level_run now ob bl order trades (ob', bl', order', trades') →
    J ob' bl' order' trades'
    ∧ (PriceLevel.Orders bl' = [] ∨ Order.RemainingQuantity order' <= 0).
Proof.
  intros Hstep ob bl order trades ob' bl' order' trades' HJ [fuel [Hrun|Hrun]].
  - eapply matchLimitOrder_level_rule; eauto.
  - eapply matchMarketOrder_level_rule; eauto.
Qed.

Lemma length_zero_nil {A} (l : list A) : (length l =? 0)%nat = true ↔ l = [].
Proof. rewrite Nat.eqb_eq. destruct l; cbn; split; intros; done || lia. Qed.

Lemma length_zero_cons {A} (l : list A) : (length l =? 0)%nat = false ↔ l ≠ [].
Proof. rewrite Nat.eqb_neq. destruct l; cbn; split; intros; done || lia. Qed.

Lemma matchLimitOrder_loop_rule
    (I : OrderBook.t → Order.t → list Trade.t → Prop) now :
  (∀ ob order trades ob2 order1 trades1,
     I ob order trades → pass now true ob order trades ob2 order1 trades1 →
     I ob2 order1 trades1) →
  ∀ fuel ob order trades ob' order' trades',
    I ob order trades →
    MatchingEngine.matchLimitOrder_loop fuel now ob order trades
    = Some (ob', order', trades') →
    I ob' order' trades' ∧ loop_exit true ob' order'.
Proof.
  intros Hstep fuel. induction fuel as [|fuel IH];
    intros ob order trades ob' order' trades' HI Hrun; [done|].
  rewrite matchLimitOrder_loop_S in Hrun. cbn zeta in Hrun.
  case_Qltb 0 (Order.RemainingQuantity order); cbn [andb] in Hrun.
  2: { simplify_eq. split; [done|by left]. }
  destruct (0 <? PriceLevelHeap.Len (MatchingEngine.oppositeHeap ob order))%nat eqn:Elen.
  2: { simplify_eq. split; [done|right; left]. apply Nat.ltb_ge in Elen. lia. }
  apply Nat.ltb_lt in Elen.
  destruct (Peek_Some _ Elen) as (bl & Hpeek & Hbl). rewrite Hpeek in Hrun.
  destruct (length (PriceLevel.Orders bl) =? 0)%nat eqn:Eempty.
  { apply length_zero_nil in Eempty. simplify_eq.
    split; [done|]. right; right. split; [done|]. eauto. }
  apply length_zero_cons in Eempty.
  destruct (bool_decide (Order.Side order = OrderSideBuy)
            && Qltb (Order.Price order) (PriceLevel.Price bl)) eqn:Ebuy.
  { apply andb_true_iff in Ebuy as [Eside Eprice].
    apply bool_decide_eq_true in Eside. apply Qltb_true in Eprice. simplify_eq.
    split; [done|]. right; right. split; [done|].
    exists bl. split; [done|]. right. left. auto. }
  destruct (bool_decide (Order.Side order = OrderSideSell)
            && Qltb (PriceLevel.Price bl) (Order.Price order)) eqn:Esell.
  { apply andb_true_iff in Esell as [Eside Eprice].
    apply bool_decide_eq_true in Eside. apply Qltb_true in Eprice. simplify_eq.
    split; [done|]. right; right. split; [done|].
    exists bl. split; [done|]. right. right. auto. }
  destruct (MatchingEngine.matchLimitOrder_level _ now ob bl order trades)
    as [[[[ob1 bl1] order1] trades1]|] eqn:Elevel; [|done].
  cbn in Hrun.
  destruct (closeLevel ob1 bl1 order1) as [ob2|] eqn:Eclose; [|done].
  cbn in Hrun. eapply IH; [|exact Hrun].
  eapply Hstep; [exact HI|]. split; [done|]. exists bl. split; [done|]. right.
  split; [done|]. split.
  - intros _. split; intros Hside.
    + rewrite (bool_decide_eq_true_2 _ Hside) in Ebuy. cbn in Ebuy.
      by apply Qltb_false in Ebuy.
    + rewrite (bool_decide_eq_true_2 _ Hside) in Esell. cbn in Esell.
      by apply Qltb_false in Esell.
  - exists ob1, bl1. split; [|done]. eexists. left. exact Elevel.
Qed.

Lemma matchMarketOrder_loop_rule
    (I : OrderBook.t → Order.t → list Trade.t → Prop) now :
  (∀ ob order trades ob2 order1 trades1,
     I ob order trades → pass now false ob order trades ob2 order1 trades1 →
     I ob2 order1 trades1) →
  ∀ fuel ob order trades ob' order' trades',
    I ob order trades →
    MatchingEngine.matchMarketOrder_loop fuel now ob order trades
    = Some (ob', order', trades') →
    I ob' order' trades' ∧ loop_exit false ob' order'.
Proof.
  intros Hstep fuel. induction fuel as [|fuel IH];
    intros ob order trades ob' order' trades' HI Hrun; [done|].
  rewrite matchMarketOrder_loop_S in Hrun. cbn zeta in Hrun.
  case_Qltb 0 (Order.RemainingQuantity order); cbn [andb] in Hrun.
  2: { simplify_eq. split; [done|by left]. }
  destruct (0 <? PriceLevelHeap.Len (MatchingEngine.oppositeHeap ob order))%nat eqn:Elen.
  2: { simplify_eq. split; [done|right; left]. apply Nat.ltb_ge in Elen. lia. }
  apply Nat.ltb_lt in Elen.
  destruct (Peek_Some _ Elen) as (bl & Hpeek & Hbl). rewrite Hpeek in Hrun.
  destruct (length (PriceLevel.Orders bl) =? 0)%nat eqn:Eempty.
  - apply length_zero_nil in Eempty.
    destruct (heap.Pop (MatchingEngine.oppositeHeap ob order)) as [[h x]|] eqn:Epop;
      [|done].
    cbn in Hrun. eapply IH; [|exact Hrun].
    eapply Hstep; [exact HI|]. split; [done|]. exists bl. split; [done|]. left.
    split_and!; [done..|]. eauto.
  - apply length_zero_cons in Eempty.
    destruct (MatchingEngine.matchMarketOrder_level _ now ob bl order trades)
      as [[[[ob1 bl1] order1] trades1]|] eqn:Elevel; [|done].
    cbn in Hrun.
    destruct (closeLevel ob1 bl1 order1) as [ob2|] eqn:Eclose; [|done].
    cbn in Hrun. eapply IH; [|exact Hrun].
    eapply Hstep; [exact HI|]. split; [done|]. exists bl. split; [done|]. right.
    split; [done|]. split; [done|].
    exists ob1, bl1. split; [|done]. eexists. right. exact Elevel.
Qed.

(** ** What a run leaves untouched *)

Lemma same_identity_refl order : same_identity order order.
Proof. unfold same_identity. tauto. Qed.

Lemma same_identity_trans o1 o2 o3 :
  same_identity o1 o2 → same_identity o2 o3 → same_identity o1 o3.
Proof. unfold same_identity. intuition congruence. Qed.

Lemma same_identity_Side o1 o2 : same_identity o1 o2 → Order.Side o2 = Order.Side o1.
Proof. unfold same_identity. tauto. Qed.

Lemma level_run_frame now ob bl order trades ob' bl' order' trades' :
  level_run now ob bl order trades (ob', bl', order', trades') →
  (same_identity order order'
   ∧ PriceLevel.Price bl' = PriceLevel.Price bl
   ∧ book_frame ob ob')
  ∧ (PriceLevel.Orders bl' = [] ∨ Order.RemainingQuantity order' <= 0).
Proof.
  intros Hrun.
  eapply (level_run_rule
            (λ ob1 bl1 order1 _,
               same_identity order order1
               ∧ PriceLevel.Price bl1 = PriceLevel.Price bl
               ∧ book_frame ob ob1)); [|split_and!|exact Hrun].
  - intros ob1 bl1 order1 trades1 ob2 bl2 order2 trades2 (Hid & Hprice & Hframe) _ Hhead.
    apply matchHead_inv in Hhead as (r & rest & Eq & -> & -> & -> & ->).
    split_and!.
    + eapply same_identity_trans; [exact Hid|apply Fill_same_identity].
    + cbn zeta. by destruct (Order.IsFilled _).
    + unfold book_frame in *. cbn. tauto.
  - apply same_identity_refl.
  - done.
  - unfold book_frame. tauto.
Qed.

Lemma set_oppositeHeap_twice ob order h1 h2 :
  MatchingEngine.set_oppositeHeap (MatchingEngine.set_oppositeHeap ob order h1) order h2
  = MatchingEngine.set_oppositeHeap ob order h2.
Proof. unfold MatchingEngine.set_oppositeHeap. by case_decide. Qed.

(** [closeLevel] stores the level at the root and pops it when empty. *)
Lemma closeLevel_spec ob bl order :
  let h := MatchingEngine.oppositeHeap ob order in
  let h1 := PriceLevelHeap.set_Levels h (<[0%nat := bl]> (PriceLevelHeap.Levels h)) in
  (0 < PriceLevelHeap.Len h)%nat →
  ∃ h', closeLevel ob bl order
        = Some (MatchingEngine.set_oppositeHeap ob order h')
        ∧ PriceLevelHeap.IsBid h' = PriceLevelHeap.IsBid h
        ∧ (PriceLevel.Orders bl ≠ [] → h' = h1)
        ∧ (PriceLevel.Orders bl = [] →
           bl :: PriceLevelHeap.Levels h' ≡ₚ PriceLevelHeap.Levels h1
           ∧ (heap_ordered h1 → heap_ordered h')).
Proof.
  intros h h1 Hlen. unfold closeLevel, MatchingEngine.store_bestLevel.
  fold h. fold h1. rewrite oppositeHeap_set.
  destruct (length (PriceLevel.Orders bl) =? 0)%nat eqn:Eempty.
  - apply length_zero_nil in Eempty.
    assert (Hlen1 : (0 < PriceLevelHeap.Len h1)%nat).
    { unfold h1, PriceLevelHeap.Len. cbn. by rewrite length_insert. }
    destruct (heap_Pop_spec h1 Hlen1) as (h' & l & Hpop & Hroot & Hbid & Hperm & Hord).
    rewrite Hpop. cbn. rewrite set_oppositeHeap_twice.
    assert (l = bl) as ->.
    { unfold h1 in Hroot. cbn in Hroot.
      rewrite list_lookup_insert_eq in Hroot by done. congruence. }
    exists h'. split_and!; [done|done|done|]. auto.
  - apply length_zero_cons in Eempty.
    exists h1. split_and!; [done|done|done|done].
Qed.

Lemma closeLevel_Len ob bl order ob2 :
  (0 < PriceLevelHeap.Len (MatchingEngine.oppositeHeap ob order))%nat →
  closeLevel ob bl order = Some ob2 →
  (PriceLevel.Orders bl = [] →
   S (PriceLevelHeap.Len (MatchingEngine.oppositeHeap ob2 order))
   = PriceLevelHeap.Len (MatchingEngine.oppositeHeap ob order))
  ∧ (PriceLevel.Orders bl ≠ [] →
     PriceLevelHeap.Len (MatchingEngine.oppositeHeap ob2 order)
     = PriceLevelHeap.Len (MatchingEngine.oppositeHeap ob order)).
Proof.
  intros Hlen Hclose.
  destruct (closeLevel_spec ob bl order Hlen) as (h' & Hc & _ & Hne & Hempty).
  rewrite Hc in Hclose. simplify_eq. rewrite oppositeHeap_set.
  unfold PriceLevelHeap.Len. split.
  - intros E. destruct (Hempty E) as [Hperm _].
    apply Permutation_length in Hperm. cbn in Hperm.
    by rewrite length_insert in Hperm.
  - intros NE. rewrite (Hne NE). cbn. by rewrite length_insert.
Qed.

Lemma book_frame_oppositeHeap ob ob' order :
  book_frame ob ob' →
  MatchingEngine.oppositeHeap ob' order = MatchingEngine.oppositeHeap ob order.
Proof.
  intros (Hb & Ha & _). unfold MatchingEngine.oppositeHeap. by rewrite Hb, Ha.
Qed.

(** ** The outer loops return within their budget *)

Lemma loop_idle_limit fuel now ob order trades :
  Order.RemainingQuantity order <= 0 →
  MatchingEngine.matchLimitOrder_loop (S fuel) now ob order trades
  = Some (ob, order, trades).
Proof.
  intros H. apply Qltb_false in H. cbn. by rewrite H.
Qed.

Lemma loop_idle_market fuel now ob order trades :
  Order.RemainingQuantity order <= 0 →
  MatchingEngine.matchMarketOrder_loop (S fuel) now ob order trades
  = Some (ob, order, trades).
Proof.
  intros H. apply Qltb_false in H. cbn. by rewrite H.
Qed.

Lemma matchLimitOrder_loop_total fuel now ob order trades :
  (PriceLevelHeap.Len (MatchingEngine.oppositeHeap ob order) < fuel)%nat →
  is_Some (MatchingEngine.matchLimitOrder_loop fuel now ob order trades).
Proof.
  revert ob order trades. induction fuel as [|fuel IH];
    intros ob order trades Hfuel; [lia|].
  rewrite matchLimitOrder_loop_S. cbn zeta.
  case_Qltb 0 (Order.RemainingQuantity order); cbn [andb]; [|eauto].
  destruct (0 <? PriceLevelHeap.Len (MatchingEngine.oppositeHeap ob order))%nat eqn:Elen;
    [|eauto].
  apply Nat.ltb_lt in Elen.
  destruct (Peek_Some _ Elen) as (bl & Hpeek & Hbl). rewrite Hpeek.
  destruct (length (PriceLevel.Orders bl) =? 0)%nat eqn:Eempty; [eauto|].
  destruct (_ && Qltb (Order.Price order) _); [eauto|].
  destruct (_ && Qltb _ (Order.Price order)); [eauto|].
  destruct (matchLimitOrder_level_total (S (length (PriceLevel.Orders bl)))
              now ob bl order trades) as [[[[ob1 bl1] order1] trades1] Elevel]; [lia|].
  rewrite Elevel. cbn.
  assert (Hrun : level_run now ob bl order trades (ob1, bl1, order1, trades1))
    by (eexists; left; exact Elevel).
  apply level_run_frame in Hrun as [(Hid & Hprice & Hframe) Hexit].
  pose proof (same_identity_Side _ _ Hid) as Hside.
  assert (Hopp : MatchingEngine.oppositeHeap ob1 order1
                 = MatchingEngine.oppositeHeap ob order).
  { rewrite (oppositeHeap_side _ _ _ Hside). by apply book_frame_oppositeHeap. }
  assert (Hlen1 : (0 < PriceLevelHeap.Len (MatchingEngine.oppositeHeap ob1 order1))%nat)
    by (by rewrite Hopp).
  destruct (closeLevel_spec ob1 bl1 order1 Hlen1) as (h' & Hclose & _).
  rewrite Hclose. cbn.
  destruct (closeLevel_Len _ _ _ _ Hlen1 Hclose) as [Hpop Hkeep].
  rewrite Hopp in Hpop, Hkeep.
  destruct (decide (PriceLevel.Orders bl1 = [])) as [E|NE].
  - apply IH. specialize (Hpop E). lia.
  - destruct Hexit as [?|Hdone]; [done|].
    destruct fuel as [|fuel]; [lia|]. rewrite loop_idle_limit by done. eauto.
Qed.

Lemma matchMarketOrder_loop_total fuel now ob order trades :
  (PriceLevelHeap.Len (MatchingEngine.oppositeHeap ob order) < fuel)%nat →
  is_Some (MatchingEngine.matchMarketOrder_loop fuel now ob order trades).
Proof.
  revert ob order trades. induction fuel as [|fuel IH];
    intros ob order trades Hfuel; [lia|].
  rewrite matchMarketOrder_loop_S. cbn zeta.
  case_Qltb 0 (Order.RemainingQuantity order); cbn [andb]; [|eauto].
  destruct (0 <? PriceLevelHeap.Len (MatchingEngine.oppositeHeap ob order))%nat eqn:Elen;
    [|eauto].
  apply Nat.ltb_lt in Elen.
  destruct (Peek_Some _ Elen) as (bl & Hpeek & Hbl). rewrite Hpeek.
  destruct (length (PriceLevel.Orders bl) =? 0)%nat eqn:Eempty.
  - destruct (heap_Pop_spec _ Elen) as (h' & l & Hpop & _ & _ & Hperm & _).
    rewrite Hpop. cbn. apply IH. rewrite oppositeHeap_set.
    apply Permutation_length in Hperm. cbn in Hperm.
    unfold PriceLevelHeap.Len in *. lia.
  - destruct (matchMarketOrder_level_total (S (length (PriceLevel.Orders bl)))
                now ob bl order trades) as [[[[ob1 bl1] order1] trades1] Elevel]; [lia|].
    rewrite Elevel. cbn.
    assert (Hrun : level_run now ob bl order trades (ob1, bl1, order1, trades1))
      by (eexists; right; exact Elevel).
    apply level_run_frame in Hrun as [(Hid & Hprice & Hframe) Hexit].
    pose proof (same_identity_Side _ _ Hid) as Hside.
    assert (Hopp : MatchingEngine.oppositeHeap ob1 order1
                   = MatchingEngine.oppositeHeap ob order).
    { rewrite (oppositeHeap_side _ _ _ Hside). by apply book_frame_oppositeHeap. }
    assert (Hlen1 : (0 < PriceLevelHeap.Len (MatchingEngine.oppositeHeap ob1 order1))%nat)
      by (by rewrite Hopp).
    destruct (closeLevel_spec ob1 bl1 order1 Hlen1) as (h' & Hclose & _).
    rewrite Hclose. cbn.
    destruct (closeLevel_Len _ _ _ _ Hlen1 Hclose) as [Hpop Hkeep].
    rewrite Hopp in Hpop, Hkeep.
    destruct (decide (PriceLevel.Orders bl1 = [])) as [E|NE].
    + apply IH. specialize (Hpop E). lia.
    + destruct Hexit as [?|Hdone]; [done|].
      destruct fuel as [|fuel]; [lia|]. rewrite loop_idle_market by done. eauto.
Qed.

End loop_facts.

(** * Adding orders and submitting *)

Section book_facts.
Implicit Types (ob : OrderBook.t) (bl l : PriceLevel.t) (order r : Order.t)
  (trades : list Trade.t) (h : PriceLevelHeap.t) (now : Time)
  (ls : list PriceLevel.t).

(** ** [PriceLevelHeap.AddOrder] *)

Lemma AddOrder_scan_Some ls order ls' :
  PriceLevelHeap.AddOrder_scan ls order = Some ls' →
  ∃ i l, ls !! i = Some l
         ∧ PriceLevel.Price l == Order.Price order
         ∧ ls' = <[i := PriceLevel.set_Orders l (PriceLevel.Orders l ++ [order])]> ls.
Proof.
  revert ls'. induction ls as [|l0 ls IH]; intros ls' H; [done|].
  cbn [PriceLevelHeap.AddOrder_scan] in H.
  destruct (Qeq_bool (PriceLevel.Price l0) (Order.Price order)) eqn:E.
  - apply Qeq_bool_iff in E. simplify_eq. exists 0%nat, l0. auto.
  - destruct (PriceLevelHeap.AddOrder_scan ls order) as [ls1|] eqn:E1; [|done].
    cbn in H. simplify_eq.
    destruct (IH ls1 eq_refl) as (i & l & Hi & Hp & ->).
    exists (S i), l. auto.
Qed.

Lemma AddOrder_scan_None ls order :
  PriceLevelHeap.AddOrder_scan ls order = None →
  Forall (λ l, ¬ PriceLevel.Price l == Order.Price order) ls.
Proof.
  induction ls as [|l0 ls IH]; intros H; [constructor|].
  cbn [PriceLevelHeap.AddOrder_scan] in H.
  destruct (Qeq_bool (PriceLevel.Price l0) (Order.Price order)) eqn:E; [done|].
  apply Qeq_bool_neq in E.
  destruct (PriceLevelHeap.AddOrder_scan ls order) eqn:E1; [done|].
  constructor; auto.
Qed.

(** [AddOrder] appends to the level of the order's price, or pushes a new
    level holding the order alone. *)
Lemma PriceLevelHeap_AddOrder_spec h order :
  ∃ h', PriceLevelHeap.AddOrder h order = Some h'
        ∧ PriceLevelHeap.IsBid h' = PriceLevelHeap.IsBid h
        ∧ ((∃ i l, PriceLevelHeap.Levels h !! i = Some l
                   ∧ PriceLevel.Price l == Order.Price order
                   ∧ PriceLevelHeap.Levels h'
                     = <[i := PriceLevel.set_Orders l (PriceLevel.Orders l ++ [order])]>
                         (PriceLevelHeap.Levels h))
           ∨ (Forall (λ l, ¬ PriceLevel.Price l == Order.Price order)
                (PriceLevelHeap.Levels h)
              ∧ PriceLevelHeap.Levels h'
                ≡ₚ PriceLevel.mk (Order.Price order) [order] :: PriceLevelHeap.Levels h
              ∧ (heap_ordered h → heap_ordered h'))).
Proof.
  unfold PriceLevelHeap.AddOrder.
  destruct (PriceLevelHeap.AddOrder_scan (PriceLevelHeap.Levels h) order) as [ls'|] eqn:E.
  - apply AddOrder_scan_Some in E as (i & l & Hi & Hp & ->).
    eexists. split_and!; [done|done|]. left. eauto.
  - apply AddOrder_scan_None in E.
    destruct (heap_Push_spec h (PriceLevel.mk (Order.Price order) [order]))
      as (h' & Hpush & Hbid & Hperm & Hord).
    exists h'. split_and!; [done|done|]. right. auto.
Qed.

(** Replacing a level by one of the same price keeps the heap shape and
    the set of prices. *)
Lemma heap_ordered_insert h i l l' :
  PriceLevelHeap.Levels h !! i = Some l →
  PriceLevel.Price l' = PriceLevel.Price l →
  heap_ordered h →
  heap_ordered (PriceLevelHeap.set_Levels h (<[i := l']> (PriceLevelHeap.Levels h))).
Proof.
  intros Hi Hp Hheap p c Hpc lp lc. cbn.
  apply lookup_lt_Some in Hi as Hlt.
  rewrite !list_lookup_insert.
  pose proof (child_lt _ _ Hpc).
  repeat case_decide; intros; destruct_and?; simplify_eq; try lia;
    try rewrite Hp; by eapply (Hheap p c).
Qed.

Lemma level_prices_insert ls i l l' :
  ls !! i = Some l →
  PriceLevel.Price l' == PriceLevel.Price l →
  level_prices (<[i := l']> ls) = level_prices ls.
Proof.
  intros Hi Hp. unfold level_prices. rewrite list_fmap_insert.
  apply list_insert_id. rewrite list_lookup_fmap, Hi. cbn.
  f_equal. by apply Qred_complete.
Qed.

Lemma elem_of_level_prices ls l :
  l ∈ ls → Qred (PriceLevel.Price l) ∈ level_prices ls.
Proof. intros H. unfold level_prices. apply list_elem_of_fmap. eauto. Qed.

Lemma not_elem_of_level_prices ls p :
  Forall (λ l, ¬ PriceLevel.Price l == p) ls → Qred p ∉ level_prices ls.
Proof.
  intros Hall Hin. unfold level_prices in Hin.
  apply list_elem_of_fmap in Hin as (l & E & Hl).
  rewrite Forall_forall in Hall. apply (Hall l); [done|].
  by apply Qred_eq_iff.
Qed.

(** ** The book invariant, side by side *)

Lemma book_inv_sides ob order :
  book_inv ob
  ↔ sides_inv (isBuy order) (ownHeap ob order) (MatchingEngine.oppositeHeap ob order).
Proof.
  unfold book_inv, sides_inv, isBuy, ownHeap, MatchingEngine.oppositeHeap, uncrossed.
  case_decide as Eside.
  - rewrite bool_decide_eq_true_2 by done. cbn. tauto.
  - rewrite bool_decide_eq_false_2 by done. cbn. split.
    + intros (Hb & Ha & Hx). split_and!; [done|done|]. intros o p Ho Hp. by apply Hx.
    + intros (Ha & Hb & Hx). split_and!; [done|done|]. intros b a Hb' Ha'. by apply Hx.
Qed.

Lemma closeLevel_cases ob bl order bl0 tl :
  let h := MatchingEngine.oppositeHeap ob order in
  PriceLevelHeap.Levels h = bl0 :: tl →
  PriceLevel.Price bl = PriceLevel.Price bl0 →
  ∃ h', closeLevel ob bl order
        = Some (MatchingEngine.set_oppositeHeap ob order h')
        ∧ PriceLevelHeap.IsBid h' = PriceLevelHeap.IsBid h
        ∧ ((PriceLevel.Orders bl ≠ [] ∧ PriceLevelHeap.Levels h' = bl :: tl)
           ∨ (PriceLevel.Orders bl = [] ∧ PriceLevelHeap.Levels h' ≡ₚ tl))
        ∧ (heap_ordered h → heap_ordered h').
Proof.
  intros h Hlevels Hprice.
  assert (Hlen : (0 < PriceLevelHeap.Len h)%nat).
  { unfold PriceLevelHeap.Len. rewrite Hlevels. cbn. lia. }
  destruct (closeLevel_spec ob bl order Hlen) as (h' & Hclose & Hbid & Hne & Hempty).
  fold h in Hbid, Hne, Hempty.
  assert (H0 : PriceLevelHeap.Levels h !! 0%nat = Some bl0) by (by rewrite Hlevels).
  assert (Hord1 : heap_ordered h →
            heap_ordered (PriceLevelHeap.set_Levels h
                            (<[0%nat := bl]> (PriceLevelHeap.Levels h)))).
  { by apply heap_ordered_insert with bl0. }
  exists h'. split_and!; [done|done| |].
  - destruct (decide (PriceLevel.Orders bl = [])) as [E|NE].
    + right. split; [done|]. destruct (Hempty E) as [Hperm _].
      cbn in Hperm. rewrite Hlevels in Hperm. cbn in Hperm.
      by apply Permutation_cons_inv in Hperm.
    + left. split; [done|]. rewrite (Hne NE). cbn. by rewrite Hlevels.
  - intros Hheap. destruct (decide (PriceLevel.Orders bl = [])) as [E|NE].
    + destruct (Hempty E) as [_ Hord]. auto.
    + rewrite (Hne NE). auto.
Qed.

(** The FIFO loop leaves in the queue only orders with something left. *)
Lemma level_run_queue_ok now ob bl order trades ob' bl' order' trades' :
  Forall (resting_ok bl) (PriceLevel.Orders bl) →
  level_run now ob bl order trades (ob', bl', order', trades') →
  Forall (resting_ok bl') (PriceLevel.Orders bl').
Proof.
  intros Hok Hrun.
  assert (Hgoal : PriceLevel.Price bl' = PriceLevel.Price bl
                  ∧ Forall (resting_ok bl) (PriceLevel.Orders bl')).
  { eapply (level_run_rule
              (λ _ bl1 _ _, PriceLevel.Price bl1 = PriceLevel.Price bl
                            ∧ Forall (resting_ok bl) (PriceLevel.Orders bl1)));
      [|split; [done|exact Hok]|exact Hrun].
    intros ob1 bl1 order1 trades1 ob2 bl2 order2 trades2 [Hprice Hall] _ Hhead.
    apply matchHead_inv in Hhead as (r & rest & Eq & -> & -> & -> & ->).
    rewrite Eq in Hall. apply Forall_cons in Hall as [[Hr _] Hrest].
    cbn zeta.
    destruct (Order.IsFilled (Order.Fill r _ _ now)) eqn:EF; cbn; split; try done.
    constructor; [|done]. split.
    - by rewrite Fill_Price.
    - by apply IsFilled_false. }
  destruct Hgoal as [Hprice Hall].
  eapply Forall_impl; [exact Hall|]. intros r [? ?]. split; [|done]. by rewrite Hprice.
Qed.

Lemma level_prices_cons_eq bl bl0 tl :
  PriceLevel.Price bl = PriceLevel.Price bl0 →
  level_prices (bl :: tl) = level_prices (bl0 :: tl).
Proof. intros E. unfold level_prices. cbn. by rewrite E. Qed.

(** Closing the best level keeps the side invariant; the prices left are
    prices that were there. *)
Lemma side_inv_closeLevel b ob bl order bl0 tl ob2 :
  let h := MatchingEngine.oppositeHeap ob order in
  side_inv b h →
  PriceLevelHeap.Levels h = bl0 :: tl →
  PriceLevel.Price bl = PriceLevel.Price bl0 →
  Forall (resting_ok bl) (PriceLevel.Orders bl) →
  closeLevel ob bl order = Some ob2 →
  ∃ h', ob2 = MatchingEngine.set_oppositeHeap ob order h'
        ∧ side_inv b h'
        ∧ (∀ l', l' ∈ PriceLevelHeap.Levels h' →
             ∃ l, l ∈ PriceLevelHeap.Levels h ∧ PriceLevel.Price l' = PriceLevel.Price l).
Proof.
  intros h (Hbid & Hheap & Hall & Hnodup) Hlevels Hprice Hq Hclose.
  destruct (closeLevel_cases ob bl order bl0 tl Hlevels Hprice)
    as (h' & Hc & Hbid' & Hcases & Hord).
  rewrite Hc in Hclose. simplify_eq. exists h'. split; [done|].
  fold h in Hbid', Hord. rewrite Hlevels in Hall, Hnodup.
  apply Forall_cons in Hall as [Hbl0 Htl].
  destruct Hcases as [[NE Hl']|[E Hl']].
  - split; [split_and!|].
    + congruence.
    + auto.
    + rewrite Hl'. constructor; [by split|done].
    + rewrite Hl'. by rewrite (level_prices_cons_eq _ _ _ Hprice).
    + intros l' Hin. rewrite Hl' in Hin. rewrite Hlevels.
      apply elem_of_cons in Hin as [->|Hin].
      * exists bl0. split; [left|done].
      * exists l'. split; [by right|done].
  - split; [split_and!|].
    + congruence.
    + auto.
    + by rewrite Hl'.
    + unfold level_prices in *. rewrite Hl'. cbn in Hnodup.
      by apply NoDup_cons in Hnodup as [_ ?].
    + intros l' Hin. rewrite Hl' in Hin. rewrite Hlevels.
      exists l'. split; [by right|done].
Qed.

Lemma lookup_0_cons {A} (l : list A) x : l !! 0%nat = Some x → ∃ tl, l = x :: tl.
Proof. destruct l; intros; simplify_eq/=; eauto. Qed.

(** What one pass of an outer loop does to the two sides. *)
Lemma pass_sides now limit ob order trades ob2 order1 trades1 :
  pass now limit ob order trades ob2 order1 trades1 →
  same_identity order order1
  ∧ ownHeap ob2 order1 = ownHeap ob order
  ∧ OrderBook.orders ob2 = OrderBook.orders ob
  ∧ OrderBook.Symbol ob2 = OrderBook.Symbol ob.
Proof.
  intros (Hpos & bl & Hbl & [(_ & _ & -> & -> & h & x & _ & ->)
                            |(Hne & _ & ob1 & bl1 & Hrun & Hclose)]).
  - split_and!; [apply same_identity_refl|apply ownHeap_set|apply orders_set|].
    unfold MatchingEngine.set_oppositeHeap. by case_decide.
  - apply level_run_frame in Hrun as [(Hid & Hprice & Hframe) _].
    pose proof (same_identity_Side _ _ Hid) as Hside.
    destruct (lookup_0_cons _ _ Hbl) as [tl Hlevels].
    rewrite <- (book_frame_oppositeHeap _ _ order Hframe) in Hlevels.
    rewrite <- (oppositeHeap_side _ _ _ Hside) in Hlevels.
    destruct (closeLevel_cases ob1 bl1 order1 bl tl Hlevels Hprice) as (h' & Hc & _).
    rewrite Hc in Hclose. simplify_eq.
    destruct Hframe as (Hb & Ha & Ho & Hs & _).
    split_and!; [done| | |].
    + rewrite ownHeap_set, (ownHeap_side _ _ _ Hside).
      unfold ownHeap. by rewrite Hb, Ha.
    + by rewrite orders_set.
    + unfold MatchingEngine.set_oppositeHeap. by case_decide.
Qed.

Lemma pass_sides_inv now limit isBid ob order trades ob2 order1 trades1 :
  sides_inv isBid (ownHeap ob order) (MatchingEngine.oppositeHeap ob order) →
  pass now limit ob order trades ob2 order1 trades1 →
  sides_inv isBid (ownHeap ob2 order1) (MatchingEngine.oppositeHeap ob2 order1).
Proof.
  intros (Hown & Hopp & Hapart) Hpass.
  destruct (pass_sides _ _ _ _ _ _ _ _ Hpass) as (Hid & Eown & _).
  rewrite Eown.
  destruct Hpass as (Hpos & bl & Hbl & [(_ & Hempty & _)
                                       |(Hne & _ & ob1 & bl1 & Hrun & Hclose)]).
  { exfalso. destruct Hopp as (_ & _ & Hall & _).
    rewrite Forall_lookup in Hall. destruct (Hall _ _ Hbl) as [Hnonempty _]. done. }
  assert (Hq : Forall (resting_ok bl1) (PriceLevel.Orders bl1)).
  { eapply level_run_queue_ok; [|exact Hrun].
    destruct Hopp as (_ & _ & Hall & _). rewrite Forall_lookup in Hall.
    by destruct (Hall _ _ Hbl). }
  apply level_run_frame in Hrun as [(_ & Hprice & Hframe) _].
  pose proof (same_identity_Side _ _ Hid) as Hside.
  destruct (lookup_0_cons _ _ Hbl) as [tl Hlevels].
  assert (Eopp : MatchingEngine.oppositeHeap ob1 order1
                 = MatchingEngine.oppositeHeap ob order).
  { rewrite (oppositeHeap_side _ _ _ Hside). by apply book_frame_oppositeHeap. }
  rewrite <- Eopp in Hlevels, Hopp.
  destruct (side_inv_closeLevel _ _ _ _ _ _ _ Hopp Hlevels Hprice Hq Hclose)
    as (h' & -> & Hinv' & Hsub).
  rewrite oppositeHeap_set. split_and!; [done|done|].
  intros o p Ho Hp. destruct (Hsub p Hp) as (l & Hl & ->).
  rewrite Eopp in Hl. by apply Hapart.
Qed.

(** [AddOrder] on a side keeps its invariant, and adds no price but the
    order's. *)
Lemma side_inv_AddOrder b h order h' :
  side_inv b h →
  0 < Order.RemainingQuantity order →
  PriceLevelHeap.AddOrder h order = Some h' →
  side_inv b h'
  ∧ ∀ l', l' ∈ PriceLevelHeap.Levels h' →
          (∃ l, l ∈ PriceLevelHeap.Levels h ∧ PriceLevel.Price l' = PriceLevel.Price l)
          ∨ PriceLevel.Price l' = Order.Price order.
Proof.
  intros (Hbid & Hheap & Hall & Hnodup) Hrem Hadd.
  destruct (PriceLevelHeap_AddOrder_spec h order)
    as (h1 & Hadd1 & Hbid1 & [(i & l & Hi & Hp & Hl')|(Hnew & Hperm & Hord)]);
    rewrite Hadd1 in Hadd; simplify_eq.
  - set (l1 := PriceLevel.set_Orders l (PriceLevel.Orders l ++ [order])) in *.
    assert (Hok1 : level_ok l1).
    { rewrite Forall_lookup in Hall. destruct (Hall _ _ Hi) as [Hne Hq].
      split; [cbn; by destruct (PriceLevel.Orders l)|].
      cbn. apply Forall_app. split; [exact Hq|].
      constructor; [|done]. split; [by symmetry|done]. }
    split; [split_and!|].
    + congruence.
    + assert (E : h' = PriceLevelHeap.set_Levels h
                         (<[i := l1]> (PriceLevelHeap.Levels h))).
      { destruct h' as [L' B']. cbn in Hl', Hbid1. subst L' B'. reflexivity. }
      rewrite E. by apply heap_ordered_insert with l.
    + rewrite Hl'. rewrite Forall_lookup. intros k lk.
      rewrite list_lookup_insert. case_decide; intros; simplify_eq; [done|].
      rewrite Forall_lookup in Hall. eauto.
    + rewrite Hl'. by rewrite (level_prices_insert _ _ l).
    + intros l' Hin. left. rewrite Hl' in Hin.
      apply list_elem_of_lookup in Hin as [k Hk].
      rewrite list_lookup_insert in Hk. case_decide; simplify_eq.
      * exists l. split; [by eapply list_elem_of_lookup_2|done].
      * exists l'. split; [by eapply list_elem_of_lookup_2|done].
  - split; [split_and!|].
    + congruence.
    + auto.
    + rewrite Hperm. constructor; [|done].
      split; [done|]. cbn. constructor; [|done]. split; [cbn; reflexivity|done].
    + unfold level_prices in *. rewrite Hperm. cbn. constructor; [|done].
      by apply not_elem_of_level_prices.
    + intros l' Hin. rewrite Hperm in Hin.
      apply elem_of_cons in Hin as [->|Hin]; [by right|].
      left. eauto.
Qed.

(** ** [OrderBook.AddOrder] *)

Lemma OrderBook_AddOrder_spec now ob order :
  ∃ h', PriceLevelHeap.AddOrder (ownHeap ob order) order = Some h'
        ∧ ∃ ob', OrderBook.AddOrder now ob order = Some ob'
                 ∧ ownHeap ob' order = h'
                 ∧ MatchingEngine.oppositeHeap ob' order
                   = MatchingEngine.oppositeHeap ob order
                 ∧ OrderBook.orders ob' = <[Order.ID order := order]> (OrderBook.orders ob)
                 ∧ OrderBook.Symbol ob' = OrderBook.Symbol ob.
Proof.
  destruct (PriceLevelHeap_AddOrder_spec (ownHeap ob order) order) as (h' & Hadd & _).
  exists h'. split; [done|].
  unfold OrderBook.AddOrder, ownHeap, MatchingEngine.oppositeHeap in *.
  case_decide; cbn; rewrite Hadd; cbn; eexists; split_and!; try done;
    cbn; by case_decide.
Qed.

End book_facts.

(** * [SubmitOrder]: totality, frame and invariant *)

Section submit_facts.
Implicit Types (ob : OrderBook.t) (bl l : PriceLevel.t) (order r : Order.t)
  (trades : list Trade.t) (h : PriceLevelHeap.t) (now : Time)
  (me : MatchingEngine.t).

Lemma matchMarketOrder_total now ob order :
  is_Some (MatchingEngine.matchMarketOrder now ob order).
Proof. apply matchMarketOrder_loop_total. lia. Qed.

Lemma matchLimitOrder_total now ob order :
  is_Some (MatchingEngine.matchLimitOrder now ob order).
Proof.
  unfold MatchingEngine.matchLimitOrder.
  destruct (matchLimitOrder_loop_total
              (S (PriceLevelHeap.Len (MatchingEngine.oppositeHeap ob order)))
              now ob order []) as [[[ob1 order1] trades1] ->]; [lia|].
  cbn. destruct (Qltb 0 (Order.RemainingQuantity order1)); [|eauto].
  destruct (OrderBook_AddOrder_spec now ob1 order1) as (h' & _ & ob' & -> & _).
  cbn. eauto.
Qed.

Lemma dispatch_total now ob order : is_Some (dispatch now ob order).
Proof.
  unfold dispatch. destruct (Order.Type_ order);
    auto using matchMarketOrder_total, matchLimitOrder_total.
Qed.

Lemma NewOrderBook_eq now symbol :
  OrderBook.NewOrderBook now symbol
  = Some {| OrderBook.Symbol := symbol;
            OrderBook.Bids := PriceLevelHeap.mk [] true;
            OrderBook.Asks := PriceLevelHeap.mk [] false;
            OrderBook.LastPrice := 0; OrderBook.LastTrade := None;
            OrderBook.Timestamp := now; OrderBook.orders := ∅ |}.
Proof. reflexivity. Qed.

(** ** The order keeps its identity through matching *)

Lemma loop_identity now (limit : bool) fuel ob order trades ob' order' trades' :
  (if limit
   then MatchingEngine.matchLimitOrder_loop fuel now ob order trades
   else MatchingEngine.matchMarketOrder_loop fuel now ob order trades)
  = Some (ob', order', trades') →
  same_identity order order'
  ∧ ownHeap ob' order' = ownHeap ob order
  ∧ OrderBook.orders ob' = OrderBook.orders ob
  ∧ OrderBook.Symbol ob' = OrderBook.Symbol ob.
Proof.
  intros Hrun.
  set (I := λ ob1 order1 (_ : list Trade.t),
              same_identity order order1
              ∧ ownHeap ob1 order1 = ownHeap ob order
              ∧ OrderBook.orders ob1 = OrderBook.orders ob
              ∧ OrderBook.Symbol ob1 = OrderBook.Symbol ob).
  assert (Hstep : ∀ lim ob1 order1 trades1 ob2 order2 trades2,
            I ob1 order1 trades1 →
            pass now lim ob1 order1 trades1 ob2 order2 trades2 →
            I ob2 order2 trades2).
  { intros lim ob1 order1 trades1 ob2 order2 trades2 (Hid & Hown & Hord & Hsym) Hpass.
    apply pass_sides in Hpass as (Hid' & Hown' & Hord' & Hsym').
    split_and!; [by eapply same_identity_trans|congruence..]. }
  assert (HI : I ob order trades).
  { split_and!; [apply same_identity_refl|done..]. }
  destruct limit.
  - by destruct (matchLimitOrder_loop_rule I now (Hstep true) _ _ _ _ _ _ _ HI Hrun).
  - by destruct (matchMarketOrder_loop_rule I now (Hstep false) _ _ _ _ _ _ _ HI Hrun).
Qed.

Lemma matchMarketOrder_frame now ob order ob' order' trades' :
  MatchingEngine.matchMarketOrder now ob order = Some (ob', order', trades') →
  same_identity order order'
  ∧ ownHeap ob' order' = ownHeap ob order
  ∧ OrderBook.orders ob' = OrderBook.orders ob
  ∧ OrderBook.Symbol ob' = OrderBook.Symbol ob.
Proof. apply (loop_identity now false). Qed.

Lemma matchLimitOrder_inv now ob order ob' order' trades' :
  MatchingEngine.matchLimitOrder now ob order = Some (ob', order', trades') →
  ∃ ob1,
    MatchingEngine.matchLimitOrder_loop
      (S (PriceLevelHeap.Len (MatchingEngine.oppositeHeap ob order))) now ob order []
    = Some (ob1, order', trades')
    ∧ ((0 < Order.RemainingQuantity order'
        ∧ OrderBook.AddOrder now ob1 order' = Some ob')
       ∨ (Order.RemainingQuantity order' <= 0 ∧ ob' = ob1)).
Proof.
  unfold MatchingEngine.matchLimitOrder. intros H.
  destruct (MatchingEngine.matchLimitOrder_loop _ now ob order [])
    as [[[ob1 order1] trades1]|]; [|done].
  cbn in H. case_Qltb 0 (Order.RemainingQuantity order1).
  - destruct (OrderBook.AddOrder now ob1 order1) as [ob2|] eqn:E; [|done].
    cbn in H. simplify_eq. eauto.
  - simplify_eq. eauto.
Qed.

Lemma matchLimitOrder_identity now ob order ob' order' trades' :
  MatchingEngine.matchLimitOrder now ob order = Some (ob', order', trades') →
  same_identity order order' ∧ OrderBook.Symbol ob' = OrderBook.Symbol ob.
Proof.
  intros H. apply matchLimitOrder_inv in H as (ob1 & Hloop & Hadd).
  apply (loop_identity now true) in Hloop as (Hid & _ & _ & Hsym).
  split; [done|].
  destruct Hadd as [[_ Hadd]|[_ ->]]; [|done].
  destruct (OrderBook_AddOrder_spec now ob1 order') as (h' & _ & ob2 & E & _ & _ & _ & Hs).
  congruence.
Qed.

Lemma set_Type_identity order ty :
  Order.Symbol (Order.set_Type order ty) = Order.Symbol order
  ∧ Order.ID (Order.set_Type order ty) = Order.ID order
  ∧ Order.Side (Order.set_Type order ty) = Order.Side order
  ∧ Order.Price (Order.set_Type order ty) = Order.Price order
  ∧ Order.Quantity (Order.set_Type order ty) = Order.Quantity order
  ∧ Order.RemainingQuantity (Order.set_Type order ty) = Order.RemainingQuantity order.
Proof. done. Qed.

Lemma dispatch_Symbol now ob order ob' order' trades' :
  dispatch now ob order = Some (ob', order', trades') →
  Order.Symbol order' = Order.Symbol order
  ∧ Order.ID order' = Order.ID order
  ∧ Order.Side order' = Order.Side order
  ∧ Order.Price order' = Order.Price order.
Proof.
  unfold dispatch. destruct (Order.Type_ order); intros H.
  - apply matchMarketOrder_frame in H as (Hid & _). unfold same_identity in Hid. tauto.
  - apply matchLimitOrder_identity in H as (Hid & _). unfold same_identity in Hid. tauto.
  - apply matchLimitOrder_identity in H as (Hid & _). unfold same_identity in Hid.
    cbn in Hid. tauto.
Qed.

(** ** [SubmitOrder], step by step *)

Lemma SubmitOrder_unfold now me order :
  MatchingEngine.SubmitOrder now me order
  = ('(me1, ob) ← MatchingEngine.GetOrCreateOrderBook now me (Order.Symbol order);
     '(ob', order', trades') ← dispatch now ob order;
     Some (MatchingEngine.mk
             (<[Order.Symbol order' := ob']> (MatchingEngine.orderBooks me1))
             (if (0 <? length trades')%nat
              then MatchingEngine.trades me1 ++ trades'
              else MatchingEngine.trades me1),
           order', trades')).
Proof.
  unfold MatchingEngine.SubmitOrder, dispatch.
  destruct (MatchingEngine.GetOrCreateOrderBook now me (Order.Symbol order))
    as [[me1 ob]|]; [|done].
  cbn [mbind option_bind]. destruct (Order.Type_ order).
  - destruct (MatchingEngine.matchMarketOrder now ob order) as [[[ob' o'] t']|];
      cbn [mbind option_bind]; [|done]. by destruct (0 <? length t')%nat.
  - destruct (MatchingEngine.matchLimitOrder now ob order) as [[[ob' o'] t']|];
      cbn [mbind option_bind]; [|done]. by destruct (0 <? length t')%nat.
  - destruct (MatchingEngine.matchLimitOrder now ob _) as [[[ob' o'] t']|];
      cbn [mbind option_bind]; [|done]. by destruct (0 <? length t')%nat.
Qed.

Lemma GetOrCreateOrderBook_spec now me symbol :
  ∃ ob, book_before now me symbol ob
        ∧ MatchingEngine.GetOrCreateOrderBook now me symbol
          = Some (MatchingEngine.mk (<[symbol := ob]> (MatchingEngine.orderBooks me))
                    (MatchingEngine.trades me), ob).
Proof.
  unfold MatchingEngine.GetOrCreateOrderBook, book_before.
  destruct (MatchingEngine.orderBooks me !! symbol) as [ob|] eqn:Elook.
  - exists ob. split; [by left|]. rewrite insert_id by done. by destruct me.
  - rewrite NewOrderBook_eq. cbn. eexists. split; [right; done|done].
Qed.

Lemma trades_append (log trades : list Trade.t) :
  (if (0 <? length trades)%nat then log ++ trades else log) = log ++ trades.
Proof. destruct trades; cbn; [by rewrite app_nil_r|done]. Qed.

Lemma SubmitOrder_inv now me order me' order' trades' :
  MatchingEngine.SubmitOrder now me order = Some (me', order', trades') →
  ∃ ob ob',
    book_before now me (Order.Symbol order) ob
    ∧ dispatch now ob order = Some (ob', order', trades')
    ∧ MatchingEngine.orderBooks me'
      = <[Order.Symbol order := ob']> (MatchingEngine.orderBooks me)
    ∧ MatchingEngine.trades me' = MatchingEngine.trades me ++ trades'.
Proof.
  rewrite SubmitOrder_unfold. intros H.
  destruct (GetOrCreateOrderBook_spec now me (Order.Symbol order)) as (ob & Hob & E).
  rewrite E in H. cbn [mbind option_bind] in H.
  destruct (dispatch now ob order) as [[[ob' order1] trades1]|] eqn:Ed; [|done].
  cbn [mbind option_bind] in H.
  apply dispatch_Symbol in Ed as Hsym. destruct Hsym as (Hsym & _).
  rewrite trades_append in H. cbn in H. simplify_eq.
  exists ob, ob'. split_and!; [done|done| |done].
  cbn. by rewrite Hsym, insert_insert_eq.
Qed.

Lemma SubmitOrder_total now me order :
  is_Some (MatchingEngine.SubmitOrder now me order).
Proof.
  rewrite SubmitOrder_unfold.
  destruct (GetOrCreateOrderBook_spec now me (Order.Symbol order)) as (ob & Hob & ->).
  cbn [mbind option_bind].
  destruct (dispatch_total now ob order) as [[[ob' order1] trades1] ->].
  cbn [mbind option_bind]. eauto.
Qed.

Lemma submit_all_total me calls : is_Some (submit_all me calls).
Proof.
  revert me. induction calls as [|[now order] calls IH]; intros me; [by eexists|].
  cbn. destruct (SubmitOrder_total now me order) as [[[me1 o1] t1] ->]. cbn. apply IH.
Qed.

(** ** The book invariant is kept *)

Lemma isBuy_same_identity order order' :
  same_identity order order' → isBuy order' = isBuy order.
Proof. intros Hid. unfold isBuy. by rewrite (same_identity_Side _ _ Hid). Qed.

Lemma price_bad_apart order bl :
  price_bad order bl → apart (isBuy order) (Order.Price order) (PriceLevel.Price bl).
Proof.
  unfold price_bad, apart, isBuy. intros [[Hs Hp]|[Hs Hp]].
  - by rewrite bool_decide_eq_true_2.
  - rewrite bool_decide_eq_false_2; [done|congruence].
Qed.

(** A price clear of the best opposite level is clear of the whole
    opposite side. *)
Lemma apart_root isBid h bl x :
  side_inv (negb isBid) h →
  PriceLevelHeap.Levels h !! 0%nat = Some bl →
  apart isBid x (PriceLevel.Price bl) →
  ∀ p, p ∈ PriceLevelHeap.Levels h → apart isBid x (PriceLevel.Price p).
Proof.
  intros (Hbid & Hheap & _) Hroot Hx p Hp.
  apply list_elem_of_lookup in Hp as [j Hj].
  pose proof (root_best h bl Hheap Hroot j p Hj) as Hbest.
  rewrite Hbid in Hbest. unfold prio, apart in *. destruct isBid; cbn in *; lra.
Qed.

Lemma loop_sides_inv now (limit : bool) fuel ob order trades ob' order' trades' :
  sides_inv (isBuy order) (ownHeap ob order) (MatchingEngine.oppositeHeap ob order) →
  (if limit
   then MatchingEngine.matchLimitOrder_loop fuel now ob order trades
   else MatchingEngine.matchMarketOrder_loop fuel now ob order trades)
  = Some (ob', order', trades') →
  sides_inv (isBuy order) (ownHeap ob' order') (MatchingEngine.oppositeHeap ob' order')
  ∧ loop_exit limit ob' order'.
Proof.
  intros Hinv Hrun.
  set (I := λ ob1 order1 (_ : list Trade.t),
              sides_inv (isBuy order) (ownHeap ob1 order1)
                (MatchingEngine.oppositeHeap ob1 order1)).
  assert (Hstep : ∀ lim ob1 order1 trades1 ob2 order2 trades2,
            I ob1 order1 trades1 →
            pass now lim ob1 order1 trades1 ob2 order2 trades2 →
            I ob2 order2 trades2).
  { intros lim ob1 order1 trades1 ob2 order2 trades2 HI Hpass.
    by eapply pass_sides_inv. }
  destruct limit.
  - by apply (matchLimitOrder_loop_rule I now (Hstep true) _ _ _ _ _ _ _ Hinv Hrun).
  - by apply (matchMarketOrder_loop_rule I now (Hstep false) _ _ _ _ _ _ _ Hinv Hrun).
Qed.

Lemma matchMarketOrder_book_inv now ob order ob' order' trades' :
  book_inv ob →
  MatchingEngine.matchMarketOrder now ob order = Some (ob', order', trades') →
  book_inv ob'.
Proof.
  intros Hinv Hrun. apply (book_inv_sides ob order) in Hinv.
  pose proof (matchMarketOrder_frame _ _ _ _ _ _ Hrun) as (Hid & _).
  destruct (loop_sides_inv now false _ _ _ _ _ _ _ Hinv Hrun) as [Hinv' _].
  apply (book_inv_sides ob' order'). by rewrite (isBuy_same_identity _ _ Hid).
Qed.

Lemma matchLimitOrder_book_inv now ob order ob' order' trades' :
  book_inv ob →
  MatchingEngine.matchLimitOrder now ob order = Some (ob', order', trades') →
  book_inv ob'.
Proof.
  intros Hinv Hrun. apply (book_inv_sides ob order) in Hinv.
  apply matchLimitOrder_inv in Hrun as (ob1 & Hloop & Hadd).
  pose proof (loop_identity now true _ _ _ _ _ _ _ Hloop) as (Hid & _).
  destruct (loop_sides_inv now true _ _ _ _ _ _ _ Hinv Hloop) as [Hinv1 Hexit].
  apply (book_inv_sides ob' order'). rewrite (isBuy_same_identity _ _ Hid).
  destruct Hadd as [[Hrem Hadd]|[_ ->]]; [|done].
  destruct (OrderBook_AddOrder_spec now ob1 order')
    as (h' & Hplh & ob2 & Hadd2 & Hown & Hopp & _).
  rewrite Hadd2 in Hadd. simplify_eq. rewrite Hopp.
  destruct Hinv1 as (Hown1 & Hopp1 & Hapart1).
  destruct (side_inv_AddOrder _ _ _ _ Hown1 Hrem Hplh) as [Hown' Hprices].
  split_and!; [done|done|].
  intros o p Ho Hp. destruct (Hprices o Ho) as [(l & Hl & ->)| ->]; [by apply Hapart1|].
  destruct Hexit as [Hdone|[Hlen|(_ & bl & Hbl & [Hempty|Hbad])]].
  - lra.
  - unfold PriceLevelHeap.Len in Hlen.
    destruct (PriceLevelHeap.Levels (MatchingEngine.oppositeHeap ob1 order'));
      [by apply elem_of_nil in Hp|done].
  - destruct Hopp1 as (_ & _ & Hall & _). rewrite Forall_lookup in Hall.
    by destruct (Hall _ _ Hbl).
  - apply price_bad_apart in Hbad. rewrite (isBuy_same_identity _ _ Hid) in Hbad.
    by eapply apart_root.
Qed.

Lemma dispatch_book_inv now ob order ob' order' trades' :
  book_inv ob → dispatch now ob order = Some (ob', order', trades') → book_inv ob'.
Proof.
  unfold dispatch. destruct (Order.Type_ order);
    eauto using matchMarketOrder_book_inv, matchLimitOrder_book_inv.
Qed.

Lemma side_inv_nil b : side_inv b (PriceLevelHeap.mk [] b).
Proof.
  split_and!; [done|apply heap_ordered_nil|constructor|constructor].
Qed.

Lemma book_before_inv now me symbol ob :
  engine_inv me → book_before now me symbol ob → book_inv ob.
Proof.
  intros Hinv [Hlook|[_ Hnew]]; [by eapply Hinv|].
  rewrite NewOrderBook_eq in Hnew. simplify_eq.
  split_and!; [apply side_inv_nil..|]. intros b a Hb. by apply elem_of_nil in Hb.
Qed.

Lemma SubmitOrder_engine_inv now me order me' order' trades' :
  engine_inv me →
  MatchingEngine.SubmitOrder now me order = Some (me', order', trades') →
  engine_inv me'.
Proof.
  intros Hinv Hsub.
  apply SubmitOrder_inv in Hsub as (ob & ob' & Hbefore & Hd & Hbooks & _).
  intros symbol ob1. rewrite Hbooks, lookup_insert. case_decide.
  - intros ?; simplify_eq. eapply dispatch_book_inv; [|exact Hd].
    by eapply book_before_inv.
  - apply Hinv.
Qed.

Lemma reachable_engine_inv me : reachable me → engine_inv me.
Proof.
  induction 1 as [|now me order me' order' trades' _ IH Hsub].
  - intros symbol ob. cbn. by rewrite lookup_empty.
  - by eapply SubmitOrder_engine_inv.
Qed.

Lemma submit_all_reachable me calls me' :
  reachable me → submit_all me calls = Some me' → reachable me'.
Proof.
  revert me. induction calls as [|[now order] calls IH]; intros me Hreach Hrun.
  - cbn in Hrun. by simplify_eq.
  - cbn [submit_all] in Hrun.
    destruct (MatchingEngine.SubmitOrder now me order) as [[[me1 o1] t1]|] eqn:E; [|done].
    cbn [mbind option_bind] in Hrun. eapply IH; [|exact Hrun].
    by eapply reachable_submit.
Qed.

(** In a book that satisfies the invariant the best bid is below the best
    ask. *)
Lemma book_inv_best ob :
  book_inv ob →
  (0 < PriceLevelHeap.Len (OrderBook.Bids ob))%nat →
  (0 < PriceLevelHeap.Len (OrderBook.Asks ob))%nat →
  ∃ b a, OrderBook.GetBestBid ob = Some b ∧ OrderBook.GetBestAsk ob = Some a ∧ b < a.
Proof.
  intros (_ & _ & Hx) Hb Ha.
  destruct (Peek_Some _ Hb) as (lb & Hpb & Hlb).
  destruct (Peek_Some _ Ha) as (la & Hpa & Hla).
  exists (PriceLevel.Price lb), (PriceLevel.Price la).
  unfold OrderBook.GetBestBid, OrderBook.GetBestAsk. rewrite Hpb, Hpa.
  destruct (PriceLevelHeap.Len (OrderBook.Bids ob) =? 0)%nat eqn:Eb;
    [apply Nat.eqb_eq in Eb; lia|].
  destruct (PriceLevelHeap.Len (OrderBook.Asks ob) =? 0)%nat eqn:Ea;
    [apply Nat.eqb_eq in Ea; lia|].
  split_and!; [done|done|].
  apply Hx; by eapply list_elem_of_lookup_2.
Qed.

End submit_facts.

(** * The trades of a submission *)

Section trade_facts.
Implicit Types (ob : OrderBook.t) (bl l : PriceLevel.t) (order r : Order.t)
  (trades T : list Trade.t) (t : Trade.t) (h : PriceLevelHeap.t) (now : Time)
  (me : MatchingEngine.t) (q : list Order.t).

Lemma trade_against_identity order order' r t :
  same_identity order order' → trade_against order r t → trade_against order' r t.
Proof.
  unfold same_identity, trade_against, restingID, aggressorID.
  intros (Hid & Hsym & _ & Hside & _). rewrite Hid, Hsym, Hside. tauto.
Qed.

Lemma fifo_fills_identity order order' q T :
  same_identity order order' → fifo_fills order q T → fifo_fills order' q T.
Proof.
  intros Hid. induction 1 as [|r q t Ht|r q t T [Ht Hfull] _ IH].
  - constructor.
  - apply fifo_last. by eapply trade_against_identity.
  - apply fifo_more; [|done]. split; [|done]. by eapply trade_against_identity.
Qed.

(** Full fills of a prefix, followed by nothing or by one more trade. *)
Lemma fifo_fills_prefix order q1 q2 T :
  Forall2 (full_fill order) q1 T → fifo_fills order (q1 ++ q2) T.
Proof.
  induction 1 as [|r t q1 T Hrt _ IH]; cbn; [constructor|].
  by apply fifo_more.
Qed.

Lemma fifo_fills_snoc order q1 r q2 T t :
  Forall2 (full_fill order) q1 T → trade_against order r t →
  fifo_fills order (q1 ++ r :: q2) (T ++ [t]).
Proof.
  induction 1 as [|r0 t0 q1 T Hrt _ IH]; cbn; intros Ht.
  - by apply fifo_last.
  - apply fifo_more; [done|]. by apply IH.
Qed.

Lemma fifo_fills_elem order q T t :
  fifo_fills order q T → t ∈ T → ∃ r, r ∈ q ∧ trade_against order r t.
Proof.
  induction 1 as [|r q t0 Ht|r q t0 T [Ht Hfull] _ IH]; intros Hin.
  - by apply elem_of_nil in Hin.
  - apply list_elem_of_singleton in Hin as ->. exists r. split; [left|done].
  - apply elem_of_cons in Hin as [->|Hin].
    + exists r. split; [left|done].
    + destruct (IH Hin) as (r' & Hr' & Ht'). exists r'. split; [by right|done].
Qed.

(** The trade of one pass is a trade against the head of the queue. *)
Lemma headTrade_against order r :
  0 < Order.RemainingQuantity order →
  0 < Order.RemainingQuantity r →
  trade_against order r (headTrade order r).
Proof.
  intros Ho Hr. unfold trade_against, headTrade, newTradeFor,
    restingID, aggressorID, headQty.
  destruct (min_cases (Order.RemainingQuantity order) (Order.RemainingQuantity r))
    as [[Hlt E]|[Hle E]];
    case_decide; cbn; rewrite E; split_and!; try done; lra.
Qed.

Lemma headTrade_full now order r :
  Order.IsFilled (Order.Fill r (headQty order r) (Order.Price r) now) = true →
  Trade.Quantity (headTrade order r) == Order.RemainingQuantity r.
Proof.
  intros Hf. apply IsFilled_true in Hf. rewrite Fill_Remaining in Hf.
  unfold headTrade, newTradeFor, headQty in *.
  destruct (min_cases (Order.RemainingQuantity order) (Order.RemainingQuantity r))
    as [[Hlt E]|[Hle E]];
    case_decide; cbn; rewrite E in *; lra.
Qed.

Lemma same_identity_sym o1 o2 : same_identity o1 o2 → same_identity o2 o1.
Proof. unfold same_identity. intuition congruence. Qed.

(** ** The FIFO loop consumes the queue first in, first out *)

Lemma queue_after_refl q : queue_after q q.
Proof. exists []. by left. Qed.

Lemma level_run_fifo now ob bl order trades ob' bl' order' trades' :
  Forall (resting_ok bl) (PriceLevel.Orders bl) →
  level_run now ob bl order trades (ob', bl', order', trades') →
  ∃ T, trades' = trades ++ T
       ∧ fifo_fills order (PriceLevel.Orders bl) T
       ∧ queue_after (PriceLevel.Orders bl) (PriceLevel.Orders bl').
Proof.
  intros Hok Hrun.
  set (J := λ (_ : OrderBook.t) bl1 order1 trades1,
              same_identity order order1
              ∧ ((∃ q1 T, PriceLevel.Orders bl = q1 ++ PriceLevel.Orders bl1
                          ∧ trades1 = trades ++ T
                          ∧ Forall2 (full_fill order) q1 T)
                 ∨ (Order.RemainingQuantity order1 <= 0
                    ∧ ∃ q1 r r' q2 T t,
                        PriceLevel.Orders bl = q1 ++ r :: q2
                        ∧ PriceLevel.Orders bl1 = r' :: q2
                        ∧ same_identity r r'
                        ∧ trades1 = trades ++ T ++ [t]
                        ∧ Forall2 (full_fill order) q1 T
                        ∧ trade_against order r t))).
  assert (HJ : J ob' bl' order' trades').
  { eapply (level_run_rule J); [| |exact Hrun].
    - intros ob1 bl1 order1 trades1 ob2 bl2 order2 trades2 [Hid Hstate] Hpos Hhead.
      apply matchHead_inv in Hhead as (r & rest & Eq & -> & -> & -> & ->).
      split; [eapply same_identity_trans; [exact Hid|apply Fill_same_identity]|].
      destruct Hstate as [(q1 & T & Hq & -> & Hfull)|[Hdone _]]; [|lra].
      rewrite Eq in Hq.
      assert (Hr : resting_ok bl r).
      { rewrite Forall_forall in Hok. apply Hok. rewrite Hq.
        apply elem_of_app. right. left. }
      assert (Ht : trade_against order r (headTrade order1 r)).
      { eapply trade_against_identity; [apply same_identity_sym, Hid|].
        apply headTrade_against; [done|apply Hr]. }
      cbn zeta.
      destruct (Order.IsFilled (Order.Fill r (headQty order1 r) (Order.Price r) now))
        eqn:EF.
      + left. exists (q1 ++ [r]), (T ++ [headTrade order1 r]). cbn. split_and!.
        * by rewrite <- app_assoc.
        * by rewrite app_assoc.
        * apply Forall2_app; [done|]. constructor; [|constructor].
          split; [done|]. by eapply headTrade_full.
      + right. split; [by apply (head_progress now order1 r Hpos)|].
        eexists q1, r, _, rest, T, (headTrade order1 r). split_and!; try done.
        * apply Fill_same_identity.
        * by rewrite app_assoc.
    - split; [apply same_identity_refl|]. left. exists [], []. split_and!.
      + done.
      + by rewrite app_nil_r.
      + constructor. }
  destruct HJ as [_ [(q1 & T & Hq & -> & Hfull)
                    |(_ & q1 & r & r' & q2 & T & t & Hq & Hq' & Hrr & -> & Hfull & Ht)]].
  - exists T. split_and!; [done| |].
    + rewrite Hq. by apply fifo_fills_prefix.
    + exists q1. by left.
  - exists (T ++ [t]). split_and!; [done| |].
    + rewrite Hq. by apply fifo_fills_snoc.
    + exists q1. right. eauto 10.
Qed.

(** Trades against a level that satisfies the invariant are at its price. *)
Lemma fifo_fills_price order bl T t :
  Forall (resting_ok bl) (PriceLevel.Orders bl) →
  fifo_fills order (PriceLevel.Orders bl) T → t ∈ T →
  Trade.Price t == PriceLevel.Price bl.
Proof.
  intros Hok Hfifo Hin.
  destruct (fifo_fills_elem _ _ _ _ Hfifo Hin) as (r & Hr & Ht).
  rewrite Forall_forall in Hok. destruct (Hok r Hr) as [Hp _].
  destruct Ht as (_ & _ & _ & -> & _). done.
Qed.

Lemma trades_at_app l T1 T2 : trades_at l (T1 ++ T2) = trades_at l T1 ++ trades_at l T2.
Proof. apply List.filter_app. Qed.

Lemma trades_at_all l T :
  (∀ t, t ∈ T → Trade.Price t == PriceLevel.Price l) → trades_at l T = T.
Proof.
  induction T as [|t T IH]; intros H; [done|].
  cbn. unfold at_price at 1. rewrite (Qeq_eq_bool _ _ (H t ltac:(left))).
  f_equal. apply IH. intros t' Ht'. apply H. by right.
Qed.

Lemma trades_at_none l T :
  (∀ t, t ∈ T → ¬ Trade.Price t == PriceLevel.Price l) → trades_at l T = [].
Proof.
  induction T as [|t T IH]; intros H; [done|].
  cbn. unfold at_price at 1.
  destruct (Qeq_bool (Trade.Price t) (PriceLevel.Price l)) eqn:E.
  - apply Qeq_bool_iff in E. by destruct (H t ltac:(left)).
  - apply IH. intros t' Ht'. apply H. by right.
Qed.

Lemma level_prices_inj (ls : list PriceLevel.t) l1 l2 :
  NoDup (level_prices ls) → l1 ∈ ls → l2 ∈ ls →
  PriceLevel.Price l1 == PriceLevel.Price l2 → l1 = l2.
Proof.
  induction ls as [|l ls IH]; intros Hnd H1 H2 Hp; [by apply elem_of_nil in H1|].
  cbn in Hnd. apply NoDup_cons in Hnd as [Hnotin Hnd].
  apply elem_of_cons in H1 as [->|H1]; apply elem_of_cons in H2 as [->|H2]; [done| | |auto].
  - exfalso. apply Hnotin. apply Qred_complete in Hp. rewrite Hp.
    by apply elem_of_level_prices.
  - exfalso. apply Hnotin. apply Qred_complete in Hp. rewrite <- Hp.
    by apply elem_of_level_prices.
Qed.

(** ** One pass of an outer loop, in a book that satisfies the invariant *)

Lemma pass_cases now limit isBid ob order trades ob2 order1 trades1 :
  sides_inv isBid (ownHeap ob order) (MatchingEngine.oppositeHeap ob order) →
  pass now limit ob order trades ob2 order1 trades1 →
  0 < Order.RemainingQuantity order
  ∧ same_identity order order1
  ∧ ∃ bl tl T,
      PriceLevelHeap.Levels (MatchingEngine.oppositeHeap ob order) = bl :: tl
      ∧ (limit = true → price_ok order bl)
      ∧ trades1 = trades ++ T
      ∧ fifo_fills order (PriceLevel.Orders bl) T
      ∧ ((Order.RemainingQuantity order1 <= 0
          ∧ ∃ bl1, PriceLevelHeap.Levels (MatchingEngine.oppositeHeap ob2 order1)
                   = bl1 :: tl
                   ∧ PriceLevel.Price bl1 = PriceLevel.Price bl
                   ∧ queue_after (PriceLevel.Orders bl) (PriceLevel.Orders bl1))
         ∨ PriceLevelHeap.Levels (MatchingEngine.oppositeHeap ob2 order1) ≡ₚ tl).
Proof.
  intros (Hown & Hopp & Hapart) Hpass.
  destruct (pass_sides _ _ _ _ _ _ _ _ Hpass) as (Hid & _).
  destruct Hpass as (Hpos & bl & Hbl & [(_ & Hempty & _)
                                       |(Hne & Hprice & ob1 & bl1 & Hrun & Hclose)]).
  { exfalso. destruct Hopp as (_ & _ & Hall & _).
    rewrite Forall_lookup in Hall. destruct (Hall _ _ Hbl) as [Hnonempty _]. done. }
  split; [done|]. split; [done|].
  assert (Hq : Forall (resting_ok bl) (PriceLevel.Orders bl)).
  { destruct Hopp as (_ & _ & Hall & _). rewrite Forall_lookup in Hall.
    by destruct (Hall _ _ Hbl). }
  destruct (level_run_fifo _ _ _ _ _ _ _ _ _ Hq Hrun) as (T & HT & Hfifo & Hafter).
  apply level_run_frame in Hrun as [(_ & Hpricebl & Hframe) Hexit].
  pose proof (same_identity_Side _ _ Hid) as Hside.
  destruct (lookup_0_cons _ _ Hbl) as [tl Hlevels].
  assert (Eopp : MatchingEngine.oppositeHeap ob1 order1
                 = MatchingEngine.oppositeHeap ob order).
  { rewrite (oppositeHeap_side _ _ _ Hside). by apply book_frame_oppositeHeap. }
  exists bl, tl, T. split_and!; [done|done|done|done|].
  rewrite <- Eopp in Hlevels.
  destruct (closeLevel_cases ob1 bl1 order1 bl tl Hlevels Hpricebl)
    as (h' & Hc & _ & Hcases & _).
  rewrite Hc in Hclose. simplify_eq. rewrite oppositeHeap_set.
  destruct Hcases as [[NE Hl']|[_ Hperm]]; [|by right].
  left. split; [by destruct Hexit|]. exists bl1. auto.
Qed.

(** ** The trades of a whole matching loop *)

Lemma loop_trades now (limit : bool) fuel ob order ob' order' trades' :
  sides_inv (isBuy order) (ownHeap ob order) (MatchingEngine.oppositeHeap ob order) →
  (if limit
   then MatchingEngine.matchLimitOrder_loop fuel now ob order []
   else MatchingEngine.matchMarketOrder_loop fuel now ob order [])
  = Some (ob', order', trades') →
  let h0 := MatchingEngine.oppositeHeap ob order in
  (∀ l, l ∈ PriceLevelHeap.Levels h0 →
        fifo_fills order (PriceLevel.Orders l) (trades_at l trades'))
  ∧ (∀ t, t ∈ trades' →
          ∃ l r, l ∈ PriceLevelHeap.Levels h0 ∧ r ∈ PriceLevel.Orders l
                 ∧ trade_against order r t)
  ∧ (limit = true → ∀ t, t ∈ trades' → within_limit order t)
  ∧ (∀ l', l' ∈ PriceLevelHeap.Levels (MatchingEngine.oppositeHeap ob' order') →
           level_after h0 l').
Proof.
  intros Hinv Hrun h0.
  set (I := λ ob1 order1 trades1,
    same_identity order order1
    ∧ sides_inv (isBuy order) (ownHeap ob1 order1)
        (MatchingEngine.oppositeHeap ob1 order1)
    ∧ (∀ l, l ∈ PriceLevelHeap.Levels h0 →
            fifo_fills order (PriceLevel.Orders l) (trades_at l trades1))
    ∧ (0 < Order.RemainingQuantity order1 →
       ∀ l, l ∈ PriceLevelHeap.Levels (MatchingEngine.oppositeHeap ob1 order1) →
            l ∈ PriceLevelHeap.Levels h0 ∧ trades_at l trades1 = [])
    ∧ (∀ t, t ∈ trades1 →
            ∃ l r, l ∈ PriceLevelHeap.Levels h0 ∧ r ∈ PriceLevel.Orders l
                   ∧ trade_against order r t)
    ∧ (limit = true → ∀ t, t ∈ trades1 → within_limit order t)
    ∧ (∀ l', l' ∈ PriceLevelHeap.Levels (MatchingEngine.oppositeHeap ob1 order1) →
             level_after h0 l')).
  assert (Hnodup0 : NoDup (level_prices (PriceLevelHeap.Levels h0))).
  { by destruct Hinv as (_ & (_ & _ & _ & ?) & _). }
  assert (Hstep : ∀ ob1 order1 trades1 ob2 order2 trades2,
            I ob1 order1 trades1 →
            pass now limit ob1 order1 trades1 ob2 order2 trades2 →
            I ob2 order2 trades2).
  { intros ob1 order1 trades1 ob2 order2 trades2
      (Hid & Hinv1 & HA & HB & HC & HD & HE) Hpass.
    pose proof (pass_sides_inv _ _ _ _ _ _ _ _ _ Hinv1 Hpass) as Hinv2.
    destruct (pass_cases _ _ _ _ _ _ _ _ _ Hinv1 Hpass)
      as (Hpos & Hid12 & bl & tl & T & Hlevels & Hprice & -> & Hfifo & Hafter).
    assert (Hfifo0 : fifo_fills order (PriceLevel.Orders bl) T).
    { eapply fifo_fills_identity; [apply same_identity_sym, Hid|done]. }
    assert (Hblin : bl ∈ PriceLevelHeap.Levels (MatchingEngine.oppositeHeap ob1 order1)).
    { rewrite Hlevels. left. }
    destruct (HB Hpos bl Hblin) as [Hbl0 Hblnone].
    destruct Hinv1 as (_ & (_ & _ & Hall1 & Hnodup1) & _).
    assert (Hq : Forall (resting_ok bl) (PriceLevel.Orders bl)).
    { rewrite Forall_forall in Hall1. by destruct (Hall1 bl Hblin). }
    assert (HTprice : ∀ t, t ∈ T → Trade.Price t == PriceLevel.Price bl).
    { intros t Ht. by eapply fifo_fills_price. }
    assert (Htl : ∀ l, l ∈ tl → l ∈ PriceLevelHeap.Levels h0 ∧ level_after h0 l).
    { intros l Hl.
      assert (Hl1 : l ∈ PriceLevelHeap.Levels (MatchingEngine.oppositeHeap ob1 order1)).
      { rewrite Hlevels. by right. }
      destruct (HB Hpos l Hl1) as [Hl0 _]. split; [done|].
      exists l. split_and!; [done|done|apply queue_after_refl]. }
    split_and!.
    - by eapply same_identity_trans.
    - done.
    - intros l Hl. rewrite trades_at_app.
      destruct (Qeq_dec (PriceLevel.Price l) (PriceLevel.Price bl)) as [E|NE].
      + assert (l = bl) as ->
          by (by apply (level_prices_inj (PriceLevelHeap.Levels h0))).
        rewrite Hblnone, trades_at_all by done. done.
      + rewrite (trades_at_none l T), app_nil_r; [by apply HA|].
        intros t Ht E. apply NE. rewrite <- E. by apply HTprice.
    - intros Hpos2 l Hl. destruct Hafter as [[Hdone _]|Hperm]; [lra|].
      rewrite Hperm in Hl.
      assert (Hl1 : l ∈ PriceLevelHeap.Levels (MatchingEngine.oppositeHeap ob1 order1)).
      { rewrite Hlevels. by right. }
      destruct (HB Hpos l Hl1) as [Hl0 Hlnone]. split; [done|].
      rewrite trades_at_app, Hlnone. cbn. apply trades_at_none.
      intros t Ht E. rewrite Hlevels in Hnodup1. cbn in Hnodup1.
      apply NoDup_cons in Hnodup1 as [Hnotin _]. apply Hnotin.
      assert (Ep : PriceLevel.Price bl == PriceLevel.Price l).
      { rewrite <- E. symmetry. by apply HTprice. }
      apply Qred_complete in Ep. rewrite Ep. by apply elem_of_level_prices.
    - intros t Ht. apply elem_of_app in Ht as [Ht|Ht]; [by apply HC|].
      destruct (fifo_fills_elem _ _ _ _ Hfifo0 Ht) as (r & Hr & Hrt). eauto.
    - intros Hlim t Ht. apply elem_of_app in Ht as [Ht|Ht]; [by apply HD|].
      destruct (Hprice Hlim) as [Hbuy Hsell].
      pose proof (HTprice t Ht) as Ep.
      destruct Hid as (_ & _ & _ & Hside & _ & Hp & _).
      rewrite Hside, Hp in *.
      split; intros Hs; rewrite Ep; auto.
    - intros l' Hl'.
      destruct Hafter as [(_ & bl1 & Hl2 & Hp1 & Hq1)|Hperm].
      + rewrite Hl2 in Hl'. apply elem_of_cons in Hl' as [->|Hl'].
        * exists bl. auto.
        * by apply Htl.
      + rewrite Hperm in Hl'. by apply Htl. }
  assert (HI : I ob order []).
  { split_and!; [apply same_identity_refl|done| | | | |].
    - intros l _. constructor.
    - intros _ l Hl. done.
    - intros t Ht. by apply elem_of_nil in Ht.
    - intros _ t Ht. by apply elem_of_nil in Ht.
    - intros l' Hl'. exists l'. split_and!; [done|done|apply queue_after_refl]. }
  assert (Hfinal : I ob' order' trades').
  { destruct limit.
    - by destruct (matchLimitOrder_loop_rule I now Hstep _ _ _ _ _ _ _ HI Hrun).
    - by destruct (matchMarketOrder_loop_rule I now Hstep _ _ _ _ _ _ _ HI Hrun). }
  destruct Hfinal as (_ & _ & HA & _ & HC & HD & HE). auto.
Qed.

(** ** The same facts for [dispatch] *)

Lemma trade_against_ext order order' r t :
  Order.ID order' = Order.ID order →
  Order.Symbol order' = Order.Symbol order →
  Order.Side order' = Order.Side order →
  trade_against order r t → trade_against order' r t.
Proof.
  unfold trade_against, restingID, aggressorID.
  intros -> -> ->. tauto.
Qed.

Lemma fifo_fills_ext order order' q T :
  Order.ID order' = Order.ID order →
  Order.Symbol order' = Order.Symbol order →
  Order.Side order' = Order.Side order →
  fifo_fills order q T → fifo_fills order' q T.
Proof.
  intros Hid Hsym Hside. induction 1 as [|r q t Ht|r q t T [Ht Hfull] _ IH].
  - constructor.
  - apply fifo_last. by eapply trade_against_ext.
  - apply fifo_more; [|done]. split; [|done]. by eapply trade_against_ext.
Qed.

Lemma matchLimitOrder_trades now ob order ob' order' trades' :
  book_inv ob →
  MatchingEngine.matchLimitOrder now ob order = Some (ob', order', trades') →
  let h0 := MatchingEngine.oppositeHeap ob order in
  (∀ l, l ∈ PriceLevelHeap.Levels h0 →
        fifo_fills order (PriceLevel.Orders l) (trades_at l trades'))
  ∧ (∀ t, t ∈ trades' →
          ∃ l r, l ∈ PriceLevelHeap.Levels h0 ∧ r ∈ PriceLevel.Orders l
                 ∧ trade_against order r t)
  ∧ (∀ t, t ∈ trades' → within_limit order t)
  ∧ (∀ l', l' ∈ PriceLevelHeap.Levels (MatchingEngine.oppositeHeap ob' order) →
           level_after h0 l').
Proof.
  intros Hinv Hd h0.
  apply (book_inv_sides ob order) in Hinv.
  apply matchLimitOrder_inv in Hd as (ob1 & Hloop & Hadd).
  pose proof (loop_identity now true _ _ _ _ _ _ _ Hloop) as (Hid & _).
  pose proof (same_identity_Side _ _ Hid) as Hside.
  destruct (loop_trades now true _ _ _ _ _ _ Hinv Hloop) as (HA & HC & HD & HE).
  rewrite (oppositeHeap_side _ _ _ Hside) in HE.
  split_and!; [done|done|by auto|].
  destruct Hadd as [[_ Hadd]|[_ ->]]; [|done].
  destruct (OrderBook_AddOrder_spec now ob1 order')
    as (h' & _ & ob2 & Hadd2 & _ & Hopp & _).
  rewrite Hadd2 in Hadd. simplify_eq.
  rewrite !(oppositeHeap_side _ order order' Hside) in Hopp. by rewrite Hopp.
Qed.

Lemma matchMarketOrder_trades now ob order ob' order' trades' :
  book_inv ob →
  MatchingEngine.matchMarketOrder now ob order = Some (ob', order', trades') →
  let h0 := MatchingEngine.oppositeHeap ob order in
  (∀ l, l ∈ PriceLevelHeap.Levels h0 →
        fifo_fills order (PriceLevel.Orders l) (trades_at l trades'))
  ∧ (∀ t, t ∈ trades' →
          ∃ l r, l ∈ PriceLevelHeap.Levels h0 ∧ r ∈ PriceLevel.Orders l
                 ∧ trade_against order r t)
  ∧ (∀ l', l' ∈ PriceLevelHeap.Levels (MatchingEngine.oppositeHeap ob' order) →
           level_after h0 l').
Proof.
  intros Hinv Hd h0.
  apply (book_inv_sides ob order) in Hinv.
  pose proof (matchMarketOrder_frame _ _ _ _ _ _ Hd) as (Hid & _).
  destruct (loop_trades now false _ _ _ _ _ _ Hinv Hd) as (HA & HC & _ & HE).
  rewrite (oppositeHeap_side _ _ _ (same_identity_Side _ _ Hid)) in HE.
  done.
Qed.

Lemma dispatch_trades now ob order ob' order' trades' :
  book_inv ob →
  dispatch now ob order = Some (ob', order', trades') →
  let h0 := MatchingEngine.oppositeHeap ob order in
  (∀ l, l ∈ PriceLevelHeap.Levels h0 →
        fifo_fills order (PriceLevel.Orders l) (trades_at l trades'))
  ∧ (∀ t, t ∈ trades' →
          ∃ l r, l ∈ PriceLevelHeap.Levels h0 ∧ r ∈ PriceLevel.Orders l
                 ∧ trade_against order r t)
  ∧ (Order.Type_ order ≠ OrderTypeMarket → ∀ t, t ∈ trades' → within_limit order t)
  ∧ (∀ l', l' ∈ PriceLevelHeap.Levels (MatchingEngine.oppositeHeap ob' order) →
           level_after h0 l').
Proof.
  intros Hinv Hd h0. unfold dispatch in Hd.
  destruct (Order.Type_ order) eqn:Ety.
  - destruct (matchMarketOrder_trades _ _ _ _ _ _ Hinv Hd) as (HA & HC & HE).
    split_and!; [done|done|by intros []|done].
  - destruct (matchLimitOrder_trades _ _ _ _ _ _ Hinv Hd) as (HA & HC & HD & HE).
    split_and!; [done|done|by intros _|done].
  - destruct (matchLimitOrder_trades _ _ _ _ _ _ Hinv Hd) as (HA & HC & HD & HE).
    split_and!.
    + intros l Hl.
      apply (fifo_fills_ext (Order.set_Type order OrderTypeLimit) order); [done..|].
      by apply HA.
    + intros t Ht. destruct (HC t Ht) as (l & r & Hl & Hr & Hrt).
      exists l, r. split_and!; [done|done|].
      by apply (trade_against_ext (Order.set_Type order OrderTypeLimit) order).
    + intros _ t Ht. exact (HD t Ht).
    + exact HE.
Qed.

(** ** The status of a market order after matching *)

Lemma fill_state_head now order0 order1 trades1 r :
  0 <= Order.FilledQuantity order0 →
  0 < Order.RemainingQuantity order1 →
  0 < Order.RemainingQuantity r →
  fill_state order0 order1 trades1 →
  fill_state order0 (Order.Fill order1 (headQty order1 r) (Order.Price r) now)
    (trades1 ++ [headTrade order1 r]).
Proof.
  intros H0 Hpos Hr [Hnone Hsome].
  assert (Hq : 0 < headQty order1 r).
  { unfold headQty.
    destruct (min_cases (Order.RemainingQuantity order1) (Order.RemainingQuantity r))
      as [[_ ->]|[_ ->]]; done. }
  assert (HF : 0 <= Order.FilledQuantity order1).
  { destruct trades1 as [|t ts].
    - by rewrite Hnone.
    - destruct Hsome as [? _]; [done|]. lra. }
  split; [intros E; by destruct trades1|]. intros _.
  rewrite Fill_FilledQuantity, Fill_Remaining. split; [lra|].
  intros Hleft. apply Fill_Status_partial.
  - unfold Order.RemainingQuantity in Hleft. lra.
  - lra.
Qed.

Lemma level_run_fill_state now order0 ob bl order trades ob' bl' order' trades' :
  0 <= Order.FilledQuantity order0 →
  Forall (resting_ok bl) (PriceLevel.Orders bl) →
  fill_state order0 order trades →
  level_run now ob bl order trades (ob', bl', order', trades') →
  fill_state order0 order' trades'.
Proof.
  intros H0 Hok Hstate Hrun.
  assert (Hgoal : Forall (resting_ok bl) (PriceLevel.Orders bl')
                  ∧ fill_state order0 order' trades').
  { eapply (level_run_rule
              (λ _ bl1 order1 trades1,
                 Forall (resting_ok bl) (PriceLevel.Orders bl1)
                 ∧ fill_state order0 order1 trades1));
      [|split; [exact Hok|exact Hstate]|exact Hrun].
    intros ob1 bl1 order1 trades1 ob2 bl2 order2 trades2 [Hall Hst] Hpos Hhead.
    apply matchHead_inv in Hhead as (r & rest & Eq & -> & -> & -> & ->).
    rewrite Eq in Hall. apply Forall_cons in Hall as [[Hp Hr] Hrest].
    split; [|by apply fill_state_head].
    cbn zeta.
    destruct (Order.IsFilled (Order.Fill r _ _ now)) eqn:EF; cbn; [done|].
    constructor; [|done]. split; [by rewrite Fill_Price|by apply IsFilled_false]. }
  by destruct Hgoal.
Qed.

Lemma matchMarketOrder_fill_state now ob order ob' order' trades' :
  book_inv ob →
  0 <= Order.FilledQuantity order →
  MatchingEngine.matchMarketOrder now ob order = Some (ob', order', trades') →
  fill_state order order' trades' ∧ loop_exit false ob' order'.
Proof.
  intros Hinv H0 Hrun. apply (book_inv_sides ob order) in Hinv.
  set (I := λ ob1 order1 trades1,
    sides_inv (isBuy order) (ownHeap ob1 order1)
      (MatchingEngine.oppositeHeap ob1 order1)
    ∧ fill_state order order1 trades1).
  assert (Hstep : ∀ ob1 order1 trades1 ob2 order2 trades2,
            I ob1 order1 trades1 →
            pass now false ob1 order1 trades1 ob2 order2 trades2 →
            I ob2 order2 trades2).
  { intros ob1 order1 trades1 ob2 order2 trades2 [Hinv1 Hst] Hpass.
    split; [by eapply pass_sides_inv|].
    destruct Hpass as (Hpos & bl & Hbl & [(_ & _ & -> & -> & _)
                                         |(Hne & _ & ob3 & bl1 & Hrun1 & _)]); [done|].
    eapply level_run_fill_state; [exact H0| |exact Hst|exact Hrun1].
    destruct Hinv1 as (_ & (_ & _ & Hall & _) & _).
    rewrite Forall_lookup in Hall. by destruct (Hall _ _ Hbl). }
  assert (HI : I ob order []) by (split; [done|split; [done|by intros]]).
  destruct (matchMarketOrder_loop_rule I now Hstep _ _ _ _ _ _ _ HI Hrun)
    as [[_ Hst] Hexit].
  done.
Qed.

(** ** Where the submitted order ends up *)

Lemma matchLimitOrder_own now ob order ob' order' trades' :
  MatchingEngine.matchLimitOrder now ob order = Some (ob', order', trades') →
  (Order.RemainingQuantity order' <= 0
   ∧ ownHeap ob' order = ownHeap ob order
   ∧ OrderBook.orders ob' = OrderBook.orders ob)
  ∨ (0 < Order.RemainingQuantity order'
     ∧ rested_at_tail (ownHeap ob order) order' (ownHeap ob' order)
     ∧ OrderBook.orders ob' = <[Order.ID order' := order']> (OrderBook.orders ob)).
Proof.
  intros Hd. apply matchLimitOrder_inv in Hd as (ob1 & Hloop & Hadd).
  pose proof (loop_identity now true _ _ _ _ _ _ _ Hloop) as (Hid & Hown & Hord & _).
  pose proof (same_identity_Side _ _ Hid) as Hside.
  destruct Hadd as [[Hrem Hadd]|[Hrem ->]].
  2: { left. split_and!; [done| |done].
       by rewrite <- (ownHeap_side ob1 order order' Hside). }
  right.
  destruct (OrderBook_AddOrder_spec now ob1 order')
    as (h' & Hplh & ob2 & Hadd2 & Hown2 & _ & Hord2 & _).
  rewrite Hadd2 in Hadd. injection Hadd as <-.
  assert (E2 : ownHeap ob2 order = h').
  { by rewrite <- (ownHeap_side ob2 order order' Hside). }
  rewrite Hown in Hplh. rewrite E2.
  split_and!; [done| |congruence].
  destruct (PriceLevelHeap_AddOrder_spec (ownHeap ob order) order')
    as (h1 & Hadd1 & _ & Hcases).
  rewrite Hadd1 in Hplh. injection Hplh as <-.
  destruct Hcases as [?|(? & ? & _)]; [by left|by right].
Qed.

Lemma rested_at_tail_elem h order h' :
  rested_at_tail h order h' →
  ∃ l q, l ∈ PriceLevelHeap.Levels h' ∧ PriceLevel.Orders l = q ++ [order].
Proof.
  intros [(i & l & Hi & _ & Hl')|(_ & Hperm)].
  - exists (PriceLevel.set_Orders l (PriceLevel.Orders l ++ [order])),
      (PriceLevel.Orders l). split; [|reflexivity].
    rewrite Hl'. apply list_elem_of_lookup. exists i.
    apply list_lookup_insert_eq. by eapply lookup_lt_Some.
  - exists (PriceLevel.mk (Order.Price order) [order]), []. split; [|done].
    rewrite Hperm. left.
Qed.

(** A book that is new has nothing on either side. *)
Lemma book_before_levels now me symbol ob order l :
  book_before now me symbol ob →
  l ∈ PriceLevelHeap.Levels (MatchingEngine.oppositeHeap ob order) →
  MatchingEngine.orderBooks me !! symbol = Some ob.
Proof.
  intros [?|[_ Hnew]] Hl; [done|].
  rewrite NewOrderBook_eq in Hnew. simplify_eq.
  unfold MatchingEngine.oppositeHeap in Hl. case_decide; by apply elem_of_nil in Hl.
Qed.

Lemma SubmitOrder_reachable_inv now me order me' order' trades' :
  reachable me →
  MatchingEngine.SubmitOrder now me order = Some (me', order', trades') →
  ∃ ob ob',
    book_before now me (Order.Symbol order) ob
    ∧ book_inv ob
    ∧ dispatch now ob order = Some (ob', order', trades')
    ∧ MatchingEngine.orderBooks me' !! Order.Symbol order = Some ob'.
Proof.
  intros Hreach Hsub.
  apply SubmitOrder_inv in Hsub as (ob & ob' & Hbefore & Hd & Hbooks & _).
  exists ob, ob'. split_and!; [done| |done|].
  - eapply book_before_inv; [|exact Hbefore]. by apply reachable_engine_inv.
  - by rewrite Hbooks, lookup_insert_eq.
Qed.

Lemma book_before_fun now me symbol ob1 ob2 :
  book_before now me symbol ob1 → book_before now me symbol ob2 → ob1 = ob2.
Proof. intros [?|[? ?]] [?|[? ?]]; congruence. Qed.

Lemma dispatch_own now ob order ob' order' trades' :
  dispatch now ob order = Some (ob', order', trades') →
  (ownHeap ob' order = ownHeap ob order
   ∧ OrderBook.orders ob' = OrderBook.orders ob
   ∧ (Order.Type_ order = OrderTypeMarket ∨ Order.RemainingQuantity order' <= 0))
  ∨ (Order.Type_ order ≠ OrderTypeMarket
     ∧ 0 < Order.RemainingQuantity order'
     ∧ rested_at_tail (ownHeap ob order) order' (ownHeap ob' order)
     ∧ OrderBook.orders ob' = <[Order.ID order' := order']> (OrderBook.orders ob)).
Proof.
  unfold dispatch. destruct (Order.Type_ order) eqn:Ety; intros Hd.
  - left. apply matchMarketOrder_frame in Hd as (Hid & Hown & Hord & _).
    rewrite (ownHeap_side _ _ _ (same_identity_Side _ _ Hid)) in Hown. auto.
  - apply matchLimitOrder_own in Hd as [(? & ? & ?)|(? & ? & ?)]; [left|right]; auto.
  - apply matchLimitOrder_own in Hd as [(? & ? & ?)|(? & ? & ?)]; [left|right]; auto.
Qed.

Lemma book_inv_opposite ob order :
  book_inv ob → ∃ b, side_inv b (MatchingEngine.oppositeHeap ob order).
Proof.
  intros (Hb & Ha & _). unfold MatchingEngine.oppositeHeap. case_decide; eauto.
Qed.

Lemma trade_at_its_level b h l r order t T :
  side_inv b h → l ∈ PriceLevelHeap.Levels h → r ∈ PriceLevel.Orders l →
  trade_against order r t → t ∈ T → t ∈ trades_at l T.
Proof.
  intros (_ & _ & Hall & _) Hl Hr (_ & _ & _ & Hp & _) Ht.
  unfold trades_at. apply list_elem_of_In, List.filter_In.
  split; [by apply list_elem_of_In|].
  unfold at_price. apply Qeq_bool_iff. rewrite Hp.
  rewrite Forall_forall in Hall. destruct (Hall l Hl) as [_ Hq].
  rewrite Forall_forall in Hq. by destruct (Hq r Hr).
Qed.

End trade_facts.

(** * The scenarios of the repository's tests, run on the model *)

(** [TestMatchLimitOrders]: one trade of 100 at 150, the buy is Filled, the
    book is empty. *)
Example TestMatchLimitOrders :
  scenario [limit_order 1%N OrderSideSell 100 150; limit_order 2%N OrderSideBuy 100 150]
  = Some ([], [],
          [(OrderStatusPending, []);
           (OrderStatusFilled, [(1%N, 150, 100)])]).
Proof. vm_compute. reflexivity. Qed.

(** [TestPartialFill]: one trade of 50; the buy is Filled; the sell rests
    with 50 left. *)
Example TestPartialFill :
  scenario [limit_order 1%N OrderSideSell 100 150; limit_order 2%N OrderSideBuy 50 150]
  = Some ([], [(150, [(1%N, 50)])],
          [(OrderStatusPending, []);
           (OrderStatusFilled, [(1%N, 150, 50)])]).
Proof. vm_compute. reflexivity. Qed.

(** [TestMarketOrder]: the market order walks the book, 50 at 150 and then
    50 at 151, and is Filled. *)
Example TestMarketOrder :
  scenario [limit_order 1%N OrderSideSell 50 150; limit_order 2%N OrderSideSell 50 151;
            market_order 3%N OrderSideBuy 100]
  = Some ([], [],
          [(OrderStatusPending, []); (OrderStatusPending, []);
           (OrderStatusFilled, [(1%N, 150, 50); (2%N, 151, 50)])]).
Proof. vm_compute. reflexivity. Qed.

(** [TestPriceTimePriority]: the first of two sells at one price is matched;
    the second still rests, untouched. *)
Example TestPriceTimePriority :
  scenario [limit_order 1%N OrderSideSell 50 150; limit_order 2%N OrderSideSell 50 150;
            limit_order 3%N OrderSideBuy 50 150]
  = Some ([], [(150, [(2%N, 50)])],
          [(OrderStatusPending, []); (OrderStatusPending, []);
           (OrderStatusFilled, [(1%N, 150, 50)])]).
Proof. vm_compute. reflexivity. Qed.

(** [TestNoCrossing]: a sell at 152 and a buy at 150 do not trade; both
    rest. *)
Example TestNoCrossing :
  scenario [limit_order 1%N OrderSideSell 100 152; limit_order 2%N OrderSideBuy 100 150]
  = Some ([(150, [(2%N, 100)])], [(152, [(1%N, 100)])],
          [(OrderStatusPending, []); (OrderStatusPending, [])]).
Proof. vm_compute. reflexivity. Qed.

(** Five ask levels entered out of order and a buy that takes the two best
    and part of the third: the heap serves the levels by price. *)
Example heap_serves_best_price_first :
  scenario [limit_order 1%N OrderSideSell 50 155; limit_order 2%N OrderSideSell 50 153;
            limit_order 3%N OrderSideSell 50 154; limit_order 4%N OrderSideSell 50 151;
            limit_order 5%N OrderSideSell 50 152; limit_order 6%N OrderSideBuy 120 153]
  = Some ([], [(153, [(2%N, 30)]); (155, [(1%N, 50)]); (154, [(3%N, 50)])],
          [(OrderStatusPending, []); (OrderStatusPending, []);
           (OrderStatusPending, []); (OrderStatusPending, []);
           (OrderStatusPending, []);
           (OrderStatusFilled, [(4%N, 151, 50); (5%N, 152, 50); (2%N, 153, 20)])]).
Proof. vm_compute. reflexivity. Qed.

(** [TestGetRecentTrades]: two crossings; the two trades are listed, the
    one at 151, the most recent, first. *)
Example TestGetRecentTrades :
  (match submit_all MatchingEngine.NewMatchingEngine
           ((λ o : Order.t, (0%Z, o)) <$>
              [limit_order 1%N OrderSideSell 100 150; limit_order 2%N OrderSideBuy 100 150;
               limit_order 3%N OrderSideSell 50 151; limit_order 4%N OrderSideBuy 50 151])
   with
   | Some me =>
       (λ t, Qred (Trade.Price t)) <$> default [] (MatchingEngine.GetRecentTrades me "AAPL" 10)
   | None => []
   end) = [151; 150].
Proof. vm_compute. reflexivity. Qed.

(** [TestEmptyOrderBook]: no book for a symbol never seen. *)
Example TestEmptyOrderBook :
  MatchingEngine.GetOrderBook MatchingEngine.NewMatchingEngine "NONEXISTENT" = None.
Proof. reflexivity. Qed.

(** [TestGetBestBidAsk]: best bid 151 of 150, 149, 151; best ask 152 of
    153, 152, 154. *)
Example TestGetBestBidAsk :
  (ob ← book_with [limit_order 1%N OrderSideBuy 100 150; limit_order 2%N OrderSideBuy 100 149;
                   limit_order 3%N OrderSideBuy 100 151; limit_order 4%N OrderSideSell 100 153;
                   limit_order 5%N OrderSideSell 100 152; limit_order 6%N OrderSideSell 100 154];
   bid ← OrderBook.GetBestBid ob; ask ← OrderBook.GetBestAsk ob;
   Some (Qred bid, Qred ask)) = Some (151, 152).
Proof. vm_compute. reflexivity. Qed.

(** [TestGetSpread] and [TestGetMidPrice]: a bid at 150 and an ask at 152
    give a spread of 2 and a mid price of 151. *)
Example TestGetSpread_and_MidPrice :
  (ob ← book_with [limit_order 1%N OrderSideBuy 100 150; limit_order 2%N OrderSideSell 100 152];
   spread ← OrderBook.GetSpread ob; mid ← OrderBook.GetMidPrice ob;
   Some (Qred spread, Qred mid)) = Some (2, 151).
Proof. vm_compute. reflexivity. Qed.

(** [TestRemoveOrder]: one bid level after adding, [true] and no bid level
    after removing. *)
Example TestRemoveOrder :
  (ob ← book_with [limit_order 1%N OrderSideBuy 100 150];
   '(ob', removed) ← OrderBook.RemoveOrder ob 1%N;
   Some (PriceLevelHeap.Len (OrderBook.Bids ob), removed,
         PriceLevelHeap.Len (OrderBook.Bids ob'))) = Some (1%nat, true, 0%nat).
Proof. vm_compute. reflexivity. Qed.

(** [TestSnapshot]: two bids at 150 show as one line of quantity 150 with
    two orders. *)
Example TestSnapshot :
  (ob ← book_with [limit_order 1%N OrderSideBuy 100 150; limit_order 2%N OrderSideBuy 50 150;
                   limit_order 3%N OrderSideSell 75 152];
   let snapshot := OrderBook.Snapshot ob in
   Some (OrderBookSnapshot.Symbol snapshot,
         snapshot_view <$> OrderBookSnapshot.Bids snapshot,
         snapshot_view <$> OrderBookSnapshot.Asks snapshot))
  = Some ("AAPL", [(150, 150, 2%nat)], [(152, 75, 1%nat)]).
Proof. vm_compute. reflexivity. Qed.

(** * The claims *)

(** ** [Fill] over binary64 *)

(** What one [Fill] does, read off its three statements. *)
Lemma Fill64_spec (o : Float64.Order.t) (dq dp : Float64.float64) (now : Time) :
  let o' := Float64.Order.Fill o dq dp now in
  let filled := (Float64.Order.FilledQuantity o + dq)%float in
  Float64.Order.FilledQuantity o' = filled
  ∧ Float64.Order.FilledPrice o'
    = (if (0 <? filled)%float
       then ((Float64.Order.FilledPrice o * (filled - dq) + dp * dq) / filled)%float
       else Float64.Order.FilledPrice o)
  ∧ Float64.Order.Status o'
    = (if (Float64.Order.Quantity o <=? filled)%float then OrderStatusFilled
       else if (0 <? filled)%float then OrderStatusPartial
       else Float64.Order.Status o)
  ∧ Float64.Order.FilledAt o'
    = (if (Float64.Order.Quantity o <=? filled)%float then Some now
       else Float64.Order.FilledAt o)
  ∧ same_identity64 o o'.
Proof.
  unfold Float64.Order.Fill, Float64.Order.IsFilled, same_identity64.
  destruct o as [id sym ty side qty price st filled fp sub fat cat]. cbn.
  destruct (0 <? filled + dq)%float eqn:Epos; cbn;
    destruct (qty <=? filled + dq)%float eqn:Efull; cbn;
    rewrite ?Epos; cbn; done.
Qed.


(** ** C9: fill accounting *)




(** ** C8: fills on terminal orders *)

(** C8 fails on the code: a fill on a Filled order raises its filled
    quantity and resets its fill timestamp, and a fill on a Cancelled order
    makes it PartiallyFilled.  No call of [Fill] reports an error. *)
Lemma C8_counterexample :
  terminal64 sample_filled64
  ∧ Float64.Order.FilledQuantity sample_filled64 = 100%float
  ∧ Float64.Order.FilledQuantity (Float64.Order.Fill sample_filled64 10%float 151%float 2%Z)
    = 110%float
  ∧ Float64.Order.FilledAt sample_filled64 = Some 1%Z
  ∧ Float64.Order.FilledAt (Float64.Order.Fill sample_filled64 10%float 151%float 2%Z)
    = Some 2%Z
  ∧ terminal64 sample_cancelled64
  ∧ Float64.Order.Status (Float64.Order.Fill sample_cancelled64 10%float 151%float 2%Z)
    = OrderStatusPartial
  ∧ ¬ (∀ o q p now, terminal64 o → Float64.Order.Fill o q p now = o).
Proof.
  split; [left; reflexivity|].
  split; [reflexivity|]. split; [vm_compute; reflexivity|].
  split; [reflexivity|]. split; [vm_compute; reflexivity|].
  split; [right; reflexivity|]. split; [vm_compute; reflexivity|].
  intros H. specialize (H sample_cancelled64 10%float 151%float 2%Z (or_intror eq_refl)).
  apply (f_equal Float64.Order.Status) in H. vm_compute in H. discriminate.
Qed.

(** C8 (amended).  [Fill] has no guard on the status and reports no error
    (the code has no IllegalTransition, and [Order] has no cancel
    operation).  On an order whose status is Filled or Cancelled, a call
    that leaves a positive filled quantity changes the order as any fill
    does: the filled quantity becomes the binary64 sum of what it was and
    [dq]; when the new filled quantity is at least the quantity the status
    is Filled and the fill timestamp is set to the time of the call;
    otherwise the status is PartiallyFilled and the fill timestamp stays.
    In both cases the order is no longer Cancelled, and its other fields
    are unchanged. *)
Theorem C8_fill_on_terminal_order (o : Float64.Order.t) (dq dp : Float64.float64)
    (now : Time) :
  terminal64 o →
  (0 <? Float64.Order.FilledQuantity o + dq)%float = true →
  let o' := Float64.Order.Fill o dq dp now in
  Float64.Order.FilledQuantity o' = (Float64.Order.FilledQuantity o + dq)%float
  ∧ ((Float64.Order.Quantity o <=? Float64.Order.FilledQuantity o')%float = true →
     Float64.Order.Status o' = OrderStatusFilled
     ∧ Float64.Order.FilledAt o' = Some now)
  ∧ ((Float64.Order.Quantity o <=? Float64.Order.FilledQuantity o')%float = false →
     Float64.Order.Status o' = OrderStatusPartial
     ∧ Float64.Order.FilledAt o' = Float64.Order.FilledAt o)
  ∧ Float64.Order.Status o' ≠ OrderStatusCancelled
  ∧ same_identity64 o o'.
Proof.
  intros _ Hpos o'.
  destruct (Fill64_spec o dq dp now) as (HF & _ & HS & HA & Hid).
  fold o' in HF, HS, HA, Hid. rewrite Hpos in HS.
  rewrite HF. split_and!; [done| | | |done].
  - intros E. by rewrite HS, HA, E.
  - intros E. by rewrite HS, HA, E.
  - rewrite HS.
    by destruct (Float64.Order.Quantity o <=? Float64.Order.FilledQuantity o + dq)%float.
Qed.

Lemma C8_fill_on_terminal_order_witness :
  terminal64 sample_cancelled64
  ∧ (0 <? Float64.Order.FilledQuantity sample_cancelled64 + 10)%float = true
  ∧ Float64.Order.FilledQuantity (Float64.Order.Fill sample_cancelled64 10%float 151%float 2%Z)
    = (Float64.Order.FilledQuantity sample_cancelled64 + 10)%float
  ∧ Float64.Order.Status (Float64.Order.Fill sample_cancelled64 10%float 151%float 2%Z)
    = OrderStatusPartial.
Proof.
  assert (H0 : terminal64 sample_cancelled64) by (right; reflexivity).
  assert (H1 : (0 <? Float64.Order.FilledQuantity sample_cancelled64 + 10)%float
               = true) by (vm_compute; reflexivity).
  destruct (C8_fill_on_terminal_order sample_cancelled64 10%float 151%float 2%Z H0 H1)
    as (E1 & _ & E3 & _).
  split; [exact H0|]. split; [exact H1|]. split; [exact E1|].
  apply E3. vm_compute. reflexivity.
Defined.

(** ** C1: the book is never crossed at rest *)

(** C1.  For every sequence of [SubmitOrder] calls from the empty engine in
    which every order has a positive quantity and every Limit or StopLoss
    order a positive price, all the calls return, and in the engine they
    leave, every book with both sides non-empty has its best bid strictly
    below its best ask.  The sequence is arbitrary, so this holds after each
    call. *)
Theorem C1_book_never_crossed (calls : list (Time * Order.t)) :
  Forall (λ c, valid_order c.2) calls →
  ∃ me, submit_all MatchingEngine.NewMatchingEngine calls = Some me
        ∧ ∀ symbol ob,
            MatchingEngine.orderBooks me !! symbol = Some ob →
            (0 < PriceLevelHeap.Len (OrderBook.Bids ob))%nat →
            (0 < PriceLevelHeap.Len (OrderBook.Asks ob))%nat →
            ∃ b a, OrderBook.GetBestBid ob = Some b
                   ∧ OrderBook.GetBestAsk ob = Some a
                   ∧ b < a.
Proof.
  intros _.
  destruct (submit_all_total MatchingEngine.NewMatchingEngine calls) as [me Hrun].
  exists me. split; [done|].
  intros symbol ob Hlook. apply book_inv_best.
  eapply reachable_engine_inv; [|exact Hlook].
  eapply submit_all_reachable; [apply reachable_new|exact Hrun].
Qed.

Lemma C1_book_never_crossed_witness :
  Forall (λ c, valid_order c.2) sample_apart
  ∧ ∃ me, submit_all MatchingEngine.NewMatchingEngine sample_apart = Some me
          ∧ ∀ symbol ob,
              MatchingEngine.orderBooks me !! symbol = Some ob →
              (0 < PriceLevelHeap.Len (OrderBook.Bids ob))%nat →
              (0 < PriceLevelHeap.Len (OrderBook.Asks ob))%nat →
              ∃ b a, OrderBook.GetBestBid ob = Some b
                     ∧ OrderBook.GetBestAsk ob = Some a
                     ∧ b < a.
Proof.
  assert (Hvalid : Forall (λ c, valid_order c.2) sample_apart).
  { repeat constructor; intros; reflexivity. }
  split; [exact Hvalid|]. exact (C1_book_never_crossed sample_apart Hvalid).
Defined.

(** ** C6: invalid requests are rejected at entry *)

(** C6 (amended).  It is the order endpoint that turns such orders away:
    it answers a request whose quantity is not positive, or whose type is
    limit or stop_loss and whose price is not positive, with status 400,
    and the engine is left exactly as it was: no book is created or
    changed, no trade is emitted, the trade log is unchanged. *)
Theorem C6_invalid_order_rejected (id : UUID) (now : Time)
    (engine : MatchingEngine.t) (req : api.OrderRequest) :
  api.Quantity req <= 0
  ∨ ((api.Type_ req = "limit" ∨ api.Type_ req = "stop_loss") ∧ api.Price req <= 0) →
  ∃ err, api.submitOrder id now engine req = Some (engine, api.StatusBadRequest err).
Proof.
  intros Hbad. unfold api.submitOrder.
  destruct (api.ShouldBindJSON req) as [[ty side]|] eqn:Ebind; [|eauto].
  assert (Hqty : 0 < api.Quantity req).
  { unfold api.ShouldBindJSON in Ebind.
    destruct (decide (api.Symbol req = "")); [done|].
    destruct (api.OrderType_of (api.Type_ req)); [|done].
    destruct (api.OrderSide_of (api.Side req)); [|done].
    cbn in Ebind. case_Qltb 0 (api.Quantity req); [done|done]. }
  destruct Hbad as [Hq|[Hty Hprice]]; [lra|].
  assert (E : bool_decide (api.Type_ req = "limit")
              || bool_decide (api.Type_ req = "stop_loss") = true).
  { destruct Hty as [-> | ->]; reflexivity. }
  rewrite E. apply Qleb_true in Hprice. rewrite Hprice. cbn. eauto.
Qed.

Lemma C6_invalid_order_rejected_witness :
  (api.Quantity sample_request <= 0
   ∨ ((api.Type_ sample_request = "limit" ∨ api.Type_ sample_request = "stop_loss")
      ∧ api.Price sample_request <= 0))
  ∧ ∃ err,
      api.submitOrder 9%N 5%Z MatchingEngine.NewMatchingEngine sample_request
      = Some (MatchingEngine.NewMatchingEngine, api.StatusBadRequest err).
Proof.
  assert (H : api.Quantity sample_request <= 0
              ∨ ((api.Type_ sample_request = "limit"
                  ∨ api.Type_ sample_request = "stop_loss")
                 ∧ api.Price sample_request <= 0)).
  { right. split; [left; reflexivity|]. vm_compute. discriminate. }
  split; [exact H|].
  exact (C6_invalid_order_rejected 9%N 5%Z MatchingEngine.NewMatchingEngine
           sample_request H).
Defined.

(** C6 fails on [SubmitOrder], the operation the claim names: the check is
    made by the endpoint only.  Called directly with a Limit order whose
    price is negative, [SubmitOrder] returns, creates the book of the symbol
    and puts the order to rest in it; called with a quantity of zero it
    returns and creates the book of the symbol. *)
Lemma C6_counterexample :
  invalid_order sample_negative_price
  ∧ invalid_order sample_empty
  ∧ (∃ me order' ob,
       MatchingEngine.SubmitOrder 0%Z MatchingEngine.NewMatchingEngine
         sample_negative_price = Some (me, order', [])
       ∧ MatchingEngine.GetOrderBook MatchingEngine.NewMatchingEngine "AAPL" = None
       ∧ MatchingEngine.GetOrderBook me "AAPL" = Some ob
       ∧ OrderBook.GetBestAsk ob = Some (-3)
       ∧ is_Some (OrderBook.orders ob !! Order.ID sample_negative_price))
  ∧ (∃ me order',
       MatchingEngine.SubmitOrder 0%Z MatchingEngine.NewMatchingEngine sample_empty
       = Some (me, order', [])
       ∧ MatchingEngine.GetOrderBook MatchingEngine.NewMatchingEngine "MSFT" = None
       ∧ is_Some (MatchingEngine.GetOrderBook me "MSFT"))
  ∧ ¬ (∀ now me order me' order' trades',
         invalid_order order →
         MatchingEngine.SubmitOrder now me order = Some (me', order', trades') →
         me' = me).
Proof.
  assert (H1 : invalid_order sample_negative_price).
  { right. split; [by left|]. vm_compute. discriminate. }
  assert (H2 : invalid_order sample_empty).
  { left. vm_compute. discriminate. }
  split; [exact H1|]. split; [exact H2|].
  split; [|split].
  - eexists _, _, _. split; [vm_compute; reflexivity|].
    split; [reflexivity|]. split; [vm_compute; reflexivity|].
    split; [vm_compute; reflexivity|]. vm_compute. eauto.
  - eexists _, _. split; [vm_compute; reflexivity|].
    split; [reflexivity|]. vm_compute. eauto.
  - intros H.
    destruct (SubmitOrder_total 0%Z MatchingEngine.NewMatchingEngine sample_empty)
      as [[[me' order'] trades'] Hsub].
    pose proof (H _ _ _ _ _ _ H2 Hsub) as E. subst me'.
    apply SubmitOrder_inv in Hsub as (ob & ob' & _ & _ & Hbooks & _).
    apply (f_equal (λ m, m !! Order.Symbol sample_empty)) in Hbooks.
    rewrite lookup_insert_eq in Hbooks. cbn in Hbooks.
    by rewrite lookup_empty in Hbooks.
Qed.

(** ** C7: the identity index after a fill *)

(** C7.  The code departs from the statement.  After a sell limit order of
    100 at 150 and a buy limit order of 100 at 150, the book has no level on
    either side, yet the identity index still holds the sell order: the
    matching loops take a filled order off its queue but not out of the
    index, unlike [OrderBook.RemoveOrder], which clears both. *)
Theorem C7_filled_order_stays_indexed :
  ∃ me ob,
    submit_all MatchingEngine.NewMatchingEngine sample_cross = Some me
    ∧ MatchingEngine.orderBooks me !! "AAPL" = Some ob
    ∧ PriceLevelHeap.Levels (OrderBook.Bids ob) = []
    ∧ PriceLevelHeap.Levels (OrderBook.Asks ob) = []
    ∧ is_Some (OrderBook.orders ob !! Order.ID sample_sell).
Proof.
  eexists _, _. split; [vm_compute; reflexivity|].
  split; [vm_compute; reflexivity|].
  split; [reflexivity|]. split; [reflexivity|].
  vm_compute. eauto.
Qed.

(** The sibling path: cancelling a resting order through
    [OrderBook.RemoveOrder] takes it out of its queue and out of the
    identity index. *)
Remark RemoveOrder_clears_queue_and_index :
  ∃ ob ob',
    MatchingEngine.orderBooks after_sell !! "AAPL" = Some ob
    ∧ is_Some (OrderBook.orders ob !! Order.ID sample_sell)
    ∧ OrderBook.RemoveOrder ob (Order.ID sample_sell) = Some (ob', true)
    ∧ PriceLevelHeap.Levels (OrderBook.Asks ob') = []
    ∧ OrderBook.orders ob' !! Order.ID sample_sell = None.
Proof.
  eexists _, _. split; [vm_compute; reflexivity|].
  split; [vm_compute; eauto|]. split; [vm_compute; reflexivity|].
  split; [reflexivity|]. vm_compute. reflexivity.
Qed.

(** ** C2: trades execute at the resting price *)

(** C2.  In an engine reached from the empty one, every trade emitted by a
    [SubmitOrder] call names an order that rested on the opposite side of
    the symbol's book when the call was made, and its price is the price of
    that resting order; the incoming order is the other party and does not
    set the price. *)
Theorem C2_trade_at_resting_price (now : Time) (me me' : MatchingEngine.t)
    (order order' : Order.t) (trades' : list Trade.t) :
  reachable me →
  MatchingEngine.SubmitOrder now me order = Some (me', order', trades') →
  ∀ t, t ∈ trades' →
    ∃ ob r,
      MatchingEngine.orderBooks me !! Order.Symbol order = Some ob
      ∧ rests_in (MatchingEngine.oppositeHeap ob order) r
      ∧ Trade.Price t = Order.Price r
      ∧ restingID order t = Order.ID r
      ∧ aggressorID order t = Order.ID order.
Proof.
  intros Hreach Hsub t Ht.
  destruct (SubmitOrder_reachable_inv _ _ _ _ _ _ Hreach Hsub)
    as (ob & ob' & Hbefore & Hinv & Hd & _).
  destruct (dispatch_trades _ _ _ _ _ _ Hinv Hd) as (_ & HC & _).
  destruct (HC t Ht) as (l & r & Hl & Hr & (_ & Hrest & Hagg & Hprice & _)).
  exists ob, r. split_and!; [|by exists l|done..].
  by eapply book_before_levels.
Qed.

Lemma after_sell_reachable : reachable after_sell.
Proof.
  eapply (submit_all_reachable _ [(0%Z, sample_sell)]); [apply reachable_new|].
  vm_compute. reflexivity.
Defined.

Lemma C2_trade_at_resting_price_witness :
  reachable after_sell
  ∧ ∃ me' order' t,
      MatchingEngine.SubmitOrder 1%Z after_sell sample_buy = Some (me', order', [t])
      ∧ ∀ t', t' ∈ [t] →
          ∃ ob r,
            MatchingEngine.orderBooks after_sell !! Order.Symbol sample_buy = Some ob
            ∧ rests_in (MatchingEngine.oppositeHeap ob sample_buy) r
            ∧ Trade.Price t' = Order.Price r
            ∧ restingID sample_buy t' = Order.ID r
            ∧ aggressorID sample_buy t' = Order.ID sample_buy.
Proof.
  split; [exact after_sell_reachable|].
  eexists _, _, _. split; [vm_compute; reflexivity|].
  eapply (C2_trade_at_resting_price 1%Z after_sell _ sample_buy);
    [exact after_sell_reachable|vm_compute; reflexivity].
Defined.

(** ** C4: a limit order never trades beyond its limit *)

(** C4.  In an engine reached from the empty one, no trade emitted by the
    submission of a Limit buy order with limit price P has a price above P,
    and no trade emitted by the submission of a Limit sell order with limit
    price P has a price below P. *)
Theorem C4_limit_price_respected (now : Time) (me me' : MatchingEngine.t)
    (order order' : Order.t) (trades' : list Trade.t) :
  reachable me →
  Order.Type_ order = OrderTypeLimit →
  MatchingEngine.SubmitOrder now me order = Some (me', order', trades') →
  ∀ t, t ∈ trades' →
    (Order.Side order = OrderSideBuy → Trade.Price t <= Order.Price order)
    ∧ (Order.Side order = OrderSideSell → Order.Price order <= Trade.Price t).
Proof.
  intros Hreach Hty Hsub t Ht.
  destruct (SubmitOrder_reachable_inv _ _ _ _ _ _ Hreach Hsub)
    as (ob & ob' & Hbefore & Hinv & Hd & _).
  destruct (dispatch_trades _ _ _ _ _ _ Hinv Hd) as (_ & _ & HD & _).
  apply HD; [congruence|done].
Qed.

Lemma C4_limit_price_respected_witness :
  reachable after_sell
  ∧ Order.Type_ sample_buy = OrderTypeLimit
  ∧ ∃ me' order' t,
      MatchingEngine.SubmitOrder 1%Z after_sell sample_buy = Some (me', order', [t])
      ∧ ∀ t', t' ∈ [t] →
          (Order.Side sample_buy = OrderSideBuy →
           Trade.Price t' <= Order.Price sample_buy)
          ∧ (Order.Side sample_buy = OrderSideSell →
             Order.Price sample_buy <= Trade.Price t').
Proof.
  split; [exact after_sell_reachable|]. split; [reflexivity|].
  eexists _, _, _. split; [vm_compute; reflexivity|].
  eapply (C4_limit_price_respected 1%Z after_sell _ sample_buy);
    [exact after_sell_reachable|reflexivity|vm_compute; reflexivity].
Defined.

(** ** C3: first in, first out within a price level *)

Lemma two_in_queue_reachable : reachable two_in_queue.
Proof.
  apply (submit_all_reachable MatchingEngine.NewMatchingEngine sample_queue);
    [constructor|]. vm_compute. reflexivity.
Defined.

(** A trade that takes all that is left of the resting order leaves it
    filled. *)
Lemma full_fill_IsFilled order r t now :
  full_fill order r t →
  Order.IsFilled (Order.Fill r (Trade.Quantity t) (Trade.Price t) now) = true.
Proof.
  intros [_ Hq]. apply IsFilled_true. rewrite Fill_Remaining. lra.
Qed.

Lemma fifo_fills_served now order q T :
  fifo_fills order q T → fifo_served now order q T.
Proof.
  induction 1 as [q|r q t Ht|r q t T Hfull _ IH].
  - constructor.
  - apply served_head; [done|]. constructor.
  - apply served_head; [by destruct Hfull|].
    cbn zeta. by rewrite (full_fill_IsFilled _ _ _ now Hfull).
Qed.

(** C3.  In an engine reached from the empty one, take a [SubmitOrder] call
    and any level of the opposite side of the symbol's book as it was before
    the call.  The trades of the call at that level's price serve the queue
    of the level first in, first out: each trade is against the order at
    the head of the queue, at its price and for no more than it has left;
    the head receives the fill and leaves the queue when the fill leaves it
    filled, and only then does the order behind it receive quantity.  Every
    trade of the call is one of these.  Queue order is arrival order: after
    the call each level of the opposite side is a level from before with a
    suffix of its queue (the head possibly partly filled), and an order that
    comes to rest is put at the tail of the queue of its price. *)
Theorem C3_price_level_fifo (now : Time) (me me' : MatchingEngine.t)
    (order order' : Order.t) (trades' : list Trade.t) (ob : OrderBook.t) :
  reachable me →
  MatchingEngine.SubmitOrder now me order = Some (me', order', trades') →
  MatchingEngine.orderBooks me !! Order.Symbol order = Some ob →
  (∀ l, l ∈ PriceLevelHeap.Levels (MatchingEngine.oppositeHeap ob order) →
        fifo_served now order (PriceLevel.Orders l) (trades_at l trades'))
  ∧ (∀ t, t ∈ trades' →
          ∃ l, l ∈ PriceLevelHeap.Levels (MatchingEngine.oppositeHeap ob order)
               ∧ t ∈ trades_at l trades')
  ∧ ∃ ob',
      MatchingEngine.orderBooks me' !! Order.Symbol order = Some ob'
      ∧ (∀ l', l' ∈ PriceLevelHeap.Levels (MatchingEngine.oppositeHeap ob' order) →
               level_after (MatchingEngine.oppositeHeap ob order) l')
      ∧ (ownHeap ob' order = ownHeap ob order
         ∨ rested_at_tail (ownHeap ob order) order' (ownHeap ob' order)).
Proof.
  intros Hreach Hsub Hlook.
  destruct (SubmitOrder_reachable_inv _ _ _ _ _ _ Hreach Hsub)
    as (ob0 & ob' & Hbefore & Hinv & Hd & Hlook').
  assert (ob0 = ob) as -> by (eapply book_before_fun; [exact Hbefore|by left]).
  destruct (dispatch_trades _ _ _ _ _ _ Hinv Hd) as (HA & HC & _ & HE).
  split; [intros l Hl; by apply fifo_fills_served, HA|]. split.
  - intros t Ht. destruct (HC t Ht) as (l & r & Hl & Hr & Hrt).
    exists l. split; [done|].
    destruct (book_inv_opposite ob order Hinv) as [b Hside].
    by eapply trade_at_its_level.
  - exists ob'. split; [done|]. split; [exact HE|].
    destruct (dispatch_own _ _ _ _ _ _ Hd) as [(? & _)|(_ & _ & ? & _)]; auto.
Qed.

Lemma C3_price_level_fifo_witness :
  reachable two_in_queue
  ∧ ∃ me' order' t1 t2 ob l a b,
      MatchingEngine.SubmitOrder 2%Z two_in_queue sample_take
      = Some (me', order', [t1; t2])
      ∧ MatchingEngine.orderBooks two_in_queue !! Order.Symbol sample_take = Some ob
      ∧ PriceLevelHeap.Levels (MatchingEngine.oppositeHeap ob sample_take) = [l]
      ∧ PriceLevel.Orders l = [a; b]
      ∧ restingID sample_take t1 = Order.ID a
      ∧ restingID sample_take t2 = Order.ID b
      ∧ ∀ l, l ∈ PriceLevelHeap.Levels (MatchingEngine.oppositeHeap ob sample_take) →
             fifo_served 2%Z sample_take (PriceLevel.Orders l) (trades_at l [t1; t2]).
Proof.
  split; [exact two_in_queue_reachable|].
  eexists _, _, _, _, _, _, _, _. split; [vm_compute; reflexivity|].
  split; [vm_compute; reflexivity|].
  split; [vm_compute; reflexivity|].
  split; [vm_compute; reflexivity|].
  split; [vm_compute; reflexivity|].
  split; [vm_compute; reflexivity|].
  eapply (C3_price_level_fifo 2%Z two_in_queue _ sample_take);
    [exact two_in_queue_reachable|vm_compute; reflexivity|vm_compute; reflexivity].
Defined.

(** ** C5: market orders never rest *)

(** C5.  In an engine reached from the empty one, the submission of a new
    Market order (status Pending, filled quantity not negative) returns and
    leaves the order out of the book: the order's own side and the identity
    index of the symbol's book are as before, and every level of the
    opposite side is a level from before with what is left of its queue.
    When the order still has quantity left on return, the opposite side is
    empty, and the order's status is Pending if the call made no trade and
    PartiallyFilled if it made one. *)
Theorem C5_market_order_never_rests (now : Time) (me : MatchingEngine.t)
    (order : Order.t) :
  reachable me →
  Order.Type_ order = OrderTypeMarket →
  Order.Status order = OrderStatusPending →
  0 <= Order.FilledQuantity order →
  ∃ me' order' trades' ob ob',
    MatchingEngine.SubmitOrder now me order = Some (me', order', trades')
    ∧ book_before now me (Order.Symbol order) ob
    ∧ MatchingEngine.orderBooks me' !! Order.Symbol order = Some ob'
    ∧ ownHeap ob' order = ownHeap ob order
    ∧ OrderBook.orders ob' = OrderBook.orders ob
    ∧ (∀ l', l' ∈ PriceLevelHeap.Levels (MatchingEngine.oppositeHeap ob' order) →
             level_after (MatchingEngine.oppositeHeap ob order) l')
    ∧ (0 < Order.RemainingQuantity order' →
       PriceLevelHeap.Len (MatchingEngine.oppositeHeap ob' order) = 0%nat
       ∧ (trades' = [] → Order.Status order' = OrderStatusPending)
       ∧ (trades' ≠ [] → Order.Status order' = OrderStatusPartial)).
Proof.
  intros Hreach Hty Hst H0.
  destruct (SubmitOrder_total now me order) as [[[me' order'] trades'] Hsub].
  destruct (SubmitOrder_reachable_inv _ _ _ _ _ _ Hreach Hsub)
    as (ob & ob' & Hbefore & Hinv & Hd & Hlook').
  exists me', order', trades', ob, ob'.
  split; [done|]. split; [done|]. split; [done|].
  destruct (dispatch_trades _ _ _ _ _ _ Hinv Hd) as (_ & _ & _ & HE).
  unfold dispatch in Hd. rewrite Hty in Hd.
  pose proof (matchMarketOrder_frame _ _ _ _ _ _ Hd) as (Hid & Hown & Hord & _).
  pose proof (same_identity_Side _ _ Hid) as Hside.
  rewrite (ownHeap_side _ _ _ Hside) in Hown.
  split; [done|]. split; [done|]. split; [exact HE|].
  intros Hleft.
  destruct (matchMarketOrder_fill_state _ _ _ _ _ _ Hinv H0 Hd) as [[Hnone Hsome] Hexit].
  unfold loop_exit in Hexit. rewrite !(oppositeHeap_side _ order order' Hside) in Hexit.
  split_and!.
  - destruct Hexit as [?|[?|[? _]]]; [lra|done|done].
  - intros E. by rewrite (Hnone E).
  - intros NE. by apply Hsome.
Qed.

Lemma C5_market_order_never_rests_witness :
  reachable after_sell
  ∧ Order.Type_ sample_market = OrderTypeMarket
  ∧ Order.Status sample_market = OrderStatusPending
  ∧ 0 <= Order.FilledQuantity sample_market
  ∧ ∃ me' order' trades' ob ob',
      MatchingEngine.SubmitOrder 3%Z after_sell sample_market
      = Some (me', order', trades')
      ∧ book_before 3%Z after_sell (Order.Symbol sample_market) ob
      ∧ MatchingEngine.orderBooks me' !! Order.Symbol sample_market = Some ob'
      ∧ ownHeap ob' sample_market = ownHeap ob sample_market
      ∧ OrderBook.orders ob' = OrderBook.orders ob
      ∧ (∀ l', l' ∈ PriceLevelHeap.Levels
                      (MatchingEngine.oppositeHeap ob' sample_market) →
               level_after (MatchingEngine.oppositeHeap ob sample_market) l')
      ∧ (0 < Order.RemainingQuantity order' →
         PriceLevelHeap.Len (MatchingEngine.oppositeHeap ob' sample_market) = 0%nat
         ∧ (trades' = [] → Order.Status order' = OrderStatusPending)
         ∧ (trades' ≠ [] → Order.Status order' = OrderStatusPartial)).
Proof.
  assert (H0 : 0 <= Order.FilledQuantity sample_market) by (vm_compute; discriminate).
  split; [exact after_sell_reachable|]. split; [reflexivity|].
  split; [reflexivity|]. split; [exact H0|].
  exact (C5_market_order_never_rests 3%Z after_sell sample_market
           after_sell_reachable eq_refl eq_refl H0).
Defined.

(** ** C10: a stop-loss order is handled as a limit order *)

(** C10.  [SubmitOrder] on a StopLoss order does exactly what it does on the
    same order with its type set to Limit: same engine, same final order,
    same trades.  The call returns; the final state of the order has type
    Limit; and when the order is left with quantity to fill it rests in the
    book of its symbol, at the tail of a queue on its own side and in the
    identity index, with type Limit. *)
Theorem C10_stop_loss_becomes_limit (now : Time) (me : MatchingEngine.t)
    (order : Order.t) :
  Order.Type_ order = OrderTypeStopLoss →
  MatchingEngine.SubmitOrder now me order
  = MatchingEngine.SubmitOrder now me (Order.set_Type order OrderTypeLimit)
  ∧ ∃ me' order' trades',
      MatchingEngine.SubmitOrder now me order = Some (me', order', trades')
      ∧ Order.Type_ order' = OrderTypeLimit
      ∧ (0 < Order.RemainingQuantity order' →
         ∃ ob' l q,
           MatchingEngine.orderBooks me' !! Order.Symbol order = Some ob'
           ∧ OrderBook.orders ob' !! Order.ID order = Some order'
           ∧ l ∈ PriceLevelHeap.Levels (ownHeap ob' order)
           ∧ PriceLevel.Orders l = q ++ [order']).
Proof.
  intros Hty. split.
  { rewrite !SubmitOrder_unfold. cbn [Order.Symbol Order.set_Type].
    unfold dispatch. cbn [Order.Type_ Order.set_Type]. by rewrite Hty. }
  destruct (SubmitOrder_total now me order) as [[[me' order'] trades'] Hsub].
  exists me', order', trades'. split; [done|].
  apply SubmitOrder_inv in Hsub as (ob & ob' & Hbefore & Hd & Hbooks & _).
  unfold dispatch in Hd. rewrite Hty in Hd.
  pose proof (matchLimitOrder_identity _ _ _ _ _ _ Hd) as [Hid _].
  destruct Hid as (HID & _ & Htype & _). cbn in HID, Htype.
  split; [done|]. intros Hleft.
  apply matchLimitOrder_own in Hd as [(? & _)|(_ & Htail & Hord)]; [lra|].
  destruct (rested_at_tail_elem _ _ _ Htail) as (l & q & Hl & Hq).
  exists ob', l, q. split_and!; [|  |done|done].
  - by rewrite Hbooks, lookup_insert_eq.
  - by rewrite Hord, HID, lookup_insert_eq.
Qed.

Lemma C10_stop_loss_becomes_limit_witness :
  Order.Type_ sample_stop = OrderTypeStopLoss
  ∧ MatchingEngine.SubmitOrder 2%Z after_sell sample_stop
    = MatchingEngine.SubmitOrder 2%Z after_sell
        (Order.set_Type sample_stop OrderTypeLimit)
  ∧ ∃ me' order' trades',
      MatchingEngine.SubmitOrder 2%Z after_sell sample_stop
      = Some (me', order', trades')
      ∧ Order.Type_ order' = OrderTypeLimit
      ∧ (0 < Order.RemainingQuantity order' →
         ∃ ob' l q,
           MatchingEngine.orderBooks me' !! Order.Symbol sample_stop = Some ob'
           ∧ OrderBook.orders ob' !! Order.ID sample_stop = Some order'
           ∧ l ∈ PriceLevelHeap.Levels (ownHeap ob' sample_stop)
           ∧ PriceLevel.Orders l = q ++ [order']).
Proof.
  split; [reflexivity|].
  exact (C10_stop_loss_becomes_limit 2%Z after_sell sample_stop eq_refl).
Defined.

(** * The trade log and [GetRecentTrades] *)

Lemma trades_of_app symbol log1 log2 :
  trades_of symbol (log1 ++ log2) = trades_of symbol log1 ++ trades_of symbol log2.
Proof. apply List.filter_app. Qed.

Lemma trades_of_all symbol T :
  Forall (λ t, Trade.Symbol t = symbol) T → trades_of symbol T = T.
Proof.
  induction 1 as [|t T Ht _ IH]; [done|].
  cbn. unfold has_symbol. rewrite bool_decide_eq_true_2 by done.
  f_equal. exact IH.
Qed.

Lemma trades_of_none symbol T :
  Forall (λ t, Trade.Symbol t ≠ symbol) T → trades_of symbol T = [].
Proof.
  induction 1 as [|t T Ht _ IH]; [done|].
  cbn. unfold has_symbol. rewrite bool_decide_eq_false_2 by done. exact IH.
Qed.

(** The loop of [GetRecentTrades] from index [k - 1] down. *)
Lemma GetRecentTrades_loop_spec log symbol limit k result count :
  (k ≤ length log)%nat →
  MatchingEngine.GetRecentTrades_loop log symbol limit k result count
  = Some (result
          ++ take (Z.to_nat (limit - count))
               (reverse (trades_of symbol (take k log)))).
Proof.
  revert result count. induction k as [|i IH]; intros result count Hk.
  - cbn. rewrite take_0. cbn. rewrite take_nil. by rewrite app_nil_r.
  - cbn [MatchingEngine.GetRecentTrades_loop].
    destruct (lookup_lt_is_Some_2 log i) as [t Ht]; [lia|].
    rewrite (take_S_r _ _ _ Ht), trades_of_app, reverse_app.
    destruct (count <? limit)%Z eqn:Ec.
    + apply Z.ltb_lt in Ec. rewrite Ht. cbn [mbind option_bind].
      cbn [trades_of List.filter]. unfold has_symbol.
      destruct (decide (Trade.Symbol t = symbol)) as [Hs|Hs].
      * rewrite bool_decide_eq_true_2 by done.
        rewrite IH by lia. f_equal. rewrite <- app_assoc. f_equal.
        cbn [reverse rev_append app].
        replace (Z.to_nat (limit - count)) with (S (Z.to_nat (limit - (count + 1))))
          by lia.
        reflexivity.
      * rewrite bool_decide_eq_false_2 by done.
        rewrite IH by lia. reflexivity.
    + apply Z.ltb_ge in Ec.
      replace (Z.to_nat (limit - count)) with 0%nat by lia.
      by rewrite take_0, app_nil_r.
Qed.

(** ** A rule for facts that do not depend on the heaps

    A relation [K] between the book, the incoming order and the trades made
    so far that every pass of a FIFO loop keeps, and that no write to the
    opposite side disturbs, holds when the matching loop returns. *)

Lemma headTrade_Symbol order r : Trade.Symbol (headTrade order r) = Order.Symbol order.
Proof. unfold headTrade, newTradeFor. by case_decide. Qed.

Lemma headTrade_Price order r : Trade.Price (headTrade order r) = Order.Price r.
Proof. unfold headTrade, newTradeFor. by case_decide. Qed.

Lemma headTrade_Quantity order r :
  Trade.Quantity (headTrade order r) = headQty order r.
Proof. unfold headTrade, newTradeFor. by case_decide. Qed.

Section head_rule.
Context (K : OrderBook.t → Order.t → list Trade.t → Prop) (now : Time).
Hypothesis K_head :
  ∀ ob order trades r,
    K ob order trades →
    0 < Order.RemainingQuantity order →
    K (OrderBook.set_Last ob (Order.Price r) (Some (headTrade order r)))
      (Order.Fill order (headQty order r) (Order.Price r) now)
      (trades ++ [headTrade order r]).
Hypothesis K_heap :
  ∀ ob order trades h,
    K ob order trades → K (MatchingEngine.set_oppositeHeap ob order h) order trades.

Lemma level_run_head_rule ob bl order trades ob' bl' order' trades' :
  K ob order trades →
  level_run now ob bl order trades (ob', bl', order', trades') →
  K ob' order' trades'.
Proof.
  intros HK Hrun.
  eapply (level_run_rule (λ ob1 _ order1 trades1, K ob1 order1 trades1));
    [|exact HK|exact Hrun].
  intros ob1 bl1 order1 trades1 ob2 bl2 order2 trades2 HK1 Hrem Hhead.
  apply matchHead_inv in Hhead as (r & rest & Eq & -> & -> & -> & ->).
  by apply K_head.
Qed.

Lemma pass_head_rule limit ob order trades ob2 order1 trades1 :
  K ob order trades →
  pass now limit ob order trades ob2 order1 trades1 →
  K ob2 order1 trades1.
Proof.
  intros HK (Hrem & bl & Hbl & Hcase).
  destruct Hcase as [(_ & _ & -> & -> & h & x & _ & ->)
                    |(_ & _ & ob1 & bl1 & Hrun & Hclose)].
  - by apply K_heap.
  - pose proof (level_run_head_rule _ _ _ _ _ _ _ _ HK Hrun) as HK1.
    destruct (level_run_frame _ _ _ _ _ _ _ _ _ Hrun) as [(Hid & _ & Hframe) _].
    destruct (closeLevel_spec ob1 bl1 order1) as (h' & Hc & _).
    { rewrite (book_frame_oppositeHeap _ _ _ Hframe).
      rewrite (oppositeHeap_side _ order order1 (same_identity_Side _ _ Hid)).
      unfold PriceLevelHeap.Len. apply lookup_lt_Some in Hbl. lia. }
    rewrite Hc in Hclose. injection Hclose as <-. by apply K_heap.
Qed.

Lemma loop_head_rule (limit : bool) fuel ob order trades ob' order' trades' :
  K ob order trades →
  (if limit
   then MatchingEngine.matchLimitOrder_loop fuel now ob order trades
   else MatchingEngine.matchMarketOrder_loop fuel now ob order trades)
  = Some (ob', order', trades') →
  K ob' order' trades'.
Proof.
  intros HK Hrun. destruct limit.
  - by destruct (matchLimitOrder_loop_rule K now (pass_head_rule true)
                   _ _ _ _ _ _ _ HK Hrun).
  - by destruct (matchMarketOrder_loop_rule K now (pass_head_rule false)
                   _ _ _ _ _ _ _ HK Hrun).
Qed.

Hypothesis K_add :
  ∀ ob order trades ob',
    K ob order trades → OrderBook.AddOrder now ob order = Some ob' → K ob' order trades.

(** The order the matching functions work on: [SubmitOrder] rewrites the
    type of a stop-loss order first. *)
Lemma dispatch_head_rule ob order ob' order' trades' :
  K ob (if decide (Order.Type_ order = OrderTypeStopLoss)
        then Order.set_Type order OrderTypeLimit else order) [] →
  dispatch now ob order = Some (ob', order', trades') →
  K ob' order' trades'.
Proof.
  intros HK Hd. unfold dispatch in Hd.
  assert (Hlimit : ∀ o, K ob o [] →
            MatchingEngine.matchLimitOrder now ob o = Some (ob', order', trades') →
            K ob' order' trades').
  { intros o HKo Hm.
    apply matchLimitOrder_inv in Hm as (ob1 & Hloop & Hrest).
    pose proof (loop_head_rule true _ _ _ _ _ _ _ HKo Hloop) as HK1.
    destruct Hrest as [[_ Hadd]|[_ ->]]; [by eapply K_add|done]. }
  destruct (Order.Type_ order) eqn:Ety.
  - rewrite decide_False in HK by done.
    exact (loop_head_rule false _ _ _ _ _ _ _ HK Hd).
  - rewrite decide_False in HK by done. by apply (Hlimit order).
  - rewrite decide_True in HK by done.
    by apply (Hlimit (Order.set_Type order OrderTypeLimit)).
Qed.

End head_rule.

(** [AddOrder] and the writes to a side leave the last trade alone. *)
Lemma AddOrder_Last now ob order ob' :
  OrderBook.AddOrder now ob order = Some ob' →
  OrderBook.LastPrice ob' = OrderBook.LastPrice ob
  ∧ OrderBook.LastTrade ob' = OrderBook.LastTrade ob.
Proof.
  unfold OrderBook.AddOrder. intros H.
  case_decide;
    destruct (PriceLevelHeap.AddOrder _ order); cbn in H; simplify_eq; done.
Qed.

Lemma set_oppositeHeap_Last ob order h :
  OrderBook.LastPrice (MatchingEngine.set_oppositeHeap ob order h) = OrderBook.LastPrice ob
  ∧ OrderBook.LastTrade (MatchingEngine.set_oppositeHeap ob order h)
    = OrderBook.LastTrade ob.
Proof. unfold MatchingEngine.set_oppositeHeap. by case_decide. Qed.

(** Every trade of a submission carries the symbol of the order. *)
Lemma dispatch_trade_symbols now ob order ob' order' trades' :
  dispatch now ob order = Some (ob', order', trades') →
  Forall (λ t, Trade.Symbol t = Order.Symbol order) trades'.
Proof.
  intros Hd.
  apply (dispatch_head_rule
           (λ _ order1 trades1,
              Order.Symbol order1 = Order.Symbol order
              ∧ Forall (λ t, Trade.Symbol t = Order.Symbol order) trades1) now)
    in Hd; [tauto|..].
  - intros ob1 order1 trades1 r [Hs HT] _. split.
    + by rewrite Fill_Symbol.
    + apply Forall_app. split; [done|].
      apply Forall_singleton. by rewrite headTrade_Symbol.
  - done.
  - done.
  - split; [by case_decide|constructor].
Qed.

Lemma SubmitOrder_trade_symbols now me order me' order' trades' :
  MatchingEngine.SubmitOrder now me order = Some (me', order', trades') →
  Forall (λ t, Trade.Symbol t = Order.Symbol order) trades'.
Proof.
  intros H. apply SubmitOrder_inv in H as (ob & ob' & _ & Hd & _).
  by eapply dispatch_trade_symbols.
Qed.

Lemma take_1_reverse {A} (l : list A) : take 1 (reverse l) = option_list (last l).
Proof.
  destruct l as [|x l _] using rev_ind; [done|].
  by rewrite reverse_snoc, last_snoc.
Qed.

Lemma after_cross_reachable : reachable after_cross.
Proof.
  apply (submit_all_reachable MatchingEngine.NewMatchingEngine sample_cross);
    [constructor|]. vm_compute. reflexivity.
Defined.

Lemma GetRecentTrades_spec (me : MatchingEngine.t) (symbol : string) (limit : Z) :
  MatchingEngine.GetRecentTrades me symbol limit
  = Some (take (Z.to_nat limit)
            (reverse (trades_of symbol (MatchingEngine.trades me)))).
Proof.
  unfold MatchingEngine.GetRecentTrades.
  rewrite GetRecentTrades_loop_spec by done.
  rewrite firstn_all, Z.sub_0_r. reflexivity.
Qed.

Lemma trades_of_Symbol symbol log :
  Forall (λ t, Trade.Symbol t = symbol) (trades_of symbol log).
Proof.
  apply List.Forall_forall. intros t Ht.
  unfold trades_of in Ht. apply List.filter_In in Ht as [_ Hs].
  unfold has_symbol in Hs. by apply bool_decide_eq_true in Hs.
Qed.

(** X1.  [GetRecentTrades symbol limit] always returns, and gives the
    trades of the symbol in the log from the most recent one back, at most
    [limit] of them; none when [limit] is zero or negative.  Every trade it
    returns is of the symbol asked for, and it returns [limit] trades
    whenever the log holds that many of the symbol. *)
Theorem GetRecentTrades_newest_first (me : MatchingEngine.t) (symbol : string)
    (limit : Z) :
  ∃ result,
    MatchingEngine.GetRecentTrades me symbol limit = Some result
    ∧ result = take (Z.to_nat limit)
                 (reverse (trades_of symbol (MatchingEngine.trades me)))
    ∧ Forall (λ t, Trade.Symbol t = symbol) result
    ∧ (Z.of_nat (length result) ≤ Z.max 0 limit)%Z
    ∧ ((limit ≤ 0)%Z → result = [])
    ∧ ((0 ≤ limit ≤ Z.of_nat (length (trades_of symbol (MatchingEngine.trades me))))%Z →
       Z.of_nat (length result) = limit).
Proof.
  eexists. split; [apply GetRecentTrades_spec|]. split; [done|].
  split_and!.
  - apply Forall_take, Forall_reverse, trades_of_Symbol.
  - rewrite length_take, length_reverse. lia.
  - intros Hle. replace (Z.to_nat limit) with 0%nat by lia. done.
  - intros Hle. rewrite length_take, length_reverse. lia.
Qed.

(** X2.  The trades a [SubmitOrder] call returns are the most recent trades
    of the order's symbol afterwards: [GetRecentTrades] lists them first,
    last trade first, followed by what it listed before the call. *)
Theorem SubmitOrder_trades_are_most_recent (now : Time) (me me' : MatchingEngine.t)
    (order order' : Order.t) (trades' : list Trade.t) (limit : Z) :
  MatchingEngine.SubmitOrder now me order = Some (me', order', trades') →
  (Z.of_nat (length trades') ≤ limit)%Z →
  ∃ older,
    MatchingEngine.GetRecentTrades me (Order.Symbol order)
      (limit - Z.of_nat (length trades')) = Some older
    ∧ MatchingEngine.GetRecentTrades me' (Order.Symbol order) limit
      = Some (reverse trades' ++ older).
Proof.
  intros Hsub Hlimit.
  pose proof (SubmitOrder_trade_symbols _ _ _ _ _ _ Hsub) as Hsym.
  apply SubmitOrder_inv in Hsub as (ob & ob' & _ & _ & _ & Hlog).
  eexists. split; [apply GetRecentTrades_spec|].
  rewrite GetRecentTrades_spec, Hlog, trades_of_app.
  rewrite (trades_of_all _ _ Hsym), reverse_app. f_equal.
  rewrite take_app, length_reverse.
  rewrite (take_ge (reverse trades')) by (rewrite length_reverse; lia).
  do 2 f_equal. lia.
Qed.

Lemma SubmitOrder_trades_are_most_recent_witness :
  ∃ me' order' trades',
    MatchingEngine.SubmitOrder 1%Z after_sell sample_buy = Some (me', order', trades')
    ∧ (Z.of_nat (length trades') ≤ 10)%Z
    ∧ ∃ older,
        MatchingEngine.GetRecentTrades after_sell (Order.Symbol sample_buy)
          (10 - Z.of_nat (length trades')) = Some older
        ∧ MatchingEngine.GetRecentTrades me' (Order.Symbol sample_buy) 10
          = Some (reverse trades' ++ older).
Proof.
  eexists _, _, _. split; [vm_compute; reflexivity|].
  split; [vm_compute; discriminate|].
  eapply (SubmitOrder_trades_are_most_recent 1%Z after_sell _ sample_buy);
    [vm_compute; reflexivity|vm_compute; discriminate].
Defined.

(** X3.  A [SubmitOrder] call touches the symbol of its order only: the
    book of that symbol exists afterwards, and for every other symbol the
    book and the recent trades are what they were. *)
Theorem SubmitOrder_leaves_other_symbols (now : Time) (me me' : MatchingEngine.t)
    (order order' : Order.t) (trades' : list Trade.t) :
  MatchingEngine.SubmitOrder now me order = Some (me', order', trades') →
  is_Some (MatchingEngine.GetOrderBook me' (Order.Symbol order))
  ∧ ∀ symbol, symbol ≠ Order.Symbol order →
      MatchingEngine.GetOrderBook me' symbol = MatchingEngine.GetOrderBook me symbol
      ∧ ∀ limit, MatchingEngine.GetRecentTrades me' symbol limit
                 = MatchingEngine.GetRecentTrades me symbol limit.
Proof.
  intros Hsub.
  pose proof (SubmitOrder_trade_symbols _ _ _ _ _ _ Hsub) as Hsym.
  apply SubmitOrder_inv in Hsub as (ob & ob' & _ & _ & Hbooks & Hlog).
  unfold MatchingEngine.GetOrderBook. rewrite Hbooks. split.
  - rewrite lookup_insert_eq. by eexists.
  - intros symbol Hne. split; [by rewrite lookup_insert_ne|].
    intros limit. rewrite !GetRecentTrades_spec, Hlog, trades_of_app.
    rewrite (trades_of_none symbol trades'), app_nil_r; [done|].
    eapply Forall_impl; [exact Hsym|]. cbn. congruence.
Qed.

Lemma SubmitOrder_leaves_other_symbols_witness :
  ∃ me' order' trades',
    MatchingEngine.SubmitOrder 1%Z after_sell sample_buy = Some (me', order', trades')
    ∧ is_Some (MatchingEngine.GetOrderBook me' (Order.Symbol sample_buy))
    ∧ ∀ symbol, symbol ≠ Order.Symbol sample_buy →
        MatchingEngine.GetOrderBook me' symbol
        = MatchingEngine.GetOrderBook after_sell symbol
        ∧ ∀ limit, MatchingEngine.GetRecentTrades me' symbol limit
                   = MatchingEngine.GetRecentTrades after_sell symbol limit.
Proof.
  eexists _, _, _. split; [vm_compute; reflexivity|].
  eapply (SubmitOrder_leaves_other_symbols 1%Z after_sell _ sample_buy).
  vm_compute. reflexivity.
Defined.

(** ** The last trade of a book *)

Lemma SubmitOrder_last_trade_inv now me order me' order' trades' :
  last_trade_inv me →
  MatchingEngine.SubmitOrder now me order = Some (me', order', trades') →
  last_trade_inv me'.
Proof.
  intros [Hlast Hknown] Hsub.
  pose proof (SubmitOrder_trade_symbols _ _ _ _ _ _ Hsub) as Hsym.
  apply SubmitOrder_inv in Hsub as (ob & ob' & Hbefore & Hd & Hbooks & Hlog).
  (* what the matching functions print on the book *)
  assert (HK : match last trades' with
               | Some t => OrderBook.LastTrade ob' = Some t
                           ∧ OrderBook.LastPrice ob' = Trade.Price t
               | None => OrderBook.LastTrade ob' = OrderBook.LastTrade ob
                         ∧ OrderBook.LastPrice ob' = OrderBook.LastPrice ob
               end).
  { apply (dispatch_head_rule
             (λ ob1 _ trades1,
                match last trades1 with
                | Some t => OrderBook.LastTrade ob1 = Some t
                            ∧ OrderBook.LastPrice ob1 = Trade.Price t
                | None => OrderBook.LastTrade ob1 = OrderBook.LastTrade ob
                          ∧ OrderBook.LastPrice ob1 = OrderBook.LastPrice ob
                end) now) in Hd; [exact Hd|..].
    - intros ob1 order1 trades1 r _ _. rewrite last_snoc. cbn.
      by rewrite headTrade_Price.
    - intros ob1 order1 trades1 h H.
      destruct (set_oppositeHeap_Last ob1 order1 h) as [-> ->]. exact H.
    - intros ob1 order1 trades1 ob2 H Hadd.
      destruct (AddOrder_Last _ _ _ _ Hadd) as [-> ->]. exact H.
    - done. }
  (* the book before the call agrees with the log *)
  assert (Hob : OrderBook.LastTrade ob
                = last (trades_of (Order.Symbol order) (MatchingEngine.trades me))
                ∧ OrderBook.LastPrice ob
                  = from_option Trade.Price 0 (OrderBook.LastTrade ob)).
  { destruct Hbefore as [Hsome|[Hnone Hnew]]; [by apply Hlast|].
    rewrite NewOrderBook_eq in Hnew. injection Hnew as <-. cbn.
    rewrite trades_of_none; [done|].
    apply List.Forall_forall. intros t Ht Heq. rewrite <- list_elem_of_In in Ht.
    destruct (Hknown t Ht) as [x Hx]. congruence. }
  split.
  - intros symbol ob1 Hlook. rewrite Hbooks in Hlook. rewrite Hlog, trades_of_app.
    destruct (decide (symbol = Order.Symbol order)) as [->|Hne].
    + rewrite lookup_insert_eq in Hlook. injection Hlook as <-.
      rewrite (trades_of_all _ _ Hsym), last_app.
      destruct (last trades') as [t|].
      * destruct HK as [-> ->]. done.
      * destruct HK as [-> ->]. exact Hob.
    + rewrite lookup_insert_ne in Hlook by done.
      rewrite (trades_of_none symbol trades'), app_nil_r; [by apply Hlast|].
      eapply Forall_impl; [exact Hsym|]. cbn. congruence.
  - intros t Ht. rewrite Hlog in Ht. rewrite Hbooks.
    apply elem_of_app in Ht as [Ht|Ht].
    + destruct (decide (Trade.Symbol t = Order.Symbol order)) as [->|Hne].
      * rewrite lookup_insert_eq. by eexists.
      * rewrite lookup_insert_ne by done. by apply Hknown.
    + rewrite List.Forall_forall in Hsym. rewrite list_elem_of_In in Ht.
      rewrite (Hsym t Ht), lookup_insert_eq. by eexists.
Qed.

Lemma reachable_last_trade_inv me : reachable me → last_trade_inv me.
Proof.
  induction 1 as [|now me order me' order' trades' _ IH Hsub].
  - split; [intros symbol ob H|intros t H]; cbn in H.
    + by rewrite lookup_empty in H.
    + by apply elem_of_nil in H.
  - by eapply SubmitOrder_last_trade_inv.
Qed.

(** X4.  In an engine reached from the empty one, the last trade printed on
    a book is the most recent trade of its symbol in the engine's log, the
    one [GetRecentTrades] lists first, and the last price of the book is the
    price of that trade; a book without a trade has no last trade and a last
    price of zero. *)
Theorem LastTrade_is_most_recent (me : MatchingEngine.t) (symbol : string)
    (ob : OrderBook.t) :
  reachable me →
  MatchingEngine.GetOrderBook me symbol = Some ob →
  MatchingEngine.GetRecentTrades me symbol 1 = Some (option_list (OrderBook.LastTrade ob))
  ∧ OrderBook.LastPrice ob = from_option Trade.Price 0 (OrderBook.LastTrade ob).
Proof.
  intros Hreach Hob.
  destruct (reachable_last_trade_inv me Hreach) as [Hlast _].
  destruct (Hlast symbol ob Hob) as [Ht Hp].
  split; [|exact Hp].
  rewrite GetRecentTrades_spec, Ht.
  change (Z.to_nat 1) with 1%nat. by rewrite take_1_reverse.
Qed.

Lemma LastTrade_is_most_recent_witness :
  reachable after_cross
  ∧ ∃ ob,
      MatchingEngine.GetOrderBook after_cross "AAPL" = Some ob
      ∧ MatchingEngine.GetRecentTrades after_cross "AAPL" 1
        = Some (option_list (OrderBook.LastTrade ob))
      ∧ OrderBook.LastPrice ob = from_option Trade.Price 0 (OrderBook.LastTrade ob).
Proof.
  split; [exact after_cross_reachable|].
  eexists. split; [vm_compute; reflexivity|].
  apply (LastTrade_is_most_recent after_cross "AAPL");
    [exact after_cross_reachable|vm_compute; reflexivity].
Defined.
(** * The fills of a submission *)

Lemma fill_all_snoc now o fills q p :
  fill_all now o (fills ++ [(q, p)]) = Order.Fill (fill_all now o fills) q p now.
Proof. unfold fill_all. by rewrite fold_left_app. Qed.

(** The order a submission hands back is the order as matched, filled with
    each trade of the call in turn. *)
Lemma dispatch_fill_all now ob order ob' order' trades' :
  dispatch now ob order = Some (ob', order', trades') →
  order' = fill_all now (as_matched order) (fills_of trades').
Proof.
  intros Hd.
  apply (dispatch_head_rule
           (λ _ order1 trades1,
              order1 = fill_all now (as_matched order) (fills_of trades1)) now)
    in Hd; [done|..].
  - intros ob1 order1 trades1 r -> _.
    unfold fills_of. rewrite fmap_app. cbn [fmap list_fmap].
    rewrite fill_all_snoc, headTrade_Quantity, headTrade_Price. reflexivity.
  - done.
  - done.
  - reflexivity.
Qed.

Lemma as_matched_fields order :
  Order.FilledQuantity (as_matched order) = Order.FilledQuantity order
  ∧ Order.FilledPrice (as_matched order) = Order.FilledPrice order
  ∧ Order.Quantity (as_matched order) = Order.Quantity order
  ∧ Order.RemainingQuantity (as_matched order) = Order.RemainingQuantity order.
Proof. unfold as_matched. by case_decide. Qed.

Lemma SubmitOrder_trade_quantities now me order me' order' trades' :
  reachable me →
  MatchingEngine.SubmitOrder now me order = Some (me', order', trades') →
  Forall (λ t, 0 < Trade.Quantity t) trades'.
Proof.
  intros Hreach Hsub.
  destruct (SubmitOrder_reachable_inv _ _ _ _ _ _ Hreach Hsub)
    as (ob & ob' & _ & Hinv & Hd & _).
  destruct (dispatch_trades _ _ _ _ _ _ Hinv Hd) as (_ & Hall & _).
  apply Forall_forall. intros t Ht.
  destruct (Hall t Ht) as (l & r & _ & _ & Hagainst).
  by destruct Hagainst as (_ & _ & _ & _ & Hpos & _).
Qed.

(** X6.  The order a [SubmitOrder] call hands back is the order as it was
    submitted (a stop-loss order with its type rewritten) after one [Fill]
    for each trade the call returns, in the order of the trades, with the
    quantity and the price of the trade: the returned trades tell all that
    happened to the order, and an order that comes back with no trade comes
    back untouched.  In an engine reached from the empty one every returned
    trade has a positive quantity. *)
Theorem SubmitOrder_fill_accounting (now : Time) (me me' : MatchingEngine.t)
    (order order' : Order.t) (trades' : list Trade.t) :
  reachable me →
  MatchingEngine.SubmitOrder now me order = Some (me', order', trades') →
  order' = fill_all now (as_matched order) (fills_of trades')
  ∧ Order.FilledQuantity order'
    = fold_left (λ filled t, filled + Trade.Quantity t) trades'
        (Order.FilledQuantity order)
  ∧ Forall (λ t, 0 < Trade.Quantity t) trades'
  ∧ (trades' = [] → order' = as_matched order).
Proof.
  intros Hreach Hsub.
  pose proof (SubmitOrder_trade_quantities _ _ _ _ _ _ Hreach Hsub) as Hpos.
  apply SubmitOrder_inv in Hsub as (ob & ob' & _ & Hd & _).
  pose proof (dispatch_fill_all _ _ _ _ _ _ Hd) as Hfill.
  destruct (as_matched_fields order) as (E1 & _).
  split_and!; [done| |done|by intros ->].
  rewrite Hfill, <- E1. clear.
  generalize (as_matched order). intros o.
  induction trades' as [|t T IH] using rev_ind; [done|].
  unfold fills_of. rewrite fmap_app, fold_left_app. cbn [fmap list_fmap fold_left].
  rewrite fill_all_snoc, Fill_FilledQuantity. cbn [fst snd].
  unfold fills_of in IH. by rewrite IH.
Qed.

Lemma SubmitOrder_fill_accounting_witness :
  reachable two_in_queue
  ∧ ∃ me' order' trades',
      MatchingEngine.SubmitOrder 2%Z two_in_queue sample_take
      = Some (me', order', trades')
      ∧ length trades' = 2%nat
      ∧ order' = fill_all 2%Z (as_matched sample_take) (fills_of trades')
      ∧ Order.FilledQuantity order'
        = fold_left (λ filled t, filled + Trade.Quantity t) trades'
            (Order.FilledQuantity sample_take)
      ∧ Forall (λ t, 0 < Trade.Quantity t) trades'
      ∧ (trades' = [] → order' = as_matched sample_take).
Proof.
  split; [exact two_in_queue_reachable|].
  eexists _, _, _. split; [vm_compute; reflexivity|].
  split; [reflexivity|].
  eapply (SubmitOrder_fill_accounting 2%Z two_in_queue _ sample_take);
    [exact two_in_queue_reachable|vm_compute; reflexivity].
Defined.

(** * Price priority across levels *)

(** [dispatch] is one of the two matching loops on the order as matched,
    followed for a limit order with quantity left by [AddOrder]. *)
Lemma dispatch_inv now ob order ob' order' trades' :
  dispatch now ob order = Some (ob', order', trades') →
  ∃ (limit : bool) fuel ob1,
    (limit = false ↔ Order.Type_ order = OrderTypeMarket)
    ∧ (if limit
       then MatchingEngine.matchLimitOrder_loop fuel now ob (as_matched order) []
       else MatchingEngine.matchMarketOrder_loop fuel now ob (as_matched order) [])
      = Some (ob1, order', trades')
    ∧ (ob' = ob1
       ∨ (limit = true ∧ 0 < Order.RemainingQuantity order'
          ∧ OrderBook.AddOrder now ob1 order' = Some ob')).
Proof.
  intros Hd. unfold dispatch in Hd. unfold as_matched.
  destruct (Order.Type_ order) eqn:Ety.
  - rewrite decide_False by done.
    exists false, (S (PriceLevelHeap.Len (MatchingEngine.oppositeHeap ob order))), ob'.
    split_and!; [done|exact Hd|by left].
  - rewrite decide_False by done.
    apply matchLimitOrder_inv in Hd as (ob1 & Hloop & Hrest).
    exists true, (S (PriceLevelHeap.Len (MatchingEngine.oppositeHeap ob order))), ob1.
    split_and!; [done|exact Hloop|].
    destruct Hrest as [[? ?]|[_ ->]]; [right|left]; done.
  - rewrite decide_True by done.
    apply matchLimitOrder_inv in Hd as (ob1 & Hloop & Hrest).
    eexists true, _, ob1.
    split_and!; [done|exact Hloop|].
    destruct Hrest as [[? ?]|[_ ->]]; [right|left]; done.
Qed.

Lemma as_matched_identity order :
  Order.ID (as_matched order) = Order.ID order
  ∧ Order.Symbol (as_matched order) = Order.Symbol order
  ∧ Order.Side (as_matched order) = Order.Side order
  ∧ Order.Price (as_matched order) = Order.Price order.
Proof. unfold as_matched. by case_decide. Qed.

Lemma prio_proper b x x' y y' : x == x' → y == y' → prio b x y → prio b x' y'.
Proof. unfold prio. intros Hx Hy. destruct b; lra. Qed.

Lemma price_ordered_app b T1 T2 :
  price_ordered b T1 → price_ordered b T2 →
  (∀ t1 t2, t1 ∈ T1 → t2 ∈ T2 → prio b (Trade.Price t1) (Trade.Price t2)) →
  price_ordered b (T1 ++ T2).
Proof.
  intros H1 H2 H12 i j ti tj Hij Hi Hj.
  apply lookup_app_Some in Hi as [Hi|[Hi1 Hi]];
    apply lookup_app_Some in Hj as [Hj|[Hj1 Hj]].
  - by eapply (H1 i j).
  - apply H12; by eapply list_elem_of_lookup_2.
  - apply lookup_lt_Some in Hj. lia.
  - eapply (H2 (i - length T1)%nat (j - length T1)%nat); [lia|done|done].
Qed.

Lemma loop_price_priority now (limit : bool) fuel ob order ob' order' trades' :
  sides_inv (isBuy order) (ownHeap ob order) (MatchingEngine.oppositeHeap ob order) →
  (if limit
   then MatchingEngine.matchLimitOrder_loop fuel now ob order []
   else MatchingEngine.matchMarketOrder_loop fuel now ob order [])
  = Some (ob', order', trades') →
  price_ordered (negb (isBuy order)) trades'
  ∧ ∀ t l, t ∈ trades' →
           l ∈ PriceLevelHeap.Levels (MatchingEngine.oppositeHeap ob' order') →
           prio (negb (isBuy order)) (Trade.Price t) (PriceLevel.Price l).
Proof.
  intros Hinv Hrun.
  set (b := negb (isBuy order)).
  set (I := λ ob1 order1 trades1,
    same_identity order order1
    ∧ sides_inv (isBuy order) (ownHeap ob1 order1)
        (MatchingEngine.oppositeHeap ob1 order1)
    ∧ price_ordered b trades1
    ∧ ∀ t l, t ∈ trades1 →
             l ∈ PriceLevelHeap.Levels (MatchingEngine.oppositeHeap ob1 order1) →
             prio b (Trade.Price t) (PriceLevel.Price l)).
  assert (Hstep : ∀ ob1 order1 trades1 ob2 order2 trades2,
            I ob1 order1 trades1 →
            pass now limit ob1 order1 trades1 ob2 order2 trades2 →
            I ob2 order2 trades2).
  { intros ob1 order1 trades1 ob2 order2 trades2 (Hid & Hinv1 & Hord & Hleft) Hpass.
    pose proof (pass_sides_inv _ _ _ _ _ _ _ _ _ Hinv1 Hpass) as Hinv2.
    destruct (pass_cases _ _ _ _ _ _ _ _ _ Hinv1 Hpass)
      as (Hpos & Hid12 & bl & tl & T & Hlevels & _ & -> & Hfifo & Hafter).
    destruct Hinv1 as (_ & (Hbid & Hheap & Hall1 & _) & _).
    assert (Hblin : bl ∈ PriceLevelHeap.Levels (MatchingEngine.oppositeHeap ob1 order1)).
    { rewrite Hlevels. left. }
    assert (Hq : Forall (resting_ok bl) (PriceLevel.Orders bl)).
    { rewrite Forall_forall in Hall1. by destruct (Hall1 bl Hblin). }
    assert (HTprice : ∀ t, t ∈ T → Trade.Price t == PriceLevel.Price bl).
    { intros t Ht. by eapply fifo_fills_price. }
    assert (Hroot : ∀ l, l ∈ PriceLevelHeap.Levels
                              (MatchingEngine.oppositeHeap ob1 order1) →
                         prio b (PriceLevel.Price bl) (PriceLevel.Price l)).
    { intros l Hl. apply list_elem_of_lookup in Hl as [j Hj].
      unfold b. rewrite <- Hbid.
      eapply (root_best _ bl Hheap); [by rewrite Hlevels|exact Hj]. }
    assert (Hsub : ∀ l, l ∈ PriceLevelHeap.Levels
                             (MatchingEngine.oppositeHeap ob2 order2) →
                        ∃ l1, l1 ∈ PriceLevelHeap.Levels
                                     (MatchingEngine.oppositeHeap ob1 order1)
                              ∧ PriceLevel.Price l = PriceLevel.Price l1).
    { intros l Hl. destruct Hafter as [(_ & bl1 & Hl2 & Hp1 & _)|Hperm].
      - rewrite Hl2 in Hl. apply elem_of_cons in Hl as [->|Hl].
        + by exists bl.
        + exists l. split; [|done]. rewrite Hlevels. by right.
      - rewrite Hperm in Hl. exists l. split; [|done]. rewrite Hlevels. by right. }
    split_and!; [by eapply same_identity_trans|done| |].
    - apply price_ordered_app; [done| |].
      + intros i j ti tj _ Hi Hj.
        apply list_elem_of_lookup_2 in Hi, Hj.
        eapply prio_proper; [symmetry; by apply HTprice
                            |symmetry; by apply HTprice|apply prio_refl].
      + intros t1 t2 Ht1 Ht2.
        eapply prio_proper; [reflexivity|symmetry; by apply HTprice|].
        by apply Hleft.
    - intros t l Ht Hl. destruct (Hsub l Hl) as (l1 & Hl1 & ->).
      apply elem_of_app in Ht as [Ht|Ht]; [by apply Hleft|].
      eapply prio_proper; [symmetry; by apply HTprice|reflexivity|].
      by apply Hroot. }
  assert (HI : I ob order []).
  { split_and!; [apply same_identity_refl|done| |].
    - intros i j ti tj _ Hi. by rewrite lookup_nil in Hi.
    - intros t l Ht. by apply elem_of_nil in Ht. }
  assert (Hfinal : I ob' order' trades').
  { destruct limit.
    - by destruct (matchLimitOrder_loop_rule I now Hstep _ _ _ _ _ _ _ HI Hrun).
    - by destruct (matchMarketOrder_loop_rule I now Hstep _ _ _ _ _ _ _ HI Hrun). }
  destruct Hfinal as (_ & _ & HA & HB). auto.
Qed.

Lemma isBuy_ext order order' :
  Order.Side order' = Order.Side order → isBuy order' = isBuy order.
Proof. unfold isBuy. by intros ->. Qed.

Lemma book_inv_ext ob order order' :
  Order.Side order' = Order.Side order →
  book_inv ob →
  sides_inv (isBuy order') (ownHeap ob order') (MatchingEngine.oppositeHeap ob order').
Proof. intros _ H. by apply book_inv_sides. Qed.

Lemma prio_no_worse order p q :
  prio (negb (isBuy order)) p q → no_worse order p q.
Proof.
  unfold prio, no_worse, isBuy. case_bool_decide as Hs; cbn; intros H; split.
  - done.
  - intros Hsell. congruence.
  - done.
  - done.
Qed.

Lemma dispatch_price_priority now ob order ob' order' trades' :
  book_inv ob →
  dispatch now ob order = Some (ob', order', trades') →
  price_ordered (negb (isBuy order)) trades'
  ∧ ∀ t l, t ∈ trades' →
           l ∈ PriceLevelHeap.Levels (MatchingEngine.oppositeHeap ob' order) →
           prio (negb (isBuy order)) (Trade.Price t) (PriceLevel.Price l).
Proof.
  intros Hinv Hd.
  destruct (dispatch_inv _ _ _ _ _ _ Hd) as (limit & fuel & ob1 & _ & Hloop & Hrest).
  destruct (as_matched_identity order) as (_ & _ & Hside & _).
  pose proof (book_inv_ext ob order (as_matched order) Hside Hinv) as Hsides.
  destruct (loop_price_priority now limit _ _ _ _ _ _ Hsides Hloop) as [HA HB].
  pose proof (loop_identity now limit _ _ _ _ _ _ _ Hloop) as (Hid & _).
  pose proof (same_identity_Side _ _ Hid) as Hside'.
  rewrite (isBuy_ext _ _ Hside) in HA, HB.
  assert (Hopp : MatchingEngine.oppositeHeap ob' order
                 = MatchingEngine.oppositeHeap ob1 order').
  { rewrite <- (oppositeHeap_side ob' order order') by congruence.
    destruct Hrest as [->|(_ & _ & Hadd)]; [done|].
    destruct (OrderBook_AddOrder_spec now ob1 order')
      as (h' & _ & ob2 & Hadd2 & _ & Hopp & _).
    rewrite Hadd2 in Hadd. injection Hadd as <-. exact Hopp. }
  rewrite Hopp. done.
Qed.

Lemma three_asks_reachable : reachable three_asks.
Proof.
  apply (submit_all_reachable MatchingEngine.NewMatchingEngine sample_asks);
    [apply reachable_new|]. vm_compute. reflexivity.
Defined.

(** X7.  Price priority.  In an engine reached from the empty one, the
    trades of a [SubmitOrder] call come best price first: for a buy order
    the prices never fall from one trade to the next, for a sell order they
    never rise.  And nothing better is left behind: every level that the
    opposite side of the book holds after the call has a price no better
    for the order than the price of any of its trades. *)
Theorem SubmitOrder_best_price_first (now : Time) (me me' : MatchingEngine.t)
    (order order' : Order.t) (trades' : list Trade.t) :
  reachable me →
  MatchingEngine.SubmitOrder now me order = Some (me', order', trades') →
  (∀ i j ti tj, (i < j)%nat → trades' !! i = Some ti → trades' !! j = Some tj →
     no_worse order (Trade.Price ti) (Trade.Price tj))
  ∧ ∃ ob', MatchingEngine.GetOrderBook me' (Order.Symbol order) = Some ob'
           ∧ ∀ t l, t ∈ trades' →
                    l ∈ PriceLevelHeap.Levels (MatchingEngine.oppositeHeap ob' order) →
                    no_worse order (Trade.Price t) (PriceLevel.Price l).
Proof.
  intros Hreach Hsub.
  destruct (SubmitOrder_reachable_inv _ _ _ _ _ _ Hreach Hsub)
    as (ob & ob' & _ & Hinv & Hd & Hbook).
  destruct (dispatch_price_priority _ _ _ _ _ _ Hinv Hd) as [HA HB].
  split.
  - intros i j ti tj Hij Hi Hj. apply prio_no_worse. by eapply (HA i j).
  - exists ob'. split; [exact Hbook|].
    intros t l Ht Hl. apply prio_no_worse. by apply HB.
Qed.

Lemma SubmitOrder_best_price_first_witness :
  reachable three_asks
  ∧ ∃ me' order' trades',
      MatchingEngine.SubmitOrder 3%Z three_asks sample_sweep
      = Some (me', order', trades')
      ∧ length trades' = 2%nat
      ∧ ∀ i j ti tj, (i < j)%nat →
          trades' !! i = Some ti → trades' !! j = Some tj →
          no_worse sample_sweep (Trade.Price ti) (Trade.Price tj).
Proof.
  split; [exact three_asks_reachable|].
  eexists _, _, _. split; [vm_compute; reflexivity|].
  split; [reflexivity|].
  refine (proj1 (SubmitOrder_best_price_first 3%Z three_asks _ sample_sweep _ _
                   three_asks_reachable _)).
  vm_compute. reflexivity.
Defined.

(** * What rests in a book *)

Lemma queue_after_elem q q' r' :
  queue_after q q' → r' ∈ q' → ∃ r, r ∈ q ∧ same_identity r r'.
Proof.
  intros [q1 [->|(r & r0 & q2 & -> & -> & Hid)]] Hr'.
  - exists r'. split; [|apply same_identity_refl].
    apply elem_of_app. by right.
  - apply elem_of_cons in Hr' as [->|Hr'].
    + exists r. split; [|done]. apply elem_of_app. right. left.
    + exists r'. split; [|apply same_identity_refl].
      apply elem_of_app. right. by right.
Qed.

Lemma level_after_rests h h' r' :
  (∀ l', l' ∈ PriceLevelHeap.Levels h' → level_after h l') →
  rests_in h' r' → ∃ r, rests_in h r ∧ same_identity r r'.
Proof.
  intros Hafter (l' & Hl' & Hr').
  destruct (Hafter l' Hl') as (l & Hl & _ & Hq).
  destruct (queue_after_elem _ _ _ Hq Hr') as (r & Hr & Hid).
  exists r. split; [by exists l|done].
Qed.

Lemma rested_at_tail_rests h order h' r' :
  rested_at_tail h order h' → rests_in h' r' → r' = order ∨ rests_in h r'.
Proof.
  intros [(i & l & Hi & _ & Hlevels)|[_ Hperm]] (l' & Hl' & Hr').
  - rewrite Hlevels in Hl'. apply list_elem_of_lookup in Hl' as [j Hj].
    destruct (decide (j = i)) as [->|Hne].
    + rewrite list_lookup_insert_eq in Hj by (by eapply lookup_lt_Some).
      injection Hj as <-. cbn in Hr'.
      apply elem_of_app in Hr' as [Hr'|Hr'].
      * right. exists l. split; [by eapply list_elem_of_lookup_2|done].
      * left. by apply list_elem_of_singleton in Hr'.
    + rewrite list_lookup_insert_ne in Hj by done.
      right. exists l'. split; [by eapply list_elem_of_lookup_2|done].
  - rewrite Hperm in Hl'. apply elem_of_cons in Hl' as [->|Hl'].
    + left. cbn in Hr'. by apply list_elem_of_singleton in Hr'.
    + right. by exists l'.
Qed.

Lemma dispatch_order_identity now ob order ob' order' trades' :
  dispatch now ob order = Some (ob', order', trades') →
  same_identity (as_matched order) order' ∧ OrderBook.Symbol ob' = OrderBook.Symbol ob.
Proof.
  intros Hd.
  destruct (dispatch_inv _ _ _ _ _ _ Hd) as (limit & fuel & ob1 & _ & Hloop & Hrest).
  pose proof (loop_identity now limit _ _ _ _ _ _ _ Hloop) as (Hid & _ & _ & Hsym).
  split; [done|].
  destruct Hrest as [->|(_ & _ & Hadd)]; [done|].
  destruct (OrderBook_AddOrder_spec now ob1 order')
    as (h' & _ & ob2 & Hadd2 & _ & _ & _ & Hsym2).
  rewrite Hadd2 in Hadd. injection Hadd as <-. congruence.
Qed.

Lemma as_matched_Type order :
  Order.Type_ order ≠ OrderTypeMarket → Order.Type_ (as_matched order) = OrderTypeLimit.
Proof.
  unfold as_matched. intros H. case_decide; [done|].
  by destruct (Order.Type_ order).
Qed.

Lemma side_of_sides b h : side_inv b h → side_of h = if b then OrderSideBuy else OrderSideSell.
Proof. intros (Hb & _). unfold side_of. by rewrite Hb. Qed.

Lemma resting_wf_ext symbol ob ob' h h' r r' :
  same_identity r r' →
  side_of h' = side_of h →
  (∀ id, is_Some (OrderBook.orders ob !! id) → is_Some (OrderBook.orders ob' !! id)) →
  resting_wf symbol ob h r → resting_wf symbol ob' h' r'.
Proof.
  intros (Hid & Hsym & Hty & Hside & _) Hs Hidx (W1 & W2 & W3 & W4).
  split_and!; [congruence..|]. rewrite Hid. by apply Hidx.
Qed.

Lemma dispatch_book_wf now symbol ob order ob' order' trades' :
  Order.Symbol order = symbol →
  book_inv ob → book_wf symbol ob →
  dispatch now ob order = Some (ob', order', trades') →
  book_wf symbol ob'.
Proof.
  intros Hsymbol Hinv (Hsym & Hbids & Hasks) Hd.
  pose proof (dispatch_book_inv _ _ _ _ _ _ Hinv Hd) as Hinv'.
  destruct (dispatch_order_identity _ _ _ _ _ _ Hd) as (Hid & Hsym').
  destruct (as_matched_identity order) as (EID & ESym & ESide & _).
  destruct (dispatch_trades _ _ _ _ _ _ Hinv Hd) as (_ & _ & _ & Hafter).
  pose proof (dispatch_own _ _ _ _ _ _ Hd) as Hown.
  (* the index only grows *)
  assert (Hidx : ∀ id, is_Some (OrderBook.orders ob !! id) →
                       is_Some (OrderBook.orders ob' !! id)).
  { intros id His. destruct Hown as [(_ & -> & _)|(_ & _ & _ & ->)]; [done|].
    apply lookup_insert_is_Some'. by right. }
  (* both sides, seen from the order *)
  assert (Hwf : ∀ r, (rests_in (ownHeap ob order) r →
                      resting_wf symbol ob (ownHeap ob order) r)
                     ∧ (rests_in (MatchingEngine.oppositeHeap ob order) r →
                        resting_wf symbol ob (MatchingEngine.oppositeHeap ob order) r)).
  { intros r. unfold ownHeap, MatchingEngine.oppositeHeap.
    case_decide; split; auto. }
  apply (book_inv_sides ob order) in Hinv as (Ho & Hp & _).
  apply (book_inv_sides ob' order) in Hinv' as (Ho' & Hp' & _).
  assert (Hown' : ∀ r', rests_in (ownHeap ob' order) r' →
                        resting_wf symbol ob' (ownHeap ob' order) r').
  { intros r' Hr'.
    assert (Hs : side_of (ownHeap ob' order) = side_of (ownHeap ob order)).
    { by rewrite (side_of_sides _ _ Ho), (side_of_sides _ _ Ho'). }
    destruct Hown as [(E & _ & _)|(Hty & _ & Htail & Eidx)].
    - rewrite E in Hr'.
      eapply resting_wf_ext; [apply same_identity_refl|done|done|].
      by apply Hwf.
    - destruct (rested_at_tail_rests _ _ _ _ Htail Hr') as [->|Hold].
      + destruct Hid as (Hid1 & Hid2 & Hid3 & Hid4 & _).
        split_and!.
        * rewrite (side_of_sides _ _ Ho'), Hid4, ESide. unfold isBuy.
          case_bool_decide as Hb; [done|]. by destruct (Order.Side order).
        * rewrite Hid3. by apply as_matched_Type.
        * congruence.
        * rewrite Eidx, lookup_insert_eq. by eexists.
      + eapply resting_wf_ext; [apply same_identity_refl|done|done|].
        by apply Hwf. }
  assert (Hopp' : ∀ r', rests_in (MatchingEngine.oppositeHeap ob' order) r' →
                        resting_wf symbol ob' (MatchingEngine.oppositeHeap ob' order) r').
  { intros r' Hr'.
    destruct (level_after_rests _ _ _ Hafter Hr') as (r & Hr & Hrid).
    eapply resting_wf_ext; [exact Hrid| |done|by apply Hwf].
    by rewrite (side_of_sides _ _ Hp), (side_of_sides _ _ Hp'). }
  split; [congruence|].
  revert Hown' Hopp'. unfold ownHeap, MatchingEngine.oppositeHeap.
  case_decide; intros; split; auto.
Qed.

Lemma SubmitOrder_engine_wf now me order me' order' trades' :
  engine_inv me → engine_wf me →
  MatchingEngine.SubmitOrder now me order = Some (me', order', trades') →
  engine_wf me'.
Proof.
  intros Hinv Hwf Hsub.
  apply SubmitOrder_inv in Hsub as (ob & ob' & Hbefore & Hd & Hbooks & _).
  pose proof (book_before_inv _ _ _ _ Hinv Hbefore) as Hbinv.
  assert (Hbwf : book_wf (Order.Symbol order) ob).
  { destruct Hbefore as [Hsome|[_ Hnew]]; [by apply Hwf|].
    rewrite NewOrderBook_eq in Hnew. injection Hnew as <-.
    split_and!; [done|..]; intros r (l & Hl & _); cbn in Hl;
      by apply elem_of_nil in Hl. }
  intros symbol ob1 Hlook. rewrite Hbooks in Hlook.
  destruct (decide (symbol = Order.Symbol order)) as [->|Hne].
  - rewrite lookup_insert_eq in Hlook. injection Hlook as <-.
    by eapply dispatch_book_wf.
  - rewrite lookup_insert_ne in Hlook by done. by apply Hwf.
Qed.

Lemma reachable_engine_wf me : reachable me → engine_wf me.
Proof.
  induction 1 as [|now me order me' order' trades' Hreach IH Hsub].
  - intros symbol ob H. cbn in H. by rewrite lookup_empty in H.
  - eapply SubmitOrder_engine_wf; [by apply reachable_engine_inv|done|done].
Qed.

(** X8.  In an engine reached from the empty one, the book kept under a
    symbol carries that symbol, has no empty price level, and every order
    resting in it is a live limit order in its place: on the bid side when
    it is a buy order and on the ask side when it is a sell order, of type
    Limit, of the book's symbol, at the price of its level, with quantity
    left to fill, and known to the identity index under its ID. *)
Theorem resting_orders_are_live_limit_orders (me : MatchingEngine.t)
    (symbol : string) (ob : OrderBook.t) :
  reachable me →
  MatchingEngine.GetOrderBook me symbol = Some ob →
  OrderBook.Symbol ob = symbol
  ∧ ∀ h side,
      (h = OrderBook.Bids ob ∧ side = OrderSideBuy)
      ∨ (h = OrderBook.Asks ob ∧ side = OrderSideSell) →
      ∀ l, l ∈ PriceLevelHeap.Levels h →
        PriceLevel.Orders l ≠ []
        ∧ ∀ r, r ∈ PriceLevel.Orders l →
            Order.Side r = side
            ∧ Order.Type_ r = OrderTypeLimit
            ∧ Order.Symbol r = symbol
            ∧ Order.Price r == PriceLevel.Price l
            ∧ 0 < Order.RemainingQuantity r
            ∧ is_Some (OrderBook.orders ob !! Order.ID r).
Proof.
  intros Hreach Hob.
  destruct (reachable_engine_wf me Hreach symbol ob Hob) as (Hsym & Hbids & Hasks).
  destruct (reachable_engine_inv me Hreach symbol ob Hob) as (Hb & Ha & _).
  split; [done|].
  intros h side Hside l Hl.
  assert (Hinv : ∃ b, side_inv b h ∧ side = (if b then OrderSideBuy else OrderSideSell)
                      ∧ ∀ r, rests_in h r → resting_wf symbol ob h r).
  { destruct Hside as [[-> ->]|[-> ->]]; [by exists true|by exists false]. }
  destruct Hinv as (b & (Hbid & _ & Hall & _) & -> & Hwf).
  rewrite Forall_forall in Hall. destruct (Hall l Hl) as [Hne Hq].
  split; [done|]. intros r Hr.
  rewrite Forall_forall in Hq. destruct (Hq r Hr) as [Hprice Hrem].
  destruct (Hwf r) as (W1 & W2 & W3 & W4); [by exists l|].
  split_and!; try done.
  rewrite W1. unfold side_of. by rewrite Hbid.
Qed.

Lemma resting_orders_are_live_limit_orders_witness :
  reachable after_sell
  ∧ ∃ ob,
      MatchingEngine.GetOrderBook after_sell "AAPL" = Some ob
      ∧ OrderBook.Symbol ob = "AAPL"
      ∧ ∀ h side,
          (h = OrderBook.Bids ob ∧ side = OrderSideBuy)
          ∨ (h = OrderBook.Asks ob ∧ side = OrderSideSell) →
          ∀ l, l ∈ PriceLevelHeap.Levels h →
            PriceLevel.Orders l ≠ []
            ∧ ∀ r, r ∈ PriceLevel.Orders l →
                Order.Side r = side
                ∧ Order.Type_ r = OrderTypeLimit
                ∧ Order.Symbol r = "AAPL"
                ∧ Order.Price r == PriceLevel.Price l
                ∧ 0 < Order.RemainingQuantity r
                ∧ is_Some (OrderBook.orders ob !! Order.ID r).
Proof.
  split; [exact after_sell_reachable|].
  eexists. split; [vm_compute; reflexivity|].
  refine (resting_orders_are_live_limit_orders after_sell "AAPL" _
            after_sell_reachable _).
  vm_compute. reflexivity.
Defined.

(** * Quotes: best prices, spread, mid price and snapshot *)

Lemma GetBestBid_root ob :
  OrderBook.GetBestBid ob
  = Some (from_option PriceLevel.Price 0
            (PriceLevelHeap.Levels (OrderBook.Bids ob) !! 0%nat)).
Proof.
  unfold OrderBook.GetBestBid, PriceLevelHeap.Peek, PriceLevelHeap.Len.
  destruct (PriceLevelHeap.Levels (OrderBook.Bids ob)) as [|l ls]; done.
Qed.

Lemma GetBestAsk_root ob :
  OrderBook.GetBestAsk ob
  = Some (from_option PriceLevel.Price 0
            (PriceLevelHeap.Levels (OrderBook.Asks ob) !! 0%nat)).
Proof.
  unfold OrderBook.GetBestAsk, PriceLevelHeap.Peek, PriceLevelHeap.Len.
  destruct (PriceLevelHeap.Levels (OrderBook.Asks ob)) as [|l ls]; done.
Qed.

Lemma Qeq_bool_false_pos (x : Q) : 0 < x → Qeq_bool x 0 = false.
Proof.
  intros H. destruct (Qeq_bool x 0) eqn:E; [|done].
  apply Qeq_bool_iff in E. lra.
Qed.

(** The quotes of a book that is uncrossed and has positive prices. *)
Lemma quotes_spec ob :
  book_inv ob → pos_prices ob →
  (∃ b a,
     (0 < PriceLevelHeap.Len (OrderBook.Bids ob))%nat
     ∧ (0 < PriceLevelHeap.Len (OrderBook.Asks ob))%nat
     ∧ OrderBook.GetBestBid ob = Some b ∧ OrderBook.GetBestAsk ob = Some a
     ∧ 0 < b ∧ b < a
     ∧ OrderBook.GetSpread ob = Some (a - b)
     ∧ OrderBook.GetMidPrice ob = Some ((b + a) / 2))
  ∨ ((PriceLevelHeap.Len (OrderBook.Bids ob) = 0%nat
      ∨ PriceLevelHeap.Len (OrderBook.Asks ob) = 0%nat)
     ∧ OrderBook.GetSpread ob = Some 0
     ∧ OrderBook.GetMidPrice ob = Some (OrderBook.LastPrice ob)).
Proof.
  intros (_ & _ & Hcross) Hpos.
  unfold OrderBook.GetSpread, OrderBook.GetMidPrice.
  rewrite GetBestBid_root, GetBestAsk_root. cbn [mbind option_bind].
  unfold PriceLevelHeap.Len.
  destruct (PriceLevelHeap.Levels (OrderBook.Bids ob)) as [|lb bs] eqn:Eb.
  { right. cbn. auto. }
  destruct (PriceLevelHeap.Levels (OrderBook.Asks ob)) as [|la as_] eqn:Ea.
  { right. cbn. rewrite orb_true_r. auto. }
  left. cbn [lookup list_lookup from_option].
  assert (Hb : 0 < PriceLevel.Price lb).
  { apply Hpos. left. rewrite Eb. left. }
  assert (Ha : 0 < PriceLevel.Price la).
  { apply Hpos. right. rewrite Ea. left. }
  assert (Hlt : PriceLevel.Price lb < PriceLevel.Price la).
  { apply Hcross; [rewrite Eb|rewrite Ea]; left. }
  rewrite (Qeq_bool_false_pos _ Hb), (Qeq_bool_false_pos _ Ha). cbn [orb].
  exists (PriceLevel.Price lb), (PriceLevel.Price la).
  split_and!; try done; cbn; lia.
Qed.

(** ** Prices stay positive under valid orders *)

Lemma rested_at_tail_prices h order h' l' :
  rested_at_tail h order h' → l' ∈ PriceLevelHeap.Levels h' →
  PriceLevel.Price l' = Order.Price order
  ∨ ∃ l, l ∈ PriceLevelHeap.Levels h ∧ PriceLevel.Price l' = PriceLevel.Price l.
Proof.
  intros [(i & l & Hi & _ & Hlevels)|[_ Hperm]] Hl'.
  - right. rewrite Hlevels in Hl'. apply list_elem_of_lookup in Hl' as [j Hj].
    destruct (decide (j = i)) as [->|Hne].
    + rewrite list_lookup_insert_eq in Hj by (by eapply lookup_lt_Some).
      injection Hj as <-. exists l. split; [by eapply list_elem_of_lookup_2|done].
    + rewrite list_lookup_insert_ne in Hj by done.
      exists l'. split; [by eapply list_elem_of_lookup_2|done].
  - rewrite Hperm in Hl'. apply elem_of_cons in Hl' as [->|Hl']; [by left|].
    right. by exists l'.
Qed.

Lemma dispatch_pos_prices now ob order ob' order' trades' :
  book_inv ob → pos_prices ob → valid_order order →
  dispatch now ob order = Some (ob', order', trades') →
  pos_prices ob'.
Proof.
  intros Hinv Hpos [_ Hvalid] Hd.
  destruct (dispatch_trades _ _ _ _ _ _ Hinv Hd) as (_ & _ & _ & Hafter).
  pose proof (dispatch_own _ _ _ _ _ _ Hd) as Hown.
  destruct (dispatch_Symbol _ _ _ _ _ _ Hd) as (_ & _ & _ & Hprice).
  assert (Hold : ∀ l, l ∈ PriceLevelHeap.Levels (ownHeap ob order)
                      ∨ l ∈ PriceLevelHeap.Levels (MatchingEngine.oppositeHeap ob order) →
                      0 < PriceLevel.Price l).
  { intros l Hl. apply Hpos. revert Hl.
    unfold ownHeap, MatchingEngine.oppositeHeap. case_decide; tauto. }
  assert (Hnew : ∀ l, l ∈ PriceLevelHeap.Levels (ownHeap ob' order)
                      ∨ l ∈ PriceLevelHeap.Levels (MatchingEngine.oppositeHeap ob' order) →
                      0 < PriceLevel.Price l).
  { intros l' [Hl'|Hl'].
    - destruct Hown as [(E & _ & _)|(Hty & _ & Htail & _)].
      + rewrite E in Hl'. apply Hold. by left.
      + destruct (rested_at_tail_prices _ _ _ _ Htail Hl') as [->|(l & Hl & ->)].
        * rewrite Hprice. apply Hvalid. by destruct (Order.Type_ order); auto.
        * apply Hold. by left.
    - destruct (Hafter l' Hl') as (l & Hl & -> & _). apply Hold. by right. }
  intros l Hl. apply Hnew. revert Hl.
  unfold ownHeap, MatchingEngine.oppositeHeap. case_decide; tauto.
Qed.

Lemma SubmitOrder_engine_pos now me order me' order' trades' :
  engine_inv me → engine_pos me → valid_order order →
  MatchingEngine.SubmitOrder now me order = Some (me', order', trades') →
  engine_pos me'.
Proof.
  intros Hinv Hpos Hvalid Hsub.
  apply SubmitOrder_inv in Hsub as (ob & ob' & Hbefore & Hd & Hbooks & _).
  pose proof (book_before_inv _ _ _ _ Hinv Hbefore) as Hbinv.
  assert (Hbpos : pos_prices ob).
  { destruct Hbefore as [Hsome|[_ Hnew]]; [by eapply Hpos|].
    rewrite NewOrderBook_eq in Hnew. injection Hnew as <-.
    intros l [Hl|Hl]; cbn in Hl; by apply elem_of_nil in Hl. }
  intros symbol ob1 Hlook. rewrite Hbooks in Hlook.
  destruct (decide (symbol = Order.Symbol order)) as [->|Hne].
  - rewrite lookup_insert_eq in Hlook. injection Hlook as <-.
    by eapply dispatch_pos_prices.
  - rewrite lookup_insert_ne in Hlook by done. by eapply Hpos.
Qed.

Lemma submit_all_engine_pos calls : ∀ me me',
  reachable me → engine_pos me →
  Forall (λ c, valid_order c.2) calls →
  submit_all me calls = Some me' →
  reachable me' ∧ engine_pos me'.
Proof.
  induction calls as [|[now order] calls IH]; intros me me' Hreach Hpos Hvalid Hall.
  - cbn in Hall. by simplify_eq.
  - apply Forall_cons in Hvalid as [Hv Hvalid]. cbn in Hv.
    cbn [submit_all] in Hall.
    destruct (MatchingEngine.SubmitOrder now me order) as [[[me1 o1] t1]|] eqn:Hsub;
      [|done].
    cbn [mbind option_bind] in Hall.
    apply (IH me1 me'); [by eapply reachable_submit| |done|done].
    eapply SubmitOrder_engine_pos; [by apply reachable_engine_inv|done|done|done].
Qed.

Lemma valid_calls_quotes calls :
  Forall (λ c, valid_order c.2) calls →
  ∃ me, submit_all MatchingEngine.NewMatchingEngine calls = Some me
        ∧ ∀ symbol ob, MatchingEngine.GetOrderBook me symbol = Some ob →
                       book_inv ob ∧ pos_prices ob.
Proof.
  intros Hvalid.
  destruct (submit_all_total MatchingEngine.NewMatchingEngine calls) as [me Hme].
  exists me. split; [done|].
  assert (Hpos0 : engine_pos MatchingEngine.NewMatchingEngine).
  { intros symbol ob H. cbn in H. by rewrite lookup_empty in H. }
  destruct (submit_all_engine_pos calls _ me reachable_new Hpos0 Hvalid Hme)
    as [Hreach Hpos].
  intros symbol ob Hob. split; [by eapply reachable_engine_inv|by eapply Hpos].
Qed.

Lemma sample_apart_valid : Forall (λ c, valid_order c.2) sample_apart.
Proof. repeat constructor; intros; reflexivity. Defined.

(** X9.  After any sequence of [SubmitOrder] calls from the empty engine
    with valid orders (positive quantity; positive price for Limit and
    StopLoss), [GetSpread] of every book returns: it is the best ask minus
    the best bid, a positive number, when both sides hold orders, and zero
    when a side is empty.  It is never negative. *)
Theorem GetSpread_of_valid_orders (calls : list (Time * Order.t)) :
  Forall (λ c, valid_order c.2) calls →
  ∃ me, submit_all MatchingEngine.NewMatchingEngine calls = Some me
        ∧ ∀ symbol ob,
            MatchingEngine.GetOrderBook me symbol = Some ob →
            ∃ bid ask spread,
              OrderBook.GetBestBid ob = Some bid
              ∧ OrderBook.GetBestAsk ob = Some ask
              ∧ OrderBook.GetSpread ob = Some spread
              ∧ ((0 < PriceLevelHeap.Len (OrderBook.Bids ob))%nat
                 ∧ (0 < PriceLevelHeap.Len (OrderBook.Asks ob))%nat →
                 spread = ask - bid ∧ 0 < spread)
              ∧ (PriceLevelHeap.Len (OrderBook.Bids ob) = 0%nat
                 ∨ PriceLevelHeap.Len (OrderBook.Asks ob) = 0%nat →
                 spread = 0).
Proof.
  intros Hvalid. destruct (valid_calls_quotes calls Hvalid) as (me & Hme & Hbooks).
  exists me. split; [done|]. intros symbol ob Hob.
  destruct (Hbooks symbol ob Hob) as [Hinv Hpos].
  destruct (quotes_spec ob Hinv Hpos)
    as [(b & a & Hlb & Hla & Hb & Ha & Hb0 & Hba & Hs & _)|(Hempty & Hs & _)].
  - exists b, a, (a - b). split_and!; try done.
    + intros _. split; [done|lra].
    + intros [H|H]; lia.
  - rewrite GetBestBid_root, GetBestAsk_root. eexists _, _, 0.
    split_and!; try done. intros [H1 H2]. lia.
Qed.

Lemma GetSpread_of_valid_orders_witness :
  Forall (λ c, valid_order c.2) sample_apart
  ∧ ∃ me, submit_all MatchingEngine.NewMatchingEngine sample_apart = Some me
          ∧ ∀ symbol ob,
              MatchingEngine.GetOrderBook me symbol = Some ob →
              ∃ bid ask spread,
                OrderBook.GetBestBid ob = Some bid
                ∧ OrderBook.GetBestAsk ob = Some ask
                ∧ OrderBook.GetSpread ob = Some spread
                ∧ ((0 < PriceLevelHeap.Len (OrderBook.Bids ob))%nat
                   ∧ (0 < PriceLevelHeap.Len (OrderBook.Asks ob))%nat →
                   spread = ask - bid ∧ 0 < spread)
                ∧ (PriceLevelHeap.Len (OrderBook.Bids ob) = 0%nat
                   ∨ PriceLevelHeap.Len (OrderBook.Asks ob) = 0%nat →
                   spread = 0).
Proof.
  split; [exact sample_apart_valid|].
  exact (GetSpread_of_valid_orders sample_apart sample_apart_valid).
Defined.

(** X10.  After any sequence of [SubmitOrder] calls from the empty engine
    with valid orders, [GetMidPrice] of every book returns: when both sides
    hold orders it is the best bid plus the best ask, halved, a positive
    number; when a side is empty it is the last trade price of the book.
    The zero that [GetBestBid] and [GetBestAsk] give for an empty side is
    never the price of an order, so the code tells the two cases apart. *)
Theorem GetMidPrice_of_valid_orders (calls : list (Time * Order.t)) :
  Forall (λ c, valid_order c.2) calls →
  ∃ me, submit_all MatchingEngine.NewMatchingEngine calls = Some me
        ∧ ∀ symbol ob,
            MatchingEngine.GetOrderBook me symbol = Some ob →
            ∃ bid ask mid,
              OrderBook.GetBestBid ob = Some bid
              ∧ OrderBook.GetBestAsk ob = Some ask
              ∧ OrderBook.GetMidPrice ob = Some mid
              ∧ ((0 < PriceLevelHeap.Len (OrderBook.Bids ob))%nat
                 ∧ (0 < PriceLevelHeap.Len (OrderBook.Asks ob))%nat →
                 mid = (bid + ask) / 2 ∧ 0 < mid)
              ∧ (PriceLevelHeap.Len (OrderBook.Bids ob) = 0%nat
                 ∨ PriceLevelHeap.Len (OrderBook.Asks ob) = 0%nat →
                 mid = OrderBook.LastPrice ob).
Proof.
  intros Hvalid. destruct (valid_calls_quotes calls Hvalid) as (me & Hme & Hbooks).
  exists me. split; [done|]. intros symbol ob Hob.
  destruct (Hbooks symbol ob Hob) as [Hinv Hpos].
  destruct (quotes_spec ob Hinv Hpos)
    as [(b & a & Hlb & Hla & Hb & Ha & Hb0 & Hba & _ & Hm)|(Hempty & _ & Hm)].
  - exists b, a, ((b + a) / 2). split_and!; try done.
    + intros _. split; [done|].
      apply Qlt_shift_div_l; lra.
    + intros [H|H]; lia.
  - rewrite GetBestBid_root, GetBestAsk_root. eexists _, _, _.
    split_and!; try done. intros [H1 H2]. lia.
Qed.

Lemma GetMidPrice_of_valid_orders_witness :
  Forall (λ c, valid_order c.2) sample_apart
  ∧ ∃ me, submit_all MatchingEngine.NewMatchingEngine sample_apart = Some me
          ∧ ∀ symbol ob,
              MatchingEngine.GetOrderBook me symbol = Some ob →
              ∃ bid ask mid,
                OrderBook.GetBestBid ob = Some bid
                ∧ OrderBook.GetBestAsk ob = Some ask
                ∧ OrderBook.GetMidPrice ob = Some mid
                ∧ ((0 < PriceLevelHeap.Len (OrderBook.Bids ob))%nat
                   ∧ (0 < PriceLevelHeap.Len (OrderBook.Asks ob))%nat →
                   mid = (bid + ask) / 2 ∧ 0 < mid)
                ∧ (PriceLevelHeap.Len (OrderBook.Bids ob) = 0%nat
                   ∨ PriceLevelHeap.Len (OrderBook.Asks ob) = 0%nat →
                   mid = OrderBook.LastPrice ob).
Proof.
  split; [exact sample_apart_valid|].
  exact (GetMidPrice_of_valid_orders sample_apart sample_apart_valid).
Defined.

(** ** The snapshot *)

Lemma Snapshot_copy {A B} (f : A → B) (ls : list A) (acc : list B) :
  fold_left (λ snapshot level, snapshot ++ [f level]) ls acc = acc ++ (f <$> ls).
Proof.
  revert acc. induction ls as [|l ls IH]; intros acc; cbn.
  - by rewrite app_nil_r.
  - rewrite IH, <- app_assoc. done.
Qed.

Lemma Snapshot_sides ob :
  OrderBookSnapshot.Bids (OrderBook.Snapshot ob)
  = OrderBook.Snapshot_level <$> PriceLevelHeap.Levels (OrderBook.Bids ob)
  ∧ OrderBookSnapshot.Asks (OrderBook.Snapshot ob)
    = OrderBook.Snapshot_level <$> PriceLevelHeap.Levels (OrderBook.Asks ob).
Proof. unfold OrderBook.Snapshot. cbn. by rewrite !Snapshot_copy. Qed.

Lemma totalQty_ge (q : list Order.t) : ∀ s,
  Forall (λ r, 0 < Order.RemainingQuantity r) q →
  s <= fold_left (λ totalQty order, totalQty + Order.RemainingQuantity order) q s
  ∧ (q ≠ [] →
     s < fold_left (λ totalQty order, totalQty + Order.RemainingQuantity order) q s).
Proof.
  induction q as [|r q IH]; intros s Hall.
  - cbn. split; [lra|done].
  - apply Forall_cons in Hall as [Hr Hall]. cbn [fold_left].
    destruct (IH (s + Order.RemainingQuantity r) Hall) as [Hle _].
    split; [lra|intros _; lra].
Qed.

Lemma Snapshot_level_ok l :
  level_ok l →
  PriceLevelSnapshot.Price (OrderBook.Snapshot_level l) = PriceLevel.Price l
  ∧ (1 ≤ PriceLevelSnapshot.Orders (OrderBook.Snapshot_level l))%nat
  ∧ 0 < PriceLevelSnapshot.Quantity (OrderBook.Snapshot_level l).
Proof.
  intros [Hne Hall]. unfold OrderBook.Snapshot_level. cbn.
  split_and!; [done| |].
  - destruct (PriceLevel.Orders l); [done|cbn; lia].
  - apply totalQty_ge; [|done].
    eapply Forall_impl; [exact Hall|]. by intros r [_ ?].
Qed.

Lemma side_inv_snapshot b h s :
  side_inv b h →
  s ∈ OrderBook.Snapshot_level <$> PriceLevelHeap.Levels h →
  ∃ l, l ∈ PriceLevelHeap.Levels h
       ∧ PriceLevelSnapshot.Price s = PriceLevel.Price l
       ∧ (1 ≤ PriceLevelSnapshot.Orders s)%nat
       ∧ 0 < PriceLevelSnapshot.Quantity s.
Proof.
  intros (_ & _ & Hall & _) Hs.
  apply list_elem_of_fmap in Hs as (l & -> & Hl).
  rewrite Forall_forall in Hall.
  destruct (Snapshot_level_ok l (Hall l Hl)) as (H1 & H2 & H3).
  by exists l.
Qed.

Lemma side_inv_snapshot_distinct b h i j si sj :
  side_inv b h → i ≠ j →
  (OrderBook.Snapshot_level <$> PriceLevelHeap.Levels h) !! i = Some si →
  (OrderBook.Snapshot_level <$> PriceLevelHeap.Levels h) !! j = Some sj →
  ¬ PriceLevelSnapshot.Price si == PriceLevelSnapshot.Price sj.
Proof.
  intros (_ & _ & _ & Hnodup) Hij Hi Hj Heq.
  rewrite list_lookup_fmap in Hi, Hj.
  destruct (PriceLevelHeap.Levels h !! i) as [li|] eqn:Eli; [|done].
  destruct (PriceLevelHeap.Levels h !! j) as [lj|] eqn:Elj; [|done].
  cbn in Hi, Hj. simplify_eq. cbn in Heq.
  apply Qred_complete in Heq. apply Hij.
  eapply (NoDup_lookup _ i j); [exact Hnodup|..];
    unfold level_prices; rewrite list_lookup_fmap.
  - by rewrite Eli.
  - rewrite Elj. cbn. by rewrite Heq.
Qed.

Lemma side_inv_snapshot_head b h s0 s :
  side_inv b h →
  (OrderBook.Snapshot_level <$> PriceLevelHeap.Levels h) !! 0%nat = Some s0 →
  s ∈ OrderBook.Snapshot_level <$> PriceLevelHeap.Levels h →
  prio b (PriceLevelSnapshot.Price s0) (PriceLevelSnapshot.Price s).
Proof.
  intros (Hb & Hheap & _ & _) H0 Hs.
  rewrite list_lookup_fmap in H0.
  destruct (PriceLevelHeap.Levels h !! 0%nat) as [l0|] eqn:El0; [|done].
  cbn in H0. simplify_eq.
  apply list_elem_of_fmap in Hs as (l & -> & Hl).
  apply list_elem_of_lookup in Hl as [j Hj].
  cbn. by eapply (root_best h l0).
Qed.

(** X11.  The snapshot of a book of an engine reached from the empty one
    shows the book's symbol and last price and one line per price level of
    each side.  Every line stands for at least one order and a positive
    total quantity; no two lines of a side have the same price; every bid
    line is priced below every ask line; and the first line of each side is
    its best price, the highest bid and the lowest ask, the one
    [GetBestBid] and [GetBestAsk] return. *)
Theorem Snapshot_of_reachable_book (me : MatchingEngine.t) (symbol : string)
    (ob : OrderBook.t) :
  reachable me →
  MatchingEngine.GetOrderBook me symbol = Some ob →
  let snap := OrderBook.Snapshot ob in
  let bids := OrderBookSnapshot.Bids snap in
  let asks := OrderBookSnapshot.Asks snap in
  OrderBookSnapshot.Symbol snap = symbol
  ∧ OrderBookSnapshot.LastPrice snap = OrderBook.LastPrice ob
  ∧ length bids = PriceLevelHeap.Len (OrderBook.Bids ob)
  ∧ length asks = PriceLevelHeap.Len (OrderBook.Asks ob)
  ∧ (∀ s, s ∈ bids ++ asks →
          (1 ≤ PriceLevelSnapshot.Orders s)%nat ∧ 0 < PriceLevelSnapshot.Quantity s)
  ∧ (∀ side i j si sj, side = bids ∨ side = asks → i ≠ j →
       side !! i = Some si → side !! j = Some sj →
       ¬ PriceLevelSnapshot.Price si == PriceLevelSnapshot.Price sj)
  ∧ (∀ sb sa, sb ∈ bids → sa ∈ asks →
       PriceLevelSnapshot.Price sb < PriceLevelSnapshot.Price sa)
  ∧ (∀ s0 s, bids !! 0%nat = Some s0 → s ∈ bids →
       PriceLevelSnapshot.Price s <= PriceLevelSnapshot.Price s0)
  ∧ (∀ s0 s, asks !! 0%nat = Some s0 → s ∈ asks →
       PriceLevelSnapshot.Price s0 <= PriceLevelSnapshot.Price s)
  ∧ OrderBook.GetBestBid ob
    = Some (from_option PriceLevelSnapshot.Price 0 (bids !! 0%nat))
  ∧ OrderBook.GetBestAsk ob
    = Some (from_option PriceLevelSnapshot.Price 0 (asks !! 0%nat)).
Proof.
  intros Hreach Hob snap bids asks.
  destruct (reachable_engine_wf me Hreach symbol ob Hob) as (Hsym & _).
  destruct (reachable_engine_inv me Hreach symbol ob Hob) as (Hb & Ha & Hcross).
  destruct (Snapshot_sides ob) as [Ebids Easks].
  fold snap in Ebids, Easks. fold bids in Ebids. fold asks in Easks.
  split_and!.
  - done.
  - done.
  - by rewrite Ebids, length_fmap.
  - by rewrite Easks, length_fmap.
  - intros s Hs. apply elem_of_app in Hs as [Hs|Hs].
    + rewrite Ebids in Hs.
      by destruct (side_inv_snapshot _ _ _ Hb Hs) as (l & _ & _ & ? & ?).
    + rewrite Easks in Hs.
      by destruct (side_inv_snapshot _ _ _ Ha Hs) as (l & _ & _ & ? & ?).
  - intros side i j si sj [->| ->] Hij Hi Hj.
    + rewrite Ebids in Hi, Hj.
      exact (side_inv_snapshot_distinct true _ i j si sj Hb Hij Hi Hj).
    + rewrite Easks in Hi, Hj.
      exact (side_inv_snapshot_distinct false _ i j si sj Ha Hij Hi Hj).
  - intros sb sa Hsb Hsa. rewrite Ebids in Hsb. rewrite Easks in Hsa.
    destruct (side_inv_snapshot _ _ _ Hb Hsb) as (lb & Hlb & -> & _).
    destruct (side_inv_snapshot _ _ _ Ha Hsa) as (la & Hla & -> & _).
    by apply Hcross.
  - intros s0 s H0 Hs. rewrite Ebids in H0, Hs.
    exact (side_inv_snapshot_head true _ _ _ Hb H0 Hs).
  - intros s0 s H0 Hs. rewrite Easks in H0, Hs.
    exact (side_inv_snapshot_head false _ _ _ Ha H0 Hs).
  - rewrite GetBestBid_root, Ebids, list_lookup_fmap.
    by destruct (PriceLevelHeap.Levels (OrderBook.Bids ob) !! 0%nat).
  - rewrite GetBestAsk_root, Easks, list_lookup_fmap.
    by destruct (PriceLevelHeap.Levels (OrderBook.Asks ob) !! 0%nat).
Qed.

Lemma after_apart_reachable : reachable after_apart.
Proof.
  apply (submit_all_reachable MatchingEngine.NewMatchingEngine sample_apart);
    [apply reachable_new|]. vm_compute. reflexivity.
Defined.

Lemma Snapshot_of_reachable_book_witness :
  reachable after_apart
  ∧ ∃ ob,
      MatchingEngine.GetOrderBook after_apart "AAPL" = Some ob
      ∧ length (OrderBookSnapshot.Bids (OrderBook.Snapshot ob)) = 1%nat
      ∧ length (OrderBookSnapshot.Asks (OrderBook.Snapshot ob)) = 1%nat
      ∧ ∀ sb sa,
          sb ∈ OrderBookSnapshot.Bids (OrderBook.Snapshot ob) →
          sa ∈ OrderBookSnapshot.Asks (OrderBook.Snapshot ob) →
          PriceLevelSnapshot.Price sb < PriceLevelSnapshot.Price sa.
Proof.
  split; [exact after_apart_reachable|].
  eexists. split; [vm_compute; reflexivity|].
  split; [reflexivity|]. split; [reflexivity|].
  refine (proj1 (proj2 (proj2 (proj2 (proj2 (proj2 (proj2
            (Snapshot_of_reachable_book after_apart "AAPL" _
               after_apart_reachable _)))))))).
  vm_compute. reflexivity.
Defined.

(** * [heap.Init] and [RemoveOrder] *)

Lemma down_weak_from_swap h lo i j n li lj :
  child i j → (j < n)%nat → (lo ≤ i)%nat →
  PriceLevelHeap.Levels h !! i = Some li →
  PriceLevelHeap.Levels h !! j = Some lj →
  prio (PriceLevelHeap.IsBid h) (PriceLevel.Price lj) (PriceLevel.Price li) →
  (∀ c lc, child i c → (c < n)%nat →
     PriceLevelHeap.Levels h !! c = Some lc →
     prio (PriceLevelHeap.IsBid h) (PriceLevel.Price lj) (PriceLevel.Price lc)) →
  down_weak_from h lo i n →
  down_weak_from (PriceLevelHeap.set_Levels h
                    (<[i := lj]> (<[j := li]> (PriceLevelHeap.Levels h)))) lo j n.
Proof.
  intros Hij Hjn Hlo Hi Hj Hwin Hbest [Hpairs Hgrand].
  pose proof (child_lt _ _ Hij) as Hlt.
  split.
  - intros p c Hpc Hlop Hcn Hpj lp lc. cbn.
    rewrite !(swap_lookup _ _ _ _ _ _ Hi Hj).
    pose proof (child_lt _ _ Hpc).
    repeat case_decide; subst; intros; simplify_eq; try lia.
    + done.
    + by eapply (Hbest c).
    + by eapply (Hgrand p j).
    + assert (p = i) by (by eapply child_inj). done.
    + by eapply (Hpairs p c).
  - intros g c Hgj Hjc Hlog Hcn lg lc. cbn.
    rewrite !(swap_lookup _ _ _ _ _ _ Hi Hj).
    assert (g = i) by (by eapply child_inj). subst g.
    pose proof (child_lt _ _ Hjc).
    repeat case_decide; subst; intros; simplify_eq; try lia.
    eapply (Hpairs j c); [done|lia|done|lia|done|done].
Qed.

Lemma down_weak_from_done h lo i j n li lj :
  child i j →
  PriceLevelHeap.Levels h !! i = Some li →
  PriceLevelHeap.Levels h !! j = Some lj →
  prio (PriceLevelHeap.IsBid h) (PriceLevel.Price li) (PriceLevel.Price lj) →
  (∀ c lc, child i c → (c < n)%nat →
     PriceLevelHeap.Levels h !! c = Some lc →
     prio (PriceLevelHeap.IsBid h) (PriceLevel.Price lj) (PriceLevel.Price lc)) →
  down_weak_from h lo i n → heap_from h lo n.
Proof.
  intros Hij Hi Hj Hok Hbest [Hpairs _] p c Hpc Hlo Hcn lp lc Hp Hc.
  destruct (decide (p = i)) as [->|].
  - simplify_eq. eapply prio_trans; [exact Hok|]. by eapply (Hbest c).
  - by eapply (Hpairs p c).
Qed.

Lemma down_weak_from_leaf h lo i n :
  (n ≤ 2 * i + 1)%nat → down_weak_from h lo i n → heap_from h lo n.
Proof.
  intros Hn [Hpairs _] p c Hpc Hlo Hcn. apply Hpairs; [done..|].
  intros ->. unfold child in Hpc. lia.
Qed.

(** [down] repairs the heap shape of the parents from [lo] on. *)
Lemma down_from_spec fuel : ∀ h i n lo h',
  (n ≤ PriceLevelHeap.Len h)%nat → (lo ≤ i)%nat →
  heap.down fuel h i n = Some h' →
  down_weak_from h lo i n → heap_from h' lo n.
Proof.
  induction fuel as [|fuel IH]; intros h i n lo h' Hlen Hlo Hdown Hweak; [done|].
  cbn [heap.down] in Hdown. cbn zeta in Hdown.
  destruct (n <=? 2 * i + 1)%nat eqn:Eleaf.
  - apply Nat.leb_le in Eleaf. injection Hdown as <-.
    by eapply down_weak_from_leaf.
  - apply Nat.leb_gt in Eleaf.
    destruct (down_choose h i n Eleaf Hlen) as (j & lj & Hsel & Hij & Hjn & Hj & Hbest).
    cbn zeta in Hsel. rewrite Hsel in Hdown. cbn [mbind option_bind] in Hdown.
    pose proof (child_lt _ _ Hij) as Hlt.
    destruct (lookup_lt_is_Some_2 (PriceLevelHeap.Levels h) i) as [li Hi];
      [unfold PriceLevelHeap.Len in Hlen; lia|].
    destruct (Less_Some h j i lj li Hj Hi) as (b & Hless & Htrue & Hfalse).
    change (heap.iLess h j i) with (PriceLevelHeap.Less h j i) in Hdown.
    rewrite Hless in Hdown. cbn [mbind option_bind] in Hdown.
    destruct b; cbn [negb] in Hdown.
    + change (heap.iSwap h i j) with (PriceLevelHeap.Swap h i j) in Hdown.
      rewrite (Swap_Some h i j li lj Hi Hj) in Hdown.
      cbn [mbind option_bind] in Hdown.
      eapply (IH _ j n lo h'); [|lia|exact Hdown|].
      * unfold PriceLevelHeap.Len. cbn. rewrite !length_insert.
        unfold PriceLevelHeap.Len in Hlen. lia.
      * by apply down_weak_from_swap; auto.
    + injection Hdown as <-. eapply down_weak_from_done; eauto.
Qed.

Lemma heap_from_0 h :
  heap_from h 0 (PriceLevelHeap.Len h) → heap_ordered h.
Proof.
  intros H i j Hij li lj Hi Hj. eapply (H i j); [done|lia| |done|done].
  unfold PriceLevelHeap.Len. by eapply lookup_lt_Some.
Qed.

Lemma Init_loop_spec k : ∀ h n,
  n = PriceLevelHeap.Len h →
  heap_from h k n →
  ∃ h', heap.Init_loop k h n = Some h'
        ∧ PriceLevelHeap.IsBid h' = PriceLevelHeap.IsBid h
        ∧ PriceLevelHeap.Levels h' ≡ₚ PriceLevelHeap.Levels h
        ∧ heap_ordered h'.
Proof.
  induction k as [|i IH]; intros h n Hn Hfrom.
  - exists h. split_and!; [done..|]. apply heap_from_0. by rewrite <- Hn.
  - cbn [heap.Init_loop].
    destruct (down_spec (S n) h i n) as (h1 & Hdown & Hbid & Hperm & _ & _);
      [lia|lia|].
    rewrite Hdown. cbn [mbind option_bind].
    assert (Hlen1 : n = PriceLevelHeap.Len h1).
    { unfold PriceLevelHeap.Len in *. by rewrite Hperm. }
    destruct (IH h1 n Hlen1) as (h' & Hloop & Hbid' & Hperm' & Hord).
    { eapply (down_from_spec (S n) h i n i h1); [lia|lia|exact Hdown|].
      split.
      - intros p c Hpc Hlo Hcn Hne. apply Hfrom; [done|lia|done].
      - intros g c Hgi _ Hlo _. apply child_lt in Hgi. lia. }
    exists h'. split_and!; [done|congruence|by rewrite Hperm'|done].
Qed.

(** [heap.Init] makes a heap of any slice of levels. *)
Lemma heap_Init_spec h :
  ∃ h', heap.Init h = Some h'
        ∧ PriceLevelHeap.IsBid h' = PriceLevelHeap.IsBid h
        ∧ PriceLevelHeap.Levels h' ≡ₚ PriceLevelHeap.Levels h
        ∧ heap_ordered h'.
Proof.
  unfold heap.Init. cbn zeta.
  change (heap.iLen h) with (PriceLevelHeap.Len h).
  apply Init_loop_spec; [done|].
  intros i j Hij Hlo Hjn. exfalso.
  pose proof (Nat.div_mod_eq (PriceLevelHeap.Len h) 2) as Hdm.
  pose proof (Nat.mod_upper_bound (PriceLevelHeap.Len h) 2) as Hmod.
  unfold child in Hij. lia.
Qed.

(** ** [PriceLevelHeap.RemoveOrder] *)

Lemma RemoveOrder_find_Some os id j :
  PriceLevelHeap.RemoveOrder_find os id = Some j →
  ∃ q1 x q2, os = q1 ++ x :: q2 ∧ length q1 = j ∧ Order.ID x = id
             ∧ Forall (λ y, Order.ID y ≠ id) q1
             ∧ take j os ++ drop (S j) os = q1 ++ q2.
Proof.
  revert j. induction os as [|o os IH]; intros j H; [done|].
  cbn in H. case_decide as Hid.
  - injection H as <-. exists [], o, os. by split_and!.
  - destruct (PriceLevelHeap.RemoveOrder_find os id) as [j'|] eqn:E; [|done].
    cbn in H. injection H as <-.
    destruct (IH j' eq_refl) as (q1 & x & q2 & -> & <- & Hx & Hq1 & Htake).
    exists (o :: q1), x, q2. split_and!; [done|done|done|by constructor|].
    cbn. by rewrite Htake.
Qed.

Lemma RemoveOrder_find_None os id :
  PriceLevelHeap.RemoveOrder_find os id = None ↔ Forall (λ y, Order.ID y ≠ id) os.
Proof.
  induction os as [|o os IH]; [by split|].
  cbn. case_decide as Hid.
  - split; [done|]. intros H. by apply Forall_cons in H as [? _].
  - destruct (PriceLevelHeap.RemoveOrder_find os id) as [j'|] eqn:E; cbn.
    + split; [done|]. intros H. apply Forall_cons in H as [_ H].
      by apply IH in H.
    + split; [|done]. intros _. constructor; [done|]. by apply IH.
Qed.

(** The level a scan stops at: none of the levels before it holds the
    order, and it does at position [j] of its queue. *)
Lemma RemoveOrder_scan_stop h order t1 l t2 j : ∀ i,
  Forall (λ l0, PriceLevel.Price l0 == Order.Price order →
                PriceLevelHeap.RemoveOrder_find (PriceLevel.Orders l0) (Order.ID order)
                = None) t1 →
  PriceLevel.Price l == Order.Price order →
  PriceLevelHeap.RemoveOrder_find (PriceLevel.Orders l) (Order.ID order) = Some j →
  PriceLevelHeap.RemoveOrder_scan h (t1 ++ l :: t2) i order
  = (let k := (i + length t1)%nat in
     let os := take j (PriceLevel.Orders l) ++ drop (S j) (PriceLevel.Orders l) in
     let h1 := PriceLevelHeap.set_Levels h
                 (<[k := PriceLevel.set_Orders l os]> (PriceLevelHeap.Levels h)) in
     if (length os =? 0)%nat
     then h2 ← heap.Init
                 (PriceLevelHeap.set_Levels h1
                    (take k (PriceLevelHeap.Levels h1)
                     ++ drop (S k) (PriceLevelHeap.Levels h1)));
          Some (h2, true)
     else Some (h1, true)).
Proof.
  induction t1 as [|l0 t1 IH]; intros i Hnone Hprice Hfind.
  - cbn [app PriceLevelHeap.RemoveOrder_scan length].
    apply Qeq_bool_iff in Hprice. rewrite Hprice, Hfind.
    by rewrite Nat.add_0_r.
  - apply Forall_cons in Hnone as [H0 Hnone].
    cbn [app PriceLevelHeap.RemoveOrder_scan length].
    replace (i + S (length t1))%nat with (S i + length t1)%nat by lia.
    destruct (Qeq_bool (PriceLevel.Price l0) (Order.Price order)) eqn:E.
    + apply Qeq_bool_iff in E. rewrite (H0 E). by apply IH.
    + by apply IH.
Qed.

Lemma RemoveOrder_scan_none h order todo : ∀ i,
  Forall (λ l0, PriceLevel.Price l0 == Order.Price order →
                PriceLevelHeap.RemoveOrder_find (PriceLevel.Orders l0) (Order.ID order)
                = None) todo →
  PriceLevelHeap.RemoveOrder_scan h todo i order = Some (h, false).
Proof.
  induction todo as [|l0 todo IH]; intros i Hnone; [done|].
  apply Forall_cons in Hnone as [H0 Hnone]. cbn [PriceLevelHeap.RemoveOrder_scan].
  destruct (Qeq_bool (PriceLevel.Price l0) (Order.Price order)) eqn:E.
  - apply Qeq_bool_iff in E. rewrite (H0 E). by apply IH.
  - by apply IH.
Qed.

(** A list of levels splits at the first level that holds the order. *)
Lemma first_holder order (ls : list PriceLevel.t) :
  Forall (λ l0, PriceLevel.Price l0 == Order.Price order →
                PriceLevelHeap.RemoveOrder_find (PriceLevel.Orders l0) (Order.ID order)
                = None) ls
  ∨ ∃ t1 l t2 j,
      ls = t1 ++ l :: t2
      ∧ Forall (λ l0, PriceLevel.Price l0 == Order.Price order →
                      PriceLevelHeap.RemoveOrder_find (PriceLevel.Orders l0)
                        (Order.ID order) = None) t1
      ∧ PriceLevel.Price l == Order.Price order
      ∧ PriceLevelHeap.RemoveOrder_find (PriceLevel.Orders l) (Order.ID order) = Some j.
Proof.
  induction ls as [|l0 ls IH]; [by left|].
  destruct (Qeq_dec (PriceLevel.Price l0) (Order.Price order)) as [E|NE].
  - destruct (PriceLevelHeap.RemoveOrder_find (PriceLevel.Orders l0) (Order.ID order))
      as [j|] eqn:Ef.
    + right. exists [], l0, ls, j. by split_and!.
    + destruct IH as [Hall|(t1 & l & t2 & j & -> & Hnone & Hp & Hf)].
      * left. by constructor.
      * right. exists (l0 :: t1), l, t2, j. split_and!; [done| |done|done].
        by constructor.
  - destruct IH as [Hall|(t1 & l & t2 & j & -> & Hnone & Hp & Hf)].
    + left. by constructor.
    + right. exists (l0 :: t1), l, t2, j. split_and!; [done| |done|done].
      by constructor.
Qed.

Lemma absent_iff h order :
  absent h order
  ↔ Forall (λ l0, PriceLevel.Price l0 == Order.Price order →
                  PriceLevelHeap.RemoveOrder_find (PriceLevel.Orders l0) (Order.ID order)
                  = None) (PriceLevelHeap.Levels h).
Proof.
  unfold absent. rewrite Forall_forall. split.
  - intros H l Hl Hp. apply RemoveOrder_find_None, Forall_forall.
    intros r Hr. by eapply H.
  - intros H l r Hl Hp Hr.
    pose proof (H l Hl Hp) as Hnone.
    apply RemoveOrder_find_None in Hnone. rewrite Forall_forall in Hnone. auto.
Qed.

(** [RemoveOrder] on a side always returns.  It returns [false] exactly
    when no order with the given identity rests at the price of the given
    order, and then the side is left as it was. *)
Lemma RemoveOrder_false_iff (h : PriceLevelHeap.t) (order : Order.t) :
  is_Some (PriceLevelHeap.RemoveOrder h order)
  ∧ ∀ h', PriceLevelHeap.RemoveOrder h order = Some (h', false)
          ↔ h' = h ∧ absent h order.
Proof.
  unfold PriceLevelHeap.RemoveOrder.
  destruct (first_holder order (PriceLevelHeap.Levels h))
    as [Hall|(t1 & l & t2 & j & Hsplit & Hnone & Hp & Hf)].
  - rewrite (RemoveOrder_scan_none _ _ _ _ Hall). split; [by eexists|].
    intros h'. rewrite absent_iff. split.
    + intros H. by simplify_eq.
    + by intros [-> _].
  - pose proof (RemoveOrder_scan_stop h order t1 l t2 j 0%nat Hnone Hp Hf) as Hscan.
    rewrite <- Hsplit in Hscan. rewrite Hscan. clear Hscan.
    cbn zeta.
    assert (Hnot : ¬ absent h order).
    { rewrite absent_iff, Hsplit. intros Hall.
      apply Forall_app in Hall as [_ Hall]. apply Forall_cons in Hall as [Hl _].
      rewrite (Hl Hp) in Hf. done. }
    destruct (length _ =? 0)%nat.
    + match goal with |- context [heap.Init ?x] =>
        destruct (heap_Init_spec x) as (h2 & -> & _) end.
      cbn [mbind option_bind]. split; [by eexists|].
      intros h'. split; [done|]. by intros [_ ?].
    + split; [by eexists|]. intros h'. split; [done|]. by intros [_ ?].
Qed.


Lemma drop_S_middle {A} (q1 : list A) r q2 :
  drop (S (length q1)) (q1 ++ r :: q2) = q2.
Proof.
  rewrite (cons_middle r q1 q2), app_assoc.
  apply drop_app_length'. rewrite length_app. cbn. lia.
Qed.

Lemma RemoveOrder_find_app q1 r q2 id :
  Order.ID r = id → Forall (λ y, Order.ID y ≠ id) q1 →
  PriceLevelHeap.RemoveOrder_find (q1 ++ r :: q2) id = Some (length q1).
Proof.
  intros Hr Hq1. induction Hq1 as [|y q1 Hy _ IH]; cbn.
  - by rewrite decide_True.
  - rewrite decide_False by done. by rewrite IH.
Qed.

Lemma level_prices_app ls1 ls2 :
  level_prices (ls1 ++ ls2) = level_prices ls1 ++ level_prices ls2.
Proof. unfold level_prices. by rewrite fmap_app. Qed.

Lemma NoDup_prices_before t1 l t2 l0 :
  NoDup (level_prices (t1 ++ l :: t2)) → l0 ∈ t1 →
  ¬ PriceLevel.Price l0 == PriceLevel.Price l.
Proof.
  rewrite level_prices_app. cbn. intros Hnodup Hl0 Heq.
  apply NoDup_app in Hnodup as (_ & Hdisj & _).
  apply (Hdisj (Qred (PriceLevel.Price l0))).
  - by apply elem_of_level_prices.
  - apply Qred_complete in Heq. rewrite Heq. left.
Qed.

Lemma level_ok_sub l q1 r q2 :
  level_ok l → PriceLevel.Orders l = q1 ++ r :: q2 → q1 ++ q2 ≠ [] →
  level_ok (PriceLevel.set_Orders l (q1 ++ q2)).
Proof.
  intros [_ Hall] Hq Hne. split; [done|]. cbn.
  rewrite Hq in Hall. apply Forall_app in Hall as [H1 H2].
  apply Forall_cons in H2 as [_ H2]. apply Forall_app. split.
  - eapply Forall_impl; [exact H1|]. done.
  - eapply Forall_impl; [exact H2|]. done.
Qed.

(** [RemoveOrder] of an order that rests on a well-formed side. *)
Lemma RemoveOrder_spec (b : bool) (h : PriceLevelHeap.t) (order : Order.t)
    (l : PriceLevel.t) (q1 : list Order.t) (r : Order.t) (q2 : list Order.t) :
  side_inv b h →
  l ∈ PriceLevelHeap.Levels h →
  PriceLevel.Price l == Order.Price order →
  PriceLevel.Orders l = q1 ++ r :: q2 →
  Order.ID r = Order.ID order →
  Forall (λ y, Order.ID y ≠ Order.ID order) q1 →
  ∃ h', PriceLevelHeap.RemoveOrder h order = Some (h', true)
        ∧ side_inv b h'
        ∧ (q1 ++ q2 ≠ [] →
           ∃ i, PriceLevelHeap.Levels h !! i = Some l
                ∧ PriceLevelHeap.Levels h'
                  = <[i := PriceLevel.set_Orders l (q1 ++ q2)]> (PriceLevelHeap.Levels h))
        ∧ (q1 ++ q2 = [] → l :: PriceLevelHeap.Levels h' ≡ₚ PriceLevelHeap.Levels h).
Proof.
  intros (Hbid & Hheap & Hall & Hnodup) Hl Hprice Hq Hr Hq1.
  apply list_elem_of_split in Hl as (t1 & t2 & Hsplit).
  assert (Hnone : Forall (λ l0, PriceLevel.Price l0 == Order.Price order →
                    PriceLevelHeap.RemoveOrder_find (PriceLevel.Orders l0)
                      (Order.ID order) = None) t1).
  { apply Forall_forall. intros l0 Hl0 Hp0. exfalso.
    rewrite Hsplit in Hnodup.
    apply (NoDup_prices_before _ _ _ _ Hnodup Hl0). by rewrite Hp0, Hprice. }
  assert (Hfind : PriceLevelHeap.RemoveOrder_find (PriceLevel.Orders l) (Order.ID order)
                  = Some (length q1)).
  { rewrite Hq. by apply RemoveOrder_find_app. }
  unfold PriceLevelHeap.RemoveOrder.
  pose proof (RemoveOrder_scan_stop h order t1 l t2 _ 0%nat Hnone Hprice Hfind) as Hscan.
  rewrite <- Hsplit in Hscan. rewrite Hscan. clear Hscan. cbn zeta.
  assert (Hos : take (length q1) (PriceLevel.Orders l)
                ++ drop (S (length q1)) (PriceLevel.Orders l) = q1 ++ q2).
  { by rewrite Hq, take_app_length, drop_S_middle. }
  rewrite Hos. cbn [Nat.add].
  set (l' := PriceLevel.set_Orders l (q1 ++ q2)).
  assert (Hk : PriceLevelHeap.Levels h !! length t1 = Some l).
  { rewrite Hsplit. by rewrite list_lookup_middle. }
  assert (Hins : <[length t1 := l']> (PriceLevelHeap.Levels h) = t1 ++ l' :: t2).
  { rewrite Hsplit, insert_app_r_alt by lia. by rewrite Nat.sub_diag. }
  destruct (length (q1 ++ q2) =? 0)%nat eqn:Elen.
  - apply length_zero_nil in Elen.
    cbn [PriceLevelHeap.Levels PriceLevelHeap.set_Levels]. rewrite Hins.
    rewrite take_app_length, drop_S_middle.
    match goal with |- context [heap.Init ?x] =>
      destruct (heap_Init_spec x) as (h2 & -> & Hbid2 & Hperm2 & Hord2) end.
    cbn [mbind option_bind] in *. cbn in Hbid2, Hperm2.
    exists h2. split_and!; [done| |done|].
    + split_and!; [congruence|done| |].
      * rewrite Hperm2. rewrite Hsplit in Hall.
        apply Forall_app in Hall as [H1 H2]. apply Forall_cons in H2 as [_ H2].
        apply Forall_app. done.
      * unfold level_prices. rewrite Hperm2. fold (level_prices (t1 ++ t2)).
        rewrite Hsplit, level_prices_app in Hnodup. cbn in Hnodup.
        rewrite level_prices_app.
        apply NoDup_app in Hnodup as (N1 & N2 & N3).
        apply NoDup_cons in N3 as [_ N3].
        apply NoDup_app. split_and!; [done| |done].
        intros x Hx Hx2. apply (N2 x Hx). by right.
    + intros _. rewrite Hperm2, Hsplit. by rewrite Permutation_middle.
  - apply length_zero_cons in Elen.
    eexists. split_and!; [done| | |done].
    + split_and!.
      * done.
      * by apply (heap_ordered_insert h _ l l').
      * cbn. rewrite Hins. rewrite Hsplit in Hall.
        apply Forall_app in Hall as [H1 H2]. apply Forall_cons in H2 as [Hlok H2].
        apply Forall_app. split; [done|]. constructor; [|done].
        by eapply level_ok_sub.
      * cbn. by rewrite (level_prices_insert _ _ l l').
    + intros _. exists (length t1). done.
Qed.

(** X12.  On a side that holds a well-formed heap of levels, [RemoveOrder]
    of an order that rests there returns [true] and takes out exactly that
    order: the first order with its identity in the queue of its price.
    The orders left in the queue keep their sequence; the level goes when
    the queue is left empty; the other levels are as before; and the side
    is again a well-formed heap, so that [Peek] shows its best price. *)
Theorem RemoveOrder_present (b : bool) (h : PriceLevelHeap.t) (order : Order.t)
    (l : PriceLevel.t) (q1 : list Order.t) (r : Order.t) (q2 : list Order.t) :
  side_inv b h →
  l ∈ PriceLevelHeap.Levels h →
  PriceLevel.Price l == Order.Price order →
  PriceLevel.Orders l = q1 ++ r :: q2 →
  Order.ID r = Order.ID order →
  Forall (λ y, Order.ID y ≠ Order.ID order) q1 →
  ∃ h', PriceLevelHeap.RemoveOrder h order = Some (h', true)
        ∧ side_inv b h'
        ∧ (q1 ++ q2 ≠ [] →
           ∃ i, PriceLevelHeap.Levels h !! i = Some l
                ∧ PriceLevelHeap.Levels h'
                  = <[i := PriceLevel.set_Orders l (q1 ++ q2)]> (PriceLevelHeap.Levels h))
        ∧ (q1 ++ q2 = [] → l :: PriceLevelHeap.Levels h' ≡ₚ PriceLevelHeap.Levels h)
        ∧ (∀ top l0, PriceLevelHeap.Peek h' = Some top →
                     l0 ∈ PriceLevelHeap.Levels h' →
                     if b then PriceLevel.Price l0 <= PriceLevel.Price top
                     else PriceLevel.Price top <= PriceLevel.Price l0).
Proof.
  intros Hinv Hl Hprice Hq Hr Hq1.
  destruct (RemoveOrder_spec b h order l q1 r q2 Hinv Hl Hprice Hq Hr Hq1)
    as (h' & Hrm & Hinv' & Hkeep & Hgone).
  exists h'. split_and!; [done|done|done|done|].
  intros top l0 Htop Hl0. destruct Hinv' as (Hb & Hheap & _).
  apply Peek_lookup in Htop. apply list_elem_of_lookup in Hl0 as [j Hj].
  pose proof (root_best h' top Hheap Htop j l0 Hj) as Hprio.
  rewrite Hb in Hprio. unfold prio in Hprio. by destruct b.
Qed.

Lemma sample_ask_side_inv : side_inv false sample_ask_side.
Proof.
  split_and!.
  - reflexivity.
  - intros i j Hij li lj Hi Hj. apply child_lt in Hij.
    destruct j as [|j]; [lia|]. done.
  - constructor; [|constructor]. split; [done|].
    constructor; [|constructor]. split; [reflexivity|vm_compute; reflexivity].
  - constructor; [|constructor]. intros H. by apply elem_of_nil in H.
Defined.

Lemma RemoveOrder_present_witness :
  side_inv false sample_ask_side
  ∧ sample_level ∈ PriceLevelHeap.Levels sample_ask_side
  ∧ PriceLevel.Price sample_level == Order.Price sample_sell
  ∧ PriceLevel.Orders sample_level = [] ++ sample_sell :: []
  ∧ ∃ h', PriceLevelHeap.RemoveOrder sample_ask_side sample_sell = Some (h', true)
          ∧ side_inv false h'.
Proof.
  assert (Hin : sample_level ∈ PriceLevelHeap.Levels sample_ask_side) by left.
  assert (Hp : PriceLevel.Price sample_level == Order.Price sample_sell)
    by reflexivity.
  assert (Hq : PriceLevel.Orders sample_level = [] ++ sample_sell :: [])
    by reflexivity.
  split_and!; [exact sample_ask_side_inv|exact Hin|exact Hp|exact Hq|].
  destruct (RemoveOrder_present false sample_ask_side sample_sell sample_level
              [] sample_sell [] sample_ask_side_inv Hin Hp Hq eq_refl
              (Forall_nil_2 _))
    as (h' & Hrm & Hinv & _).
  exists h'. split; [exact Hrm|exact Hinv].
Defined.

(** * The book: adding and removing orders *)

Lemma OrderBook_RemoveOrder_spec ob id o h' r :
  OrderBook.orders ob !! id = Some o →
  PriceLevelHeap.RemoveOrder (ownHeap ob o) o = Some (h', r) →
  ∃ ob', OrderBook.RemoveOrder ob id = Some (ob', r)
         ∧ ownHeap ob' o = h'
         ∧ MatchingEngine.oppositeHeap ob' o = MatchingEngine.oppositeHeap ob o
         ∧ OrderBook.orders ob' = delete id (OrderBook.orders ob)
         ∧ OrderBook.LastPrice ob' = OrderBook.LastPrice ob.
Proof.
  intros Hidx Hrm. unfold OrderBook.RemoveOrder. rewrite Hidx.
  unfold ownHeap, MatchingEngine.oppositeHeap in *.
  case_decide; cbn in *; rewrite Hrm; cbn; eexists; split_and!; done.
Qed.

(** Two well-formed heaps of the same levels have the same root price. *)
Lemma side_inv_root_price b h1 h2 :
  side_inv b h1 → side_inv b h2 →
  PriceLevelHeap.Levels h1 ≡ₚ PriceLevelHeap.Levels h2 →
  PriceLevel.Price <$> (PriceLevelHeap.Levels h1 !! 0%nat)
  = PriceLevel.Price <$> (PriceLevelHeap.Levels h2 !! 0%nat).
Proof.
  intros (Hb1 & Hheap1 & _ & Hnodup1) (Hb2 & Hheap2 & _ & _) Hperm.
  destruct (PriceLevelHeap.Levels h1 !! 0%nat) as [r1|] eqn:E1;
    destruct (PriceLevelHeap.Levels h2 !! 0%nat) as [r2|] eqn:E2; cbn.
  - f_equal.
    assert (H1 : r1 ∈ PriceLevelHeap.Levels h1) by (by eapply list_elem_of_lookup_2).
    assert (H2 : r2 ∈ PriceLevelHeap.Levels h1).
    { rewrite Hperm. by eapply list_elem_of_lookup_2. }
    assert (H12 : prio b (PriceLevel.Price r1) (PriceLevel.Price r2)).
    { apply list_elem_of_lookup in H2 as [j Hj]. rewrite <- Hb1.
      by eapply (root_best h1 r1). }
    assert (H21 : prio b (PriceLevel.Price r2) (PriceLevel.Price r1)).
    { rewrite Hperm in H1. apply list_elem_of_lookup in H1 as [j Hj]. rewrite <- Hb2.
      by eapply (root_best h2 r2). }
    assert (Heq : PriceLevel.Price r1 == PriceLevel.Price r2).
    { unfold prio in *. destruct b; lra. }
    by rewrite (level_prices_inj _ r1 r2 Hnodup1 H1 H2 Heq).
  - apply Permutation_length in Hperm.
    apply lookup_lt_Some in E1. apply lookup_ge_None in E2. lia.
  - apply Permutation_length in Hperm.
    apply lookup_lt_Some in E2. apply lookup_ge_None in E1. lia.
  - done.
Qed.

Lemma GetBestBid_Bids ob1 ob2 :
  PriceLevel.Price <$> (PriceLevelHeap.Levels (OrderBook.Bids ob1) !! 0%nat)
  = PriceLevel.Price <$> (PriceLevelHeap.Levels (OrderBook.Bids ob2) !! 0%nat) →
  OrderBook.GetBestBid ob1 = OrderBook.GetBestBid ob2.
Proof.
  rewrite !GetBestBid_root. intros H. f_equal.
  destruct (PriceLevelHeap.Levels (OrderBook.Bids ob1) !! 0%nat),
           (PriceLevelHeap.Levels (OrderBook.Bids ob2) !! 0%nat);
    cbn in *; by simplify_eq.
Qed.

Lemma GetBestAsk_Asks ob1 ob2 :
  PriceLevel.Price <$> (PriceLevelHeap.Levels (OrderBook.Asks ob1) !! 0%nat)
  = PriceLevel.Price <$> (PriceLevelHeap.Levels (OrderBook.Asks ob2) !! 0%nat) →
  OrderBook.GetBestAsk ob1 = OrderBook.GetBestAsk ob2.
Proof.
  rewrite !GetBestAsk_root. intros H. f_equal.
  destruct (PriceLevelHeap.Levels (OrderBook.Asks ob1) !! 0%nat),
           (PriceLevelHeap.Levels (OrderBook.Asks ob2) !! 0%nat);
    cbn in *; by simplify_eq.
Qed.

Lemma set_Orders_back l os :
  PriceLevel.set_Orders (PriceLevel.set_Orders l os) (PriceLevel.Orders l) = l.
Proof. by destruct l. Qed.

(** Adding an order to a side and removing it again. *)
Lemma AddOrder_RemoveOrder_side b h order :
  side_inv b h → 0 < Order.RemainingQuantity order → absent h order →
  ∃ h1 h2,
    PriceLevelHeap.AddOrder h order = Some h1
    ∧ PriceLevelHeap.RemoveOrder h1 order = Some (h2, true)
    ∧ side_inv b h2
    ∧ PriceLevelHeap.Levels h2 ≡ₚ PriceLevelHeap.Levels h.
Proof.
  intros Hinv Hrem Habs.
  destruct (PriceLevelHeap_AddOrder_spec h order) as (h1 & Hadd & Hbid1 & Hcases).
  destruct (side_inv_AddOrder b h order h1 Hinv Hrem Hadd) as [Hinv1 _].
  exists h1.
  destruct Hcases as [(i & l & Hi & Hprice & Hlevels)|(Hnone & Hperm & _)].
  - set (l1 := PriceLevel.set_Orders l (PriceLevel.Orders l ++ [order])) in *.
    assert (Hl1 : l1 ∈ PriceLevelHeap.Levels h1).
    { rewrite Hlevels. eapply list_elem_of_lookup_2.
      apply list_lookup_insert_eq. by eapply lookup_lt_Some. }
    assert (Hfresh : Forall (λ y, Order.ID y ≠ Order.ID order) (PriceLevel.Orders l)).
    { apply Forall_forall. intros y Hy.
      eapply (Habs l y); [by eapply list_elem_of_lookup_2|done|done]. }
    destruct (RemoveOrder_spec b h1 order l1 (PriceLevel.Orders l) order [] Hinv1 Hl1)
      as (h2 & Hrm & Hinv2 & Hkeep & Hgone); [done|done|done|done|].
    exists h2. split_and!; [done|done|done|].
    rewrite app_nil_r in Hkeep, Hgone.
    destruct (PriceLevel.Orders l) as [|y q] eqn:Eq.
    + destruct Hinv as (_ & _ & Hall & _). rewrite Forall_lookup in Hall.
      destruct (Hall i l Hi) as [Hne _]. done.
    + destruct (Hkeep ltac:(done)) as (k & Hk & ->).
      rewrite Hlevels in Hk.
      assert (k = i) as ->.
      { destruct (decide (k = i)) as [|Hne]; [done|].
        rewrite list_lookup_insert_ne in Hk by done. exfalso.
        destruct Hinv as (_ & _ & _ & Hnodup).
        assert (l1 = l) as E.
        { apply (level_prices_inj (PriceLevelHeap.Levels h)); try done.
          - by eapply list_elem_of_lookup_2.
          - by eapply list_elem_of_lookup_2. }
        apply (f_equal (λ x, length (PriceLevel.Orders x))) in E.
        unfold l1 in E. cbn [PriceLevel.Orders PriceLevel.set_Orders] in E.
        rewrite ?Eq, length_app in E. cbn [length] in E. lia. }
      rewrite Hlevels, list_insert_insert_eq. unfold l1.
      rewrite <- Eq, set_Orders_back. by rewrite list_insert_id.
  - set (l1 := PriceLevel.mk (Order.Price order) [order]) in *.
    assert (Hl1 : l1 ∈ PriceLevelHeap.Levels h1) by (rewrite Hperm; left).
    destruct (RemoveOrder_spec b h1 order l1 [] order [] Hinv1 Hl1)
      as (h2 & Hrm & Hinv2 & _ & Hgone); [done|done|done|done|].
    exists h2. split_and!; [done|done|done|].
    eapply (Permutation_cons_inv (a := l1)). rewrite (Hgone eq_refl). done.
Qed.

(** X13.  Round trip on a book that satisfies the book invariant: an order
    with quantity left, whose identity is not yet at its price on its side,
    is added by [AddOrder], found by the identity index, and removed again
    by [RemoveOrder], which returns [true].  The book is then back where it
    was: the identity index without the order's ID, both sides with the
    same price levels, the same best bid and best ask, and the invariant
    holds. *)
Theorem AddOrder_then_RemoveOrder (now : Time) (ob : OrderBook.t) (order : Order.t) :
  book_inv ob →
  0 < Order.RemainingQuantity order →
  absent (ownHeap ob order) order →
  ∃ ob1 ob2,
    OrderBook.AddOrder now ob order = Some ob1
    ∧ OrderBook.orders ob1 !! Order.ID order = Some order
    ∧ OrderBook.RemoveOrder ob1 (Order.ID order) = Some (ob2, true)
    ∧ OrderBook.orders ob2 = delete (Order.ID order) (OrderBook.orders ob)
    ∧ PriceLevelHeap.Levels (OrderBook.Bids ob2)
      ≡ₚ PriceLevelHeap.Levels (OrderBook.Bids ob)
    ∧ PriceLevelHeap.Levels (OrderBook.Asks ob2)
      ≡ₚ PriceLevelHeap.Levels (OrderBook.Asks ob)
    ∧ OrderBook.GetBestBid ob2 = OrderBook.GetBestBid ob
    ∧ OrderBook.GetBestAsk ob2 = OrderBook.GetBestAsk ob
    ∧ book_inv ob2.
Proof.
  intros Hinv Hrem Habs.
  pose proof Hinv as Hsides. apply (book_inv_sides ob order) in Hsides.
  destruct Hsides as (Hown & Hopp & Hapart).
  destruct (AddOrder_RemoveOrder_side _ _ _ Hown Hrem Habs)
    as (h1 & h2 & Hadd & Hrm & Hinv2 & Hperm).
  destruct (OrderBook_AddOrder_spec now ob order)
    as (h1' & Hadd' & ob1 & Hadd1 & Hown1 & Hopp1 & Hidx1 & _).
  rewrite Hadd in Hadd'. injection Hadd' as <-.
  assert (Hlook : OrderBook.orders ob1 !! Order.ID order = Some order).
  { by rewrite Hidx1, lookup_insert_eq. }
  rewrite <- Hown1 in Hrm.
  destruct (OrderBook_RemoveOrder_spec ob1 _ order h2 true Hlook Hrm)
    as (ob2 & Hrm2 & Hown2 & Hopp2 & Hidx2 & _).
  exists ob1, ob2.
  assert (Hinv' : book_inv ob2).
  { apply (book_inv_sides ob2 order). rewrite Hown2, Hopp2, Hopp1.
    split_and!; [done|done|].
    intros o p Ho Hp. rewrite Hperm in Ho. by apply Hapart. }
  assert (Hroot_own : PriceLevel.Price <$> (PriceLevelHeap.Levels (ownHeap ob2 order) !! 0%nat)
                      = PriceLevel.Price <$> (PriceLevelHeap.Levels (ownHeap ob order) !! 0%nat)).
  { rewrite Hown2. by eapply side_inv_root_price. }
  assert (Hopp' : MatchingEngine.oppositeHeap ob2 order
                  = MatchingEngine.oppositeHeap ob order) by congruence.
  assert (Hown' : PriceLevelHeap.Levels (ownHeap ob2 order)
                  ≡ₚ PriceLevelHeap.Levels (ownHeap ob order)) by (by rewrite Hown2).
  split_and!; [done|done|done| | | | | |done].
  - rewrite Hidx2, Hidx1. apply delete_insert_eq.
  - revert Hown' Hopp'. unfold ownHeap, MatchingEngine.oppositeHeap.
    case_decide; [done|]. by intros _ ->.
  - revert Hown' Hopp'. unfold ownHeap, MatchingEngine.oppositeHeap.
    case_decide; [|done]. by intros _ ->.
  - apply GetBestBid_Bids. revert Hroot_own Hopp'.
    unfold ownHeap, MatchingEngine.oppositeHeap.
    case_decide; [done|]. by intros _ ->.
  - apply GetBestAsk_Asks. revert Hroot_own Hopp'.
    unfold ownHeap, MatchingEngine.oppositeHeap.
    case_decide; [|done]. by intros _ ->.
Qed.

Lemma sample_book_inv : book_inv sample_book.
Proof.
  split_and!.
  - apply side_inv_nil.
  - exact sample_ask_side_inv.
  - intros b a Hb. cbn in Hb. by apply elem_of_nil in Hb.
Defined.

Lemma AddOrder_then_RemoveOrder_witness :
  book_inv sample_book
  ∧ 0 < Order.RemainingQuantity sample_bid
  ∧ absent (ownHeap sample_book sample_bid) sample_bid
  ∧ ∃ ob1 ob2,
      OrderBook.AddOrder 4%Z sample_book sample_bid = Some ob1
      ∧ OrderBook.RemoveOrder ob1 (Order.ID sample_bid) = Some (ob2, true)
      ∧ OrderBook.GetBestBid ob2 = OrderBook.GetBestBid sample_book
      ∧ OrderBook.GetBestAsk ob2 = OrderBook.GetBestAsk sample_book.
Proof.
  assert (Hrem : 0 < Order.RemainingQuantity sample_bid) by (vm_compute; reflexivity).
  assert (Habs : absent (ownHeap sample_book sample_bid) sample_bid).
  { intros l r Hl. cbn in Hl. by apply elem_of_nil in Hl. }
  split_and!; [exact sample_book_inv|exact Hrem|exact Habs|].
  destruct (AddOrder_then_RemoveOrder 4%Z sample_book sample_bid
              sample_book_inv Hrem Habs)
    as (ob1 & ob2 & H1 & _ & H3 & _ & _ & _ & H7 & H8 & _).
  exists ob1, ob2. split_and!; [exact H1|exact H3|exact H7|exact H8].
Defined.

(** ** Best prices of a book filled by [AddOrder] *)

Lemma tracks_skip b h seen order :
  tracks b h seen →
  Order.Side order ≠ (if b then OrderSideBuy else OrderSideSell) →
  tracks b h (seen ++ [order]).
Proof.
  intros (Hb & Hheap & Hlev & Hseen) Hside. split_and!; [done|done| |].
  - intros l Hl. destruct (Hlev l Hl) as (o & Ho & ?).
    exists o. split; [|done]. apply elem_of_app. by left.
  - intros o Ho Hs. apply elem_of_app in Ho as [Ho|Ho]; [by apply Hseen|].
    apply list_elem_of_singleton in Ho as ->. done.
Qed.

Lemma tracks_AddOrder b h seen order :
  tracks b h seen →
  Order.Side order = (if b then OrderSideBuy else OrderSideSell) →
  ∃ h', PriceLevelHeap.AddOrder h order = Some h' ∧ tracks b h' (seen ++ [order]).
Proof.
  intros (Hb & Hheap & Hlev & Hseen) Hside.
  destruct (PriceLevelHeap_AddOrder_spec h order) as (h' & Hadd & Hbid & Hcases).
  exists h'. split; [done|].
  assert (Hnew : order ∈ seen ++ [order]).
  { apply elem_of_app. right. left. }
  destruct Hcases as [(i & l & Hi & Hprice & Hlevels)|(Hnone & Hperm & Hord)].
  - assert (Hl : l ∈ PriceLevelHeap.Levels h) by (by eapply list_elem_of_lookup_2).
    split_and!.
    + congruence.
    + destruct h' as [ls' b']. cbn in Hlevels, Hbid. subst ls' b'.
      by apply (heap_ordered_insert h i l).
    + intros l' Hl'. rewrite Hlevels in Hl'.
      apply list_elem_of_lookup in Hl' as [j Hj].
      destruct (decide (j = i)) as [->|Hne].
      * rewrite list_lookup_insert_eq in Hj by (by eapply lookup_lt_Some).
        injection Hj as <-. exists order. split_and!; [done|done|].
        cbn. by symmetry.
      * rewrite list_lookup_insert_ne in Hj by done.
        destruct (Hlev l') as (o & Ho & ?); [by eapply list_elem_of_lookup_2|].
        exists o. split; [|done]. apply elem_of_app. by left.
    + intros o Ho Hs.
      assert (Hex : ∃ l0, l0 ∈ PriceLevelHeap.Levels h
                          ∧ PriceLevel.Price l0 == Order.Price o).
      { apply elem_of_app in Ho as [Ho|Ho]; [by apply Hseen|].
        apply list_elem_of_singleton in Ho as ->. by exists l. }
      destruct Hex as (l0 & Hl0 & Hp0).
      apply list_elem_of_lookup in Hl0 as [j Hj].
      destruct (decide (j = i)) as [->|Hne].
      * assert (l0 = l) as -> by congruence.
        exists (PriceLevel.set_Orders l (PriceLevel.Orders l ++ [order])).
        split; [|exact Hp0].
        rewrite Hlevels. eapply list_elem_of_lookup_2.
        apply list_lookup_insert_eq. by eapply lookup_lt_Some.
      * exists l0. split; [|done]. rewrite Hlevels.
        eapply list_elem_of_lookup_2. by rewrite list_lookup_insert_ne.
  - split_and!.
    + congruence.
    + by apply Hord.
    + intros l' Hl'. rewrite Hperm in Hl'. apply elem_of_cons in Hl' as [->|Hl'].
      * exists order. by split_and!.
      * destruct (Hlev l' Hl') as (o & Ho & ?).
        exists o. split; [|done]. apply elem_of_app. by left.
    + intros o Ho Hs. apply elem_of_app in Ho as [Ho|Ho].
      * destruct (Hseen o Ho Hs) as (l0 & Hl0 & ?). exists l0.
        split; [|done]. rewrite Hperm. by right.
      * apply list_elem_of_singleton in Ho as ->. eexists. split.
        -- rewrite Hperm. left.
        -- done.
Qed.

Lemma add_all_tracks now orders : ∀ ob seen,
  tracks true (OrderBook.Bids ob) seen →
  tracks false (OrderBook.Asks ob) seen →
  ∃ ob', add_all now ob orders = Some ob'
         ∧ tracks true (OrderBook.Bids ob') (seen ++ orders)
         ∧ tracks false (OrderBook.Asks ob') (seen ++ orders).
Proof.
  induction orders as [|order orders IH]; intros ob seen Hbids Hasks.
  - exists ob. by rewrite app_nil_r.
  - cbn [add_all]. unfold OrderBook.AddOrder.
    destruct (decide (Order.Side order = OrderSideBuy)) as [Hs|Hs].
    + destruct (tracks_AddOrder true _ _ order Hbids Hs) as (h' & Hadd & Hb').
      cbn [OrderBook.Bids OrderBook.set_orders]. rewrite Hadd.
      cbn [fmap option_fmap option_map mbind option_bind].
      rewrite (cons_middle order seen orders), app_assoc.
      apply IH; cbn; [done|].
      apply tracks_skip; [done|]. cbn. congruence.
    + destruct (tracks_AddOrder false _ _ order Hasks) as (h' & Hadd & Ha').
      { cbn. by destruct (Order.Side order). }
      cbn [OrderBook.Asks OrderBook.set_orders]. rewrite Hadd.
      cbn [fmap option_fmap option_map mbind option_bind].
      rewrite (cons_middle order seen orders), app_assoc.
      apply IH; cbn; [|done].
      apply tracks_skip; [done|]. done.
Qed.

(** The root of a side that tracks the orders seen. *)
Lemma tracks_best b h seen :
  tracks b h seen →
  let side := if b then OrderSideBuy else OrderSideSell in
  let best := from_option PriceLevel.Price 0 (PriceLevelHeap.Levels h !! 0%nat) in
  (∀ o, o ∈ seen → Order.Side o = side → prio b best (Order.Price o))
  ∧ ((∃ o, o ∈ seen ∧ Order.Side o = side) →
     ∃ o, o ∈ seen ∧ Order.Side o = side ∧ Order.Price o == best)
  ∧ ((∀ o, o ∈ seen → Order.Side o ≠ side) → best = 0).
Proof.
  intros (Hb & Hheap & Hlev & Hseen) side best. unfold best.
  destruct (PriceLevelHeap.Levels h !! 0%nat) as [r|] eqn:Er; cbn.
  - assert (Hr : r ∈ PriceLevelHeap.Levels h) by (by eapply list_elem_of_lookup_2).
    split_and!.
    + intros o Ho Hs. destruct (Hseen o Ho Hs) as (l & Hl & Hp).
      apply list_elem_of_lookup in Hl as [j Hj].
      eapply prio_proper; [reflexivity|exact Hp|].
      rewrite <- Hb. by eapply (root_best h r).
    + intros _. destruct (Hlev r Hr) as (o & Ho & Hs & Hp). by exists o.
    + intros Hnone. destruct (Hlev r Hr) as (o & Ho & Hs & _).
      by destruct (Hnone o Ho).
  - split_and!; [|intros (o & Ho & Hs)|done].
    + intros o Ho Hs. destruct (Hseen o Ho Hs) as (l & Hl & _).
      apply list_elem_of_lookup in Hl as [j Hj].
      apply lookup_ge_None in Er. apply lookup_lt_Some in Hj. lia.
    + destruct (Hseen o Ho Hs) as (l & Hl & _).
      apply list_elem_of_lookup in Hl as [j Hj].
      apply lookup_ge_None in Er. apply lookup_lt_Some in Hj. lia.
Qed.

(** X14.  A new book filled by any sequence of [AddOrder] calls: every
    call returns, and afterwards [GetBestBid] is the highest price among
    the buy orders added and [GetBestAsk] the lowest price among the sell
    orders added; each is zero when no order of its side was added. *)
Theorem best_prices_after_AddOrder (now : Time) (symbol : string)
    (orders : list Order.t) :
  ∃ ob0 ob bid ask,
    OrderBook.NewOrderBook now symbol = Some ob0
    ∧ add_all now ob0 orders = Some ob
    ∧ OrderBook.GetBestBid ob = Some bid
    ∧ OrderBook.GetBestAsk ob = Some ask
    ∧ (∀ o, o ∈ orders → Order.Side o = OrderSideBuy → Order.Price o <= bid)
    ∧ ((∃ o, o ∈ orders ∧ Order.Side o = OrderSideBuy) →
       ∃ o, o ∈ orders ∧ Order.Side o = OrderSideBuy ∧ Order.Price o == bid)
    ∧ ((∀ o, o ∈ orders → Order.Side o ≠ OrderSideBuy) → bid = 0)
    ∧ (∀ o, o ∈ orders → Order.Side o = OrderSideSell → ask <= Order.Price o)
    ∧ ((∃ o, o ∈ orders ∧ Order.Side o = OrderSideSell) →
       ∃ o, o ∈ orders ∧ Order.Side o = OrderSideSell ∧ Order.Price o == ask)
    ∧ ((∀ o, o ∈ orders → Order.Side o ≠ OrderSideSell) → ask = 0).
Proof.
  eexists. destruct (add_all_tracks now orders
              {| OrderBook.Symbol := symbol;
                 OrderBook.Bids := PriceLevelHeap.mk [] true;
                 OrderBook.Asks := PriceLevelHeap.mk [] false;
                 OrderBook.LastPrice := 0; OrderBook.LastTrade := None;
                 OrderBook.Timestamp := now; OrderBook.orders := ∅ |} [])
    as (ob & Hall & Hbids & Hasks).
  { split_and!; [done|apply heap_ordered_nil| |].
    - intros l Hl. by apply elem_of_nil in Hl.
    - intros o Ho. by apply elem_of_nil in Ho. }
  { split_and!; [done|apply heap_ordered_nil| |].
    - intros l Hl. by apply elem_of_nil in Hl.
    - intros o Ho. by apply elem_of_nil in Ho. }
  cbn [app] in Hbids, Hasks.
  destruct (tracks_best _ _ _ Hbids) as (B1 & B2 & B3).
  destruct (tracks_best _ _ _ Hasks) as (A1 & A2 & A3).
  exists ob. eexists _, _.
  split_and!; [apply NewOrderBook_eq|exact Hall|apply GetBestBid_root
              |apply GetBestAsk_root|..]; try done.
Qed.

(** * The read endpoints *)

(** X15.  [getTrades] always answers.  The limit it applies is the number
    given in the query when that number parses and is positive, capped at
    500, and 50 otherwise (no [limit] parameter, a parse error, zero or a
    negative number); whatever [strconv.Atoi] returns, it lies between 1
    and 500.  The answer carries the requested symbol, the most recent
    trades of that symbol, newest first, at most the limit of them, and
    their number as count. *)
Theorem getTrades_answer (Atoi : string → option Z) (engine : MatchingEngine.t)
    (symbol limitStr : string) :
  let limit := api.queryLimit Atoi limitStr in
  (1 ≤ limit ≤ 500)%Z
  ∧ (limitStr = "" ∨ Atoi limitStr = None
     ∨ (∃ l, Atoi limitStr = Some l ∧ (l ≤ 0)%Z) → limit = 50%Z)
  ∧ (∀ l, limitStr ≠ "" → Atoi limitStr = Some l → (0 < l)%Z →
          limit = Z.min l 500)
  ∧ ∃ resp,
      api.getTrades Atoi engine symbol limitStr = Some resp
      ∧ api.symbol resp = symbol
      ∧ api.trades resp
        = take (Z.to_nat limit)
            (reverse (trades_of symbol (MatchingEngine.trades engine)))
      ∧ api.count resp = length (api.trades resp)
      ∧ (api.count resp ≤ 500)%nat.
Proof.
  intros limit.
  assert (Hrange : (1 ≤ limit ≤ 500)%Z).
  { unfold limit, api.queryLimit. cbn zeta. case_decide; [|lia].
    destruct (Atoi limitStr) as [l|]; [|lia].
    destruct (0 <? l)%Z eqn:E0; [|lia]. apply Z.ltb_lt in E0.
    destruct (500 <? l)%Z eqn:E5; [lia|]. apply Z.ltb_ge in E5. lia. }
  split_and!; [lia|lia| | |].
  - unfold limit, api.queryLimit. cbn zeta.
    intros [->|[Hnone|(l & Hl & Hle)]].
    + by rewrite decide_False by (by intros ?).
    + case_decide; [|done]. by rewrite Hnone.
    + case_decide; [|done]. rewrite Hl.
      destruct (0 <? l)%Z eqn:E0; [|done]. apply Z.ltb_lt in E0. lia.
  - intros l Hne Hl Hpos. unfold limit, api.queryLimit. cbn zeta.
    rewrite decide_True by done. rewrite Hl.
    destruct (0 <? l)%Z eqn:E0; [|apply Z.ltb_ge in E0; lia].
    destruct (500 <? l)%Z eqn:E5.
    + apply Z.ltb_lt in E5. lia.
    + apply Z.ltb_ge in E5. lia.
  - unfold api.getTrades. cbn zeta. fold limit.
    rewrite GetRecentTrades_spec. cbn [mbind option_bind].
    eexists. split_and!; [done|done|done|done|].
    cbn. rewrite length_take. lia.
Qed.

Lemma submitOrder_OK id now engine req engine' order trades :
  api.submitOrder id now engine req = Some (engine', api.StatusOK order trades) →
  ∃ order0,
    Order.Symbol order0 = api.Symbol req
    ∧ MatchingEngine.SubmitOrder now engine order0 = Some (engine', order, trades).
Proof.
  unfold api.submitOrder. intros H.
  destruct (api.ShouldBindJSON req) as [[ty side]|]; [|by simplify_eq].
  destruct (_ && _); [by simplify_eq|].
  match type of H with context [MatchingEngine.SubmitOrder now engine ?o] =>
    exists o; destruct (MatchingEngine.SubmitOrder now engine o)
      as [[[e o'] t]|] eqn:E end; [|done].
  cbn in H. simplify_eq. done.
Qed.

(** X16.  After the order endpoint has accepted an order (status 200), the
    order book endpoint answers 200 with a snapshot for the symbol of that
    order; for every other symbol it answers what it answered before, 404
    included.  It answers 404 exactly when the engine has no book for the
    symbol. *)
Theorem getOrderBook_after_submitOrder (id : UUID) (now : Time)
    (engine engine' : MatchingEngine.t) (req : api.OrderRequest)
    (order : Order.t) (trades : list Trade.t) :
  api.submitOrder id now engine req = Some (engine', api.StatusOK order trades) →
  (∃ snapshot, api.getOrderBook engine' (api.Symbol req) = api.BookOK snapshot)
  ∧ (∀ symbol, symbol ≠ api.Symbol req →
       api.getOrderBook engine' symbol = api.getOrderBook engine symbol)
  ∧ (∀ symbol,
       (∃ error, api.getOrderBook engine' symbol = api.BookNotFound error)
       ↔ MatchingEngine.GetOrderBook engine' symbol = None).
Proof.
  intros Hok. apply submitOrder_OK in Hok as (order0 & Hsym & Hsub).
  apply SubmitOrder_inv in Hsub as (ob & ob' & _ & _ & Hbooks & _).
  unfold api.getOrderBook, MatchingEngine.GetOrderBook. rewrite Hbooks, Hsym.
  split_and!.
  - rewrite lookup_insert_eq. by eexists.
  - intros symbol Hne. by rewrite lookup_insert_ne by (intros E; by apply Hne).
  - intros symbol.
    destruct (<[api.Symbol req:=ob']> (MatchingEngine.orderBooks engine) !! symbol);
      split; [by intros [? ?]|done|done|by eexists].
Qed.

Lemma getOrderBook_after_submitOrder_witness :
  ∃ engine' order trades,
    api.submitOrder 9%N 5%Z MatchingEngine.NewMatchingEngine sample_good_request
    = Some (engine', api.StatusOK order trades)
    ∧ ∃ snapshot,
        api.getOrderBook engine' (api.Symbol sample_good_request)
        = api.BookOK snapshot.
Proof.
  eexists _, _, _. split; [vm_compute; reflexivity|].
  refine (proj1 (getOrderBook_after_submitOrder 9%N 5%Z
                   MatchingEngine.NewMatchingEngine _ sample_good_request _ _ _)).
  vm_compute. reflexivity.
Defined.

(** X17.  The order endpoint accepts every request that passes its checks:
    a request with a symbol, a type among market, limit and stop_loss, a
    side among buy and sell, a positive quantity and, for limit and
    stop_loss, a positive price is answered with status 200, whatever the
    state of the engine.  The order in the answer carries the identity and
    the time given to it and the symbol, side, quantity and price of the
    request; its type is Market for a market request and Limit otherwise;
    and the trades in the answer are what the call added to the engine's
    log. *)
Theorem submitOrder_accepts_valid (id : UUID) (now : Time)
    (engine : MatchingEngine.t) (req : api.OrderRequest) :
  api.Symbol req ≠ "" →
  api.Type_ req = "market" ∨ api.Type_ req = "limit" ∨ api.Type_ req = "stop_loss" →
  api.Side req = "buy" ∨ api.Side req = "sell" →
  0 < api.Quantity req →
  (api.Type_ req = "limit" ∨ api.Type_ req = "stop_loss" → 0 < api.Price req) →
  ∃ engine' order trades,
    api.submitOrder id now engine req = Some (engine', api.StatusOK order trades)
    ∧ Order.ID order = id
    ∧ Order.SubmittedAt order = now
    ∧ Order.Symbol order = api.Symbol req
    ∧ Order.Quantity order = api.Quantity req
    ∧ Order.Price order = api.Price req
    ∧ (Order.Side order = OrderSideBuy ↔ api.Side req = "buy")
    ∧ (Order.Type_ order = OrderTypeMarket ↔ api.Type_ req = "market")
    ∧ (Order.Type_ order = OrderTypeLimit ↔ api.Type_ req ≠ "market")
    ∧ MatchingEngine.trades engine' = MatchingEngine.trades engine ++ trades.
Proof.
  intros Hsym Hty Hside Hq Hp. unfold api.submitOrder.
  assert (Hbind : ∃ ty side,
            api.ShouldBindJSON req = Some (ty, side)
            ∧ (side = OrderSideBuy ↔ api.Side req = "buy")
            ∧ (ty = OrderTypeMarket ↔ api.Type_ req = "market")
            ∧ (ty = OrderTypeLimit ↔ api.Type_ req = "limit")
            ∧ (ty = OrderTypeStopLoss ↔ api.Type_ req = "stop_loss")).
  { unfold api.ShouldBindJSON. rewrite decide_False by done.
    apply Qltb_true in Hq. unfold api.OrderType_of, api.OrderSide_of.
    destruct Hty as [->|[->| ->]]; destruct Hside as [->| ->]; cbn; rewrite Hq;
      eexists _, _; (split; [reflexivity|]); split_and!; split; done. }
  destruct Hbind as (ty & side & -> & Hs & Hm & Hl & Hsl).
  assert (Hcheck : (bool_decide (api.Type_ req = "limit")
                    || bool_decide (api.Type_ req = "stop_loss"))
                   && Qleb (api.Price req) 0 = false).
  { destruct (bool_decide (api.Type_ req = "limit")
              || bool_decide (api.Type_ req = "stop_loss")) eqn:E; [|done].
    cbn. apply Qleb_false. apply Hp.
    apply orb_true_iff in E as [E|E]; apply bool_decide_eq_true in E; auto. }
  rewrite Hcheck.
  set (order0 := Order.NewOrder id now (api.Symbol req) ty side
                   (api.Quantity req) (api.Price req)).
  destruct (SubmitOrder_total now engine order0) as [[[engine' order] trades] Hsub].
  rewrite Hsub. cbn [mbind option_bind].
  exists engine', order, trades. split; [done|].
  pose proof Hsub as Hinv.
  apply SubmitOrder_inv in Hinv as (ob & ob' & _ & Hd & _ & Hlog).
  destruct (dispatch_order_identity _ _ _ _ _ _ Hd)
    as ((I1 & I2 & I3 & I4 & I5 & I6 & I7 & _) & _).
  destruct (as_matched_identity order0) as (E1 & E2 & E3 & E4).
  assert (E5 : Order.Quantity (as_matched order0) = api.Quantity req
               ∧ Order.SubmittedAt (as_matched order0) = now).
  { unfold as_matched.
    destruct (decide (Order.Type_ order0 = OrderTypeStopLoss)); split; reflexivity. }
  destruct E5 as [E5 E6].
  assert (E7 : Order.Type_ (as_matched order0)
               = if decide (ty = OrderTypeStopLoss) then OrderTypeLimit else ty).
  { unfold as_matched.
    destruct (decide (Order.Type_ order0 = OrderTypeStopLoss)) as [E|E];
      cbn in E; [rewrite decide_True by done|rewrite decide_False by done];
      reflexivity. }
  assert (Tside : Order.Side order = OrderSideBuy ↔ api.Side req = "buy").
  { rewrite I4, E3. exact Hs. }
  assert (Tmarket : Order.Type_ order = OrderTypeMarket ↔ api.Type_ req = "market").
  { rewrite I3, E7. case_decide as Hst; [|exact Hm].
    split; [done|]. intros Hmk. apply Hm in Hmk. congruence. }
  assert (Tlimit : Order.Type_ order = OrderTypeLimit ↔ api.Type_ req ≠ "market").
  { rewrite I3, E7. case_decide as Hst.
    - split; [|done]. intros _ Hmk. apply Hm in Hmk. congruence.
    - split.
      + intros ->. intros Hmk. apply Hm in Hmk. done.
      + intros Hnm. destruct ty; [|done|done]. destruct Hnm. by apply Hm. }
  assert (F1 : Order.ID order0 = id) by reflexivity.
  assert (F2 : Order.Symbol order0 = api.Symbol req) by reflexivity.
  assert (F3 : Order.Price order0 = api.Price req) by reflexivity.
  repeat (split; [first [exact Tside|exact Tmarket|exact Tlimit|congruence]|]).
  exact Hlog.
Qed.

Lemma submitOrder_accepts_valid_witness :
  api.Symbol sample_good_request ≠ ""
  ∧ 0 < api.Quantity sample_good_request
  ∧ ∃ engine' order trades,
      api.submitOrder 9%N 5%Z MatchingEngine.NewMatchingEngine sample_good_request
      = Some (engine', api.StatusOK order trades)
      ∧ Order.ID order = 9%N
      ∧ Order.Type_ order = OrderTypeLimit.
Proof.
  assert (H1 : api.Symbol sample_good_request ≠ "") by done.
  assert (H2 : api.Type_ sample_good_request = "market"
               ∨ api.Type_ sample_good_request = "limit"
               ∨ api.Type_ sample_good_request = "stop_loss") by (right; left; done).
  assert (H3 : api.Side sample_good_request = "buy"
               ∨ api.Side sample_good_request = "sell") by (by left).
  assert (H4 : 0 < api.Quantity sample_good_request) by (vm_compute; reflexivity).
  assert (H5 : api.Type_ sample_good_request = "limit"
               ∨ api.Type_ sample_good_request = "stop_loss" →
               0 < api.Price sample_good_request) by (intros _; vm_compute; reflexivity).
  split_and!; [exact H1|exact H4|].
  destruct (submitOrder_accepts_valid 9%N 5%Z MatchingEngine.NewMatchingEngine
              sample_good_request H1 H2 H3 H4 H5)
    as (engine' & order & trades & Hok & Hid & _ & _ & _ & _ & _ & _ & Hlim & _).
  exists engine', order, trades. split_and!; [exact Hok|exact Hid|].
  apply Hlim. done.
Defined.

(** * The status of the order a submission hands back *)

Lemma loop_fill_state now (limit : bool) fuel ob order ob' order' trades' :
  sides_inv (isBuy order) (ownHeap ob order) (MatchingEngine.oppositeHeap ob order) →
  0 <= Order.FilledQuantity order →
  (if limit
   then MatchingEngine.matchLimitOrder_loop fuel now ob order []
   else MatchingEngine.matchMarketOrder_loop fuel now ob order [])
  = Some (ob', order', trades') →
  fill_state order order' trades'.
Proof.
  intros Hinv H0 Hrun.
  set (I := λ ob1 order1 trades1,
    sides_inv (isBuy order) (ownHeap ob1 order1)
      (MatchingEngine.oppositeHeap ob1 order1)
    ∧ fill_state order order1 trades1).
  assert (Hstep : ∀ ob1 order1 trades1 ob2 order2 trades2,
            I ob1 order1 trades1 →
            pass now limit ob1 order1 trades1 ob2 order2 trades2 →
            I ob2 order2 trades2).
  { intros ob1 order1 trades1 ob2 order2 trades2 [Hinv1 Hst] Hpass.
    split; [by eapply pass_sides_inv|].
    destruct Hpass as (Hpos & bl & Hbl & [(_ & _ & -> & -> & _)
                                         |(Hne & _ & ob3 & bl1 & Hrun1 & _)]); [done|].
    eapply level_run_fill_state; [exact H0| |exact Hst|exact Hrun1].
    destruct Hinv1 as (_ & (_ & _ & Hall & _) & _).
    rewrite Forall_lookup in Hall. by destruct (Hall _ _ Hbl). }
  assert (HI : I ob order []) by (split; [done|split; [done|by intros]]).
  destruct limit.
  - by destruct (matchLimitOrder_loop_rule I now Hstep _ _ _ _ _ _ _ HI Hrun)
      as [[_ Hst] _].
  - by destruct (matchMarketOrder_loop_rule I now Hstep _ _ _ _ _ _ _ HI Hrun)
      as [[_ Hst] _].
Qed.

Lemma dispatch_fill_state now ob order ob' order' trades' :
  book_inv ob → 0 <= Order.FilledQuantity order →
  dispatch now ob order = Some (ob', order', trades') →
  fill_state (as_matched order) order' trades'.
Proof.
  intros Hinv H0 Hd.
  destruct (dispatch_inv _ _ _ _ _ _ Hd) as (limit & fuel & ob1 & _ & Hloop & _).
  destruct (as_matched_identity order) as (_ & _ & Hside & _).
  destruct (as_matched_fields order) as (Hfq & _).
  eapply (loop_fill_state now limit); [|by rewrite Hfq|exact Hloop].
  by apply book_inv_ext with (order := order).
Qed.

(** An incoming order that is filled has been marked Filled by its last
    fill. *)
Lemma dispatch_filled now ob order ob' order' trades' :
  dispatch now ob order = Some (ob', order', trades') →
  trades' ≠ [] → Order.RemainingQuantity order' <= 0 →
  Order.Status order' = OrderStatusFilled ∧ Order.FilledAt order' = Some now.
Proof.
  intros Hd.
  refine (dispatch_head_rule
            (λ _ order1 trades1,
               trades1 ≠ [] → Order.RemainingQuantity order1 <= 0 →
               Order.Status order1 = OrderStatusFilled
               ∧ Order.FilledAt order1 = Some now) now _ _ _ ob order ob' order'
            trades' _ Hd).
  - intros ob1 order1 trades1 r _ _ _ Hrem.
    rewrite Fill_Remaining in Hrem. apply Fill_Status_filled.
    unfold Order.RemainingQuantity in Hrem. lra.
  - intros ob1 order1 trades1 h HK. exact HK.
  - intros ob1 order1 trades1 ob2 HK _. exact HK.
  - intros Hne. done.
Qed.

(** X18.  In an engine reached from the empty one, a new order (status
    Pending, nothing filled, a positive quantity) comes back from
    [SubmitOrder] in one of three states.  With no trade it is as it was
    submitted, still Pending (a stop-loss order with its type rewritten).
    With trades and quantity left it is PartiallyFilled.  With no quantity
    left it is Filled, its fill time is the time of the call, and the call
    made at least one trade. *)
Theorem SubmitOrder_status (now : Time) (me me' : MatchingEngine.t)
    (order order' : Order.t) (trades' : list Trade.t) :
  reachable me →
  Order.Status order = OrderStatusPending →
  Order.FilledQuantity order == 0 →
  0 < Order.Quantity order →
  MatchingEngine.SubmitOrder now me order = Some (me', order', trades') →
  (trades' = [] → order' = as_matched order ∧ Order.Status order' = OrderStatusPending)
  ∧ (trades' ≠ [] → 0 < Order.RemainingQuantity order' →
     Order.Status order' = OrderStatusPartial)
  ∧ (Order.RemainingQuantity order' <= 0 →
     trades' ≠ []
     ∧ Order.Status order' = OrderStatusFilled
     ∧ Order.FilledAt order' = Some now).
Proof.
  intros Hreach Hst Hfq Hq Hsub.
  destruct (SubmitOrder_reachable_inv _ _ _ _ _ _ Hreach Hsub)
    as (ob & ob' & _ & Hinv & Hd & _).
  assert (H0 : 0 <= Order.FilledQuantity order) by lra.
  assert (Hrem : 0 < Order.RemainingQuantity order).
  { unfold Order.RemainingQuantity. lra. }
  destruct (dispatch_fill_state _ _ _ _ _ _ Hinv H0 Hd) as [Hnone Hsome].
  destruct (as_matched_fields order) as (_ & _ & _ & Erem).
  assert (Est : Order.Status (as_matched order) = OrderStatusPending).
  { unfold as_matched. by case_decide. }
  split_and!.
  - intros E. rewrite (Hnone E). done.
  - intros Hne Hleft. by destruct (Hsome Hne) as [_ ?]; auto.
  - intros Hdone.
    assert (Hne : trades' ≠ []).
    { intros E. rewrite (Hnone E), Erem in Hdone. lra. }
    destruct (dispatch_filled _ _ _ _ _ _ Hd Hne Hdone) as [? ?].
    split_and!; done.
Qed.

Lemma SubmitOrder_status_witness :
  reachable after_sell
  ∧ Order.Status sample_buy = OrderStatusPending
  ∧ Order.FilledQuantity sample_buy == 0
  ∧ 0 < Order.Quantity sample_buy
  ∧ ∃ me' order' trades',
      MatchingEngine.SubmitOrder 1%Z after_sell sample_buy = Some (me', order', trades')
      ∧ Order.RemainingQuantity order' <= 0
      ∧ Order.Status order' = OrderStatusFilled.
Proof.
  split; [exact after_sell_reachable|]. split; [reflexivity|].
  split; [reflexivity|]. split; [vm_compute; reflexivity|].
  eexists _, _, _. split; [vm_compute; reflexivity|].
  split; [vm_compute; discriminate|].
  refine (proj1 (proj2 (proj2 (proj2
            (SubmitOrder_status 1%Z after_sell _ sample_buy _ _
               after_sell_reachable eq_refl _ _ _)) _))).
  - reflexivity.
  - vm_compute. reflexivity.
  - vm_compute. reflexivity.
  - vm_compute. discriminate.
Defined.

(** * The heap as a priority queue, and edge cases *)

(** X19.  [PriceLevelHeap] under [container/heap] is a priority queue of
    price levels.  [heap.Init] turns any slice of levels into a heap
    holding the same levels.  On a heap, [Peek] shows a level no other
    level beats: the highest price on a bid side, the lowest on an ask
    side.  [heap.Push] adds a level and [heap.Pop] takes out the very level
    [Peek] showed; both return and leave a heap. *)
Theorem PriceLevelHeap_priority_queue (h : PriceLevelHeap.t) :
  (∃ h', heap.Init h = Some h'
         ∧ PriceLevelHeap.IsBid h' = PriceLevelHeap.IsBid h
         ∧ PriceLevelHeap.Levels h' ≡ₚ PriceLevelHeap.Levels h
         ∧ heap_ordered h')
  ∧ (heap_ordered h →
     (∀ top l, PriceLevelHeap.Peek h = Some top → l ∈ PriceLevelHeap.Levels h →
        if PriceLevelHeap.IsBid h
        then PriceLevel.Price l <= PriceLevel.Price top
        else PriceLevel.Price top <= PriceLevel.Price l)
     ∧ (PriceLevelHeap.Peek h = None ↔ PriceLevelHeap.Levels h = [])
     ∧ (∀ x, ∃ h', heap.Push h x = Some h'
                   ∧ PriceLevelHeap.IsBid h' = PriceLevelHeap.IsBid h
                   ∧ PriceLevelHeap.Levels h' ≡ₚ x :: PriceLevelHeap.Levels h
                   ∧ heap_ordered h')
     ∧ (∀ top, PriceLevelHeap.Peek h = Some top →
          ∃ h', heap.Pop h = Some (h', top)
                ∧ PriceLevelHeap.IsBid h' = PriceLevelHeap.IsBid h
                ∧ top :: PriceLevelHeap.Levels h' ≡ₚ PriceLevelHeap.Levels h
                ∧ heap_ordered h')).
Proof.
  split; [apply heap_Init_spec|]. intros Hheap. split_and!.
  - intros top l Htop Hl. apply Peek_lookup in Htop.
    apply list_elem_of_lookup in Hl as [j Hj].
    pose proof (root_best h top Hheap Htop j l Hj) as Hprio.
    unfold prio in Hprio. by destruct (PriceLevelHeap.IsBid h).
  - unfold PriceLevelHeap.Peek, PriceLevelHeap.Len.
    by destruct (PriceLevelHeap.Levels h).
  - intros x. destruct (heap_Push_spec h x) as (h' & ? & ? & ? & Hord).
    exists h'. split_and!; auto.
  - intros top Htop. apply Peek_lookup in Htop.
    destruct (heap_Pop_spec h) as (h' & l & Hpop & Hl & ? & ? & Hord).
    { unfold PriceLevelHeap.Len. apply lookup_lt_Some in Htop. lia. }
    assert (l = top) as -> by congruence.
    exists h'. split_and!; auto.
Qed.

Lemma PriceLevelHeap_priority_queue_witness :
  heap_ordered sample_ask_side
  ∧ ∃ h', heap.Pop sample_ask_side = Some (h', sample_level)
          ∧ heap_ordered h'.
Proof.
  assert (Hheap : heap_ordered sample_ask_side).
  { by destruct sample_ask_side_inv as (_ & ? & _). }
  split; [exact Hheap|].
  destruct (PriceLevelHeap_priority_queue sample_ask_side)
    as (_ & Hq).
  destruct (Hq Hheap) as (_ & _ & _ & Hpop).
  destruct (Hpop sample_level eq_refl) as (h' & H1 & _ & _ & H4).
  exists h'. split; [exact H1|exact H4].
Defined.

Lemma set_Bids_same ob : OrderBook.set_Bids ob (OrderBook.Bids ob) = ob.
Proof. by destruct ob. Qed.

Lemma set_Asks_same ob : OrderBook.set_Asks ob (OrderBook.Asks ob) = ob.
Proof. by destruct ob. Qed.

(** X20.  [OrderBook.RemoveOrder] always returns, and it returns [false]
    in two cases only.  For an ID the identity index does not know, the
    book is left as it was.  For an ID the index knows, whose order no
    longer rests at its price on its side (a resting order that was filled
    by matching stays in the index), the ID is dropped from the index and
    the two sides are untouched. *)
Theorem RemoveOrder_of_missing_order (ob : OrderBook.t) (orderID : UUID) :
  is_Some (OrderBook.RemoveOrder ob orderID)
  ∧ (OrderBook.orders ob !! orderID = None →
     OrderBook.RemoveOrder ob orderID = Some (ob, false))
  ∧ (∀ o, OrderBook.orders ob !! orderID = Some o →
          absent (ownHeap ob o) o →
          OrderBook.RemoveOrder ob orderID
          = Some (OrderBook.set_orders ob (delete orderID (OrderBook.orders ob)),
                  false))
  ∧ (∀ ob', OrderBook.RemoveOrder ob orderID = Some (ob', false) →
            (OrderBook.orders ob !! orderID = None ∧ ob' = ob)
            ∨ (∃ o, OrderBook.orders ob !! orderID = Some o
                    ∧ absent (ownHeap ob o) o
                    ∧ ob' = OrderBook.set_orders ob
                              (delete orderID (OrderBook.orders ob)))).
Proof.
  split_and!.
  - unfold OrderBook.RemoveOrder.
    destruct (OrderBook.orders ob !! orderID) as [o|]; [|by eexists].
    case_decide; cbn.
    + destruct (RemoveOrder_false_iff (OrderBook.Bids ob) o) as [[[h r] ->] _].
      by eexists.
    + destruct (RemoveOrder_false_iff (OrderBook.Asks ob) o) as [[[h r] ->] _].
      by eexists.
  - intros Hnone. unfold OrderBook.RemoveOrder. by rewrite Hnone.
  - intros o Hsome Habs. unfold OrderBook.RemoveOrder. rewrite Hsome.
    unfold ownHeap in Habs. case_decide; cbn.
    + destruct (RemoveOrder_false_iff (OrderBook.Bids ob) o) as [_ Hiff].
      rewrite (proj2 (Hiff _) (conj eq_refl Habs)). cbn.
      by rewrite <- (set_Bids_same (OrderBook.set_orders ob _)) at 2.
    + destruct (RemoveOrder_false_iff (OrderBook.Asks ob) o) as [_ Hiff].
      rewrite (proj2 (Hiff _) (conj eq_refl Habs)). cbn.
      by rewrite <- (set_Asks_same (OrderBook.set_orders ob _)) at 2.
  - intros ob' Hrm. unfold OrderBook.RemoveOrder in Hrm.
    destruct (OrderBook.orders ob !! orderID) as [o|] eqn:Hidx;
      [|left; by simplify_eq].
    right. exists o. split; [done|]. unfold ownHeap.
    case_decide; cbn in Hrm.
    + destruct (PriceLevelHeap.RemoveOrder (OrderBook.Bids ob) o)
        as [[h r]|] eqn:E; cbn in Hrm; [|done].
      injection Hrm as <- ->.
      destruct (RemoveOrder_false_iff (OrderBook.Bids ob) o) as [_ Hiff].
      destruct (proj1 (Hiff h) E) as [-> Habs]. split; [done|].
      by rewrite <- (set_Bids_same (OrderBook.set_orders ob _)) at 2.
    + destruct (PriceLevelHeap.RemoveOrder (OrderBook.Asks ob) o)
        as [[h r]|] eqn:E; cbn in Hrm; [|done].
      injection Hrm as <- ->.
      destruct (RemoveOrder_false_iff (OrderBook.Asks ob) o) as [_ Hiff].
      destruct (proj1 (Hiff h) E) as [-> Habs]. split; [done|].
      by rewrite <- (set_Asks_same (OrderBook.set_orders ob _)) at 2.
Qed.

Lemma RemoveOrder_of_missing_order_witness :
  ∃ ob o,
    MatchingEngine.GetOrderBook after_cross "AAPL" = Some ob
    ∧ OrderBook.orders ob !! Order.ID sample_sell = Some o
    ∧ absent (ownHeap ob o) o
    ∧ OrderBook.RemoveOrder ob (Order.ID sample_sell)
      = Some (OrderBook.set_orders ob
                (delete (Order.ID sample_sell) (OrderBook.orders ob)), false).
Proof.
  eexists _, _. split; [vm_compute; reflexivity|].
  split; [vm_compute; reflexivity|].
  match goal with |- absent ?h ?o ∧ _ => assert (Habs : absent h o) end.
  { intros l r Hl. vm_compute in Hl. by apply elem_of_nil in Hl. }
  split; [exact Habs|].
  refine (proj1 (proj2 (proj2 (RemoveOrder_of_missing_order _ _))) _ _ Habs).
  vm_compute. reflexivity.
Defined.

(** X21.  [SubmitOrder] returns on every engine state and every order:
    no index runs out of range, no level is read from an empty side, and
    both matching loops end within the number of price levels and resting
    orders they start with. *)
Theorem SubmitOrder_always_returns (now : Time) (me : MatchingEngine.t)
    (order : Order.t) :
  ∃ me' order' trades',
    MatchingEngine.SubmitOrder now me order = Some (me', order', trades')
    ∧ MatchingEngine.trades me' = MatchingEngine.trades me ++ trades'
    ∧ is_Some (MatchingEngine.GetOrderBook me' (Order.Symbol order)).
Proof.
  destruct (SubmitOrder_total now me order) as [[[me' order'] trades'] Hsub].
  exists me', order', trades'. split; [done|].
  apply SubmitOrder_inv in Hsub as (ob & ob' & _ & _ & Hbooks & Hlog).
  split; [done|]. unfold MatchingEngine.GetOrderBook.
  rewrite Hbooks, lookup_insert_eq. by eexists.
Qed.

(** * When an order trades *)

(** The matching loop of a limit order stops at once when the best level
    of the opposite side is beyond the limit, or when there is none. *)
Lemma loop_stops_limit fuel now ob order trades :
  (∀ bl, PriceLevelHeap.Peek (MatchingEngine.oppositeHeap ob order) = Some bl →
         price_bad order bl) →
  MatchingEngine.matchLimitOrder_loop (S fuel) now ob order trades
  = Some (ob, order, trades).
Proof.
  intros Hbad. rewrite matchLimitOrder_loop_S. cbn zeta.
  destruct (Qltb 0 (Order.RemainingQuantity order) && _); [|done].
  destruct (PriceLevelHeap.Peek _) as [bl|] eqn:Epeek; [|done].
  destruct (length (PriceLevel.Orders bl) =? 0)%nat; [done|].
  destruct (Hbad bl eq_refl) as [[Hs Hp]|[Hs Hp]].
  - rewrite bool_decide_eq_true_2 by done.
    apply Qltb_true in Hp. by rewrite Hp.
  - rewrite (bool_decide_eq_false_2 (Order.Side order = OrderSideBuy)) by congruence.
    rewrite bool_decide_eq_true_2 by done.
    apply Qltb_true in Hp. by rewrite Hp.
Qed.

Lemma book_before_opposite_Peek now me symbol ob order bl :
  book_before now me symbol ob →
  PriceLevelHeap.Peek (MatchingEngine.oppositeHeap ob order) = Some bl →
  MatchingEngine.GetOrderBook me symbol = Some ob.
Proof.
  intros [Hsome|[_ Hnew]] Hpeek; [done|]. exfalso.
  rewrite NewOrderBook_eq in Hnew. injection Hnew as <-.
  unfold MatchingEngine.oppositeHeap in Hpeek. by case_decide.
Qed.

(** X22.  A limit or stop-loss order with quantity to fill that does not
    cross (the opposite side of its symbol's book is empty, or the best
    level there is priced beyond the order's limit) makes no trade, on any
    engine state: [SubmitOrder] returns the order as it was submitted (a
    stop-loss order with its type rewritten), the trade log is unchanged,
    the opposite side is untouched, and the order is put to rest at the
    tail of the queue of its price on its own side and in the identity
    index. *)
Theorem order_that_does_not_cross_rests (now : Time) (me : MatchingEngine.t)
    (order : Order.t) :
  Order.Type_ order ≠ OrderTypeMarket →
  0 < Order.RemainingQuantity order →
  (∀ ob bl, MatchingEngine.GetOrderBook me (Order.Symbol order) = Some ob →
            PriceLevelHeap.Peek (MatchingEngine.oppositeHeap ob order) = Some bl →
            price_bad order bl) →
  ∃ me' ob ob',
    MatchingEngine.SubmitOrder now me order = Some (me', as_matched order, [])
    ∧ MatchingEngine.trades me' = MatchingEngine.trades me
    ∧ book_before now me (Order.Symbol order) ob
    ∧ MatchingEngine.GetOrderBook me' (Order.Symbol order) = Some ob'
    ∧ MatchingEngine.oppositeHeap ob' order = MatchingEngine.oppositeHeap ob order
    ∧ rested_at_tail (ownHeap ob order) (as_matched order) (ownHeap ob' order)
    ∧ OrderBook.orders ob' !! Order.ID order = Some (as_matched order).
Proof.
  intros Hty Hrem Hbad.
  destruct (SubmitOrder_total now me order) as [[[me' order'] trades'] Hsub].
  pose proof Hsub as Hinv.
  apply SubmitOrder_inv in Hinv as (ob & ob' & Hbefore & Hd & Hbooks & Hlog).
  destruct (as_matched_identity order) as (EID & ESym & ESide & EPrice).
  destruct (as_matched_fields order) as (_ & _ & _ & ERem).
  destruct (dispatch_inv _ _ _ _ _ _ Hd) as (limit & fuel & ob1 & Hlim & Hloop & Hrest).
  assert (limit = true) as ->.
  { destruct limit; [done|]. by destruct Hty; apply Hlim. }
  (* the loop returns at once *)
  assert (Hbad' : ∀ bl,
            PriceLevelHeap.Peek (MatchingEngine.oppositeHeap ob (as_matched order))
            = Some bl → price_bad (as_matched order) bl).
  { intros bl Hpeek. rewrite (oppositeHeap_side _ order) in Hpeek by done.
    pose proof (book_before_opposite_Peek _ _ _ _ _ _ Hbefore Hpeek) as Hob.
    pose proof (Hbad ob bl Hob Hpeek) as Hb.
    unfold price_bad in *. by rewrite ESide, EPrice. }
  assert (Hres : ob1 = ob ∧ order' = as_matched order ∧ trades' = []).
  { destruct fuel as [|fuel]; [done|].
    rewrite (loop_stops_limit _ _ _ _ _ Hbad') in Hloop. by simplify_eq. }
  destruct Hres as (-> & -> & ->).
  pose proof (dispatch_own _ _ _ _ _ _ Hd) as [(_ & _ & [Hm|Hle])|(_ & _ & Htail & Hidx)].
  { done. }
  { rewrite ERem in Hle. lra. }
  assert (Hopp : MatchingEngine.oppositeHeap ob' order
                 = MatchingEngine.oppositeHeap ob order).
  { destruct Hrest as [->|(_ & _ & Hadd)]; [done|].
    destruct (OrderBook_AddOrder_spec now ob (as_matched order))
      as (h' & _ & ob2 & Hadd2 & _ & Hopp & _).
    rewrite Hadd2 in Hadd. injection Hadd as <-.
    by rewrite !(oppositeHeap_side _ order (as_matched order) ESide) in Hopp. }
  exists me', ob, ob'. split_and!; [done| |done| |done|done|].
  - by rewrite Hlog, app_nil_r.
  - unfold MatchingEngine.GetOrderBook. by rewrite Hbooks, lookup_insert_eq.
  - by rewrite Hidx, EID, lookup_insert_eq.
Qed.

Lemma order_that_does_not_cross_rests_witness :
  Order.Type_ sample_bid ≠ OrderTypeMarket
  ∧ 0 < Order.RemainingQuantity sample_bid
  ∧ ∃ me',
      MatchingEngine.SubmitOrder 4%Z after_sell sample_bid
      = Some (me', as_matched sample_bid, [])
      ∧ MatchingEngine.trades me' = MatchingEngine.trades after_sell.
Proof.
  assert (Hty : Order.Type_ sample_bid ≠ OrderTypeMarket) by done.
  assert (Hrem : 0 < Order.RemainingQuantity sample_bid) by (vm_compute; reflexivity).
  assert (Hbad : ∀ ob bl,
            MatchingEngine.GetOrderBook after_sell (Order.Symbol sample_bid) = Some ob →
            PriceLevelHeap.Peek (MatchingEngine.oppositeHeap ob sample_bid) = Some bl →
            price_bad sample_bid bl).
  { intros ob bl Hob Hpeek. vm_compute in Hob. injection Hob as <-.
    vm_compute in Hpeek. injection Hpeek as <-.
    left. split; [reflexivity|vm_compute; reflexivity]. }
  split_and!; [exact Hty|exact Hrem|].
  destruct (order_that_does_not_cross_rests 4%Z after_sell sample_bid Hty Hrem Hbad)
    as (me' & ob & ob' & Hsub & Hlog & _).
  exists me'. split; [exact Hsub|exact Hlog].
Defined.

(** ** The first trade of a crossing order *)

(** A run of a FIFO loop that starts without a trade on a queue headed by
    [r0] ends without a trade and unchanged, or with the trade against
    [r0] first. *)
Lemma level_run_first now ob bl order r0 q0 ob' bl' order' trades' :
  PriceLevel.Orders bl = r0 :: q0 →
  level_run now ob bl order [] (ob', bl', order', trades') →
  (trades' = [] ∧ bl' = bl ∧ order' = order)
  ∨ ∃ rest, trades' = headTrade order r0 :: rest.
Proof.
  intros Hq Hrun.
  eapply (level_run_rule
            (λ _ bl1 order1 trades1,
               (trades1 = [] ∧ bl1 = bl ∧ order1 = order)
               ∨ ∃ rest, trades1 = headTrade order r0 :: rest));
    [|by left|exact Hrun].
  intros ob1 bl1 order1 trades1 ob2 bl2 order2 trades2 HJ _ Hhead.
  apply matchHead_inv in Hhead as (r & rest & Eq & -> & -> & -> & ->).
  right. destruct HJ as [(-> & -> & ->)|(rest' & ->)].
  - rewrite Hq in Eq. injection Eq as <- <-. by exists [].
  - by eexists.
Qed.

Lemma price_ok_bad order bl : price_ok order bl → price_bad order bl → False.
Proof.
  intros [Hb Hs] [[Es Hp]|[Es Hp]].
  - specialize (Hb Es). lra.
  - specialize (Hs Es). lra.
Qed.

Lemma loop_first_trade now (limit : bool) fuel ob order bl r0 q0 ob' order' trades' :
  PriceLevelHeap.Peek (MatchingEngine.oppositeHeap ob order) = Some bl →
  PriceLevel.Orders bl = r0 :: q0 →
  0 < Order.RemainingQuantity order →
  (limit = true → price_ok order bl) →
  (if limit
   then MatchingEngine.matchLimitOrder_loop fuel now ob order []
   else MatchingEngine.matchMarketOrder_loop fuel now ob order [])
  = Some (ob', order', trades') →
  ∃ rest, trades' = headTrade order r0 :: rest.
Proof.
  intros Hpeek Hq Hrem Hok Hrun.
  apply Peek_lookup in Hpeek.
  set (I := λ ob1 order1 (trades1 : list Trade.t),
    (trades1 = [] ∧ ob1 = ob ∧ order1 = order)
    ∨ ∃ rest, trades1 = headTrade order r0 :: rest).
  assert (Hstep : ∀ ob1 order1 trades1 ob2 order2 trades2,
            I ob1 order1 trades1 →
            pass now limit ob1 order1 trades1 ob2 order2 trades2 →
            I ob2 order2 trades2).
  { intros ob1 order1 trades1 ob2 order2 trades2 HI Hpass. right.
    destruct HI as [(-> & -> & ->)|Hsome].
    - destruct Hpass as (_ & bl1 & Hbl1 & Hcase).
      assert (bl1 = bl) as -> by congruence.
      destruct Hcase as [(_ & Hempty & _)|(_ & _ & ob3 & bl3 & Hrun3 & _)].
      { by rewrite Hq in Hempty. }
      destruct (level_run_frame _ _ _ _ _ _ _ _ _ Hrun3) as [_ Hexit].
      destruct (level_run_first _ _ _ _ _ _ _ _ _ _ Hq Hrun3)
        as [(_ & -> & ->)|Hfirst]; [|done].
      destruct Hexit as [Hnil|Hle]; [by rewrite Hq in Hnil|lra].
    - refine (pass_head_rule
                (λ _ _ trades3, ∃ rest, trades3 = headTrade order r0 :: rest) now
                _ _ limit ob1 order1 trades1 ob2 order2 trades2 Hsome Hpass).
      + intros ob3 order3 trades3 r [rest ->] _. by eexists.
      + done. }
  assert (HI : I ob order []) by (by left).
  assert (Hfinal : I ob' order' trades' ∧ loop_exit limit ob' order').
  { destruct limit.
    - exact (matchLimitOrder_loop_rule I now Hstep _ _ _ _ _ _ _ HI Hrun).
    - exact (matchMarketOrder_loop_rule I now Hstep _ _ _ _ _ _ _ HI Hrun). }
  destruct Hfinal as [[(-> & -> & ->)|Hsome] Hexit]; [|done].
  exfalso. destruct Hexit as [Hle|[Hlen|(Hlim & bl1 & Hbl1 & Hstop)]].
  - lra.
  - unfold PriceLevelHeap.Len in Hlen. apply lookup_lt_Some in Hpeek. lia.
  - assert (bl1 = bl) as -> by congruence.
    destruct Hstop as [Hnil|Hbad]; [by rewrite Hq in Hnil|].
    by eapply price_ok_bad; [apply Hok|].
Qed.

(** X23.  An order with quantity to fill that crosses (a market order, or
    a limit or stop-loss order whose limit reaches the price of the best
    level of the opposite side) trades, on any engine state in which that
    level holds an order: the first trade [SubmitOrder] returns is with the
    order at the head of the queue of that level, at that order's price,
    for the smaller of the two remaining quantities. *)
Theorem crossing_order_trades_with_the_head (now : Time) (me me' : MatchingEngine.t)
    (order order' : Order.t) (trades' : list Trade.t) (ob : OrderBook.t)
    (bl : PriceLevel.t) (r : Order.t) (q : list Order.t) :
  MatchingEngine.GetOrderBook me (Order.Symbol order) = Some ob →
  PriceLevelHeap.Peek (MatchingEngine.oppositeHeap ob order) = Some bl →
  PriceLevel.Orders bl = r :: q →
  0 < Order.RemainingQuantity order →
  Order.Type_ order = OrderTypeMarket ∨ price_ok order bl →
  MatchingEngine.SubmitOrder now me order = Some (me', order', trades') →
  ∃ t rest,
    trades' = t :: rest
    ∧ Trade.Price t = Order.Price r
    ∧ Trade.Quantity t
      = MatchingEngine.min (Order.RemainingQuantity order) (Order.RemainingQuantity r)
    ∧ restingID order t = Order.ID r
    ∧ aggressorID order t = Order.ID order
    ∧ Trade.Symbol t = Order.Symbol order.
Proof.
  intros Hob Hpeek Hq Hrem Hcross Hsub.
  apply SubmitOrder_inv in Hsub as (ob0 & ob' & Hbefore & Hd & _).
  assert (ob0 = ob) as ->.
  { destruct Hbefore as [H|[H _]]; unfold MatchingEngine.GetOrderBook in Hob;
      congruence. }
  destruct (as_matched_identity order) as (EID & ESym & ESide & EPrice).
  destruct (as_matched_fields order) as (_ & _ & _ & ERem).
  destruct (dispatch_inv _ _ _ _ _ _ Hd) as (limit & fuel & ob1 & Hlim & Hloop & _).
  destruct (loop_first_trade now limit fuel ob (as_matched order) bl r q
              ob1 order' trades') as [rest ->].
  - by rewrite (oppositeHeap_side _ order).
  - done.
  - by rewrite ERem.
  - intros ->. destruct Hcross as [Hm|Hok].
    + apply Hlim in Hm. done.
    + unfold price_ok in *. by rewrite ESide, EPrice.
  - done.
  - exists (headTrade (as_matched order) r), rest.
    split_and!; [done|apply headTrade_Price| | | |].
    + rewrite headTrade_Quantity. unfold headQty. by rewrite ERem.
    + unfold restingID, headTrade, newTradeFor. rewrite ESide. by case_decide.
    + unfold aggressorID, headTrade, newTradeFor. rewrite ESide, EID. by case_decide.
    + by rewrite headTrade_Symbol.
Qed.

Lemma crossing_order_trades_with_the_head_witness :
  MatchingEngine.GetOrderBook after_sell (Order.Symbol sample_buy) = Some sample_book
  ∧ PriceLevelHeap.Peek (MatchingEngine.oppositeHeap sample_book sample_buy)
    = Some sample_level
  ∧ PriceLevel.Orders sample_level = sample_sell :: []
  ∧ 0 < Order.RemainingQuantity sample_buy
  ∧ ∃ me' order' trades',
      MatchingEngine.SubmitOrder 1%Z after_sell sample_buy = Some (me', order', trades')
      ∧ ∃ t rest, trades' = t :: rest ∧ Trade.Price t = Order.Price sample_sell.
Proof.
  assert (Hob : MatchingEngine.GetOrderBook after_sell (Order.Symbol sample_buy)
                = Some sample_book) by (vm_compute; reflexivity).
  assert (Hpeek : PriceLevelHeap.Peek (MatchingEngine.oppositeHeap sample_book sample_buy)
                  = Some sample_level) by reflexivity.
  assert (Hq : PriceLevel.Orders sample_level = sample_sell :: []) by reflexivity.
  assert (Hrem : 0 < Order.RemainingQuantity sample_buy) by (vm_compute; reflexivity).
  assert (Hcross : Order.Type_ sample_buy = OrderTypeMarket
                   ∨ price_ok sample_buy sample_level).
  { right. split; intros _; vm_compute; discriminate. }
  split_and!; [exact Hob|exact Hpeek|exact Hq|exact Hrem|].
  destruct (SubmitOrder_total 1%Z after_sell sample_buy)
    as [[[me' order'] trades'] Hsub].
  exists me', order', trades'. split; [exact Hsub|].
  destruct (crossing_order_trades_with_the_head 1%Z after_sell me' sample_buy order'
              trades' sample_book sample_level sample_sell []
              Hob Hpeek Hq Hrem Hcross Hsub)
    as (t & rest & H1 & H2 & _).
  exists t, rest. split; [exact H1|exact H2].
Defined.

(** X24.  In an engine reached from the empty one, a limit or stop-loss
    order is matched as far as its limit allows: when it comes back from
    [SubmitOrder] with quantity left, every price level left on the
    opposite side is priced beyond its limit (above it for a buy order,
    below it for a sell order). *)
Theorem resting_order_has_nothing_left_to_match (now : Time)
    (me me' : MatchingEngine.t) (order order' : Order.t) (trades' : list Trade.t) :
  reachable me →
  Order.Type_ order ≠ OrderTypeMarket →
  MatchingEngine.SubmitOrder now me order = Some (me', order', trades') →
  0 < Order.RemainingQuantity order' →
  ∃ ob', MatchingEngine.GetOrderBook me' (Order.Symbol order) = Some ob'
         ∧ ∀ l, l ∈ PriceLevelHeap.Levels (MatchingEngine.oppositeHeap ob' order) →
                price_bad order l.
Proof.
  intros Hreach Hty Hsub Hrem.
  destruct (SubmitOrder_reachable_inv _ _ _ _ _ _ Hreach Hsub)
    as (ob & ob' & _ & Hinv & Hd & Hbook).
  exists ob'. split; [exact Hbook|].
  pose proof (dispatch_book_inv _ _ _ _ _ _ Hinv Hd) as Hinv'.
  apply (book_inv_sides ob' order) in Hinv' as ((_ & _ & Hall & _) & _ & Hapart).
  destruct (dispatch_Symbol _ _ _ _ _ _ Hd) as (_ & _ & _ & Hprice).
  destruct (dispatch_own _ _ _ _ _ _ Hd) as [(_ & _ & [Hm|Hle])|(_ & _ & Htail & _)];
    [done|lra|].
  destruct (rested_at_tail_elem _ _ _ Htail) as (l0 & q0 & Hl0 & Hq0).
  assert (Hp0 : Order.Price order == PriceLevel.Price l0).
  { rewrite Forall_forall in Hall. destruct (Hall l0 Hl0) as [_ Hq].
    rewrite Hq0 in Hq. apply Forall_app in Hq as [_ Hq].
    apply Forall_cons in Hq as [[Hp _] _]. by rewrite <- Hprice. }
  intros l Hl. pose proof (Hapart l0 l Hl0 Hl) as Ha.
  unfold apart, isBuy in Ha. unfold price_bad.
  case_bool_decide as Hs.
  - left. split; [done|]. by rewrite Hp0.
  - right. split; [by destruct (Order.Side order)|]. by rewrite Hp0.
Qed.

Lemma sample_bid_submit :
  ∃ me', MatchingEngine.SubmitOrder 4%Z after_sell sample_bid
         = Some (me', as_matched sample_bid, []).
Proof. eexists. vm_compute. reflexivity. Defined.

Lemma resting_order_has_nothing_left_to_match_witness :
  reachable after_sell
  ∧ Order.Type_ sample_bid ≠ OrderTypeMarket
  ∧ ∃ me',
      MatchingEngine.SubmitOrder 4%Z after_sell sample_bid
      = Some (me', as_matched sample_bid, [])
      ∧ 0 < Order.RemainingQuantity (as_matched sample_bid)
      ∧ ∃ ob', MatchingEngine.GetOrderBook me' (Order.Symbol sample_bid) = Some ob'
               ∧ ∀ l, l ∈ PriceLevelHeap.Levels
                            (MatchingEngine.oppositeHeap ob' sample_bid) →
                      price_bad sample_bid l.
Proof.
  assert (Hty : Order.Type_ sample_bid ≠ OrderTypeMarket) by done.
  assert (Hrem : 0 < Order.RemainingQuantity (as_matched sample_bid))
    by (vm_compute; reflexivity).
  split_and!; [exact after_sell_reachable|exact Hty|].
  destruct sample_bid_submit as [me' Hsub].
  exists me'. split_and!; [exact Hsub|exact Hrem|].
  exact (resting_order_has_nothing_left_to_match 4%Z after_sell me' sample_bid
           (as_matched sample_bid) [] after_sell_reachable Hty Hsub Hrem).
Defined.

(** * Orders with nothing to fill *)

Lemma dispatch_nothing_left now ob order :
  Order.RemainingQuantity order <= 0 →
  dispatch now ob order = Some (ob, as_matched order, []).
Proof.
  intros Hrem. apply Qltb_false in Hrem as Hlt.
  unfold dispatch, as_matched.
  destruct (Order.Type_ order) eqn:Ety.
  - rewrite decide_False by done.
    unfold MatchingEngine.matchMarketOrder.
    rewrite matchMarketOrder_loop_S. cbn zeta. by rewrite Hlt.
  - rewrite decide_False by done.
    unfold MatchingEngine.matchLimitOrder.
    rewrite matchLimitOrder_loop_S. cbn zeta. rewrite Hlt.
    cbn [andb mbind option_bind]. by rewrite Hlt.
  - rewrite decide_True by done.
    unfold MatchingEngine.matchLimitOrder.
    rewrite matchLimitOrder_loop_S. cbn zeta.
    change (Order.RemainingQuantity (Order.set_Type order OrderTypeLimit))
      with (Order.RemainingQuantity order).
    rewrite Hlt. cbn [andb mbind option_bind].
    change (Order.RemainingQuantity (Order.set_Type order OrderTypeLimit))
      with (Order.RemainingQuantity order).
    by rewrite Hlt.
Qed.

(** X26.  An order with nothing left to fill (a quantity of zero or less,
    or an order filled already) goes through [SubmitOrder] without effect
    on any engine state: the call makes no trade, returns the order as it
    was (a stop-loss order with its type rewritten), leaves the trade log
    alone, and leaves the book of the symbol as it was, or creates an
    empty one; the order is not put to rest, whatever its type. *)
Theorem order_with_nothing_left_is_ignored (now : Time) (me : MatchingEngine.t)
    (order : Order.t) :
  Order.RemainingQuantity order <= 0 →
  ∃ me' ob,
    MatchingEngine.SubmitOrder now me order = Some (me', as_matched order, [])
    ∧ MatchingEngine.trades me' = MatchingEngine.trades me
    ∧ book_before now me (Order.Symbol order) ob
    ∧ MatchingEngine.GetOrderBook me' (Order.Symbol order) = Some ob
    ∧ (∀ symbol, symbol ≠ Order.Symbol order →
         MatchingEngine.GetOrderBook me' symbol = MatchingEngine.GetOrderBook me symbol)
    ∧ (is_Some (MatchingEngine.GetOrderBook me (Order.Symbol order)) →
       MatchingEngine.orderBooks me' = MatchingEngine.orderBooks me).
Proof.
  intros Hrem.
  destruct (SubmitOrder_total now me order) as [[[me' order'] trades'] Hsub].
  pose proof Hsub as Hinv.
  apply SubmitOrder_inv in Hinv as (ob & ob' & Hbefore & Hd & Hbooks & Hlog).
  rewrite (dispatch_nothing_left now ob order Hrem) in Hd.
  injection Hd as <- <- <-.
  exists me', ob. split_and!; [done| |done| | |].
  - by rewrite Hlog, app_nil_r.
  - unfold MatchingEngine.GetOrderBook. by rewrite Hbooks, lookup_insert_eq.
  - intros symbol Hne. unfold MatchingEngine.GetOrderBook.
    by rewrite Hbooks, lookup_insert_ne.
  - unfold MatchingEngine.GetOrderBook. intros [ob0 Hob0].
    destruct Hbefore as [Hsome|[Hnone _]]; [|congruence].
    rewrite Hbooks. by apply insert_id.
Qed.

Lemma order_with_nothing_left_is_ignored_witness :
  Order.RemainingQuantity sample_filled <= 0
  ∧ ∃ me' ob,
      MatchingEngine.SubmitOrder 7%Z after_sell sample_filled
      = Some (me', as_matched sample_filled, [])
      ∧ MatchingEngine.trades me' = MatchingEngine.trades after_sell
      ∧ book_before 7%Z after_sell (Order.Symbol sample_filled) ob
      ∧ MatchingEngine.GetOrderBook me' (Order.Symbol sample_filled) = Some ob
      ∧ (∀ symbol, symbol ≠ Order.Symbol sample_filled →
           MatchingEngine.GetOrderBook me' symbol
           = MatchingEngine.GetOrderBook after_sell symbol)
      ∧ (is_Some (MatchingEngine.GetOrderBook after_sell (Order.Symbol sample_filled)) →
         MatchingEngine.orderBooks me' = MatchingEngine.orderBooks after_sell).
Proof.
  assert (Hrem : Order.RemainingQuantity sample_filled <= 0)
    by (vm_compute; discriminate).
  split; [exact Hrem|].
  exact (order_with_nothing_left_is_ignored 7%Z after_sell sample_filled Hrem).
Defined.
